(** * HPMS process scheduler: a shallow embedding of [hpms_scheduler.c]

    The development follows the C source function by function:
    [calculate_metrics], [priority_scheduling], [fcfs_scheduling],
    [sjf_scheduling] and [round_robin_scheduling].

    Conventions of the embedding.
    - A C [int] is a [Z].  The embedding is exact as long as the values stay
      in the range of [int]; signed overflow is undefined in C and is not
      given a meaning here.  What is stated about the times of a run
      therefore assumes [fits_int]: the latest arrival plus the sum of the
      burst times is at most [INT_MAX], and no clock passes that value
      before the run ends.
    - A [float] that is only ever assigned integers (the sums and the
      emergency extrema) is a [Z]; this is exact for integers up to
      [FLOAT_EXACT] = 2^24, and a value is stated for such a field only
      below that bound.  A [float] that holds the quotient of two integers is the
      rational [Q] of which the code stores the nearest [float]; about these
      fields only what rounding keeps is stated: that the value is 0 or
      another small integer, that two values computed from the same
      operands are equal, and how values are ordered.
    - A fixed-size stack array is the list of its slots.  A store past the
      last slot is undefined in C: the embedding stops there with
      [OutOfBounds].
    - A [while] loop is iterated by a fuel-indexed function that answers
      [OutOfFuel] when the loop is still running after [fuel] iterations. *)

From Stdlib Require Import ZArith QArith Lia String.
From stdpp Require Import base list.

Local Open Scope Z_scope.

(** ** Constants *)

Definition MAX_PROCESSES : nat := 20.
Definition TIME_QUANTUM : Z := 4.

(** ** The process record *)

Record Process : Type := mkProcess {
  pid : Z;
  name : string;
  medical_class : string;
  priority : Z;
  arrival_time : Z;
  burst_time : Z;
  remaining_time : Z;
  completion_time : Z;
  turnaround_time : Z;
  waiting_time : Z;
  response_time : Z;
  start_time : Z
}.

#[global] Instance Process_inhabited : Inhabited Process :=
  populate (mkProcess 0 "" "" 0 0 0 0 0 0 0 0 0).

(** Field assignments [p.f = v]. *)

Definition set_remaining_time (v : Z) (p : Process) : Process :=
  mkProcess (pid p) (name p) (medical_class p) (priority p) (arrival_time p)
    (burst_time p) v (completion_time p) (turnaround_time p)
    (waiting_time p) (response_time p) (start_time p).

Definition set_completion_time (v : Z) (p : Process) : Process :=
  mkProcess (pid p) (name p) (medical_class p) (priority p) (arrival_time p)
    (burst_time p) (remaining_time p) v (turnaround_time p)
    (waiting_time p) (response_time p) (start_time p).

Definition set_turnaround_time (v : Z) (p : Process) : Process :=
  mkProcess (pid p) (name p) (medical_class p) (priority p) (arrival_time p)
    (burst_time p) (remaining_time p) (completion_time p) v
    (waiting_time p) (response_time p) (start_time p).

Definition set_waiting_time (v : Z) (p : Process) : Process :=
  mkProcess (pid p) (name p) (medical_class p) (priority p) (arrival_time p)
    (burst_time p) (remaining_time p) (completion_time p) (turnaround_time p)
    v (response_time p) (start_time p).

Definition set_response_time (v : Z) (p : Process) : Process :=
  mkProcess (pid p) (name p) (medical_class p) (priority p) (arrival_time p)
    (burst_time p) (remaining_time p) (completion_time p) (turnaround_time p)
    (waiting_time p) v (start_time p).

Definition set_start_time (v : Z) (p : Process) : Process :=
  mkProcess (pid p) (name p) (medical_class p) (priority p) (arrival_time p)
    (burst_time p) (remaining_time p) (completion_time p) (turnaround_time p)
    (waiting_time p) (response_time p) v.

(** The initialiser every scenario uses for a registry entry:
    [(Process){pid, name, class, priority, arrival, burst, burst, 0, 0, 0, -1, -1}]. *)

Definition new_process (id : Z) (nm cls : string) (prio arrival burst : Z) : Process :=
  mkProcess id nm cls prio arrival burst burst 0 0 0 (-1) (-1).

(** [temp[i].start_time = t; temp[i].response_time = t - temp[i].arrival_time;] *)

Definition mark_started (t : Z) (p : Process) : Process :=
  set_response_time (t - arrival_time p) (set_start_time t p).

(** [temp[i].completion_time = t;
     temp[i].turnaround_time = t - temp[i].arrival_time;
     temp[i].waiting_time = temp[i].turnaround_time - temp[i].burst_time;] *)

Definition mark_completed (t : Z) (p : Process) : Process :=
  let p1 := set_completion_time t p in
  let p2 := set_turnaround_time (t - arrival_time p1) p1 in
  set_waiting_time (turnaround_time p2 - burst_time p2) p2.

(** ** The three scenarios of the source *)

Definition init_emergency_scenario : list Process :=
  [ new_process 0 "Background Report" "Routine Documentation" 5 0 30;
    new_process 1 "EMERGENCY #1" "Critical - Trauma" 1 5 3;
    new_process 2 "EMERGENCY #2" "Critical - Cardiac" 1 7 3;
    new_process 3 "EMERGENCY #3" "Critical - Respiratory" 1 9 3;
    new_process 4 "EMERGENCY #4" "Critical - Hemorrhage" 1 11 3;
    new_process 5 "EMERGENCY #5" "Critical - Head Injury" 1 13 3;
    new_process 6 "EMERGENCY #6" "Critical - Multi-trauma" 1 15 3;
    new_process 7 "Lab Processing" "Urgent - Lab Results" 2 8 10;
    new_process 8 "Check-in" "Standard Registration" 3 12 4;
    new_process 9 "Admin Task" "Non-critical Admin" 4 15 8;
    new_process 10 "Lab Processing #2" "Urgent - Lab Results" 2 18 9;
    new_process 11 "Database Backup" "Background Maintenance" 5 20 25 ].

Definition init_normal_scenario : list Process :=
  [ new_process 0 "Report Generation" "Routine" 5 0 20;
    new_process 1 "Check-in #1" "Standard" 3 3 4;
    new_process 2 "Lab Processing #1" "Urgent" 2 6 8;
    new_process 3 "Check-in #2" "Standard" 3 10 4;
    new_process 4 "EMERGENCY Patient" "Critical" 1 12 2;
    new_process 5 "Lab Processing #2" "Urgent" 2 15 7;
    new_process 6 "Admin Task" "Routine" 4 18 6;
    new_process 7 "Check-in #3" "Standard" 3 22 4 ].

Definition init_best_scenario : list Process :=
  [ new_process 0 "Routine Check-in" "Standard" 3 0 5;
    new_process 1 "Lab Result Processing" "Urgent" 2 8 10;
    new_process 2 "Admin Task" "Routine" 4 15 8;
    new_process 3 "Emergency Patient" "Critical" 1 20 3;
    new_process 4 "Report Generation" "Background" 5 25 12 ].

(** ** Outcomes of a call *)

Inductive outcome (A : Type) : Type :=
| Returned (a : A)
| OutOfBounds (index : nat)
| OutOfFuel.

Arguments Returned {A} a.
Arguments OutOfBounds {A} index.
Arguments OutOfFuel {A}.

#[global] Instance outcome_bind : MBind outcome := fun A B k o =>
  match o with
  | Returned a => k a
  | OutOfBounds i => OutOfBounds i
  | OutOfFuel => OutOfFuel
  end.

(** [Process temp[MAX_PROCESSES]; for (int i = 0; i < n; i++) temp[i] = proc[i];]
    [temp] collects the slots written so far; the store at slot [i] is
    in bounds only when [i < MAX_PROCESSES]. *)

Fixpoint copy_loop (i : nat) (proc temp : list Process) : outcome (list Process) :=
  match proc with
  | [] => Returned temp
  | p :: rest =>
      if (i <? MAX_PROCESSES)%nat then copy_loop (S i) rest (temp ++ [p])
      else OutOfBounds i
  end.

Definition copy_in (proc : list Process) : outcome (list Process) :=
  copy_loop 0 proc [].

(** ** Metrics *)

Record Metrics : Type := mkMetrics {
  avg_response_time : Q;
  avg_turnaround_time : Q;
  avg_waiting_time : Q;
  emergency_response_min : Z;
  emergency_response_max : Z;
  cpu_utilization : Q;
  context_switches : Z;
  throughput : Q;
  total_time : Z
}.

Definition set_context_switches (v : Z) (m : Metrics) : Metrics :=
  mkMetrics (avg_response_time m) (avg_turnaround_time m) (avg_waiting_time m)
    (emergency_response_min m) (emergency_response_max m) (cpu_utilization m)
    v (throughput m) (total_time m).

(** The locals of [calculate_metrics] that its loop updates. *)

Record Sums : Type := mkSums {
  sum_response : Z;
  sum_turnaround : Z;
  sum_waiting : Z;
  completed : Z;
  total_burst : Z;
  e_min : Z;
  e_max : Z
}.

Definition sums_init : Sums := mkSums 0 0 0 0 0 999 0.

(** One iteration of the loop of [calculate_metrics]. *)

Definition sums_step (a : Sums) (p : Process) : Sums :=
  if 0 <? completion_time p then
    let is_emergency := priority p =? 1 in
    mkSums (sum_response a + response_time p)
           (sum_turnaround a + turnaround_time p)
           (sum_waiting a + waiting_time p)
           (completed a + 1)
           (total_burst a + burst_time p)
           (if is_emergency && (response_time p <? e_min a)
            then response_time p else e_min a)
           (if is_emergency && (e_max a <? response_time p)
            then response_time p else e_max a)
  else a.

Definition ratio (a b : Z) : Q := Qdiv (inject_Z a) (inject_Z b).

Definition calculate_metrics (proc : list Process) (total : Z) : Metrics :=
  let a := fold_left sums_step proc sums_init in
  mkMetrics
    (if 0 <? completed a then ratio (sum_response a) (completed a) else 0%Q)
    (if 0 <? completed a then ratio (sum_turnaround a) (completed a) else 0%Q)
    (if 0 <? completed a then ratio (sum_waiting a) (completed a) else 0%Q)
    (if e_min a =? 999 then 0 else e_min a)
    (e_max a)
    (if 0 <? total then Qmult (ratio (total_burst a) total) (inject_Z 100) else 0%Q)
    0
    (if 0 <? total then ratio (completed a) total else 0%Q)
    total.

(** ** Preemptive priority scheduling *)

Module Priority.

(** [events[e][2]]: 0 = start, 1 = preempt, 2 = complete. *)
Inductive event_type : Set := Start | Preempt | Complete.

(** One row [events[e]]: time, index of the process, kind. *)
Record Event : Set := mkEvent {
  ev_time : Z;
  ev_pid : nat;
  ev_type : event_type
}.

(** [int events[200][3]] *)
Definition MAX_EVENTS : nat := 200.

Record State : Type := mkState {
  temp : list Process;
  current_time : Z;
  completed : nat;
  context_switches : Z;
  is_running : option nat;     (* [None] is the C value -1 *)
  events : list Event          (* the rows [0 .. event_count-1] *)
}.

Definition init (temp : list Process) : State :=
  mkState temp 0 0%nat 0 None [].

(** The selection scan: [next] after the iterations [i, i+1, ...] over
    the remaining slots [ps], from the current [next] and
    [highest_priority]. *)
Fixpoint select_from (i : nat) (ps : list Process) (t : Z)
    (next : option nat) (highest_priority : Z) : option nat :=
  match ps with
  | [] => next
  | p :: rest =>
      if (arrival_time p <=? t) && (0 <? remaining_time p)
         && (priority p <? highest_priority)
      then select_from (S i) rest t (Some i) (priority p)
      else select_from (S i) rest t next highest_priority
  end.

Definition select (temp : list Process) (t : Z) : option nat :=
  select_from 0 temp t None 999.

(** [events[event_count] = {t, i, k}; event_count++;] *)
Definition record_event (t : Z) (i : nat) (k : event_type) (s : State)
    : outcome State :=
  if (length (events s) <? MAX_EVENTS)%nat then
    Returned (mkState (temp s) (current_time s) (completed s)
                (context_switches s) (is_running s)
                (events s ++ [mkEvent t i k]))
  else OutOfBounds (length (events s)).

(** The body of [if (is_running != next) { ... }]. *)
Definition dispatch (next : nat) (s : State) : outcome State :=
  let t := current_time s in
  s1 ← match is_running s with
       | Some r =>
           if 0 <? remaining_time (temp s !!! r)
           then record_event t r Preempt s
           else Returned s
       | None => Returned s
       end;
  let temp1 :=
    if start_time (temp s1 !!! next) =? -1
    then alter (mark_started t) next (temp s1)
    else temp s1 in
  s2 ← record_event t next Start
         (mkState temp1 t (completed s1) (context_switches s1)
            (is_running s1) (events s1));
  Returned (mkState (temp s2) t (completed s2) (context_switches s2 + 1)
              (Some next) (events s2)).

(** [temp[next].remaining_time--; current_time++;] and the completion test. *)
Definition tick (next : nat) (s : State) : outcome State :=
  let temp1 :=
    alter (fun p => set_remaining_time (remaining_time p - 1) p) next (temp s) in
  let t := current_time s + 1 in
  if remaining_time (temp1 !!! next) =? 0 then
    s1 ← record_event t next Complete
           (mkState (alter (mark_completed t) next temp1) t (completed s)
              (context_switches s) (is_running s) (events s));
    Returned (mkState (temp s1) t (S (completed s1)) (context_switches s1)
                None (events s1))
  else
    Returned (mkState temp1 t (completed s) (context_switches s)
                (is_running s) (events s)).

(** One iteration of [while (completed < n)]. *)
Definition step (s : State) : outcome State :=
  match select (temp s) (current_time s) with
  | None =>
      Returned (mkState (temp s) (current_time s + 1) (completed s)
                  (context_switches s) (is_running s) (events s))
  | Some next =>
      s1 ← (if decide (is_running s = Some next) then Returned s
            else dispatch next s);
      tick next s1
  end.

Fixpoint loop (fuel : nat) (n : nat) (s : State) : outcome State :=
  if (completed s <? n)%nat then
    match fuel with
    | O => OutOfFuel
    | S fuel' => s' ← step s; loop fuel' n s'
    end
  else Returned s.

(** The state at the end of the [while] loop. *)
Definition run (fuel : nat) (proc : list Process) : outcome State :=
  temp0 ← copy_in proc;
  loop fuel (length proc) (init temp0).

End Priority.

(** [priority_scheduling] returns the metrics and copies [temp] back into
    [proc]; both are given here. *)
Definition priority_scheduling (fuel : nat) (proc : list Process)
    : outcome (list Process * Metrics) :=
  s ← Priority.run fuel proc;
  Returned (Priority.temp s,
            set_context_switches (Priority.context_switches s)
              (calculate_metrics (Priority.temp s) (Priority.current_time s))).

(** ** First come, first served *)

Module FCFS.

(** The iterations [i, i+1, ...] of the loop over the slots [ps] still
    to visit; iteration [i] reads and writes slot [i] only.  The result
    is the updated slots with the final [current_time] and
    [context_switches]. *)
Fixpoint loop (ps : list Process) (current_time context_switches : Z)
    : list Process * Z * Z :=
  match ps with
  | [] => ([], current_time, context_switches)
  | p :: rest =>
      let t0 := if current_time <? arrival_time p then arrival_time p
                else current_time in
      let t1 := t0 + burst_time p in
      let p' := set_remaining_time 0 (mark_completed t1 (mark_started t0 p)) in
      let '(rest', t, cs) := loop rest t1 (context_switches + 1) in
      (p' :: rest', t, cs)
  end.

End FCFS.

Definition fcfs_scheduling (proc : list Process)
    : outcome (list Process * Metrics) :=
  temp0 ← copy_in proc;
  let '(temp, current_time, cs) := FCFS.loop temp0 0 0 in
  Returned (temp, set_context_switches cs (calculate_metrics temp current_time)).

(** ** Shortest job first *)

Module SJF.

Record State : Type := mkState {
  temp : list Process;
  current_time : Z;
  completed : nat;
  context_switches : Z;
  is_completed : list bool     (* [int is_completed[MAX_PROCESSES] = {0}] *)
}.

Definition init (temp : list Process) : State :=
  mkState temp 0 0%nat 0 (replicate MAX_PROCESSES false).

Fixpoint select_from (i : nat) (ps : list Process) (t : Z)
    (is_completed : list bool) (next : option nat) (shortest : Z)
    : option nat :=
  match ps with
  | [] => next
  | p :: rest =>
      if (arrival_time p <=? t) && negb (is_completed !!! i)
         && (burst_time p <? shortest)
      then select_from (S i) rest t is_completed (Some i) (burst_time p)
      else select_from (S i) rest t is_completed next shortest
  end.

Definition select (s : State) : option nat :=
  select_from 0 (temp s) (current_time s) (is_completed s) None 999999.

(** What is done to [temp[next]] once it is selected at time [t]. *)
Definition run_to_completion (t : Z) (p : Process) : Process :=
  set_remaining_time 0 (mark_completed (t + burst_time p) (mark_started t p)).

(** One iteration of [while (completed < n)]. *)
Definition step (s : State) : State :=
  match select s with
  | None =>
      mkState (temp s) (current_time s + 1) (completed s)
        (context_switches s) (is_completed s)
  | Some next =>
      let t := current_time s in
      mkState (alter (run_to_completion t) next (temp s))
        (t + burst_time (temp s !!! next))
        (S (completed s)) (context_switches s + 1)
        (<[next := true]> (is_completed s))
  end.

Fixpoint loop (fuel : nat) (n : nat) (s : State) : outcome State :=
  if (completed s <? n)%nat then
    match fuel with
    | O => OutOfFuel
    | S fuel' => loop fuel' n (step s)
    end
  else Returned s.

Definition run (fuel : nat) (proc : list Process) : outcome State :=
  temp0 ← copy_in proc;
  loop fuel (length proc) (init temp0).

(** The states in which the main loop tests [completed < n] during a
    run on [proc]. *)
Inductive reachable (proc : list Process) : State -> Prop :=
| reach_init (temp0 : list Process) :
    copy_in proc = Returned temp0 -> reachable proc (init temp0)
| reach_step (s : State) :
    reachable proc s -> (completed s < length proc)%nat ->
    reachable proc (step s).

End SJF.

Definition sjf_scheduling (fuel : nat) (proc : list Process)
    : outcome (list Process * Metrics) :=
  s ← SJF.run fuel proc;
  Returned (SJF.temp s,
            set_context_switches (SJF.context_switches s)
              (calculate_metrics (SJF.temp s) (SJF.current_time s))).

(** ** Round robin *)

Module RR.

Record State : Type := mkState {
  temp : list Process;
  current_time : Z;
  completed : nat;
  context_switches : Z;
  queue : list nat;      (* [int queue[MAX_PROCESSES]], not initialised *)
  front : nat;
  rear : nat;
  in_queue : list bool   (* [int in_queue[MAX_PROCESSES] = {0}] *)
}.

(** The slots of [queue] hold indeterminate values until they are
    written; they are read at positions [front <= k < rear] only. *)
Definition init (temp : list Process) : State :=
  mkState temp 0 0%nat 0 (replicate MAX_PROCESSES 0%nat) 0 0
    (replicate MAX_PROCESSES false).

(** [queue[rear++] = i; in_queue[i] = 1;] *)
Definition enqueue (i : nat) (s : State) : outcome State :=
  if (rear s <? MAX_PROCESSES)%nat then
    Returned (mkState (temp s) (current_time s) (completed s)
                (context_switches s) (<[rear s := i]> (queue s)) (front s)
                (S (rear s)) (<[i := true]> (in_queue s)))
  else OutOfBounds (rear s).

(** The ready queue: the slots [front .. rear-1], front first. *)
Definition pending (s : State) : list nat :=
  drop (front s) (take (rear s) (queue s)).

(** The condition of the two arrival scans; [skip] is the index excluded
    by [i != idx] in the scan that follows an execution. *)
Definition arrived (skip : option nat) (i : nat) (p : Process) (s : State) : bool :=
  (arrival_time p <=? current_time s) && (0 <? remaining_time p)
  && negb (in_queue s !!! i) && negb (bool_decide (skip = Some i)).

(** The condition of the scan before the main loop. *)
Definition arrives_at_zero (i : nat) (p : Process) (s : State) : bool :=
  arrival_time p =? 0.

(** A scan [for (int i = 0; i < n; i++) if (cond) { enqueue i }], from
    iteration [i] on, over the slots [ps] of [temp] still to visit. *)
Fixpoint scan (cond : nat -> Process -> State -> bool) (i : nat)
    (ps : list Process) (s : State) : outcome State :=
  match ps with
  | [] => Returned s
  | p :: rest =>
      if cond i p s then s' ← enqueue i s; scan cond (S i) rest s'
      else scan cond (S i) rest s
  end.

(** The branch [if (front == rear) { ... continue; }]. *)
Definition idle (s : State) : outcome State :=
  let s1 := mkState (temp s) (current_time s + 1) (completed s)
              (context_switches s) (queue s) (front s) (rear s) (in_queue s) in
  scan (arrived None) 0 (temp s1) s1.

(** The rest of the loop body: dequeue, run for one quantum at most,
    scan for arrivals, then complete or requeue. *)
Definition serve (s : State) : outcome State :=
  let idx := queue s !!! front s in
  let t := current_time s in
  let temp1 :=
    if start_time (temp s !!! idx) =? -1
    then alter (mark_started t) idx (temp s)
    else temp s in
  let exec_time :=
    if TIME_QUANTUM <? remaining_time (temp1 !!! idx) then TIME_QUANTUM
    else remaining_time (temp1 !!! idx) in
  let temp2 :=
    alter (fun p => set_remaining_time (remaining_time p - exec_time) p)
      idx temp1 in
  let t1 := t + exec_time in
  s3 ← scan (arrived (Some idx)) 0 temp2
         (mkState temp2 t1 (completed s) (context_switches s + 1) (queue s)
            (S (front s)) (rear s) (<[idx := false]> (in_queue s)));
  if remaining_time (temp s3 !!! idx) =? 0 then
    Returned (mkState (alter (mark_completed t1) idx (temp s3)) t1
                (S (completed s3)) (context_switches s3) (queue s3)
                (front s3) (rear s3) (in_queue s3))
  else enqueue idx s3.

(** One iteration of [while (completed < n)]. *)
Definition step (s : State) : outcome State :=
  if decide (front s = rear s) then idle s else serve s.

Fixpoint loop (fuel : nat) (n : nat) (s : State) : outcome State :=
  if (completed s <? n)%nat then
    match fuel with
    | O => OutOfFuel
    | S fuel' => s' ← step s; loop fuel' n s'
    end
  else Returned s.

(** The state when the main loop is entered. *)
Definition start (proc : list Process) : outcome State :=
  temp0 ← copy_in proc;
  scan arrives_at_zero 0 temp0 (init temp0).

Definition run (fuel : nat) (proc : list Process) : outcome State :=
  s0 ← start proc;
  loop fuel (length proc) s0.

(** The states in which the main loop tests [completed < n] during a
    run on [proc]. *)
Inductive reachable (proc : list Process) : State -> Prop :=
| reach_start (s0 : State) :
    start proc = Returned s0 -> reachable proc s0
| reach_step (s s' : State) :
    reachable proc s -> (completed s < length proc)%nat ->
    step s = Returned s' -> reachable proc s'.

End RR.

Definition round_robin_scheduling (fuel : nat) (proc : list Process)
    : outcome (list Process * Metrics) :=
  s ← RR.run fuel proc;
  Returned (RR.temp s,
            set_context_switches (RR.context_switches s)
              (calculate_metrics (RR.temp s) (RR.current_time s))).

(** ** Running a scenario *)

(** [run_scenario] fills [processes] from the scenario initialiser, copies
    it into [p1] .. [p4] and calls the four schedulers in turn; the results
    it prints are returned here.  Nothing is tested before the calls. *)
Definition run_scenario (fuel : nat) (init_func : list Process)
    : outcome ((list Process * Metrics) * (list Process * Metrics) *
               (list Process * Metrics) * (list Process * Metrics)) :=
  processes ← copy_in init_func;
  p ← copy_in processes;
  r_priority ← priority_scheduling fuel p;
  r_fcfs ← fcfs_scheduling p;
  r_sjf ← sjf_scheduling fuel p;
  r_rr ← round_robin_scheduling fuel p;
  Returned (r_priority, r_fcfs, r_sjf, r_rr).

(** ** Registries and the properties stated about them *)

(** What never changes during a run. *)
Definition descriptor (p : Process) : Z * string * string * Z * Z * Z :=
  (pid p, name p, medical_class p, priority p, arrival_time p, burst_time p).

Definition valid_job (p : Process) : Prop :=
  0 <= arrival_time p /\ 0 < burst_time p.

(** A registry entry as the scenario initialisers build it. *)
Definition fresh (p : Process) : Prop :=
  remaining_time p = burst_time p /\ completion_time p = 0 /\
  turnaround_time p = 0 /\ waiting_time p = 0 /\
  response_time p = -1 /\ start_time p = -1.

Definition valid_registry (proc : list Process) : Prop :=
  (length proc <= MAX_PROCESSES)%nat /\
  Forall (fun p => valid_job p /\ fresh p) proc.

(** A job counts as completed when it has no service left or, as in
    [calculate_metrics], when its completion time is set. *)
Definition completed_job (p : Process) : Prop :=
  remaining_time p = 0 \/ 0 < completion_time p.

Definition timing_consistent (p : Process) : Prop :=
  turnaround_time p = completion_time p - arrival_time p /\
  waiting_time p = turnaround_time p - burst_time p /\
  0 <= waiting_time p /\
  burst_time p <= turnaround_time p.

(** The invariant every scheduler keeps for each job; [t] is the clock. *)
Definition job_ok (t : Z) (p : Process) : Prop :=
  valid_job p /\
  0 <= remaining_time p <= burst_time p /\
  (remaining_time p < burst_time p ->
     arrival_time p + (burst_time p - remaining_time p) <= t) /\
  (remaining_time p = 0 -> 0 < completion_time p) /\
  completion_time p <= t /\
  (0 < completion_time p -> timing_consistent p) /\
  (remaining_time p < burst_time p \/ 0 < completion_time p ->
     start_time p <> -1) /\
  (start_time p <> -1 -> 0 <= response_time p).

(** The invariant of the main loop of the preemptive scheduler: the
    running job, if any, has been started. *)
Record priority_inv (s : Priority.State) : Prop := mk_priority_inv {
  pinv_jobs : Forall (job_ok (Priority.current_time s)) (Priority.temp s);
  pinv_running :
    forall r, Priority.is_running s = Some r ->
      exists p, Priority.temp s !! r = Some p /\ start_time p <> -1
}.

(** The example of the specification. *)
Definition example_registry : list Process :=
  [ new_process 0 "P0" "" 5 0 5;
    new_process 1 "P1" "" 1 2 2;
    new_process 2 "P2" "" 3 4 3 ].

(** The computed fields of a job that the example lists. *)
Definition timing (p : Process) : Z * Z * Z :=
  (response_time p, turnaround_time p, waiting_time p).

(** The test [proc[i].completion_time > 0] of [calculate_metrics]. *)
Definition counted (p : Process) : bool := 0 <? completion_time p.

Definition count_completed (proc : list Process) : nat :=
  length (filter (fun p => counted p = true) proc).

(** The response times of the completed jobs of priority 1, in registry
    order. *)
Definition emergency_responses (proc : list Process) : list Z :=
  map response_time
    (filter (fun p => counted p && (priority p =? 1) = true) proc).

Definition minimum_of (x : Z) (l : list Z) : Prop :=
  x ∈ l /\ Forall (fun y => x <= y) l.

Definition maximum_of (x : Z) (l : list Z) : Prop :=
  x ∈ l /\ Forall (fun y => y <= x) l.

Definition zero_metrics : Metrics := mkMetrics 0 0 0 0 0 0 0 0 0.

(** One emergency job that is served at once. *)
Definition prompt_emergency_registry : list Process :=
  [ new_process 0 "Emergency" "Critical" 1 0 1 ].

(** An emergency job that waits 1000 units behind a long job. *)
Definition late_emergency_registry : list Process :=
  [ new_process 0 "Long" "Routine" 5 0 1000;
    new_process 1 "Emergency" "Critical" 1 0 1 ].

(** What a scheduler call returned, for the worked examples below. *)
Definition result_of (o : outcome (list Process * Metrics)) : list Process * Metrics :=
  match o with
  | Returned r => r
  | _ => ([], zero_metrics)
  end.

(** The emergency scenario after first come, first served. *)
Definition emergency_after_fcfs : list Process * Metrics :=
  Eval vm_compute in result_of (fcfs_scheduling init_emergency_scenario).

(** The normal scenario after each of the four schedulers. *)
Definition normal_after_priority : list Process * Metrics :=
  Eval vm_compute in result_of (priority_scheduling 100 init_normal_scenario).
Definition normal_after_fcfs : list Process * Metrics :=
  Eval vm_compute in result_of (fcfs_scheduling init_normal_scenario).
Definition normal_after_sjf : list Process * Metrics :=
  Eval vm_compute in result_of (sjf_scheduling 100 init_normal_scenario).
Definition normal_after_rr : list Process * Metrics :=
  Eval vm_compute in result_of (round_robin_scheduling 100 init_normal_scenario).

(** The state in which round robin enters its main loop on the example of
    the specification, and the state after the first iteration. *)
Definition rr_example_start : RR.State :=
  Eval vm_compute in
    match RR.start example_registry with
    | Returned s => s
    | _ => RR.init []
    end.

Definition rr_example_next : RR.State :=
  Eval vm_compute in
    match RR.step rr_example_start with
    | Returned s => s
    | _ => RR.init []
    end.

(** A registry of 21 jobs. *)
Definition oversized_registry : list Process :=
  replicate 21 (new_process 0 "Job" "Routine" 3 0 1).

(** A job that arrives at time -3 and a job with burst time 0. *)
Definition invalid_registry : list Process :=
  [ new_process 0 "Early" "Routine" 3 (-3) 2;
    new_process 1 "Empty" "Routine" 3 0 0 ].

(** What the worked examples show of a job. *)
Definition job_summary (p : Process) : Z * Z * Z * Z * Z :=
  (arrival_time p, burst_time p, start_time p, completion_time p,
   response_time p).

(** One valid job whose burst equals the initial value of [shortest]. *)
Definition long_job_registry : list Process :=
  [ new_process 0 "Long" "" 3 0 999999 ].

(** The indices [i, i+1, ...] of the slots [ps] that satisfy [f], in
    ascending order. *)
Fixpoint indices_where (f : nat -> Process -> bool) (i : nat)
    (ps : list Process) : list nat :=
  match ps with
  | [] => []
  | p :: rest =>
      if f i p then i :: indices_where f (S i) rest
      else indices_where f (S i) rest
  end.

(** The jobs that arrive after [t] and no later than [t1]. *)
Definition arrivals_within (t t1 : Z) (temp : list Process) : list nat :=
  indices_where (fun _ p => (t <? arrival_time p) && (arrival_time p <=? t1))
    0 temp.

(** A scan condition reads the clock and the flag of the slot it tests,
    nothing else of the state. *)
Definition scan_condition (cond : nat -> Process -> RR.State -> bool) : Prop :=
  forall (j : nat) (p : Process) (s1 s2 : RR.State),
    RR.current_time s1 = RR.current_time s2 ->
    RR.in_queue s1 !!! j = RR.in_queue s2 !!! j ->
    cond j p s1 = cond j p s2.

(** The invariant of the main loop of round robin. *)
Record rr_inv (s : RR.State) : Prop := mk_rr_inv {
  inv_temp_len : (length (RR.temp s) <= MAX_PROCESSES)%nat;
  inv_queue_len : length (RR.queue s) = MAX_PROCESSES;
  inv_in_queue_len : length (RR.in_queue s) = MAX_PROCESSES;
  inv_front_rear : (RR.front s <= RR.rear s <= MAX_PROCESSES)%nat;
  inv_jobs : Forall (job_ok (RR.current_time s)) (RR.temp s);
  inv_nodup : NoDup (RR.pending s);
  inv_pending : forall i, i ∈ RR.pending s -> (i < length (RR.temp s))%nat;
  inv_in_queue :
    forall i, (i < length (RR.temp s))%nat ->
      (RR.in_queue s !!! i = true <-> i ∈ RR.pending s);
  inv_ready :
    forall i p, RR.temp s !! i = Some p ->
      (RR.in_queue s !!! i = true <->
       arrival_time p <= RR.current_time s /\ 0 < remaining_time p)
}.

(** The sum of [g] over the registry. *)
Definition sum_of (g : Process -> Z) (l : list Process) : Z :=
  foldr (fun p acc => g p + acc) 0 l.

(** The service still to be given, and the number of jobs still to be
    completed. *)
Definition total_remaining (temp : list Process) : Z :=
  sum_of remaining_time temp.

Definition unfinished (temp : list Process) : Z :=
  sum_of (fun p => if 0 <? remaining_time p then 1 else 0) temp.

(** A bound on the iterations still to come: one per unit of service
    (per job for shortest job first) and one per idle tick until the last
    arrival [A]. *)
Definition iterations_left (A : Z) (work t : Z) : Z := work + Z.max 0 (A - t).

(** What the termination arguments keep: every job arrives by [A], and
    [completed] counts the jobs without service left. *)
Definition progress_inv (A : Z) (n : nat) (temp : list Process)
    (completed : nat) : Prop :=
  Forall (fun p => arrival_time p <= A) temp /\
  Z.of_nat completed + unfinished temp = Z.of_nat n.

(** Slot [j] is eligible at time [t]: it has arrived and is not flagged
    as completed. *)
Definition sjf_eligible (t : Z) (is_completed : list bool) (j : nat)
    (q : Process) : Prop :=
  arrival_time q <= t /\ is_completed !!! j = false.

(** The invariant of the main loop of shortest job first: the flags
    [is_completed] mark the jobs that have no service left. *)
Record sjf_inv (s : SJF.State) : Prop := mk_sjf_inv {
  sjf_temp_len : (length (SJF.temp s) <= MAX_PROCESSES)%nat;
  sjf_flags_len : length (SJF.is_completed s) = MAX_PROCESSES;
  sjf_jobs : Forall (job_ok (SJF.current_time s)) (SJF.temp s);
  sjf_flags :
    forall j q, SJF.temp s !! j = Some q ->
      (SJF.is_completed s !!! j = true <-> remaining_time q = 0)
}.

(** ** The range of [int] and the integers that a [float] holds *)

(** The largest [int], and the bound up to which every integer is a
    [float] (a [float] has 24 significant bits: 16777216 is 2^24). *)
Definition INT_MAX : Z := 2147483647.
Definition FLOAT_EXACT : Z := 16777216.

(** The latest arrival of a registry. *)
Definition last_arrival (proc : list Process) : Z :=
  foldr (fun p a => Z.max (arrival_time p) a) 0 proc.

(** The registry fits the [int] clock of the schedulers: the latest
    arrival plus the sum of the burst times is an [int].  A run on a valid
    registry ends before its clock passes that value, so that
    [current_time], and every time computed from it, is computed without
    overflow. *)
Definition fits_int (proc : list Process) : Prop :=
  last_arrival proc + sum_of burst_time proc <= INT_MAX.

(** The sums that [calculate_metrics] accumulates over [proc] are exact:
    the fields added are not negative, the three [float] accumulators end
    no higher than [FLOAT_EXACT] and the [int] accumulator [total_burst]
    no higher than [INT_MAX], so that no partial sum, in whatever order,
    is rounded or overflows. *)
Definition exact_sums (proc : list Process) : Prop :=
  Forall (fun p => counted p = true ->
            0 <= response_time p /\ 0 <= turnaround_time p /\
            0 <= waiting_time p /\ 0 <= burst_time p) proc /\
  sum_response (fold_left sums_step proc sums_init) <= FLOAT_EXACT /\
  sum_turnaround (fold_left sums_step proc sums_init) <= FLOAT_EXACT /\
  sum_waiting (fold_left sums_step proc sums_init) <= FLOAT_EXACT /\
  total_burst (fold_left sums_step proc sums_init) <= INT_MAX.

(** A job of burst 5 followed by a job of burst -5: first come, first
    served completes the first job at 5 and ends with the clock back
    at 0. *)
Definition zero_time_registry : list Process :=
  [ new_process 0 "Job" "Routine" 3 0 5;
    new_process 1 "Undo" "Routine" 3 0 (-5) ].

(** A job that can be served and a job whose priority value is the
    initial value of [highest_priority]. *)
Definition unserved_registry : list Process :=
  [ new_process 0 "Job" "Routine" 3 0 2;
    new_process 1 "Low" "Background" 999 0 1 ].

(** The normal scenario under shortest job first after two jobs have run
    (slot 0 until 20, then slot 4 until 22): six jobs are eligible, and
    slots 1, 3 and 7 share the smallest burst time, 4. *)
Definition sjf_example_state : SJF.State :=
  Eval vm_compute in SJF.step (SJF.step (SJF.init init_normal_scenario)).

(** ** One service, as every scheduler performs it *)

(** What the time-sliced schedulers do to a job that they run for [e]
    units from time [t]: the start is recorded when this is the first
    service, the remaining time decreases, and the completion fields are
    set when nothing remains. *)
Definition serve_job (t e : Z) (p : Process) : Process :=
  let q1 := if start_time p =? -1 then mark_started t p else p in
  let q2 := set_remaining_time (remaining_time p - e) q1 in
  if remaining_time p - e =? 0 then mark_completed (t + e) q2 else q2.

(** What an iteration of a main loop does to the job table, the clock and
    the counter [completed]: the clock advances while nothing runs, or one
    job that has arrived runs for [e] units. *)
Inductive service_step :
    list Process * Z * nat -> list Process * Z * nat -> Prop :=
| service_idle (temp : list Process) (t t' : Z) (c : nat) :
    t <= t' -> service_step (temp, t, c) (temp, t', c)
| service_run (temp : list Process) (t : Z) (c i : nat) (p : Process) (e : Z) :
    temp !! i = Some p -> arrival_time p <= t -> 0 < e <= remaining_time p ->
    service_step (temp, t, c)
      (alter (serve_job t e) i temp, t + e,
       if remaining_time p - e =? 0 then S c else c).

Definition priority_view (s : Priority.State) : list Process * Z * nat :=
  (Priority.temp s, Priority.current_time s, Priority.completed s).

Definition sjf_view (s : SJF.State) : list Process * Z * nat :=
  (SJF.temp s, SJF.current_time s, SJF.completed s).

Definition rr_view (s : RR.State) : list Process * Z * nat :=
  (RR.temp s, RR.current_time s, RR.completed s).

(** The times of a job, at clock [t]: untouched until its first service;
    from then on the response time is the delay of the start, and the
    service received fits between the start and the clock; a completion
    time is set only when nothing remains, no earlier than start plus
    burst. *)
Definition job_timeline (t : Z) (p : Process) : Prop :=
  (start_time p = -1 ->
     remaining_time p = burst_time p /\ completion_time p = 0) /\
  (start_time p <> -1 ->
     arrival_time p <= start_time p /\
     response_time p = start_time p - arrival_time p /\
     start_time p + (burst_time p - remaining_time p) <= t /\
     remaining_time p < burst_time p) /\
  0 <= completion_time p /\
  (0 < completion_time p ->
     remaining_time p = 0 /\
     start_time p + burst_time p <= completion_time p).

(** The service given so far. *)
Definition service_given (temp : list Process) : Z :=
  sum_of (fun p => burst_time p - remaining_time p) temp.

(** What the main loops keep of the job table [temp], the clock [t] and
    the counter [c] of completed jobs, on a registry of [n] jobs. *)
Record run_inv (n : nat) (v : list Process * Z * nat) : Prop := mk_run_inv {
  run_jobs : Forall (job_ok v.1.2) v.1.1;
  run_timeline : Forall (job_timeline v.1.2) v.1.1;
  run_work : service_given v.1.1 <= v.1.2;
  run_count : Z.of_nat v.2 + unfinished v.1.1 = Z.of_nat n;
  run_length : length v.1.1 = n
}.

(** The states in which the main loop of the preemptive scheduler tests
    [completed < n] during a run on [proc]. *)
Inductive priority_reachable (proc : list Process) : Priority.State -> Prop :=
| priority_reach_init (temp0 : list Process) :
    copy_in proc = Returned temp0 ->
    priority_reachable proc (Priority.init temp0)
| priority_reach_step (s s' : Priority.State) :
    priority_reachable proc s ->
    (Priority.completed s < length proc)%nat ->
    Priority.step s = Returned s' ->
    priority_reachable proc s'.

(** A job that still needs service has not been started: what the two
    schedulers that never interrupt a job keep. *)
Definition unserved (p : Process) : Prop :=
  0 < remaining_time p -> start_time p = -1.

(** A job that ran in one piece: it completed one burst after its
    start. *)
Definition uninterrupted (p : Process) : Prop :=
  remaining_time p = 0 -> completion_time p = start_time p + burst_time p.

(** No two completed jobs of the table ran at the same time: one of them
    had completed when the other started. *)
Definition no_overlap (temp : list Process) : Prop :=
  forall (i j : nat) (p q : Process),
    temp !! i = Some p -> temp !! j = Some q -> i <> j ->
    remaining_time p = 0 -> remaining_time q = 0 ->
    completion_time p <= start_time q \/ completion_time q <= start_time p.

(** Slot [q] can be selected by the preemptive scheduler at time [t]: it
    has arrived and still needs service. *)
Definition priority_eligible (t : Z) (q : Process) : Prop :=
  arrival_time q <= t /\ 0 < remaining_time q.

(** Job [p] in slot [i] goes before job [q] in slot [j]: its priority
    value is smaller, or equal with [i] no later than [j]. *)
Definition goes_before (i : nat) (p : Process) (j : nat) (q : Process) : Prop :=
  priority p < priority q \/ (priority p = priority q /\ (i <= j)%nat).

(** The number of rows of kind [k] in the event log. *)
Definition has_kind (k : Priority.event_type) (e : Priority.Event) : bool :=
  match k, Priority.ev_type e with
  | Priority.Start, Priority.Start => true
  | Priority.Preempt, Priority.Preempt => true
  | Priority.Complete, Priority.Complete => true
  | _, _ => false
  end.

Definition count_events (k : Priority.event_type)
    (evs : list Priority.Event) : Z :=
  foldr (fun e acc => (if has_kind k e then 1 else 0) + acc) 0 evs.

(** The number of jobs that have been started. *)
Definition started (temp : list Process) : Z :=
  sum_of (fun p => if start_time p =? -1 then 0 else 1) temp.

(** The rows that one iteration of the main loop appends to the event
    log when it serves slot [next], which holds [p], at time [t]. *)
Definition step_events (s : Priority.State) (next : nat) (p : Process)
    : list Priority.Event :=
  let t := Priority.current_time s in
  (if decide (Priority.is_running s = Some next) then []
   else
     match Priority.is_running s with
     | Some r =>
         if 0 <? remaining_time (Priority.temp s !!! r)
         then [Priority.mkEvent t r Priority.Preempt] else []
     | None => []
     end ++ [Priority.mkEvent t next Priority.Start])
  ++ (if remaining_time p - 1 =? 0
      then [Priority.mkEvent (t + 1) next Priority.Complete] else []).

#[global] Instance event_type_eq_dec : EqDecision Priority.event_type.
Proof. solve_decision. Defined.

(** The number of rows of kind [k] that the event log holds for slot
    [i]. *)
Definition is_row (k : Priority.event_type) (i : nat) (e : Priority.Event)
    : bool :=
  has_kind k e && bool_decide (Priority.ev_pid e = i).

Definition count_rows (k : Priority.event_type) (i : nat)
    (evs : list Priority.Event) : Z :=
  foldr (fun e acc => (if is_row k i e then 1 else 0) + acc) 0 evs.

(** What the main loop of the preemptive scheduler keeps of the rows of
    each job: a Complete row is written when the job has no service left,
    and never again; the job has one Start row more than Preempt rows
    while it is running or completed, and as many otherwise. *)
Definition priority_rows_inv (s : Priority.State) : Prop :=
  forall (i : nat) (p : Process),
    Priority.temp s !! i = Some p ->
    count_rows Priority.Complete i (Priority.events s)
    = (if remaining_time p =? 0 then 1 else 0) /\
    count_rows Priority.Start i (Priority.events s)
    = count_rows Priority.Preempt i (Priority.events s)
      + (if decide (Priority.is_running s = Some i \/ remaining_time p = 0)
         then 1 else 0).

(** What the main loop of the preemptive scheduler keeps of its event log
    and of the running job. *)
Record priority_log_inv (s : Priority.State) : Prop := mk_priority_log_inv {
  log_starts :
    count_events Priority.Start (Priority.events s)
    = Priority.context_switches s;
  log_balance :
    count_events Priority.Start (Priority.events s)
    = Z.of_nat (Priority.completed s)
      + count_events Priority.Preempt (Priority.events s)
      + match Priority.is_running s with Some _ => 1 | None => 0 end;
  log_completes :
    count_events Priority.Complete (Priority.events s)
    = Z.of_nat (Priority.completed s);
  log_preempts :
    count_events Priority.Preempt (Priority.events s) = 0 \/
    count_events Priority.Preempt (Priority.events s) + 1
    <= started (Priority.temp s);
  log_running :
    forall r, Priority.is_running s = Some r ->
      exists p, Priority.temp s !! r = Some p /\
        0 < remaining_time p /\ arrival_time p < Priority.current_time s /\
        priority p < 999 /\ start_time p <> -1 /\
        forall j q, Priority.temp s !! j = Some q ->
          arrival_time q < Priority.current_time s ->
          0 < remaining_time q -> goes_before r p j q;
  log_rows :
    Forall (fun e => (Priority.ev_pid e < length (Priority.temp s))%nat /\
                     0 <= Priority.ev_time e <= Priority.current_time s)
      (Priority.events s);
  log_sorted :
    forall i j e1 e2,
      Priority.events s !! i = Some e1 -> Priority.events s !! j = Some e2 ->
      (i <= j)%nat -> Priority.ev_time e1 <= Priority.ev_time e2
}.

(** The total burst of the jobs whose priority value is at most [P], and
    the service they have received. *)
Definition burst_at_most (P : Z) (temp : list Process) : Z :=
  sum_of (fun q => if priority q <=? P then burst_time q else 0) temp.

Definition service_at_most (P : Z) (temp : list Process) : Z :=
  sum_of (fun q => if priority q <=? P
                   then burst_time q - remaining_time q else 0) temp.

(** What the main loop of the preemptive scheduler keeps of each job:
    only jobs of priority below 999 are ever started; while such a job
    needs service, the time since its arrival is covered by service given
    to jobs of its priority value or less; and once it is completed its
    turnaround is covered by the bursts of those jobs. *)
Definition priority_wait_inv (s : Priority.State) : Prop :=
  forall (k : nat) (p : Process),
    Priority.temp s !! k = Some p ->
    (start_time p <> -1 -> priority p < 999) /\
    (priority p < 999 -> 0 < remaining_time p ->
       Priority.current_time s - arrival_time p
       <= service_at_most (priority p) (Priority.temp s)) /\
    (remaining_time p = 0 ->
       turnaround_time p <= burst_at_most (priority p) (Priority.temp s)).

(** The number of quanta that [r] units of service take:
    [r / TIME_QUANTUM], rounded up. *)
Definition quanta (r : Z) : Z := (r + TIME_QUANTUM - 1) / TIME_QUANTUM.

(** The quanta that the jobs of the table still need, and the quanta that
    a registry needs in all. *)
Definition quanta_left (temp : list Process) : Z :=
  sum_of (fun p => quanta (remaining_time p)) temp.

Definition quanta_needed (proc : list Process) : Z :=
  sum_of (fun p => quanta (burst_time p)) proc.

(** What the main loop of round robin keeps of its counters on a run
    that needs [Q] quanta: [front] counts the quanta served, and so does
    [context_switches]. *)
Definition rr_quanta_inv (Q : Z) (s : RR.State) : Prop :=
  Z.of_nat (RR.front s) + quanta_left (RR.temp s) = Q /\
  RR.context_switches s = Z.of_nat (RR.front s).

(** The total burst of the jobs that arrive at time [a] or later, and the
    service they have received. *)
Definition late_burst (a : Z) (temp : list Process) : Z :=
  sum_of (fun p => if a <=? arrival_time p then burst_time p else 0) temp.

Definition late_service (a : Z) (temp : list Process) : Z :=
  sum_of (fun p => if a <=? arrival_time p
                   then burst_time p - remaining_time p else 0) temp.

(** No job that has arrived by time [t] needs service. *)
Definition nothing_ready (temp : list Process) (t : Z) : Prop :=
  forall (j : nat) (q : Process),
    temp !! j = Some q -> arrival_time q <= t -> remaining_time q = 0.

(** The processor has not been left idle while a job was ready: since
    some time [a], before which every job that had arrived was completed,
    it has served jobs without a pause, and a job that arrives at [a] or
    later exists. *)
Definition busy_since (a : Z) (temp : list Process) (t : Z) : Prop :=
  0 <= a <= t /\ t - a = late_service a temp /\
  (forall (j : nat) (q : Process),
     temp !! j = Some q -> arrival_time q < a -> remaining_time q = 0) /\
  0 < late_burst a temp.

(** The service given to the jobs that arrive at [a] or later fits into
    the time since [a]. *)
Definition service_fits (temp : list Process) (t : Z) : Prop :=
  forall a : Z, late_service a temp <= Z.max 0 (t - a).

(** An iteration of a main loop that never leaves the processor idle
    while a job is ready: the clock advances by one tick when nothing is
    ready, or one job that has arrived runs for [e] units. *)
Inductive busy_step :
    list Process * Z * nat -> list Process * Z * nat -> Prop :=
| busy_idle (temp : list Process) (t : Z) (c : nat) :
    nothing_ready temp t -> busy_step (temp, t, c) (temp, t + 1, c)
| busy_run (temp : list Process) (t : Z) (c i : nat) (p : Process) (e : Z) :
    temp !! i = Some p -> arrival_time p <= t -> 0 < e <= remaining_time p ->
    busy_step (temp, t, c)
      (alter (serve_job t e) i temp, t + e,
       if remaining_time p - e =? 0 then S c else c).

(** * Properties *)

(** ** Outcomes and the copy loop *)

Lemma bind_Returned {A B : Type} (o : outcome A) (k : A -> outcome B) (b : B) :
  (o ≫= k) = Returned b -> exists a, o = Returned a /\ k a = Returned b.
Proof. destruct o as [a| |]; simpl; intros H; try discriminate. eauto. Qed.

Lemma copy_loop_fits (proc temp : list Process) (i : nat) :
  (i + length proc <= MAX_PROCESSES)%nat ->
  copy_loop i proc temp = Returned (temp ++ proc).
Proof.
  revert i temp. induction proc as [|p rest IH]; intros i temp Hlen; simpl in *.
  - by rewrite app_nil_r.
  - destruct (Nat.ltb_spec i MAX_PROCESSES) as [_|Hge]; [|lia].
    rewrite IH by lia. by rewrite <- app_assoc.
Qed.

Lemma copy_loop_overflows (proc temp : list Process) (i : nat) :
  (i <= MAX_PROCESSES < i + length proc)%nat ->
  copy_loop i proc temp = OutOfBounds MAX_PROCESSES.
Proof.
  revert i temp. induction proc as [|p rest IH]; intros i temp Hlen; simpl in *.
  - lia.
  - destruct (Nat.ltb_spec i MAX_PROCESSES) as [Hlt|Hge].
    + apply IH. lia.
    + f_equal. lia.
Qed.

Lemma copy_in_fits (proc : list Process) :
  (length proc <= MAX_PROCESSES)%nat -> copy_in proc = Returned proc.
Proof. intros H. unfold copy_in. by rewrite copy_loop_fits. Qed.

Lemma copy_in_overflows (proc : list Process) :
  (MAX_PROCESSES < length proc)%nat -> copy_in proc = OutOfBounds MAX_PROCESSES.
Proof. intros H. unfold copy_in. apply copy_loop_overflows. lia. Qed.

Lemma copy_in_Returned (proc temp : list Process) :
  copy_in proc = Returned temp ->
  temp = proc /\ (length proc <= MAX_PROCESSES)%nat.
Proof.
  intros H. destruct (Nat.le_gt_cases (length proc) MAX_PROCESSES) as [Hle|Hgt].
  - rewrite copy_in_fits in H by done. inversion H; subst. by split.
  - rewrite copy_in_overflows in H by done. discriminate.
Qed.

(** ** Fuel: once a loop has stopped, more fuel gives the same outcome *)

Lemma priority_loop_more_fuel (k fuel n : nat) (s : Priority.State) :
  Priority.loop fuel n s <> OutOfFuel ->
  Priority.loop (fuel + k) n s = Priority.loop fuel n s.
Proof.
  revert s. induction fuel as [|fuel IH]; intros s; simpl.
  - destruct (Priority.completed s <? n)%nat eqn:E; [done|].
    intros _. destruct k; simpl; by rewrite E.
  - destruct (Priority.completed s <? n)%nat; [|done].
    destruct (Priority.step s) as [s'| |]; simpl; try done. apply IH.
Qed.

Lemma sjf_loop_more_fuel (k fuel n : nat) (s : SJF.State) :
  SJF.loop fuel n s <> OutOfFuel ->
  SJF.loop (fuel + k) n s = SJF.loop fuel n s.
Proof.
  revert s. induction fuel as [|fuel IH]; intros s; simpl.
  - destruct (SJF.completed s <? n)%nat eqn:E; [done|].
    intros _. destruct k; simpl; by rewrite E.
  - destruct (SJF.completed s <? n)%nat; [|done]. apply IH.
Qed.

Lemma rr_loop_more_fuel (k fuel n : nat) (s : RR.State) :
  RR.loop fuel n s <> OutOfFuel ->
  RR.loop (fuel + k) n s = RR.loop fuel n s.
Proof.
  revert s. induction fuel as [|fuel IH]; intros s; simpl.
  - destruct (RR.completed s <? n)%nat eqn:E; [done|].
    intros _. destruct k; simpl; by rewrite E.
  - destruct (RR.completed s <? n)%nat; [|done].
    destruct (RR.step s) as [s'| |]; simpl; try done. apply IH.
Qed.

Lemma priority_run_more_fuel (k fuel : nat) (proc : list Process) :
  Priority.run fuel proc <> OutOfFuel ->
  Priority.run (fuel + k) proc = Priority.run fuel proc.
Proof.
  unfold Priority.run. destruct (copy_in proc) as [t| |]; simpl; try done.
  apply priority_loop_more_fuel.
Qed.

Lemma sjf_run_more_fuel (k fuel : nat) (proc : list Process) :
  SJF.run fuel proc <> OutOfFuel ->
  SJF.run (fuel + k) proc = SJF.run fuel proc.
Proof.
  unfold SJF.run. destruct (copy_in proc) as [t| |]; simpl; try done.
  apply sjf_loop_more_fuel.
Qed.

Lemma rr_run_more_fuel (k fuel : nat) (proc : list Process) :
  RR.run fuel proc <> OutOfFuel ->
  RR.run (fuel + k) proc = RR.run fuel proc.
Proof.
  unfold RR.run. destruct (RR.start proc) as [t| |]; simpl; try done.
  apply rr_loop_more_fuel.
Qed.

(** ** The worked example of the preemptive scheduler *)

(** C2: on P0{arrival 0, burst 5, priority 5}, P1{2, 2, 1}, P2{4, 3, 3} the
    preemptive priority scheduler returns; its event log is Start(P0,0),
    Preempt(P0,2), Start(P1,2), Complete(P1,4), Start(P2,4), Complete(P2,7),
    Start(P0,7), Complete(P0,10); the (response, turnaround, waiting) fields
    are (0,10,5) for P0, (0,2,0) for P1 and (0,3,0) for P2; there are 4
    context switches and the total time is 10.  Ten iterations suffice and
    more fuel changes nothing. *)
(** ** The worked example of the preemptive scheduler *)

(** C2: on P0{arrival 0, burst 5, priority 5}, P1{2, 2, 1}, P2{4, 3, 3} the
    preemptive priority scheduler returns; its event log is Start(P0,0),
    Preempt(P0,2), Start(P1,2), Complete(P1,4), Start(P2,4), Complete(P2,7),
    Start(P0,7), Complete(P0,10); the (response, turnaround, waiting) fields
    are (0,10,5) for P0, (0,2,0) for P1 and (0,3,0) for P2; there are 4
    context switches and the total time is 10.  Ten iterations of the loop
    suffice, and more fuel changes nothing. *)
Theorem C2_priority_example :
  forall fuel : nat, (10 <= fuel)%nat ->
  (exists s : Priority.State,
      Priority.run fuel example_registry = Returned s /\
      Priority.events s =
        [ Priority.mkEvent 0 0 Priority.Start;
          Priority.mkEvent 2 0 Priority.Preempt;
          Priority.mkEvent 2 1 Priority.Start;
          Priority.mkEvent 4 1 Priority.Complete;
          Priority.mkEvent 4 2 Priority.Start;
          Priority.mkEvent 7 2 Priority.Complete;
          Priority.mkEvent 7 0 Priority.Start;
          Priority.mkEvent 10 0 Priority.Complete ]) /\
  (exists (out : list Process) (m : Metrics),
      priority_scheduling fuel example_registry = Returned (out, m) /\
      map timing out = [ (0, 10, 5); (0, 2, 0); (0, 3, 0) ] /\
      context_switches m = 4 /\
      total_time m = 10).
Proof.
  intros fuel Hfuel.
  replace fuel with (10 + (fuel - 10))%nat by lia.
  split.
  - rewrite priority_run_more_fuel by (by vm_compute).
    eexists. split; [vm_compute; reflexivity|]. reflexivity.
  - unfold priority_scheduling.
    rewrite priority_run_more_fuel by (by vm_compute).
    do 2 eexists. split; [vm_compute; reflexivity|]. by vm_compute.
Qed.

Lemma C2_priority_example_witness :
  (10 <= 10)%nat /\
  (exists (out : list Process) (m : Metrics),
      priority_scheduling 10 example_registry = Returned (out, m) /\
      map timing out = [ (0, 10, 5); (0, 2, 0); (0, 3, 0) ] /\
      context_switches m = 4 /\
      total_time m = 10).
Proof.
  split; [lia|]. exact (proj2 (C2_priority_example 10 (le_n 10))).
Defined.

(** ** The ready queue of round robin overflows *)

(** C3: the claim fails on the emergency scenario that [main] runs.  The
    registry is valid and has 12 jobs, yet its jobs need 30 quanta in all,
    one store [queue[rear++]] each: the 16th iteration of the main loop
    stores at index 20, one past the last slot of [queue], so that any fuel
    of 16 or more ends there. *)
Theorem C3_queue_overflow_on_emergency_scenario :
  valid_registry init_emergency_scenario /\
  forall k : nat,
    RR.run (16 + k) init_emergency_scenario = OutOfBounds MAX_PROCESSES /\
    round_robin_scheduling (16 + k) init_emergency_scenario
      = OutOfBounds MAX_PROCESSES.
Proof.
  split.
  - split; [vm_compute; lia|].
    repeat constructor; simpl; lia.
  - intros k. unfold round_robin_scheduling.
    rewrite rr_run_more_fuel by (by vm_compute).
    split; by vm_compute.
Qed.

(** ** Shortest job first never picks a burst of 999999 or more *)

Lemma sjf_long_job_idles (fuel : nat) (t : Z) :
  SJF.loop fuel 1
    (SJF.mkState long_job_registry t 0 0 (replicate MAX_PROCESSES false))
  = OutOfFuel.
Proof.
  revert t. induction fuel as [|fuel IH]; intros t; simpl; [done|].
  unfold SJF.step, SJF.select. simpl.
  rewrite andb_false_r. simpl. apply IH.
Qed.

(** C10: the claim fails for shortest job first on a registry of one valid
    job (arrival 0, burst 999999).  The scan starts from [shortest = 999999]
    and tests [burst_time < shortest], so the job is never selected: every
    iteration only advances the clock, and the loop is still running after
    any number of iterations. *)
Theorem C10_sjf_does_not_terminate :
  valid_registry long_job_registry /\
  forall fuel : nat,
    SJF.run fuel long_job_registry = OutOfFuel /\
    sjf_scheduling fuel long_job_registry = OutOfFuel.
Proof.
  split.
  - split; [vm_compute; lia|]. repeat constructor; simpl; lia.
  - intros fuel. unfold sjf_scheduling.
    assert (SJF.run fuel long_job_registry = OutOfFuel) as ->; [|done].
    unfold SJF.run. rewrite copy_in_fits by (vm_compute; lia). simpl.
    apply sjf_long_job_idles.
Qed.

(** ** The metrics calculator *)

Lemma fold_min_le (l : list Z) (a : Z) : fold_left Z.min l a <= a.
Proof.
  revert a. induction l as [|x l IH]; intros a; simpl; [lia|].
  specialize (IH (Z.min a x)). lia.
Qed.

Lemma fold_min_lower (l : list Z) (a y : Z) : y ∈ l -> fold_left Z.min l a <= y.
Proof.
  revert a. induction l as [|x l IH]; intros a Hy; simpl.
  - by apply elem_of_nil in Hy.
  - apply elem_of_cons in Hy as [->|Hy]; [|by apply IH].
    pose proof (fold_min_le l (Z.min a x)). lia.
Qed.

Lemma fold_min_attained (l : list Z) (a : Z) :
  fold_left Z.min l a = a \/ fold_left Z.min l a ∈ l.
Proof.
  revert a. induction l as [|x l IH]; intros a; simpl; [by left|].
  destruct (IH (Z.min a x)) as [H|H].
  - rewrite H. destruct (Z.min_spec a x) as [[_ ->]|[_ ->]]; [by left|].
    right. apply elem_of_cons. by left.
  - right. apply elem_of_cons. by right.
Qed.

Lemma fold_max_ge (l : list Z) (a : Z) : a <= fold_left Z.max l a.
Proof.
  revert a. induction l as [|x l IH]; intros a; simpl; [lia|].
  specialize (IH (Z.max a x)). lia.
Qed.

Lemma fold_max_upper (l : list Z) (a y : Z) : y ∈ l -> y <= fold_left Z.max l a.
Proof.
  revert a. induction l as [|x l IH]; intros a Hy; simpl.
  - by apply elem_of_nil in Hy.
  - apply elem_of_cons in Hy as [->|Hy]; [|by apply IH].
    pose proof (fold_max_ge l (Z.max a x)). lia.
Qed.

Lemma fold_max_attained (l : list Z) (a : Z) :
  fold_left Z.max l a = a \/ fold_left Z.max l a ∈ l.
Proof.
  revert a. induction l as [|x l IH]; intros a; simpl; [by left|].
  destruct (IH (Z.max a x)) as [H|H].
  - rewrite H. destruct (Z.max_spec a x) as [[_ ->]|[_ ->]]; [|by left].
    right. apply elem_of_cons. by left.
  - right. apply elem_of_cons. by right.
Qed.

(** The loop of [calculate_metrics] keeps the running extrema of the
    emergency response times and counts the completed jobs. *)
Lemma sums_fold_extrema (proc : list Process) (a : Sums) :
  e_min (fold_left sums_step proc a)
    = fold_left Z.min (emergency_responses proc) (e_min a) /\
  e_max (fold_left sums_step proc a)
    = fold_left Z.max (emergency_responses proc) (e_max a).
Proof.
  revert a. induction proc as [|p proc IH]; intros a; [done|].
  cbn [fold_left]. destruct (IH (sums_step a p)) as [-> ->].
  unfold emergency_responses. rewrite filter_cons.
  unfold sums_step, counted.
  destruct (0 <? completion_time p) eqn:E1;
    destruct (priority p =? 1) eqn:E2; simpl;
    try case_decide; try done.
  simpl. split; f_equal.
  - destruct (Z.ltb_spec (response_time p) (e_min a)); lia.
  - destruct (Z.ltb_spec (e_max a) (response_time p)); lia.
Qed.

Lemma sums_fold_none_completed (proc : list Process) (a : Sums) :
  count_completed proc = 0%nat -> fold_left sums_step proc a = a.
Proof.
  revert a. unfold count_completed.
  induction proc as [|p proc IH]; intros a; [done|].
  rewrite filter_cons. cbn [fold_left]. unfold sums_step at 2.
  case_decide as Hc; simpl; [done|].
  intros H. unfold counted in Hc. destruct (0 <? completion_time p); [done|].
  by apply IH.
Qed.

Lemma sums_fold_completed (proc : list Process) (a : Sums) :
  completed (fold_left sums_step proc a)
    = completed a + Z.of_nat (count_completed proc).
Proof.
  revert a. unfold count_completed.
  induction proc as [|p proc IH]; intros a; simpl; [lia|].
  rewrite IH, filter_cons. unfold sums_step, counted.
  destruct (0 <? completion_time p) eqn:E; simpl;
    try case_decide; try done; simpl length; lia.
Qed.

Lemma metrics_none_completed (proc : list Process) (total : Z) :
  count_completed proc = 0%nat ->
  let m := calculate_metrics proc total in
  avg_response_time m = 0%Q /\ avg_turnaround_time m = 0%Q /\
  avg_waiting_time m = 0%Q /\
  (cpu_utilization m == 0)%Q /\ (throughput m == 0)%Q /\
  emergency_response_min m = 0 /\ emergency_response_max m = 0.
Proof.
  intros H. unfold calculate_metrics.
  rewrite (sums_fold_none_completed proc sums_init H). simpl.
  repeat split; try reflexivity.
  - destruct (0 <? total); [|reflexivity].
    unfold ratio, Qdiv. by rewrite !Qmult_0_l.
  - destruct (0 <? total); [|reflexivity].
    unfold ratio, Qdiv. by rewrite !Qmult_0_l.
Qed.

Lemma metrics_zero_time (proc : list Process) (total : Z) :
  total <= 0 ->
  let m := calculate_metrics proc total in
  cpu_utilization m = 0%Q /\ throughput m = 0%Q.
Proof.
  intros H. unfold calculate_metrics; simpl.
  destruct (Z.ltb_spec 0 total); [lia|done].
Qed.

(** The extrema that [calculate_metrics] reports, for any list: the
    maximum is exact when it is not negative, the minimum when it is below
    999. *)
Lemma metrics_emergency_extrema (proc : list Process) (total : Z) :
  let m := calculate_metrics proc total in
  let E := emergency_responses proc in
  (E = [] -> emergency_response_min m = 0 /\ emergency_response_max m = 0) /\
  (forall x : Z, minimum_of x E -> x < 999 -> emergency_response_min m = x) /\
  (forall x : Z, maximum_of x E -> 0 <= x -> emergency_response_max m = x).
Proof.
  intros m E. subst m. unfold calculate_metrics; simpl.
  destruct (sums_fold_extrema proc sums_init) as [-> ->]. fold E.
  simpl e_min; simpl e_max. split; [|split].
  - by intros ->.
  - intros x [Hin Hle] Hx.
    assert (fold_left Z.min E 999 = x) as ->.
    { pose proof (fold_min_lower E 999 x Hin) as Hlow.
      destruct (fold_min_attained E 999) as [H9|Hmem]; [lia|].
      rewrite Forall_forall in Hle. specialize (Hle _ Hmem). lia. }
    destruct (Z.eqb_spec x 999); [lia|done].
  - intros x [Hin Hle] Hx.
    pose proof (fold_max_upper E 0 x Hin) as Hup.
    destruct (fold_max_attained E 0) as [H0|Hmem]; [lia|].
    rewrite Forall_forall in Hle. specialize (Hle _ Hmem). lia.
Qed.

(** C4 as stated fails twice.  A single emergency job served at once has
    response time 0: both extrema are reported as 0 although such a job
    exists.  An emergency job with response time 1000 leaves the initial
    value 999 of the minimum in place, and the minimum is reported as 0. *)
Lemma C4_counterexample :
  (exists (out : list Process) (m : Metrics),
      priority_scheduling 1 prompt_emergency_registry = Returned (out, m) /\
      emergency_responses out = [0] /\
      emergency_response_min m = 0 /\ emergency_response_max m = 0) /\
  (exists (out : list Process) (m : Metrics),
      fcfs_scheduling late_emergency_registry = Returned (out, m) /\
      emergency_responses out = [1000] /\
      emergency_response_min m = 0 /\ emergency_response_max m = 1000).
Proof.
  split; do 2 eexists; (split; [vm_compute; reflexivity|]); by vm_compute.
Qed.

(** ** Arrays updated in place *)

Lemma Forall_alter_change {A : Type} (P Q : A -> Prop) (f : A -> A)
    (i : nat) (l : list A) :
  Forall P l ->
  (forall x, P x -> Q x) ->
  (forall x, l !! i = Some x -> P x -> Q (f x)) ->
  Forall Q (alter f i l).
Proof.
  intros Hl HPQ Hf. apply Forall_lookup_2. intros j y Hy.
  rewrite list_lookup_alter in Hy. case_decide; subst.
  - destruct (l !! j) as [x|] eqn:E; [|done]. injection Hy as <-.
    apply Hf; [done|]. by eapply Forall_lookup_1.
  - apply HPQ. by eapply Forall_lookup_1.
Qed.

Lemma alter_alter {A : Type} (f g : A -> A) (i : nat) (l : list A) :
  alter g i (alter f i l) = alter (fun x => g (f x)) i l.
Proof.
  revert i. induction l as [|x l IH]; intros [|i]; simpl; try done.
  f_equal. apply IH.
Qed.

Lemma map_descriptor_alter (f : Process -> Process) (i : nat) (l : list Process) :
  (forall p, descriptor (f p) = descriptor p) ->
  map descriptor (alter f i l) = map descriptor l.
Proof.
  intros Hf. revert i. induction l as [|x l IH]; intros [|i]; simpl; try done.
  - by rewrite Hf.
  - f_equal. apply IH.
Qed.

Lemma map_descriptor_insert (x : Process) (i : nat) (l : list Process)
    (p : Process) :
  l !! i = Some p -> descriptor x = descriptor p ->
  map descriptor (<[i := x]> l) = map descriptor l.
Proof.
  revert i. induction l as [|y l IH]; intros [|i] Hp Hd; simpl in *; try done.
  - injection Hp as ->. by rewrite Hd.
  - f_equal. by apply IH.
Qed.

(** ** The per-job invariant *)

Ltac job_ok_crush :=
  unfold job_ok, valid_job, fresh, timing_consistent, mark_started,
    mark_completed, SJF.run_to_completion;
  simpl; intros; repeat split; lia.

Lemma job_ok_fresh (p : Process) : valid_job p -> fresh p -> job_ok 0 p.
Proof. job_ok_crush. Qed.

Lemma job_ok_mono (t t' : Z) (p : Process) : t <= t' -> job_ok t p -> job_ok t' p.
Proof. job_ok_crush. Qed.

Lemma job_ok_mark_started (t t0 : Z) (p : Process) :
  job_ok t p -> arrival_time p <= t0 -> job_ok t (mark_started t0 p).
Proof. job_ok_crush. Qed.

Lemma job_ok_serve (t e : Z) (p : Process) :
  job_ok t p -> arrival_time p <= t -> start_time p <> -1 ->
  0 <= e <= remaining_time p -> remaining_time p - e <> 0 ->
  job_ok (t + e) (set_remaining_time (remaining_time p - e) p).
Proof. job_ok_crush. Qed.

Lemma job_ok_finish (t e : Z) (p : Process) :
  job_ok t p -> arrival_time p <= t -> start_time p <> -1 ->
  0 <= e -> remaining_time p - e = 0 ->
  job_ok (t + e)
    (mark_completed (t + e) (set_remaining_time (remaining_time p - e) p)).
Proof. job_ok_crush. Qed.

(** What is done to a job that is dispatched at time [t]: its start is
    recorded when it is the first one. *)
Lemma job_ok_dispatched (t : Z) (p : Process) :
  job_ok t p -> arrival_time p <= t ->
  let q := if start_time p =? -1 then mark_started t p else p in
  job_ok t q /\ start_time q <> -1 /\
  arrival_time q = arrival_time p /\ remaining_time q = remaining_time p.
Proof.
  intros Hok Harr. destruct (Z.eqb_spec (start_time p) (-1)) as [E|E]; simpl.
  - split; [by apply job_ok_mark_started|].
    destruct Hok as [[Ha _] _]. repeat split; lia.
  - done.
Qed.

Lemma job_ok_run_to_completion (t t0 : Z) (p : Process) :
  job_ok t p -> arrival_time p <= t0 -> t <= t0 ->
  job_ok (t0 + burst_time p) (SJF.run_to_completion t0 p).
Proof. job_ok_crush. Qed.

Lemma job_ok_completed (t : Z) (p : Process) :
  job_ok t p -> completed_job p -> timing_consistent p.
Proof.
  unfold job_ok, completed_job.
  intros (_ & _ & _ & H0 & _ & Hc & _) [H|H]; auto.
Qed.

Lemma job_ok_response (t : Z) (p : Process) :
  job_ok t p -> 0 < completion_time p -> 0 <= response_time p.
Proof. job_ok_crush. Qed.

Lemma registry_job_ok (proc : list Process) :
  valid_registry proc -> Forall (job_ok 0) proc.
Proof.
  intros [_ H]. eapply Forall_impl; [exact H|].
  intros p [Hv Hf]. by apply job_ok_fresh.
Qed.

(** ** Preemptive priority scheduling keeps the invariant *)

Lemma priority_select_from_spec (ps : list Process) (i : nat) (t : Z)
    (next : option nat) (hp : Z) (k : nat) :
  Priority.select_from i ps t next hp = Some k ->
  next = Some k \/
  exists p, ps !! (k - i)%nat = Some p /\ (i <= k)%nat /\
            arrival_time p <= t /\ 0 < remaining_time p.
Proof.
  revert i next hp. induction ps as [|p rest IH]; intros i next hp; simpl.
  - by left.
  - destruct ((arrival_time p <=? t) && (0 <? remaining_time p)
              && (priority p <? hp)) eqn:E; intros H; apply IH in H.
    + apply andb_prop in E as [E _]. apply andb_prop in E as [Ha Hr].
      apply Z.leb_le in Ha. apply Z.ltb_lt in Hr. right.
      destruct H as [[= <-]|(q & Hq & Hle & Hq')].
      * exists p. rewrite Nat.sub_diag. by repeat split.
      * exists q. replace (k - i)%nat with (S (k - S i)) by lia.
        split; [done|]. split; [lia|done].
    + destruct H as [H|(q & Hq & Hle & Hq')]; [by left|]. right.
      exists q. replace (k - i)%nat with (S (k - S i)) by lia.
      split; [done|]. split; [lia|done].
Qed.

Lemma priority_select_spec (temp : list Process) (t : Z) (k : nat) :
  Priority.select temp t = Some k ->
  exists p, temp !! k = Some p /\ arrival_time p <= t /\ 0 < remaining_time p.
Proof.
  intros H. apply priority_select_from_spec in H as [H|(p & Hp & _ & Hp')].
  - discriminate.
  - exists p. by rewrite Nat.sub_0_r in Hp.
Qed.

Lemma priority_record_event_spec (t : Z) (i : nat) (k : Priority.event_type)
    (s s' : Priority.State) :
  Priority.record_event t i k s = Returned s' ->
  Priority.temp s' = Priority.temp s /\
  Priority.current_time s' = Priority.current_time s /\
  Priority.completed s' = Priority.completed s /\
  Priority.context_switches s' = Priority.context_switches s /\
  Priority.is_running s' = Priority.is_running s.
Proof.
  unfold Priority.record_event.
  destruct (length (Priority.events s) <? Priority.MAX_EVENTS)%nat; [|done].
  by intros [= <-].
Qed.

Lemma priority_dispatch_spec (next : nat) (s s' : Priority.State) (p : Process) :
  Priority.dispatch next s = Returned s' ->
  Priority.temp s !! next = Some p ->
  Priority.current_time s' = Priority.current_time s /\
  Priority.completed s' = Priority.completed s /\
  Priority.is_running s' = Some next /\
  Priority.temp s' =
    alter (fun q => if start_time q =? -1
                    then mark_started (Priority.current_time s) q else q)
      next (Priority.temp s).
Proof.
  unfold Priority.dispatch. intros H Hp.
  apply bind_Returned in H as (s1 & H1 & H).
  apply bind_Returned in H as (s2 & H2 & H).
  injection H as <-. simpl.
  apply priority_record_event_spec in H2 as (Ht2 & _ & Hc2 & _). simpl in *.
  assert (Priority.temp s1 = Priority.temp s /\
          Priority.completed s1 = Priority.completed s) as [Ht1 Hc1].
  { destruct (Priority.is_running s) as [r|]; [|by injection H1 as <-].
    destruct (0 <? remaining_time (Priority.temp s !!! r));
      [|by injection H1 as <-].
    apply priority_record_event_spec in H1 as (Ha & _ & Hb & _). by split. }
  rewrite Ht2, Hc2, Hc1, Ht1. repeat split.
  rewrite (list_lookup_total_correct _ _ _ Hp).
  destruct (start_time p =? -1) eqn:E.
  - apply list_alter_ext; [|done].
    intros x Hx. rewrite Hp in Hx. injection Hx as <-. by rewrite E.
  - symmetry. rewrite <- (list_alter_id (fun q => q) (Priority.temp s) next)
      at 2 by done.
    apply list_alter_ext; [|done].
    intros x Hx. rewrite Hp in Hx. injection Hx as <-. by rewrite E.
Qed.

Lemma priority_tick_spec (next : nat) (s s' : Priority.State) (p : Process) :
  Priority.tick next s = Returned s' ->
  Priority.temp s !! next = Some p ->
  let t := Priority.current_time s + 1 in
  let dec := fun q => set_remaining_time (remaining_time q - 1) q in
  Priority.current_time s' = t /\
  ((remaining_time p - 1 = 0 /\
    Priority.temp s' =
      alter (fun q => mark_completed t (dec q)) next (Priority.temp s) /\
    Priority.completed s' = S (Priority.completed s) /\
    Priority.is_running s' = None) \/
   (remaining_time p - 1 <> 0 /\
    Priority.temp s' = alter dec next (Priority.temp s) /\
    Priority.completed s' = Priority.completed s /\
    Priority.is_running s' = Priority.is_running s)).
Proof.
  unfold Priority.tick. intros H Hp. simpl.
  rewrite (list_lookup_total_correct _ next
             (set_remaining_time (remaining_time p - 1) p)) in H
    by (by rewrite list_lookup_alter_eq, Hp).
  simpl in H. destruct (Z.eqb_spec (remaining_time p - 1) 0) as [E|E].
  - apply bind_Returned in H as (s1 & H1 & H). injection H as <-.
    apply priority_record_event_spec in H1 as (Ht & _ & Hc & _). simpl in *.
    split; [done|]. left. by rewrite Ht, Hc, alter_alter.
  - injection H as <-. simpl. split; [done|]. by right.
Qed.

(** One iteration of the main loop: an idle tick, or one unit of service
    for the selected job [next], dispatched first when it was not
    running. *)
Lemma priority_step_spec (s s' : Priority.State) :
  Priority.step s = Returned s' ->
  Priority.current_time s' = Priority.current_time s + 1 /\
  ((Priority.select (Priority.temp s) (Priority.current_time s) = None /\
    Priority.temp s' = Priority.temp s /\
    Priority.completed s' = Priority.completed s /\
    Priority.is_running s' = Priority.is_running s) \/
   (exists (next : nat) (p q : Process),
      Priority.temp s !! next = Some p /\
      arrival_time p <= Priority.current_time s /\ 0 < remaining_time p /\
      q = (if decide (Priority.is_running s = Some next) then p
           else if start_time p =? -1
                then mark_started (Priority.current_time s) p else p) /\
      Priority.temp s' =
        <[next := if remaining_time p - 1 =? 0
                  then mark_completed (Priority.current_time s + 1)
                         (set_remaining_time (remaining_time p - 1) q)
                  else set_remaining_time (remaining_time p - 1) q]>
          (Priority.temp s) /\
      Priority.completed s' =
        (if remaining_time p - 1 =? 0 then S (Priority.completed s)
         else Priority.completed s) /\
      Priority.is_running s' =
        (if remaining_time p - 1 =? 0 then None else Some next))).
Proof.
  unfold Priority.step. intros H.
  destruct (Priority.select _ _) as [next|] eqn:Hsel.
  - apply priority_select_spec in Hsel as (p & Hp & Harr & Hrem).
    apply bind_Returned in H as (s1 & H1 & H).
    set (q := if decide (Priority.is_running s = Some next) then p
              else if start_time p =? -1
                   then mark_started (Priority.current_time s) p else p).
    assert (Priority.temp s1 = <[next := q]> (Priority.temp s) /\
            Priority.current_time s1 = Priority.current_time s /\
            Priority.completed s1 = Priority.completed s /\
            Priority.is_running s1 = Some next) as (Htemp1 & Ht1 & Hc1 & Hr1).
    { subst q. case_decide as Hd.
      - injection H1 as <-. by rewrite list_insert_id.
      - apply (priority_dispatch_spec _ _ _ p) in H1 as (Ht & Hc & Hr & Htemp);
          [|done].
        rewrite Htemp. repeat split; try done.
        apply list_eq. intros j. pose proof (lookup_lt_Some _ _ _ Hp).
        destruct (decide (next = j)) as [<-|Hne].
        + by rewrite list_lookup_alter_eq, Hp, list_lookup_insert_eq.
        + by rewrite list_lookup_alter_ne, list_lookup_insert_ne. }
    assert (remaining_time q = remaining_time p) as Hrq.
    { subst q. case_decide; [done|]. by destruct (start_time p =? -1). }
    assert (Priority.temp s1 !! next = Some q) as Hq.
    { rewrite Htemp1. apply list_lookup_insert_eq. by eapply lookup_lt_Some. }
    destruct (priority_tick_spec _ _ _ _ H Hq) as (Ht & Hcase).
    rewrite Hrq, Ht1, Hc1, Hr1, Htemp1 in Hcase.
    split; [by rewrite Ht, Ht1|]. right. exists next, p, q.
    split; [done|]. split; [done|]. split; [done|]. split; [done|].
    assert (forall f : Process -> Process,
              alter f next (<[next := q]> (Priority.temp s))
              = <[next := f q]> (Priority.temp s)) as Halter.
    { intros f. apply list_eq. intros j.
      pose proof (lookup_lt_Some _ _ _ Hp).
      destruct (decide (next = j)) as [<-|Hne].
      - by rewrite list_lookup_alter_eq, !list_lookup_insert_eq.
      - by rewrite list_lookup_alter_ne, !list_lookup_insert_ne. }
    rewrite !Halter, Hrq in Hcase.
    destruct Hcase as [(E & -> & -> & ->)|(E & -> & -> & ->)].
    + apply Z.eqb_eq in E. by rewrite E.
    + apply Z.eqb_neq in E. by rewrite E.
  - injection H as <-. simpl. split; [done|]. by left.
Qed.

Lemma priority_step_inv (s s' : Priority.State) :
  Priority.step s = Returned s' -> priority_inv s -> priority_inv s'.
Proof.
  intros Hstep [Hok Hrun].
  destruct (priority_step_spec s s' Hstep)
    as (Ht & [(_ & Htemp & _ & Hr)
             |(next & p & q & Hp & Harr & Hrem & Hq & Htemp & _ & Hr)]).
  - split; rewrite ?Htemp, ?Ht, ?Hr; [|done].
    eapply Forall_impl; [exact Hok|]. intros x. apply job_ok_mono. lia.
  - pose proof (Forall_lookup_1 _ _ _ _ Hok Hp) as Hpok.
    assert (job_ok (Priority.current_time s) q /\ start_time q <> -1 /\
            arrival_time q = arrival_time p /\
            remaining_time q = remaining_time p) as (Hqok & Hqs & Hqa & Hqr).
    { subst q. case_decide as Hd.
      - destruct (Hrun next Hd) as (p0 & Hp0 & Hs0).
        rewrite Hp in Hp0. injection Hp0 as <-. done.
      - by apply job_ok_dispatched. }
    pose proof (lookup_lt_Some _ _ _ Hp) as Hnext.
    split; rewrite ?Htemp, ?Ht, ?Hr.
    + apply Forall_insert.
      * eapply Forall_impl; [exact Hok|]. intros x. apply job_ok_mono. lia.
      * rewrite <- Hqr.
        destruct (Z.eqb_spec (remaining_time q - 1) 0) as [E|E].
        -- apply job_ok_finish; auto; lia.
        -- apply job_ok_serve; auto; lia.
    + intros r. destruct (remaining_time p - 1 =? 0); [done|].
      intros [= <-]. eexists. rewrite list_lookup_insert_eq by done.
      split; [done|]. done.
Qed.

Lemma priority_loop_inv (fuel n : nat) (s r : Priority.State) :
  Priority.loop fuel n s = Returned r -> priority_inv s -> priority_inv r.
Proof.
  revert s. induction fuel as [|fuel IH]; intros s; simpl;
    destruct (Priority.completed s <? n)%nat; try done.
  - by intros [= <-].
  - intros H Hinv. apply bind_Returned in H as (s' & Hstep & H).
    eapply IH; [exact H|]. by eapply priority_step_inv.
  - by intros [= <-].
Qed.

Lemma priority_init_inv (proc : list Process) :
  valid_registry proc -> priority_inv (Priority.init proc).
Proof. intros Hv. split; simpl; [by apply registry_job_ok|done]. Qed.

Lemma priority_scheduling_job_ok (fuel : nat) (proc out : list Process) (m : Metrics) :
  valid_registry proc ->
  priority_scheduling fuel proc = Returned (out, m) ->
  Forall (job_ok (total_time m)) out.
Proof.
  intros Hv H. unfold priority_scheduling in H.
  apply bind_Returned in H as (s & Hrun & H). injection H as <- <-. simpl.
  unfold Priority.run in Hrun.
  apply bind_Returned in Hrun as (temp0 & Hcopy & Hloop).
  apply copy_in_Returned in Hcopy as [-> _].
  eapply pinv_jobs, priority_loop_inv; [exact Hloop|].
  by apply priority_init_inv.
Qed.

(** ** First come, first served keeps the invariant *)

Lemma fcfs_loop_spec (ps : list Process) (t cs : Z) :
  Forall (job_ok t) ps ->
  let '(out, t', cs') := FCFS.loop ps t cs in
  Forall (job_ok t') out /\ t <= t' /\
  map descriptor out = map descriptor ps.
Proof.
  revert t cs. induction ps as [|p rest IH]; intros t cs Hok; simpl.
  - repeat split; [done|lia].
  - apply Forall_cons in Hok as [Hp Hrest].
    set (t0 := if t <? arrival_time p then arrival_time p else t).
    assert (t <= t0 /\ arrival_time p <= t0) as [Ht0 Ha0].
    { subst t0. destruct (Z.ltb_spec t (arrival_time p)); lia. }
    assert (0 < burst_time p) as Hb by (destruct Hp as [[_ Hb] _]; exact Hb).
    specialize (IH (t0 + burst_time p) (cs + 1)).
    destruct (FCFS.loop rest (t0 + burst_time p) (cs + 1)) as [[out t'] cs'].
    destruct IH as (Hout & Hle & Hdesc).
    { eapply Forall_impl; [exact Hrest|]. intros x. apply job_ok_mono. lia. }
    split; [|split; [lia|by rewrite <- Hdesc]].
    constructor; [|done].
    apply (job_ok_mono (t0 + burst_time p)); [done|].
    by apply (job_ok_run_to_completion t).
Qed.

Lemma fcfs_scheduling_returns (proc : list Process) :
  (length proc <= MAX_PROCESSES)%nat ->
  exists out m, fcfs_scheduling proc = Returned (out, m).
Proof.
  intros Hlen. unfold fcfs_scheduling. rewrite copy_in_fits by done. simpl.
  destruct (FCFS.loop proc 0 0) as [[out t] cs]. eauto.
Qed.

Lemma fcfs_scheduling_job_ok (proc out : list Process) (m : Metrics) :
  valid_registry proc ->
  fcfs_scheduling proc = Returned (out, m) ->
  Forall (job_ok (total_time m)) out.
Proof.
  intros Hv H. pose proof (registry_job_ok _ Hv) as Hok.
  unfold fcfs_scheduling in H. rewrite copy_in_fits in H by apply Hv.
  simpl in H. pose proof (fcfs_loop_spec proc 0 0 Hok) as Hspec.
  destruct (FCFS.loop proc 0 0) as [[out' t] cs].
  injection H as <- <-. simpl. apply Hspec.
Qed.

(** ** Shortest job first: the selection and the invariant *)

Lemma sjf_select_from_spec (ps : list Process) (i : nat) (t : Z)
    (ic : list bool) (next : option nat) (sh : Z) :
  (SJF.select_from i ps t ic next sh = next /\
   forall j q, ps !! j = Some q -> sjf_eligible t ic (i + j) q ->
               sh <= burst_time q) \/
  (exists k p,
     SJF.select_from i ps t ic next sh = Some (i + k)%nat /\
     ps !! k = Some p /\ sjf_eligible t ic (i + k) p /\ burst_time p < sh /\
     forall j q, ps !! j = Some q -> sjf_eligible t ic (i + j) q ->
                 burst_time p <= burst_time q /\
                 ((j < k)%nat -> burst_time p < burst_time q)).
Proof.
  revert i next sh. induction ps as [|p rest IH]; intros i next sh; simpl.
  - left. split; [done|]. intros j q Hq. by rewrite lookup_nil in Hq.
  - assert (forall j, (S i + j = i + S j)%nat) as Hshift by (intros; lia).
    destruct ((arrival_time p <=? t) && negb (ic !!! i)
              && (burst_time p <? sh)) eqn:E.
    + apply andb_prop in E as [E Hb]. apply andb_prop in E as [Ha Hc].
      apply Z.leb_le in Ha. apply Z.ltb_lt in Hb. apply negb_true_iff in Hc.
      right. destruct (IH (S i) (Some i) (burst_time p))
        as [[-> Hall]|(k & p' & -> & Hk & Hel & Hlt & Hall)].
      * exists 0%nat, p. rewrite Nat.add_0_r.
        split; [done|]. split; [done|]. split; [by split|]. split; [done|].
        intros [|j] q Hq Helig; simpl in Hq.
        -- injection Hq as <-. split; lia.
        -- split; [|lia]. apply (Hall j); [done|]. by rewrite Hshift.
      * exists (S k), p'. rewrite <- Hshift.
        split; [done|]. split; [done|]. split; [done|]. split; [lia|].
        intros [|j] q Hq Helig; simpl in Hq.
        -- injection Hq as <-. split; lia.
        -- rewrite <- Hshift in Helig. destruct (Hall j q Hq Helig) as [H1 H2].
           split; [done|]. intros Hjk. apply H2. lia.
    + assert (sjf_eligible t ic i p -> sh <= burst_time p) as Hp.
      { intros [Ha Hc]. apply Z.leb_le in Ha. rewrite Ha, Hc in E. simpl in E.
        by apply Z.ltb_ge in E. }
      destruct (IH (S i) next sh)
        as [[-> Hall]|(k & p' & -> & Hk & Hel & Hlt & Hall)].
      * left. split; [done|]. intros [|j] q Hq Helig; simpl in Hq.
        -- injection Hq as <-. rewrite Nat.add_0_r in Helig. auto.
        -- apply (Hall j); [done|]. by rewrite Hshift.
      * right. exists (S k), p'. rewrite <- Hshift.
        split; [done|]. split; [done|]. split; [done|]. split; [done|].
        intros [|j] q Hq Helig; simpl in Hq.
        -- injection Hq as <-. rewrite Nat.add_0_r in Helig.
           specialize (Hp Helig). split; lia.
        -- rewrite <- Hshift in Helig. destruct (Hall j q Hq Helig) as [H1 H2].
           split; [done|]. intros Hjk. apply H2. lia.
Qed.

Lemma sjf_select_spec (s : SJF.State) (next : nat) :
  SJF.select s = Some next ->
  exists p,
    SJF.temp s !! next = Some p /\
    sjf_eligible (SJF.current_time s) (SJF.is_completed s) next p /\
    burst_time p < 999999 /\
    forall j q,
      SJF.temp s !! j = Some q ->
      sjf_eligible (SJF.current_time s) (SJF.is_completed s) j q ->
      burst_time p <= burst_time q /\
      (burst_time q = burst_time p -> (next <= j)%nat).
Proof.
  unfold SJF.select. intros H.
  destruct (sjf_select_from_spec (SJF.temp s) 0 (SJF.current_time s)
              (SJF.is_completed s) None 999999)
    as [[Hn _]|(k & p & Hk & Hp & Hel & Hlt & Hall)]; [congruence|].
  rewrite Hk in H. injection H as <-. simpl in *.
  exists p. split; [done|]. split; [done|]. split; [done|].
  intros j q Hq Helig. destruct (Hall j q Hq Helig) as [H1 H2].
  split; [done|]. intros Heq.
  destruct (Nat.le_gt_cases k j) as [|Hjk]; [done|]. specialize (H2 Hjk). lia.
Qed.

Lemma sjf_step_dispatch (s : SJF.State) (next : nat) (p : Process) :
  SJF.select s = Some next ->
  SJF.temp s !! next = Some p ->
  SJF.step s =
    SJF.mkState
      (alter (SJF.run_to_completion (SJF.current_time s)) next (SJF.temp s))
      (SJF.current_time s + burst_time p)
      (S (SJF.completed s)) (SJF.context_switches s + 1)
      (<[next := true]> (SJF.is_completed s)).
Proof.
  intros Hsel Hp. unfold SJF.step. rewrite Hsel.
  by rewrite (list_lookup_total_correct _ _ _ Hp).
Qed.

Lemma sjf_step_inv (s : SJF.State) : sjf_inv s -> sjf_inv (SJF.step s).
Proof.
  intros [Hlen Hfl Hjobs Hflags].
  destruct (SJF.select s) as [next|] eqn:Hsel.
  - destruct (sjf_select_spec s next Hsel) as (p & Hp & [Harr Hflag] & _).
    pose proof (lookup_lt_Some _ _ _ Hp) as Hnext.
    pose proof (Forall_lookup_1 _ _ _ _ Hjobs Hp) as Hok.
    assert (0 < burst_time p) as Hb by (destruct Hok as [[_ Hb] _]; exact Hb).
    rewrite (sjf_step_dispatch s next p Hsel Hp).
    split; simpl; rewrite ?length_alter, ?length_insert; try done.
    + eapply Forall_alter_change; [exact Hjobs| |].
      * intros x. apply job_ok_mono. lia.
      * intros x Hx _. rewrite Hp in Hx. injection Hx as <-.
        by apply (job_ok_run_to_completion (SJF.current_time s)).
    + intros j q Hq. destruct (decide (next = j)) as [<-|Hne].
      * rewrite list_lookup_alter_eq, Hp in Hq. injection Hq as <-.
        by rewrite list_lookup_total_insert_eq by lia.
      * rewrite list_lookup_alter_ne in Hq by done.
        rewrite list_lookup_total_insert_ne by done. by apply Hflags.
  - unfold SJF.step. rewrite Hsel. split; simpl; try done.
    eapply Forall_impl; [exact Hjobs|]. intros x. apply job_ok_mono. lia.
Qed.

Lemma sjf_reachable_inv (proc : list Process) (s : SJF.State) :
  valid_registry proc -> SJF.reachable proc s -> sjf_inv s.
Proof.
  intros Hv Hreach. induction Hreach as [temp0 Hcopy|s _ IH _].
  - apply copy_in_Returned in Hcopy as [-> Hlen].
    apply mk_sjf_inv;
      cbn [SJF.temp SJF.current_time SJF.is_completed SJF.init].
    + done.
    + apply length_replicate.
    + by apply registry_job_ok.
    + intros j q Hq. rewrite lookup_total_replicate_2
        by (apply lookup_lt_Some in Hq; lia).
      destruct Hv as [_ Hjobs].
      pose proof (Forall_lookup_1 _ _ _ _ Hjobs Hq) as [[_ Hb] [Hr _]].
      split; [done|lia].
  - by apply sjf_step_inv.
Qed.

Lemma sjf_step_job_ok (s : SJF.State) :
  Forall (job_ok (SJF.current_time s)) (SJF.temp s) ->
  Forall (job_ok (SJF.current_time (SJF.step s))) (SJF.temp (SJF.step s)).
Proof.
  intros Hok. destruct (SJF.select s) as [next|] eqn:Hsel.
  - destruct (sjf_select_spec s next Hsel) as (p & Hp & [Harr _] & _).
    rewrite (sjf_step_dispatch s next p Hsel Hp). simpl.
    assert (0 < burst_time p) as Hb.
    { pose proof (Forall_lookup_1 _ _ _ _ Hok Hp) as [[_ Hb] _]. exact Hb. }
    eapply Forall_alter_change; [exact Hok| |].
    + intros x. apply job_ok_mono. lia.
    + intros x Hx Hxok. rewrite Hp in Hx. injection Hx as <-.
      by apply (job_ok_run_to_completion (SJF.current_time s)).
  - unfold SJF.step. rewrite Hsel. simpl.
    eapply Forall_impl; [exact Hok|]. intros x. apply job_ok_mono. lia.
Qed.

Lemma sjf_loop_job_ok (fuel n : nat) (s r : SJF.State) :
  SJF.loop fuel n s = Returned r ->
  Forall (job_ok (SJF.current_time s)) (SJF.temp s) ->
  Forall (job_ok (SJF.current_time r)) (SJF.temp r).
Proof.
  revert s. induction fuel as [|fuel IH]; intros s; simpl;
    destruct (SJF.completed s <? n)%nat; try done.
  - by intros [= <-].
  - intros H Hok. eapply IH; [exact H|]. by apply sjf_step_job_ok.
  - by intros [= <-].
Qed.

Lemma sjf_scheduling_job_ok (fuel : nat) (proc out : list Process) (m : Metrics) :
  valid_registry proc ->
  sjf_scheduling fuel proc = Returned (out, m) ->
  Forall (job_ok (total_time m)) out.
Proof.
  intros Hv H. unfold sjf_scheduling in H.
  apply bind_Returned in H as (s & Hrun & H). injection H as <- <-. simpl.
  unfold SJF.run in Hrun.
  apply bind_Returned in Hrun as (temp0 & Hcopy & Hloop).
  apply copy_in_Returned in Hcopy as [-> _].
  eapply sjf_loop_job_ok; [exact Hloop|]. simpl.
  by apply registry_job_ok.
Qed.

(** ** Round robin: the arrival scans *)

Lemma elem_of_indices_where (f : nat -> Process -> bool) (i : nat)
    (ps : list Process) (x : nat) :
  x ∈ indices_where f i ps <->
  exists k p, x = (i + k)%nat /\ ps !! k = Some p /\ f x p = true.
Proof.
  revert i. induction ps as [|q rest IH]; intros i; simpl.
  - split; [by intros ?%elem_of_nil|]. by intros (k & p & _ & Hk & _).
  - assert (x ∈ indices_where f (S i) rest <->
            exists k p, x = (i + S k)%nat /\ rest !! k = Some p /\ f x p = true)
      as IH'.
    { rewrite IH. split; intros (k & p & -> & Hk & Hf); exists k, p;
        (split; [lia|done]). }
    assert ((exists k p, x = (i + k)%nat /\ (q :: rest) !! k = Some p /\ f x p = true)
            <-> (x = i /\ f i q = true) \/ x ∈ indices_where f (S i) rest) as ->.
    { rewrite IH'. split.
      - intros ([|k] & p & -> & Hk & Hf); simpl in Hk.
        + injection Hk as <-. left. rewrite Nat.add_0_r in *. done.
        + right. by exists k, p.
      - intros [[-> Hf]|(k & p & -> & Hk & Hf)].
        + exists 0%nat, q. by rewrite Nat.add_0_r.
        + by exists (S k), p. }
    destruct (f i q) eqn:E.
    + rewrite elem_of_cons. intuition congruence.
    + intuition congruence.
Qed.

Lemma indices_where_ge (f : nat -> Process -> bool) (i : nat)
    (ps : list Process) (x : nat) :
  x ∈ indices_where f i ps -> (i <= x < i + length ps)%nat.
Proof.
  intros (k & p & -> & Hk & _)%elem_of_indices_where.
  apply lookup_lt_Some in Hk. lia.
Qed.

Lemma NoDup_indices_where (f : nat -> Process -> bool) (i : nat)
    (ps : list Process) :
  NoDup (indices_where f i ps).
Proof.
  revert i. induction ps as [|q rest IH]; intros i; simpl; [constructor|].
  destruct (f i q); [|done]. apply NoDup_cons. split; [|done].
  intros Hi%indices_where_ge. lia.
Qed.

Lemma indices_where_ext (f g : nat -> Process -> bool) (i : nat)
    (ps : list Process) :
  (forall k p, ps !! k = Some p -> f (i + k)%nat p = g (i + k)%nat p) ->
  indices_where f i ps = indices_where g i ps.
Proof.
  revert i. induction ps as [|q rest IH]; intros i Hfg; simpl; [done|].
  rewrite (IH (S i)).
  - specialize (Hfg 0%nat q eq_refl). rewrite Nat.add_0_r in Hfg. by rewrite Hfg.
  - intros k p Hk. replace (S i + k)%nat with (i + S k)%nat by lia.
    by apply Hfg.
Qed.

Lemma rr_enqueue_spec (i : nat) (s s' : RR.State) :
  RR.enqueue i s = Returned s' ->
  (RR.rear s < MAX_PROCESSES)%nat /\
  s' = RR.mkState (RR.temp s) (RR.current_time s) (RR.completed s)
         (RR.context_switches s) (<[RR.rear s := i]> (RR.queue s))
         (RR.front s) (S (RR.rear s)) (<[i := true]> (RR.in_queue s)).
Proof.
  unfold RR.enqueue.
  destruct (Nat.ltb_spec (RR.rear s) MAX_PROCESSES); [|done].
  by intros [= <-].
Qed.

Lemma take_rear_insert (q : list nat) (r i : nat) :
  (r < length q)%nat -> take (S r) (<[r := i]> q) = take r q ++ [i].
Proof.
  intros Hr. rewrite (take_S_r _ _ i) by (by apply list_lookup_insert_eq).
  by rewrite take_insert_ge.
Qed.

Lemma rr_scan_spec (cond : nat -> Process -> RR.State -> bool)
    (ps : list Process) (i : nat) (s s' : RR.State) :
  scan_condition cond ->
  length (RR.queue s) = MAX_PROCESSES ->
  RR.scan cond i ps s = Returned s' ->
  let L := indices_where (fun j p => cond j p s) i ps in
  RR.temp s' = RR.temp s /\
  RR.current_time s' = RR.current_time s /\
  RR.completed s' = RR.completed s /\
  RR.context_switches s' = RR.context_switches s /\
  RR.front s' = RR.front s /\
  length (RR.queue s') = MAX_PROCESSES /\
  length (RR.in_queue s') = length (RR.in_queue s) /\
  (RR.rear s <= RR.rear s')%nat /\
  ((RR.rear s <= MAX_PROCESSES)%nat -> (RR.rear s' <= MAX_PROCESSES)%nat) /\
  take (RR.rear s') (RR.queue s') = take (RR.rear s) (RR.queue s) ++ L /\
  (forall j, (j < length (RR.in_queue s))%nat ->
     (RR.in_queue s' !!! j = true <-> RR.in_queue s !!! j = true \/ j ∈ L)).
Proof.
  intros Hcond. revert i s. induction ps as [|p rest IH]; intros i s Hq; simpl.
  - intros [= <-]. rewrite app_nil_r. repeat split; try done.
    + by left.
    + intros [?|?%elem_of_nil]; done.
  - destruct (cond i p s) eqn:E.
    + intros H. apply bind_Returned in H as (s1 & Henq & H).
      apply rr_enqueue_spec in Henq as [Hr ->].
      apply IH in H; [|by simpl; rewrite length_insert].
      simpl in H. destruct H as (-> & -> & -> & -> & -> & Hlen & Hlen' & Hle & Hmax & Htake & Hin).
      rewrite length_insert in Hlen', Hin.
      rewrite take_rear_insert in Htake by lia.
      rewrite (indices_where_ext _ (fun j q => cond j q s)) in Htake, Hin.
      2,3: intros k q _; apply Hcond; simpl; [done|];
           apply list_lookup_total_insert_ne; lia.
      repeat split; try done; try lia.
      * by rewrite Htake, <- app_assoc.
      * rewrite (Hin j H). intros [Hj|Hj]; [|right; apply elem_of_cons; by right].
        destruct (decide (i = j)) as [->|Hne]; [right; apply elem_of_cons; by left|].
        left. by rewrite list_lookup_total_insert_ne in Hj.
      * rewrite (Hin j H). intros [Hj|Hj].
        -- left. destruct (decide (i = j)) as [->|Hne].
           ++ by rewrite list_lookup_total_insert_eq.
           ++ by rewrite list_lookup_total_insert_ne.
        -- apply elem_of_cons in Hj as [->|Hj]; [|by right].
           left. by rewrite list_lookup_total_insert_eq.
    + intros H. by apply IH in H.
Qed.

Lemma arrives_at_zero_condition : scan_condition RR.arrives_at_zero.
Proof. by intros j p s1 s2 _ _. Qed.

Lemma arrived_condition (skip : option nat) : scan_condition (RR.arrived skip).
Proof. intros j p s1 s2 Ht Hq. unfold RR.arrived. by rewrite Ht, Hq. Qed.

Lemma arrived_true (skip : option nat) (j : nat) (p : Process) (s : RR.State) :
  RR.arrived skip j p s = true <->
  arrival_time p <= RR.current_time s /\ 0 < remaining_time p /\
  RR.in_queue s !!! j = false /\ skip <> Some j.
Proof.
  unfold RR.arrived. rewrite !andb_true_iff, !negb_true_iff.
  rewrite Z.leb_le, Z.ltb_lt, bool_decide_eq_false. tauto.
Qed.

(** ** Round robin: the ready queue *)

Ltac rr_simpl :=
  cbn [RR.temp RR.current_time RR.completed RR.context_switches RR.queue
       RR.front RR.rear RR.in_queue RR.init] in *.

Lemma pending_append (q : list nat) (front rear : nat) (L : list nat) :
  (front <= rear <= length q)%nat ->
  drop front (take rear q ++ L) = drop front (take rear q) ++ L.
Proof. intros H. apply drop_app_le. rewrite length_take. lia. Qed.

Lemma pending_empty (s : RR.State) :
  RR.front s = RR.rear s -> RR.pending s = [].
Proof.
  intros H. unfold RR.pending. apply drop_ge. rewrite length_take. lia.
Qed.

Lemma pending_head (s : RR.State) :
  (RR.front s < RR.rear s <= length (RR.queue s))%nat ->
  RR.pending s =
    RR.queue s !!! RR.front s
    :: drop (S (RR.front s)) (take (RR.rear s) (RR.queue s)).
Proof.
  intros H. unfold RR.pending. apply drop_S.
  rewrite lookup_take_lt by lia. apply list_lookup_lookup_total.
  apply lookup_lt_is_Some. lia.
Qed.

Lemma rr_start_inv (proc : list Process) (s0 : RR.State) :
  valid_registry proc -> RR.start proc = Returned s0 -> rr_inv s0.
Proof.
  intros Hv H. unfold RR.start in H.
  rewrite copy_in_fits in H by apply Hv. simpl in H.
  pose proof (rr_scan_spec _ _ _ _ _ arrives_at_zero_condition
                (length_replicate _ _ : length (RR.queue (RR.init proc)) = _) H)
    as (Htemp & Ht & _ & _ & Hfront & Hql & Hil & _ & Hmax & Htake & Hin).
  rr_simpl. rewrite length_replicate in Hil, Hin.
  set (L := indices_where (fun _ p => arrival_time p =? 0) 0 proc) in *.
  assert (RR.pending s0 = L) as Hpend.
  { unfold RR.pending. by rewrite Hfront, Htake. }
  assert (forall j, (j < MAX_PROCESSES)%nat ->
            (RR.in_queue s0 !!! j = true <-> j ∈ L)) as Hin'.
  { intros j Hj. rewrite (Hin j Hj), lookup_total_replicate_2 by done.
    intuition discriminate. }
  destruct Hv as [Hlen Hjobs].
  split; rewrite ?Hpend, ?Htemp, ?Ht, ?Hfront; try done.
  - lia.
  - by apply registry_job_ok.
  - apply NoDup_indices_where.
  - intros i Hi%indices_where_ge. lia.
  - intros i Hi. apply Hin'. lia.
  - intros i p Hp. rewrite Hin' by (apply lookup_lt_Some in Hp; lia).
    pose proof (Forall_lookup_1 _ _ _ _ Hjobs Hp) as [[Ha Hb] [Hr _]].
    unfold L. rewrite elem_of_indices_where. split.
    + intros (k & p' & Hik & Hk & Hz). simpl in Hik. subst k.
      rewrite Hp in Hk. injection Hk as <-. apply Z.eqb_eq in Hz. lia.
    + intros [Hle _]. exists i, p. split; [done|]. split; [done|].
      apply Z.eqb_eq. lia.
Qed.

Lemma rr_idle_spec (s s' : RR.State) :
  rr_inv s -> RR.front s = RR.rear s -> RR.idle s = Returned s' ->
  rr_inv s' /\
  RR.temp s' = RR.temp s /\
  RR.current_time s' = RR.current_time s + 1 /\
  RR.completed s' = RR.completed s.
Proof.
  intros Hinv Hfr H. unfold RR.idle in H.
  pose proof (pending_empty s Hfr) as Hempty.
  destruct Hinv as [Hlen Hql Hil Hfrm Hjobs Hnd Hpend Hinq Hready].
  rewrite Hempty in Hinq.
  apply rr_scan_spec in H
    as (Htemp & Ht & Hc & _ & Hfront & Hql' & Hil' & _ & Hmax & Htake & Hin);
    [|apply arrived_condition|exact Hql].
  rr_simpl.
  set (s1 := RR.mkState _ _ _ _ _ _ _ _) in *.
  set (L := indices_where (fun j p => RR.arrived None j p s1) 0 (RR.temp s)) in *.
  assert (RR.pending s' = L) as Hpend'.
  { unfold RR.pending. rewrite Hfront, Htake, pending_append by lia.
    fold (RR.pending s). by rewrite Hempty. }
  assert (forall j, (j < length (RR.temp s))%nat ->
            (RR.in_queue s' !!! j = true <-> j ∈ L)) as Hin'.
  { intros j Hj. rewrite Hin by lia. rewrite Hinq by done.
    split; [intros [?%elem_of_nil|?]; done|by right]. }
  split; [|by rewrite Htemp, Ht, Hc].
  split; rewrite ?Hpend', ?Htemp, ?Ht, ?Hfront; try done.
  - lia.
  - split; [|apply Hmax; lia]. subst L.
    assert (RR.rear s <= RR.rear s')%nat; [|lia].
    apply (f_equal length) in Htake.
    rewrite length_app, !length_take in Htake. lia.
  - eapply Forall_impl; [exact Hjobs|]. intros x. apply job_ok_mono. lia.
  - apply NoDup_indices_where.
  - intros i Hi%indices_where_ge. lia.
  - intros i p Hp. pose proof (lookup_lt_Some _ _ _ Hp) as Hi.
    rewrite Hin' by done. unfold L. rewrite elem_of_indices_where. split.
    + intros (k & p' & Hik & Hk & Hz). simpl in Hik. subst k.
      rewrite Hp in Hk. injection Hk as <-.
      apply arrived_true in Hz. simpl in Hz. tauto.
    + intros [Ha Hr]. exists i, p. split; [done|]. split; [done|].
      apply arrived_true. simpl. repeat split; try done.
      destruct (RR.in_queue s !!! i) eqn:E; [|done].
      apply Hinq in E; [|done]. by apply elem_of_nil in E.
Qed.

Lemma indices_where_ext2 (f g : nat -> Process -> bool) (i : nat)
    (ps qs : list Process) :
  length ps = length qs ->
  (forall k p q, ps !! k = Some p -> qs !! k = Some q ->
                 f (i + k)%nat p = g (i + k)%nat q) ->
  indices_where f i ps = indices_where g i qs.
Proof.
  revert i qs. induction ps as [|p ps IH]; intros i [|q qs] Hlen Hfg;
    simpl in *; try done.
  rewrite (IH (S i) qs).
  - specialize (Hfg 0%nat p q eq_refl eq_refl). rewrite Nat.add_0_r in Hfg.
    by rewrite Hfg.
  - lia.
  - intros k p' q' Hp' Hq'. replace (S i + k)%nat with (i + S k)%nat by lia.
    by apply Hfg.
Qed.

Lemma elem_of_arrivals_within (t t1 : Z) (temp : list Process) (i : nat) :
  i ∈ arrivals_within t t1 temp <->
  exists q, temp !! i = Some q /\ t < arrival_time q <= t1.
Proof.
  unfold arrivals_within. rewrite elem_of_indices_where. split.
  - intros (k & q & Hik & Hk & Hc). simpl in Hik. subst k. exists q.
    apply andb_prop in Hc as [H1%Z.ltb_lt H2%Z.leb_le]. by split.
  - intros (q & Hq & H1 & H2). exists i, q. split; [done|]. split; [done|].
    apply andb_true_intro. split; [by apply Z.ltb_lt|by apply Z.leb_le].
Qed.

(** A job that has not arrived yet still needs its whole burst. *)
Lemma job_ok_not_arrived (t : Z) (q : Process) :
  job_ok t q -> t < arrival_time q -> 0 < remaining_time q.
Proof. job_ok_crush. Qed.

(** The jobs that the scan after an execution enqueues are those that
    arrived during the execution. *)
Lemma rr_scan_after_execution (s : RR.State) (idx : nat) (p : Process)
    (temp2 : list Process) (f : Process -> Process) (s2 : RR.State) (t1 : Z) :
  rr_inv s ->
  RR.temp s !! idx = Some p -> arrival_time p <= RR.current_time s ->
  temp2 = alter f idx (RR.temp s) ->
  RR.current_time s2 = t1 ->
  RR.in_queue s2 = <[idx := false]> (RR.in_queue s) ->
  indices_where (fun j q => RR.arrived (Some idx) j q s2) 0 temp2
  = arrivals_within (RR.current_time s) t1 (RR.temp s).
Proof.
  intros Hinv Hp Harr -> Ht2 Hq2. unfold arrivals_within.
  apply indices_where_ext2; [by rewrite length_alter|].
  intros k q2 q Hq2' Hq. simpl.
  destruct (decide (k = idx)) as [->|Hne].
  - rewrite Hp in Hq. injection Hq as <-.
    unfold RR.arrived. rewrite bool_decide_eq_true_2 by done.
    rewrite andb_false_r. symmetry. apply andb_false_intro1.
    apply Z.ltb_ge. lia.
  - rewrite list_lookup_alter_ne, Hq in Hq2' by done. injection Hq2' as <-.
    apply eq_true_iff_eq. rewrite arrived_true, Ht2, Hq2.
    rewrite list_lookup_total_insert_ne by done.
    rewrite andb_true_iff, Z.ltb_lt, Z.leb_le.
    pose proof (inv_ready s Hinv k q Hq) as Hready.
    pose proof (Forall_lookup_1 _ _ _ _ (inv_jobs s Hinv) Hq) as Hok.
    pose proof (job_ok_not_arrived _ _ Hok) as Hna.
    destruct (RR.in_queue s !!! k) eqn:E.
    + assert (arrival_time q <= RR.current_time s) by (by apply Hready).
      split; [by intros (_ & _ & ? & _)|lia].
    + split.
      * intros (H1 & H2 & _ & _). split; [|done].
        destruct (Z.lt_ge_cases (RR.current_time s) (arrival_time q)); [done|].
        assert (false = true); [|done]. apply Hready. lia.
      * intros [H1 H2]. repeat split; auto. congruence.
Qed.

Lemma rr_serve_unfold (s : RR.State) (p : Process) :
  let idx := RR.queue s !!! RR.front s in
  RR.temp s !! idx = Some p ->
  let t := RR.current_time s in
  let e := if TIME_QUANTUM <? remaining_time p then TIME_QUANTUM
           else remaining_time p in
  let G := fun q =>
    let q1 := if start_time q =? -1 then mark_started t q else q in
    set_remaining_time (remaining_time q1 - e) q1 in
  RR.serve s =
    RR.scan (RR.arrived (Some idx)) 0 (alter G idx (RR.temp s))
      (RR.mkState (alter G idx (RR.temp s)) (t + e) (RR.completed s)
         (RR.context_switches s + 1) (RR.queue s) (S (RR.front s))
         (RR.rear s) (<[idx := false]> (RR.in_queue s)))
    ≫= fun s3 =>
      if remaining_time (RR.temp s3 !!! idx) =? 0 then
        Returned (RR.mkState (alter (mark_completed (t + e)) idx (RR.temp s3))
                    (t + e) (S (RR.completed s3)) (RR.context_switches s3)
                    (RR.queue s3) (RR.front s3) (RR.rear s3) (RR.in_queue s3))
      else RR.enqueue idx s3.
Proof.
  intros idx Hp t e G. unfold RR.serve. fold idx. fold t.
  rewrite (list_lookup_total_correct _ _ _ Hp).
  set (temp1 := if start_time p =? -1
                then alter (mark_started t) idx (RR.temp s) else RR.temp s).
  set (p1 := if start_time p =? -1 then mark_started t p else p).
  assert (temp1 !! idx = Some p1) as Hp1.
  { subst temp1 p1. destruct (start_time p =? -1); [|done].
    by rewrite list_lookup_alter_eq, Hp. }
  assert (remaining_time p1 = remaining_time p) as Hr1
    by (subst p1; by destruct (start_time p =? -1)).
  rewrite (list_lookup_total_correct _ _ _ Hp1), Hr1. fold e.
  assert (alter (fun q => set_remaining_time (remaining_time q - e) q) idx temp1
          = alter G idx (RR.temp s)) as ->; [|done].
  subst temp1 G. destruct (start_time p =? -1) eqn:E.
  - rewrite alter_alter. apply list_alter_ext; [|done].
    intros x Hx. rewrite Hp in Hx. injection Hx as <-. simpl. by rewrite E.
  - apply list_alter_ext; [|done].
    intros x Hx. rewrite Hp in Hx. injection Hx as <-. simpl. by rewrite E.
Qed.

Lemma lookup_total_insert_bool (l : list bool) (i j : nat) (b : bool) :
  (i < length l)%nat ->
  (<[i := b]> l !!! j = true <->
   (i = j /\ b = true) \/ (i <> j /\ l !!! j = true)).
Proof.
  intros Hi. destruct (decide (i = j)) as [->|Hne].
  - rewrite list_lookup_total_insert_eq by done. intuition.
  - rewrite list_lookup_total_insert_ne by done. intuition.
Qed.

Lemma rr_serve_spec (s s' : RR.State) :
  rr_inv s -> RR.front s <> RR.rear s -> RR.serve s = Returned s' ->
  exists (idx : nat) (p : Process) (rest : list nat),
    RR.pending s = idx :: rest /\
    RR.temp s !! idx = Some p /\
    arrival_time p <= RR.current_time s /\ 0 < remaining_time p /\
    let t := RR.current_time s in
    let e := if TIME_QUANTUM <? remaining_time p then TIME_QUANTUM
             else remaining_time p in
    let F := fun q =>
      let q1 := if start_time q =? -1 then mark_started t q else q in
      let q2 := set_remaining_time (remaining_time q1 - e) q1 in
      if remaining_time p - e =? 0 then mark_completed (t + e) q2 else q2 in
    RR.temp s' = alter F idx (RR.temp s) /\
    RR.current_time s' = t + e /\
    RR.completed s' =
      (if remaining_time p - e =? 0 then S (RR.completed s)
       else RR.completed s) /\
    RR.context_switches s' = RR.context_switches s + 1 /\
    RR.pending s' =
      rest ++ arrivals_within t (t + e) (RR.temp s)
           ++ (if remaining_time p - e =? 0 then [] else [idx]) /\
    rr_inv s'.
Proof.
  intros Hinv Hfr H.
  pose proof Hinv as [Hlen Hql Hil Hfrm Hjobs Hnd Hpend Hinq Hready].
  assert (RR.front s < RR.rear s <= length (RR.queue s))%nat as Hlt by lia.
  pose proof (pending_head s Hlt) as Hhead.
  set (idx := RR.queue s !!! RR.front s) in *.
  set (rest := drop (S (RR.front s)) (take (RR.rear s) (RR.queue s))) in *.
  assert (idx ∈ RR.pending s) as Hidx
    by (rewrite Hhead; apply elem_of_cons; by left).
  pose proof (Hpend idx Hidx) as Hidxlt.
  destruct (lookup_lt_is_Some_2 _ _ Hidxlt) as [p Hp].
  assert (arrival_time p <= RR.current_time s /\ 0 < remaining_time p)
    as [Harr Hrem].
  { apply (Hready idx p Hp). by apply Hinq. }
  exists idx, p, rest.
  split; [done|]. split; [done|]. split; [done|]. split; [done|].
  intros t e F.
  rewrite (rr_serve_unfold s p Hp) in H. fold idx t e in H.
  set (G := fun q : Process => _) in H.
  set (temp2 := alter G idx (RR.temp s)) in H.
  apply bind_Returned in H as (s3 & Hscan & H).
  apply rr_scan_spec in Hscan
    as (Htemp3 & Ht3 & Hc3 & Hcs3 & Hfront3 & Hql3 & Hil3 & Hrear3 & Hmax3
        & Htake3 & Hin3);
    [|apply arrived_condition|exact Hql].
  rr_simpl.
  rewrite (rr_scan_after_execution s idx p temp2 G _ (t + e) Hinv Hp Harr)
    in Htake3, Hin3 by done.
  fold t in Htake3, Hin3.
  set (W := arrivals_within t (t + e) (RR.temp s)) in *.
  rewrite length_insert in Hil3, Hin3.
  assert (0 < e <= remaining_time p) as He.
  { subst e. unfold TIME_QUANTUM.
    destruct (Z.ltb_spec 4 (remaining_time p)); lia. }
  assert (temp2 !! idx = Some (G p)) as Hp2
    by (subst temp2; by rewrite list_lookup_alter_eq, Hp).
  assert (remaining_time (G p) = remaining_time p - e) as HrG.
  { subst G. simpl. by destruct (start_time p =? -1). }
  rewrite Htemp3, (list_lookup_total_correct _ _ _ Hp2), HrG in H.
  set (tailq := if remaining_time p - e =? 0 then [] else [idx]).
  assert (RR.temp s' = alter F idx (RR.temp s) /\
          RR.current_time s' = t + e /\
          RR.completed s' =
            (if remaining_time p - e =? 0 then S (RR.completed s)
             else RR.completed s) /\
          RR.context_switches s' = RR.context_switches s + 1 /\
          RR.front s' = S (RR.front s) /\
          length (RR.queue s') = MAX_PROCESSES /\
          length (RR.in_queue s') = MAX_PROCESSES /\
          (RR.rear s' <= MAX_PROCESSES)%nat /\
          take (RR.rear s') (RR.queue s')
            = take (RR.rear s) (RR.queue s) ++ W ++ tailq /\
          (forall j, (j < MAX_PROCESSES)%nat ->
             (RR.in_queue s' !!! j = true <->
              (j <> idx /\ RR.in_queue s !!! j = true) \/ j ∈ W \/ j ∈ tailq)))
    as (Htemp' & Ht' & Hc' & Hcs' & Hfront' & Hql' & Hil' & Hrear' & Htake' & Hin').
  { assert (forall j, (j < MAX_PROCESSES)%nat ->
              (RR.in_queue s3 !!! j = true <->
               (j <> idx /\ RR.in_queue s !!! j = true) \/ j ∈ W)) as Hin3'.
    { intros j Hj. rewrite Hin3 by lia.
      rewrite lookup_total_insert_bool by lia. intuition congruence. }
    subst tailq F. destruct (Z.eqb_spec (remaining_time p - e) 0) as [E|E].
    - injection H as <-. rr_simpl. subst temp2.
      rewrite alter_alter, app_nil_r.
      repeat split; try done; try lia.
      + intros Hj. apply Hin3' in Hj; [|done]. tauto.
      + intros Hj. apply Hin3'; [done|].
        destruct Hj as [?|[?|?%elem_of_nil]]; tauto.
    - apply rr_enqueue_spec in H as [Hr ->]. rr_simpl.
      rewrite !length_insert, take_rear_insert, Htake3, <- app_assoc by lia.
      repeat split; try done; try lia.
      + intros Hj. apply lookup_total_insert_bool in Hj; [|lia].
        destruct Hj as [[-> _]|[Hne Hj]].
        * right; right. apply elem_of_cons; by left.
        * apply Hin3' in Hj; [|done]. tauto.
      + intros Hj. apply lookup_total_insert_bool; [lia|].
        destruct (decide (idx = j)) as [->|Hne]; [by left|]. right.
        split; [done|]. apply Hin3'; [done|].
        destruct Hj as [?|[?|Hj]]; [tauto|tauto|].
        apply list_elem_of_singleton in Hj. congruence. }
  assert (RR.pending s' = rest ++ W ++ tailq) as Hpend'.
  { unfold RR.pending. rewrite Hfront', Htake', pending_append by lia. done. }
  do 5 (split; [done|]).
  assert (forall x, x ∈ rest -> x ∈ RR.pending s /\ x <> idx) as Hrest.
  { intros x Hx. rewrite Hhead in Hnd |- *. apply NoDup_cons in Hnd as [Hni _].
    split; [apply elem_of_cons; by right|]. by intros ->. }
  assert (forall x, x ∈ tailq <-> x = idx /\ remaining_time p - e <> 0) as Htail.
  { intros x. subst tailq. destruct (Z.eqb_spec (remaining_time p - e) 0).
    - split; [by intros ?%elem_of_nil|tauto].
    - rewrite list_elem_of_singleton. tauto. }
  assert (forall x, x ∈ W ->
            (x < length (RR.temp s))%nat /\ x <> idx /\
            RR.in_queue s !!! x = false) as HW.
  { intros x (q & Hq & Hq1 & Hq2)%elem_of_arrivals_within.
    split; [by eapply lookup_lt_Some|]. split.
    - intros ->. rewrite Hp in Hq. injection Hq as <-. lia.
    - destruct (RR.in_queue s !!! x) eqn:Eq; [|done].
      apply (Hready x q Hq) in Eq. lia. }
  assert (job_ok (t + e) (F p) /\ arrival_time (F p) = arrival_time p /\
          remaining_time (F p) = remaining_time p - e) as (HokF & HaF & HrF).
  { pose proof (Forall_lookup_1 _ _ _ _ Hjobs Hp) as Hok.
    subst F. cbv beta zeta.
    set (q1 := if start_time p =? -1 then mark_started t p else p).
    destruct (job_ok_dispatched t p Hok Harr) as (Hok1 & Hs1 & Ha1 & Hr1).
    fold q1 in Hok1, Hs1, Ha1, Hr1.
    destruct (Z.eqb_spec (remaining_time p - e) 0) as [E|E].
    - split; [|by simpl]. apply job_ok_finish; auto; lia.
    - split; [|by simpl]. apply job_ok_serve; auto; lia. }
  split; rewrite ?Hpend', ?Htemp', ?Ht', ?Hfront', ?length_alter; try done.
  - split; [|done]. apply (f_equal length) in Htake'.
    rewrite length_app, !length_take in Htake'. lia.
  - eapply Forall_alter_change; [exact Hjobs| |].
    + intros x. apply job_ok_mono. lia.
    + intros x Hx _. rewrite Hp in Hx. by injection Hx as <-.
  - rewrite Hhead in Hnd. apply NoDup_cons in Hnd as [_ Hnd].
    apply NoDup_app. split; [done|]. split.
    + intros x Hx [HxW|Hxt]%elem_of_app.
      * destruct (Hrest x Hx) as [Hxp _]. destruct (HW x HxW) as (Hlt' & _ & Hf).
        apply Hinq in Hxp; [|done]. congruence.
      * apply Htail in Hxt as [-> _]. by destruct (Hrest idx Hx).
    + apply NoDup_app. split; [apply NoDup_indices_where|]. split.
      * intros x HxW [-> _]%Htail. by destruct (HW idx HxW) as (_ & ? & _).
      * subst tailq. destruct (remaining_time p - e =? 0);
          [constructor|apply NoDup_singleton].
  - intros i [Hi|[Hi|Hi]%elem_of_app]%elem_of_app.
    + apply Hpend. by apply Hrest.
    + by apply HW.
    + by apply Htail in Hi as [-> _].
  - intros i Hi. rewrite Hin' by lia. rewrite !elem_of_app. split.
    + intros [[Hne Hq]|[?|?]]; [left|tauto|tauto].
      apply Hinq in Hq; [|done]. rewrite Hhead in Hq.
      apply elem_of_cons in Hq as [?|?]; done.
    + intros [Hr|[?|?]]; [left|tauto|tauto].
      destruct (Hrest i Hr) as [Hr1 Hr2]. split; [done|]. by apply Hinq.
  - intros i q Hq. pose proof (lookup_lt_Some _ _ _ Hq) as Hi.
    rewrite length_alter in Hi. rewrite Hin' by lia.
    destruct (decide (i = idx)) as [->|Hne].
    + rewrite list_lookup_alter_eq, Hp in Hq. injection Hq as <-.
      rewrite HaF, HrF, Htail. split.
      * intros [[? _]|[HxW|[_ ?]]]; [done| |lia].
        by destruct (HW idx HxW) as (_ & ? & _).
      * intros [_ ?]. right; right. split; [done|lia].
    + rewrite list_lookup_alter_ne in Hq by done.
      pose proof (Hready i q Hq) as Hr.
      pose proof (Forall_lookup_1 _ _ _ _ Hjobs Hq) as Hok.
      pose proof (job_ok_not_arrived _ _ Hok) as Hna.
      unfold W. rewrite elem_of_arrivals_within, Htail. split.
      * intros [[_ Hiq]|[(q' & Hq' & H1 & H2)|[? _]]]; [|  |done].
        -- apply Hr in Hiq. lia.
        -- rewrite Hq in Hq'. injection Hq' as <-. split; [lia|]. apply Hna. lia.
      * intros [H1 H2].
        destruct (Z.le_gt_cases (arrival_time q) t) as [Hle|Hgt].
        -- left. split; [done|]. apply Hr. by split.
        -- right; left. exists q. split; [done|lia].
Qed.

Lemma rr_step_inv (s s' : RR.State) :
  rr_inv s -> RR.step s = Returned s' -> rr_inv s'.
Proof.
  intros Hinv H. unfold RR.step in H. case_decide.
  - by apply (rr_idle_spec s s').
  - destruct (rr_serve_spec s s' Hinv) as (idx & p & rest & Hs); try done.
    apply Hs.
Qed.

Lemma rr_reachable_inv (proc : list Process) (s : RR.State) :
  valid_registry proc -> RR.reachable proc s -> rr_inv s.
Proof.
  intros Hv Hreach. induction Hreach as [s0 H0|s s' _ IH _ Hstep].
  - by eapply rr_start_inv.
  - by eapply rr_step_inv.
Qed.

Lemma rr_loop_reachable (proc : list Process) (fuel : nat) (s r : RR.State) :
  RR.reachable proc s ->
  RR.loop fuel (length proc) s = Returned r ->
  RR.reachable proc r.
Proof.
  revert s. induction fuel as [|fuel IH]; intros s Hreach; simpl;
    destruct (Nat.ltb_spec (RR.completed s) (length proc)) as [Hlt|Hge];
    try done.
  - by intros [= <-].
  - intros H. apply bind_Returned in H as (s' & Hstep & H).
    eapply IH; [|exact H]. by eapply RR.reach_step.
  - by intros [= <-].
Qed.

Lemma rr_run_reachable (proc : list Process) (fuel : nat) (r : RR.State) :
  RR.run fuel proc = Returned r -> RR.reachable proc r.
Proof.
  unfold RR.run. intros H. apply bind_Returned in H as (s0 & Hstart & H).
  eapply rr_loop_reachable; [|exact H]. by apply RR.reach_start.
Qed.

Lemma round_robin_scheduling_job_ok (fuel : nat) (proc out : list Process)
    (m : Metrics) :
  valid_registry proc ->
  round_robin_scheduling fuel proc = Returned (out, m) ->
  Forall (job_ok (total_time m)) out.
Proof.
  intros Hv H. unfold round_robin_scheduling in H.
  apply bind_Returned in H as (s & Hrun & H). injection H as <- <-. simpl.
  apply inv_jobs. eapply rr_reachable_inv; [exact Hv|].
  by eapply rr_run_reachable.
Qed.

(** ** Round robin: the length of a service *)

Lemma quantum_min (r : Z) :
  (if TIME_QUANTUM <? r then TIME_QUANTUM else r) = Z.min r TIME_QUANTUM.
Proof. unfold TIME_QUANTUM. destruct (Z.ltb_spec 4 r); lia. Qed.

(** ** What never changes: identity, priority, arrival and burst *)

Lemma descriptor_mark_started (t : Z) (p : Process) :
  descriptor (mark_started t p) = descriptor p.
Proof. done. Qed.

Lemma descriptor_mark_completed (t : Z) (p : Process) :
  descriptor (mark_completed t p) = descriptor p.
Proof. done. Qed.

Lemma descriptor_set_remaining_time (v : Z) (p : Process) :
  descriptor (set_remaining_time v p) = descriptor p.
Proof. done. Qed.

Lemma priority_step_descriptor (s s' : Priority.State) :
  Priority.step s = Returned s' ->
  map descriptor (Priority.temp s') = map descriptor (Priority.temp s).
Proof.
  intros Hstep.
  destruct (priority_step_spec s s' Hstep)
    as (_ & [(_ & -> & _)|(next & p & q & Hp & _ & _ & Hq & -> & _)]); [done|].
  apply (map_descriptor_insert _ _ _ p Hp).
  subst q. case_decide;
    by destruct (remaining_time p - 1 =? 0), (start_time p =? -1).
Qed.

Lemma priority_loop_descriptor (fuel n : nat) (s r : Priority.State) :
  Priority.loop fuel n s = Returned r ->
  map descriptor (Priority.temp r) = map descriptor (Priority.temp s).
Proof.
  revert s. induction fuel as [|fuel IH]; intros s; simpl;
    destruct (Priority.completed s <? n)%nat; try done.
  - by intros [= <-].
  - intros H. apply bind_Returned in H as (s' & Hstep & H).
    rewrite (IH _ H). by apply priority_step_descriptor.
  - by intros [= <-].
Qed.

Lemma sjf_step_descriptor (s : SJF.State) :
  map descriptor (SJF.temp (SJF.step s)) = map descriptor (SJF.temp s).
Proof.
  unfold SJF.step. destruct (SJF.select s); [|done]. simpl.
  by apply map_descriptor_alter.
Qed.

Lemma sjf_loop_descriptor (fuel n : nat) (s r : SJF.State) :
  SJF.loop fuel n s = Returned r ->
  map descriptor (SJF.temp r) = map descriptor (SJF.temp s).
Proof.
  revert s. induction fuel as [|fuel IH]; intros s; simpl;
    destruct (SJF.completed s <? n)%nat; try done.
  - by intros [= <-].
  - intros H. rewrite (IH _ H). apply sjf_step_descriptor.
  - by intros [= <-].
Qed.

Lemma rr_scan_temp (cond : nat -> Process -> RR.State -> bool) (i : nat)
    (ps : list Process) (s s' : RR.State) :
  RR.scan cond i ps s = Returned s' -> RR.temp s' = RR.temp s.
Proof.
  revert i s. induction ps as [|p rest IH]; intros i s; simpl.
  - by intros [= <-].
  - destruct (cond i p s); [|apply IH].
    intros H. apply bind_Returned in H as (s1 & Henq & H).
    apply rr_enqueue_spec in Henq as [_ ->]. by apply IH in H.
Qed.

Lemma rr_step_descriptor (s s' : RR.State) :
  RR.step s = Returned s' ->
  map descriptor (RR.temp s') = map descriptor (RR.temp s).
Proof.
  unfold RR.step. case_decide as Hd; clear Hd.
  - unfold RR.idle. intros H. by rewrite (rr_scan_temp _ _ _ _ _ H).
  - unfold RR.serve. intros H. apply bind_Returned in H as (s3 & Hscan & H).
    apply rr_scan_temp in Hscan. simpl in Hscan.
    assert (map descriptor (RR.temp s3) = map descriptor (RR.temp s)) as Hd.
    { rewrite Hscan, map_descriptor_alter by done.
      destruct (start_time _ =? -1); [|done]. by apply map_descriptor_alter. }
    destruct (remaining_time (RR.temp s3 !!! _) =? 0).
    + injection H as <-. simpl. by rewrite map_descriptor_alter.
    + apply rr_enqueue_spec in H as [_ ->]. done.
Qed.

Lemma rr_loop_descriptor (fuel n : nat) (s r : RR.State) :
  RR.loop fuel n s = Returned r ->
  map descriptor (RR.temp r) = map descriptor (RR.temp s).
Proof.
  revert s. induction fuel as [|fuel IH]; intros s; simpl;
    destruct (RR.completed s <? n)%nat; try done.
  - by intros [= <-].
  - intros H. apply bind_Returned in H as (s' & Hstep & H).
    rewrite (IH _ H). by apply rr_step_descriptor.
  - by intros [= <-].
Qed.

Lemma fcfs_loop_descriptor (ps : list Process) (t cs : Z) :
  let '(out, _, _) := FCFS.loop ps t cs in
  map descriptor out = map descriptor ps.
Proof.
  revert t cs. induction ps as [|p rest IH]; intros t cs; simpl; [done|].
  specialize (IH ((if t <? arrival_time p then arrival_time p else t)
                  + burst_time p) (cs + 1)).
  destruct (FCFS.loop rest _ _) as [[out t'] cs']. simpl. by f_equal.
Qed.

Lemma scheduling_descriptor (proc : list Process) (fuel : nat)
    (out : list Process) (m : Metrics) :
  priority_scheduling fuel proc = Returned (out, m) \/
  fcfs_scheduling proc = Returned (out, m) \/
  sjf_scheduling fuel proc = Returned (out, m) \/
  round_robin_scheduling fuel proc = Returned (out, m) ->
  map descriptor out = map descriptor proc.
Proof.
  intros [H|[H|[H|H]]].
  - unfold priority_scheduling, Priority.run in H.
    apply bind_Returned in H as (s & Hrun & H). injection H as <- _.
    apply bind_Returned in Hrun as (temp0 & Hcopy & Hloop).
    apply copy_in_Returned in Hcopy as [-> _].
    by apply priority_loop_descriptor in Hloop.
  - unfold fcfs_scheduling in H.
    apply bind_Returned in H as (temp0 & Hcopy & H).
    apply copy_in_Returned in Hcopy as [-> _].
    pose proof (fcfs_loop_descriptor proc 0 0) as Hd.
    destruct (FCFS.loop proc 0 0) as [[out' t'] cs']. by injection H as <- _.
  - unfold sjf_scheduling, SJF.run in H.
    apply bind_Returned in H as (s & Hrun & H). injection H as <- _.
    apply bind_Returned in Hrun as (temp0 & Hcopy & Hloop).
    apply copy_in_Returned in Hcopy as [-> _].
    by apply sjf_loop_descriptor in Hloop.
  - unfold round_robin_scheduling, RR.run, RR.start in H.
    apply bind_Returned in H as (s & Hrun & H). injection H as <- _.
    apply bind_Returned in Hrun as (s0 & Hstart & Hloop).
    apply bind_Returned in Hstart as (temp0 & Hcopy & Hscan).
    apply copy_in_Returned in Hcopy as [-> _].
    apply rr_loop_descriptor in Hloop. apply rr_scan_temp in Hscan.
    by rewrite Hloop, Hscan.
Qed.

(** ** No capacity check *)

Lemma schedulers_overflow (proc : list Process) (fuel : nat) :
  (MAX_PROCESSES < length proc)%nat ->
  priority_scheduling fuel proc = OutOfBounds MAX_PROCESSES /\
  fcfs_scheduling proc = OutOfBounds MAX_PROCESSES /\
  sjf_scheduling fuel proc = OutOfBounds MAX_PROCESSES /\
  round_robin_scheduling fuel proc = OutOfBounds MAX_PROCESSES /\
  run_scenario fuel proc = OutOfBounds MAX_PROCESSES.
Proof.
  intros Hlen. pose proof (copy_in_overflows proc Hlen) as Hcopy.
  unfold priority_scheduling, Priority.run, fcfs_scheduling, sjf_scheduling,
    SJF.run, round_robin_scheduling, RR.run, RR.start, run_scenario.
  by rewrite Hcopy.
Qed.

(** C5, amended: the code has no capacity check.  The three scenarios of
    the source have 12, 8 and 5 jobs and fit the 20 slots.  A registry of
    more than 20 jobs is not rejected: [run_scenario] and each scheduler
    start copying it, and the store into slot 20 of a 20-slot array is what
    ends the call, whatever the fuel; no scheduler returns. *)
Theorem C5_no_capacity_check :
  length init_emergency_scenario = 12%nat /\
  length init_normal_scenario = 8%nat /\
  length init_best_scenario = 5%nat /\
  forall (proc : list Process) (fuel : nat),
    (MAX_PROCESSES < length proc)%nat ->
    copy_loop 0 (take MAX_PROCESSES proc) [] = Returned (take MAX_PROCESSES proc) /\
    priority_scheduling fuel proc = OutOfBounds MAX_PROCESSES /\
    fcfs_scheduling proc = OutOfBounds MAX_PROCESSES /\
    sjf_scheduling fuel proc = OutOfBounds MAX_PROCESSES /\
    round_robin_scheduling fuel proc = OutOfBounds MAX_PROCESSES /\
    run_scenario fuel proc = OutOfBounds MAX_PROCESSES.
Proof.
  do 3 (split; [reflexivity|]). intros proc fuel Hlen. split.
  - apply (copy_loop_fits _ []). rewrite length_take. lia.
  - by apply schedulers_overflow.
Qed.

Lemma C5_no_capacity_check_witness :
  (MAX_PROCESSES < length oversized_registry)%nat /\
  fcfs_scheduling oversized_registry = OutOfBounds MAX_PROCESSES /\
  run_scenario 0 oversized_registry = OutOfBounds MAX_PROCESSES.
Proof.
  assert (MAX_PROCESSES < length oversized_registry)%nat as Hlen
    by (vm_compute; lia).
  split; [exact Hlen|].
  destruct C5_no_capacity_check as (_ & _ & _ & H).
  destruct (H oversized_registry 0%nat Hlen) as (_ & _ & Hf & _ & _ & Hr).
  by split.
Defined.

(** C5 as stated fails on a registry of 21 jobs: nothing rejects it.
    First come, first served is entered, stores the first 20 jobs in [temp]
    and then stores the 21st past the end of [temp]; the other schedulers
    and [run_scenario] do the same. *)
Lemma C5_counterexample :
  length oversized_registry = 21%nat /\
  copy_loop 0 (take 20 oversized_registry) [] = Returned (take 20 oversized_registry) /\
  fcfs_scheduling oversized_registry = OutOfBounds 20 /\
  priority_scheduling 0 oversized_registry = OutOfBounds 20 /\
  sjf_scheduling 0 oversized_registry = OutOfBounds 20 /\
  round_robin_scheduling 0 oversized_registry = OutOfBounds 20 /\
  run_scenario 0 oversized_registry = OutOfBounds 20.
Proof. repeat split; by vm_compute. Qed.

(** ** No validation of arrival and burst times *)

(** C6, amended: the code has no check of arrival and burst times.  A
    registry of at most 20 jobs is never rejected, whatever these times
    are: first come, first served always returns a post-run list for it,
    and whatever any of the four schedulers returns lists every job with
    the identity, priority, [arrival_time] and [burst_time] it came with:
    no value is clamped. *)
Theorem C6_no_validation (proc : list Process) :
  (length proc <= MAX_PROCESSES)%nat ->
  (exists (out : list Process) (m : Metrics),
      fcfs_scheduling proc = Returned (out, m)) /\
  (forall (fuel : nat) (out : list Process) (m : Metrics),
      priority_scheduling fuel proc = Returned (out, m) \/
      fcfs_scheduling proc = Returned (out, m) \/
      sjf_scheduling fuel proc = Returned (out, m) \/
      round_robin_scheduling fuel proc = Returned (out, m) ->
      map descriptor out = map descriptor proc).
Proof.
  intros Hlen. split; [by apply fcfs_scheduling_returns|].
  intros fuel out m. apply scheduling_descriptor.
Qed.

Lemma C6_no_validation_witness :
  (length invalid_registry <= MAX_PROCESSES)%nat /\
  (exists (out : list Process) (m : Metrics),
      fcfs_scheduling invalid_registry = Returned (out, m)) /\
  (forall (out : list Process) (m : Metrics),
      sjf_scheduling 2 invalid_registry = Returned (out, m) ->
      map descriptor out = map descriptor invalid_registry).
Proof.
  assert (length invalid_registry <= MAX_PROCESSES)%nat as Hlen
    by (vm_compute; lia).
  split; [exact Hlen|].
  destruct (C6_no_validation invalid_registry Hlen) as [Hret Hdesc].
  split; [exact Hret|].
  intros out m H. apply (Hdesc 2%nat out m). right; right; by left.
Defined.

(** C6 as stated fails on a registry with a job arriving at time -3 and a
    job of burst time 0: first come, first served and shortest job first
    run the simulation on it and return timing fields computed from these
    values. *)
Lemma C6_counterexample :
  (exists (out : list Process) (m : Metrics),
      fcfs_scheduling invalid_registry = Returned (out, m) /\
      map job_summary out = [ (-3, 2, 0, 2, 3); (0, 0, 2, 2, 2) ]) /\
  (exists (out : list Process) (m : Metrics),
      sjf_scheduling 2 invalid_registry = Returned (out, m) /\
      map job_summary out = [ (-3, 2, 0, 2, 3); (0, 0, 0, 0, 0) ]).
Proof.
  split; do 2 eexists; (split; [vm_compute; reflexivity|]); by vm_compute.
Qed.

(** ** The metrics of what a scheduler returns *)

Lemma scheduling_metrics (proc : list Process) (fuel : nat)
    (out : list Process) (m : Metrics) :
  priority_scheduling fuel proc = Returned (out, m) \/
  fcfs_scheduling proc = Returned (out, m) \/
  sjf_scheduling fuel proc = Returned (out, m) \/
  round_robin_scheduling fuel proc = Returned (out, m) ->
  exists cs, m = set_context_switches cs (calculate_metrics out (total_time m)).
Proof.
  intros [H|[H|[H|H]]].
  - unfold priority_scheduling in H.
    apply bind_Returned in H as (s & _ & H). injection H as <- <-. by eexists.
  - unfold fcfs_scheduling in H.
    apply bind_Returned in H as (temp0 & _ & H).
    destruct (FCFS.loop temp0 0 0) as [[out' t] cs].
    injection H as <- <-. by eexists.
  - unfold sjf_scheduling in H.
    apply bind_Returned in H as (s & _ & H). injection H as <- <-. by eexists.
  - unfold round_robin_scheduling in H.
    apply bind_Returned in H as (s & _ & H). injection H as <- <-. by eexists.
Qed.

Lemma job_ok_none_completed (out : list Process) :
  Forall (job_ok 0) out -> count_completed out = 0%nat.
Proof.
  unfold count_completed. induction 1 as [|p out Hp _ IH]; [done|].
  rewrite filter_cons. case_decide as Hc; [|done].
  unfold counted in Hc. apply Z.ltb_lt in Hc.
  destruct Hp as (_ & _ & _ & _ & Hle & _). lia.
Qed.

(** ** Termination where the initial values of the scans are out of reach *)

Lemma sum_of_alter (g : Process -> Z) (f : Process -> Process) (i : nat)
    (l : list Process) (x : Process) :
  l !! i = Some x ->
  sum_of g (alter f i l) = sum_of g l - g x + g (f x).
Proof.
  revert i. induction l as [|y l IH]; intros [|i] Hx; try done.
  - injection Hx as <-. unfold sum_of. simpl. lia.
  - specialize (IH i Hx). unfold sum_of in *. simpl.
    change (list_alter f i l) with (alter f i l). lia.
Qed.

Lemma sum_of_le (g h : Process -> Z) (l : list Process) :
  Forall (fun p => g p <= h p) l -> sum_of g l <= sum_of h l.
Proof. induction 1 as [|p l Hp _ IH]; simpl; lia. Qed.

Lemma sum_of_pos (g : Process -> Z) (l : list Process) :
  Forall (fun p => 0 <= g p) l -> 0 < sum_of g l ->
  exists i p, l !! i = Some p /\ 0 < g p.
Proof.
  induction 1 as [|p l Hp _ IH]; simpl; [lia|]. intros Hpos.
  destruct (Z.lt_ge_cases 0 (g p)) as [Hg|Hg].
  - by exists 0%nat, p.
  - destruct IH as (i & q & Hq & Hgq); [lia|]. by exists (S i), q.
Qed.

Lemma unfinished_le_remaining (t : Z) (temp : list Process) :
  Forall (job_ok t) temp -> 0 <= unfinished temp <= total_remaining temp.
Proof.
  intros Hok. unfold unfinished, total_remaining. split.
  - induction Hok as [|p l _ _ IH]; simpl; [lia|].
    destruct (0 <? remaining_time p); lia.
  - apply sum_of_le. eapply Forall_impl; [exact Hok|].
    intros p (_ & Hr & _). simpl. destruct (Z.ltb_spec 0 (remaining_time p)); lia.
Qed.

Lemma unfinished_job (temp : list Process) :
  0 < unfinished temp ->
  exists i p, temp !! i = Some p /\ 0 < remaining_time p.
Proof.
  intros H. unfold unfinished in H. apply sum_of_pos in H as (i & p & Hp & Hg).
  - exists i, p. split; [done|].
    simpl in Hg. destruct (Z.ltb_spec 0 (remaining_time p)); [done|lia].
  - apply Forall_true. intros p. destruct (0 <? remaining_time p); lia.
Qed.

Lemma descriptor_fields (p q : Process) :
  descriptor p = descriptor q ->
  priority p = priority q /\ arrival_time p = arrival_time q /\
  burst_time p = burst_time q.
Proof. unfold descriptor. by intros [= _ _ _ -> -> ->]. Qed.

Lemma progress_inv_fresh (A : Z) (proc : list Process) :
  valid_registry proc -> Forall (fun p => arrival_time p <= A) proc ->
  progress_inv A (length proc) proc 0 /\
  total_remaining proc = sum_of burst_time proc.
Proof.
  intros [_ Hjobs] HA. split; [split; [done|]|].
  - unfold unfinished. induction Hjobs as [|p l [[_ Hb] [Hr _]] _ IH];
      simpl; [done|].
    apply Forall_cons in HA as [_ HA]. specialize (IH HA).
    destruct (Z.ltb_spec 0 (remaining_time p)); lia.
  - unfold total_remaining. clear HA.
    induction Hjobs as [|p l [_ [Hr _]] _ IH]; simpl; [done|]. lia.
Qed.

(** One more unit of service, or one more completed job, keeps the count
    and shortens what is left. *)
Lemma progress_inv_alter (A : Z) (n : nat) (temp : list Process)
    (completed : nat) (i : nat) (p : Process) (F : Process -> Process) (e : Z) :
  progress_inv A n temp completed ->
  temp !! i = Some p ->
  0 < e <= remaining_time p ->
  arrival_time (F p) = arrival_time p ->
  remaining_time (F p) = remaining_time p - e ->
  progress_inv A n (alter F i temp)
    (if remaining_time p - e =? 0 then S completed else completed) /\
  total_remaining (alter F i temp) = total_remaining temp - e /\
  unfinished (alter F i temp) =
    unfinished temp - (if remaining_time p - e =? 0 then 1 else 0).
Proof.
  intros [HA Hcount] Hp He Ha Hr.
  assert (unfinished (alter F i temp) =
          unfinished temp - (if remaining_time p - e =? 0 then 1 else 0)) as Hu.
  { unfold unfinished. rewrite (sum_of_alter _ _ _ _ _ Hp), Hr.
    destruct (Z.eqb_spec (remaining_time p - e) 0),
      (Z.ltb_spec 0 (remaining_time p)),
      (Z.ltb_spec 0 (remaining_time p - e)); lia. }
  split; [split|split; [|done]].
  - eapply Forall_alter; [exact HA|].
    intros x Hx Hxa. rewrite Hp in Hx. injection Hx as <-. by rewrite Ha.
  - rewrite Hu. destruct (remaining_time p - e =? 0); lia.
  - unfold total_remaining. rewrite (sum_of_alter _ _ _ _ _ Hp), Hr. lia.
Qed.

Lemma priority_select_from_none (ps : list Process) (i : nat) (t : Z)
    (next : option nat) (hp : Z) :
  Priority.select_from i ps t next hp = None ->
  next = None /\
  Forall (fun p => ~ (arrival_time p <= t /\ 0 < remaining_time p /\
                      priority p < hp)) ps.
Proof.
  revert i next hp. induction ps as [|p rest IH]; intros i next hp; simpl.
  - by intros ->.
  - destruct ((arrival_time p <=? t) && (0 <? remaining_time p)
              && (priority p <? hp)) eqn:E; intros H; apply IH in H as [Hn Hr].
    + done.
    + split; [done|]. constructor; [|done]. intros (H1 & H2 & H3).
      apply Z.leb_le in H1. apply Z.ltb_lt in H2, H3.
      by rewrite H1, H2, H3 in E.
Qed.

Lemma priority_step_stops (s : Priority.State) :
  Priority.step s <> OutOfFuel.
Proof.
  assert (forall t i k s0, Priority.record_event t i k s0 <> OutOfFuel) as Hrec.
  { intros t i k s0. unfold Priority.record_event.
    by destruct (_ <? _)%nat. }
  assert (forall next s0, Priority.dispatch next s0 <> OutOfFuel) as Hdis.
  { intros next s0. unfold Priority.dispatch.
    destruct (Priority.is_running s0) as [r|]; simpl.
    - destruct (0 <? remaining_time (Priority.temp s0 !!! r)); simpl.
      + destruct (Priority.record_event _ r _ s0) as [s1| |] eqn:E1;
          simpl; try done; [|by apply Hrec in E1].
        destruct (Priority.record_event _ next _ _) as [s2| |] eqn:E2;
          simpl; try done. by apply Hrec in E2.
      + destruct (Priority.record_event _ next _ _) as [s2| |] eqn:E2;
          simpl; try done. by apply Hrec in E2.
    - destruct (Priority.record_event _ next _ _) as [s2| |] eqn:E2;
        simpl; try done. by apply Hrec in E2. }
  assert (forall next s0, Priority.tick next s0 <> OutOfFuel) as Htick.
  { intros next s0. unfold Priority.tick.
    destruct (remaining_time _ =? 0); [|done].
    destruct (Priority.record_event _ next _ _) as [s2| |] eqn:E2;
      simpl; try done. by apply Hrec in E2. }
  unfold Priority.step. destruct (Priority.select _ _) as [next|]; [|done].
  case_decide as Hd; clear Hd; simpl; [apply Htick|].
  destruct (Priority.dispatch next s) as [s1| |] eqn:E; simpl; try done.
  by apply Hdis in E.
Qed.

Lemma priority_step_progress (A : Z) (n : nat) (s s' : Priority.State) :
  priority_inv s ->
  Forall (fun p => priority p < 999) (Priority.temp s) ->
  progress_inv A n (Priority.temp s) (Priority.completed s) ->
  (Priority.completed s < n)%nat ->
  Priority.step s = Returned s' ->
  Forall (fun p => priority p < 999) (Priority.temp s') /\
  progress_inv A n (Priority.temp s') (Priority.completed s') /\
  iterations_left A (total_remaining (Priority.temp s'))
    (Priority.current_time s')
  < iterations_left A (total_remaining (Priority.temp s))
      (Priority.current_time s).
Proof.
  intros [Hok _] Hprio Hprog Hlt Hstep. unfold iterations_left.
  destruct (priority_step_spec s s' Hstep)
    as (-> & [(Hsel & -> & -> & _)
             |(next & p & q & Hp & Harr & Hrem & Hq & -> & -> & _)]).
  - split; [done|]. split; [done|].
    destruct Hprog as [HA Hcount].
    destruct (unfinished_job (Priority.temp s)) as (i & p & Hp & Hrem); [lia|].
    apply priority_select_from_none in Hsel as [_ Hnone].
    pose proof (Forall_lookup_1 _ _ _ _ Hnone Hp) as Hnot. simpl in Hnot.
    pose proof (Forall_lookup_1 _ _ _ _ Hprio Hp) as Hpp. simpl in Hpp.
    pose proof (Forall_lookup_1 _ _ _ _ HA Hp) as HpA. simpl in HpA.
    lia.
  - rewrite list_insert_alter.
    match goal with |- context [alter ?f next _] => set (F := f) end.
    assert (priority (F p) = priority p /\ arrival_time (F p) = arrival_time p
            /\ remaining_time (F p) = remaining_time p - 1) as (HpF & HaF & HrF).
    { subst F q. cbv beta. case_decide;
        by destruct (remaining_time p - 1 =? 0), (start_time p =? -1). }
    destruct (progress_inv_alter A n _ _ next p F 1 Hprog Hp)
      as (Hprog' & Htot & _); [lia|done|done|].
    split; [|split; [done|lia]].
    eapply Forall_alter; [exact Hprio|].
    intros x Hx Hxp. rewrite Hp in Hx. injection Hx as <-. by rewrite HpF.
Qed.

Lemma priority_loop_terminates (A : Z) (n fuel : nat) (s : Priority.State) :
  priority_inv s ->
  Forall (fun p => priority p < 999) (Priority.temp s) ->
  progress_inv A n (Priority.temp s) (Priority.completed s) ->
  iterations_left A (total_remaining (Priority.temp s))
    (Priority.current_time s) <= Z.of_nat fuel ->
  Priority.loop fuel n s <> OutOfFuel.
Proof.
  revert s. induction fuel as [|fuel IH]; intros s Hok Hprio Hprog Hfuel;
    simpl; destruct (Nat.ltb_spec (Priority.completed s) n) as [Hlt|Hge];
    try done.
  - exfalso. destruct Hprog as [_ Hcount].
    pose proof (unfinished_le_remaining _ _ (pinv_jobs s Hok)).
    unfold iterations_left in *. lia.
  - destruct (Priority.step s) as [s'| |] eqn:Hstep; simpl; try done.
    + destruct (priority_step_progress A n s s') as (Hprio' & Hprog' & Hless);
        try done.
      apply IH; try done; [|lia]. by eapply priority_step_inv.
    + by apply priority_step_stops in Hstep.
Qed.

(** The preemptive scheduler does not loop forever on a valid registry
    whose priorities are below 999: with fuel for every unit of service and
    every tick up to the last arrival [A], the loop has stopped. *)
Theorem priority_scheduling_terminates (A : Z) (proc : list Process) (fuel : nat) :
  valid_registry proc ->
  Forall (fun p => priority p < 999) proc ->
  Forall (fun p => arrival_time p <= A) proc ->
  sum_of burst_time proc + Z.max 0 A <= Z.of_nat fuel ->
  priority_scheduling fuel proc <> OutOfFuel.
Proof.
  intros Hv Hprio HA Hfuel.
  destruct (progress_inv_fresh A proc Hv HA) as [Hprog Htot].
  assert (Priority.run fuel proc <> OutOfFuel) as Hrun.
  { unfold Priority.run. rewrite copy_in_fits by apply Hv. simpl.
    apply (priority_loop_terminates A); simpl; try done.
    - by apply priority_init_inv.
    - unfold iterations_left. rewrite Htot, Z.sub_0_r. done. }
  unfold priority_scheduling. by destruct (Priority.run fuel proc).
Qed.

Lemma sjf_step_progress (A : Z) (n : nat) (s : SJF.State) :
  sjf_inv s ->
  Forall (fun p => burst_time p < 999999) (SJF.temp s) ->
  progress_inv A n (SJF.temp s) (SJF.completed s) ->
  (SJF.completed s < n)%nat ->
  Forall (fun p => burst_time p < 999999) (SJF.temp (SJF.step s)) /\
  progress_inv A n (SJF.temp (SJF.step s)) (SJF.completed (SJF.step s)) /\
  iterations_left A (unfinished (SJF.temp (SJF.step s)))
    (SJF.current_time (SJF.step s))
  < iterations_left A (unfinished (SJF.temp s)) (SJF.current_time s).
Proof.
  intros [Hlen Hfl Hjobs Hflags] Hshort Hprog Hlt. unfold iterations_left.
  destruct (SJF.select s) as [next|] eqn:Hsel.
  - destruct (sjf_select_spec s next Hsel) as (p & Hp & [Harr Hflag] & _).
    pose proof (Forall_lookup_1 _ _ _ _ Hjobs Hp) as Hok.
    assert (0 < remaining_time p) as Hrem.
    { destruct Hok as (_ & Hr & _).
      destruct (decide (remaining_time p = 0)) as [E|E]; [|lia].
      apply (Hflags next p Hp) in E. congruence. }
    assert (0 < burst_time p) as Hb by (destruct Hok as [[_ Hb] _]; exact Hb).
    rewrite (sjf_step_dispatch s next p Hsel Hp). simpl.
    destruct (progress_inv_alter A n _ _ next p
                (SJF.run_to_completion (SJF.current_time s))
                (remaining_time p) Hprog Hp)
      as (Hprog' & _ & Hunf); [lia|done|simpl; lia|].
    rewrite Z.sub_diag in Hprog', Hunf. simpl in Hprog', Hunf.
    split; [|split; [done|lia]].
    eapply Forall_alter; [exact Hshort|].
    intros x Hx Hxs. rewrite Hp in Hx. by injection Hx as <-.
  - unfold SJF.step. rewrite Hsel. simpl. split; [done|]. split; [done|].
    destruct Hprog as [HA Hcount].
    destruct (unfinished_job (SJF.temp s)) as (i & p & Hp & Hrem); [lia|].
    pose proof (Forall_lookup_1 _ _ _ _ Hshort Hp) as Hps. simpl in Hps.
    pose proof (Forall_lookup_1 _ _ _ _ HA Hp) as HpA. simpl in HpA.
    assert (SJF.is_completed s !!! i = false) as Hflag.
    { destruct (SJF.is_completed s !!! i) eqn:E; [|done].
      apply (Hflags i p Hp) in E. lia. }
    unfold SJF.select in Hsel.
    destruct (sjf_select_from_spec (SJF.temp s) 0 (SJF.current_time s)
                (SJF.is_completed s) None 999999)
      as [[_ Hall]|(k & q & Hk & _)]; [|congruence].
    destruct (Z.lt_ge_cases (SJF.current_time s) (arrival_time p)) as [|Hle];
      [lia|].
    assert (999999 <= burst_time p); [|lia].
    apply (Hall i p Hp). by split.
Qed.

Lemma sjf_loop_terminates (A : Z) (n fuel : nat) (s : SJF.State) :
  sjf_inv s ->
  Forall (fun p => burst_time p < 999999) (SJF.temp s) ->
  progress_inv A n (SJF.temp s) (SJF.completed s) ->
  iterations_left A (unfinished (SJF.temp s)) (SJF.current_time s)
    <= Z.of_nat fuel ->
  exists r, SJF.loop fuel n s = Returned r.
Proof.
  revert s. induction fuel as [|fuel IH]; intros s Hinv Hshort Hprog Hfuel;
    simpl; destruct (Nat.ltb_spec (SJF.completed s) n) as [Hlt|Hge];
    eauto.
  - exfalso. destruct Hprog as [_ Hcount]. unfold iterations_left in *. lia.
  - destruct (sjf_step_progress A n s) as (Hshort' & Hprog' & Hless);
      try done.
    apply IH; try done; [by apply sjf_step_inv|lia].
Qed.

(** Shortest job first returns on every valid registry whose burst times
    are below 999999: with fuel for every job and every tick up to the
    last arrival [A], the loop has ended. *)
Theorem sjf_scheduling_terminates (A : Z) (proc : list Process) (fuel : nat) :
  valid_registry proc ->
  Forall (fun p => burst_time p < 999999) proc ->
  Forall (fun p => arrival_time p <= A) proc ->
  Z.of_nat (length proc) + Z.max 0 A <= Z.of_nat fuel ->
  exists r, sjf_scheduling fuel proc = Returned r.
Proof.
  intros Hv Hshort HA Hfuel.
  destruct (progress_inv_fresh A proc Hv HA) as [Hprog _].
  assert (SJF.reachable proc (SJF.init proc)) as Hreach
    by (apply SJF.reach_init, copy_in_fits, Hv).
  destruct (sjf_loop_terminates A (length proc) fuel (SJF.init proc))
    as [r Hr]; try done.
  - by eapply sjf_reachable_inv.
  - destruct Hprog as [_ Hcount]. unfold iterations_left. simpl in *. lia.
  - unfold sjf_scheduling, SJF.run. rewrite copy_in_fits by apply Hv. simpl.
    rewrite Hr. simpl. eauto.
Qed.

Lemma rr_scan_stops (cond : nat -> Process -> RR.State -> bool) (i : nat)
    (ps : list Process) (s : RR.State) :
  RR.scan cond i ps s <> OutOfFuel.
Proof.
  revert i s. induction ps as [|p rest IH]; intros i s; simpl; [done|].
  destruct (cond i p s); [|apply IH]. unfold RR.enqueue.
  destruct (RR.rear s <? MAX_PROCESSES)%nat; simpl; [apply IH|done].
Qed.

Lemma rr_step_stops (s : RR.State) : RR.step s <> OutOfFuel.
Proof.
  unfold RR.step. case_decide as Hd; clear Hd.
  - apply rr_scan_stops.
  - unfold RR.serve.
    destruct (RR.scan _ _ _ _) as [s3| |] eqn:E; simpl; try done.
    + destruct (remaining_time _ =? 0); [done|]. unfold RR.enqueue.
      by destruct (RR.rear s3 <? MAX_PROCESSES)%nat.
    + by apply rr_scan_stops in E.
Qed.

Lemma rr_step_progress (A : Z) (n : nat) (s s' : RR.State) :
  rr_inv s ->
  progress_inv A n (RR.temp s) (RR.completed s) ->
  (RR.completed s < n)%nat ->
  RR.step s = Returned s' ->
  progress_inv A n (RR.temp s') (RR.completed s') /\
  iterations_left A (total_remaining (RR.temp s')) (RR.current_time s')
  < iterations_left A (total_remaining (RR.temp s)) (RR.current_time s).
Proof.
  intros Hinv Hprog Hlt Hstep. unfold iterations_left.
  unfold RR.step in Hstep. case_decide as Hfr.
  - destruct (rr_idle_spec s s' Hinv Hfr Hstep) as (_ & -> & -> & ->).
    split; [done|]. destruct Hprog as [HA Hcount].
    destruct (unfinished_job (RR.temp s)) as (i & p & Hp & Hrem); [lia|].
    pose proof (Forall_lookup_1 _ _ _ _ HA Hp) as HpA. simpl in HpA.
    assert (RR.current_time s < arrival_time p); [|lia].
    destruct (Z.lt_ge_cases (RR.current_time s) (arrival_time p)) as [|Hle];
      [done|].
    assert (RR.in_queue s !!! i = true) as Hq
      by (by apply (inv_ready s Hinv i p Hp)).
    apply (inv_in_queue s Hinv) in Hq; [|by eapply lookup_lt_Some].
    rewrite (pending_empty s Hfr) in Hq. by apply elem_of_nil in Hq.
  - destruct (rr_serve_spec s s' Hinv Hfr Hstep)
      as (idx & p & rest & _ & Hp & Harr & Hrem & Hs).
    cbv zeta in Hs. destruct Hs as (-> & -> & -> & _).
    set (e := if TIME_QUANTUM <? remaining_time p then TIME_QUANTUM
              else remaining_time p) in *.
    assert (0 < e <= remaining_time p) as He.
    { subst e. unfold TIME_QUANTUM.
      destruct (Z.ltb_spec 4 (remaining_time p)); lia. }
    match goal with |- context [alter ?f idx _] => set (F := f) end.
    destruct (progress_inv_alter A n _ _ idx p F e Hprog Hp He)
      as (Hprog' & Htot & _).
    + subst F. simpl.
      by destruct (remaining_time p - e =? 0), (start_time p =? -1).
    + subst F. simpl.
      by destruct (remaining_time p - e =? 0), (start_time p =? -1).
    + split; [done|]. rewrite Htot. lia.
Qed.

Lemma rr_loop_terminates (A : Z) (n fuel : nat) (s : RR.State) :
  rr_inv s ->
  progress_inv A n (RR.temp s) (RR.completed s) ->
  iterations_left A (total_remaining (RR.temp s)) (RR.current_time s)
    <= Z.of_nat fuel ->
  RR.loop fuel n s <> OutOfFuel.
Proof.
  revert s. induction fuel as [|fuel IH]; intros s Hinv Hprog Hfuel;
    simpl; destruct (Nat.ltb_spec (RR.completed s) n) as [Hlt|Hge];
    try done.
  - exfalso. destruct Hprog as [_ Hcount].
    pose proof (unfinished_le_remaining _ _ (inv_jobs s Hinv)).
    unfold iterations_left in *. lia.
  - destruct (RR.step s) as [s'| |] eqn:Hstep; simpl; try done.
    + destruct (rr_step_progress A n s s') as (Hprog' & Hless); try done.
      apply IH; try done; [by eapply rr_step_inv|lia].
    + by apply rr_step_stops in Hstep.
Qed.

(** Round robin does not loop forever on a valid registry: with fuel for
    every unit of service and every tick up to the last arrival [A], the
    loop has stopped; it has returned unless it has stored past the end of
    [queue]. *)
Theorem round_robin_scheduling_terminates (A : Z) (proc : list Process)
    (fuel : nat) :
  valid_registry proc ->
  Forall (fun p => arrival_time p <= A) proc ->
  sum_of burst_time proc + Z.max 0 A <= Z.of_nat fuel ->
  round_robin_scheduling fuel proc <> OutOfFuel.
Proof.
  intros Hv HA Hfuel.
  destruct (progress_inv_fresh A proc Hv HA) as [Hprog Htot].
  assert (RR.run fuel proc <> OutOfFuel) as Hrun.
  { unfold RR.run. destruct (RR.start proc) as [s0| |] eqn:Hstart; simpl;
      try done.
    - pose proof (rr_start_inv proc s0 Hv Hstart) as Hinv.
      unfold RR.start in Hstart. rewrite copy_in_fits in Hstart by apply Hv.
      simpl in Hstart.
      destruct (rr_scan_spec _ _ _ _ _ arrives_at_zero_condition
                  (length_replicate _ _ : length (RR.queue (RR.init proc)) = _)
                  Hstart) as (Htemp & Ht & Hc & _).
      cbn [RR.temp RR.current_time RR.completed RR.init] in Htemp, Ht, Hc.
      apply (rr_loop_terminates A); try done.
      + by rewrite Htemp, Hc.
      + unfold iterations_left. rewrite Htemp, Ht, Htot, Z.sub_0_r. done.
    - unfold RR.start in Hstart. rewrite copy_in_fits in Hstart by apply Hv.
      simpl in Hstart. by apply rr_scan_stops in Hstart. }
  unfold round_robin_scheduling. by destruct (RR.run fuel proc).
Qed.

(** ** Response times of emergency jobs *)

Lemma emergency_responses_nonneg (t : Z) (out : list Process) :
  Forall (job_ok t) out -> Forall (fun x => 0 <= x) (emergency_responses out).
Proof.
  unfold emergency_responses. induction 1 as [|p out Hp _ IH]; [constructor|].
  rewrite filter_cons. case_decide as Hc; [|done]. simpl. constructor; [|done].
  apply andb_prop in Hc as [Hc _]. unfold counted in Hc. apply Z.ltb_lt in Hc.
  by apply (job_ok_response t).
Qed.


(** * Further properties of the schedulers *)

(** ** One service and the invariants of a run *)

Lemma serve_job_fields (t e : Z) (p : Process) :
  descriptor (serve_job t e p) = descriptor p /\
  remaining_time (serve_job t e p) = remaining_time p - e /\
  start_time (serve_job t e p) = (if start_time p =? -1 then t else start_time p).
Proof.
  unfold serve_job.
  destruct (start_time p =? -1), (remaining_time p - e =? 0); done.
Qed.

Ltac timeline_crush :=
  unfold job_timeline, job_ok, valid_job, timing_consistent, serve_job,
    mark_started, mark_completed, SJF.run_to_completion;
  simpl; intros;
  repeat match goal with
         | |- context [?a =? ?b] => destruct (Z.eqb_spec a b); simpl
         end;
  repeat split; intros; lia.

Lemma job_timeline_fresh (p : Process) : fresh p -> job_timeline 0 p.
Proof. unfold fresh. timeline_crush. Qed.

Lemma job_timeline_mono (t t' : Z) (p : Process) :
  t <= t' -> job_timeline t p -> job_timeline t' p.
Proof. timeline_crush. Qed.

Lemma job_timeline_serve (t e : Z) (p : Process) :
  job_ok t p -> job_timeline t p -> arrival_time p <= t ->
  0 < e <= remaining_time p ->
  job_timeline (t + e) (serve_job t e p).
Proof. timeline_crush. Qed.

Lemma job_ok_serve_job (t e : Z) (p : Process) :
  job_ok t p -> arrival_time p <= t -> 0 < e <= remaining_time p ->
  job_ok (t + e) (serve_job t e p).
Proof. timeline_crush. Qed.

Lemma service_step_inv (n : nat) (v v' : list Process * Z * nat) :
  run_inv n v -> service_step v v' -> run_inv n v'.
Proof.
  intros [Hok Htl Hwork Hcount Hlen] Hstep.
  destruct Hstep as [temp t t' c Hle|temp t c i p e Hp Harr He]; simpl in *.
  - split; simpl; try done; [| |lia].
    + eapply Forall_impl; [exact Hok|]. intros x. by apply job_ok_mono.
    + eapply Forall_impl; [exact Htl|]. intros x. by apply job_timeline_mono.
  - pose proof (Forall_lookup_1 _ _ _ _ Hok Hp) as Hpok.
    pose proof (Forall_lookup_1 _ _ _ _ Htl Hp) as Hptl.
    destruct (serve_job_fields t e p) as (Hd & Hr & _).
    split; simpl.
    + eapply Forall_alter_change; [exact Hok| |].
      * intros x. apply job_ok_mono. lia.
      * intros x Hx _. rewrite Hp in Hx. injection Hx as <-.
        by apply job_ok_serve_job.
    + apply Forall_lookup_2. intros j y Hy.
      rewrite list_lookup_alter in Hy. case_decide as Hj.
      * subst j. rewrite Hp in Hy. injection Hy as <-.
        by apply job_timeline_serve.
      * apply (job_timeline_mono t); [lia|]. by eapply Forall_lookup_1.
    + unfold service_given in *. rewrite (sum_of_alter _ _ _ _ _ Hp), Hr.
      apply descriptor_fields in Hd as (_ & _ & ->). lia.
    + unfold unfinished. rewrite (sum_of_alter _ _ _ _ _ Hp), Hr.
      fold (unfinished temp).
      destruct (Z.eqb_spec (remaining_time p - e) 0),
        (Z.ltb_spec 0 (remaining_time p)),
        (Z.ltb_spec 0 (remaining_time p - e)); lia.
    + by rewrite length_alter.
Qed.

Lemma run_inv_fresh (proc : list Process) :
  valid_registry proc -> run_inv (length proc) (proc, 0, 0%nat).
Proof.
  intros Hv. pose proof Hv as [_ Hjobs]. split; simpl.
  - by apply registry_job_ok.
  - eapply Forall_impl; [exact Hjobs|]. intros p [_ Hf].
    by apply job_timeline_fresh.
  - clear Hv. unfold service_given, sum_of.
    induction Hjobs as [|p l [_ [Hr _]] _ IH]; simpl; lia.
  - clear Hv. unfold unfinished, sum_of.
    induction Hjobs as [|p l [[_ Hb] [Hr _]] _ IH]; simpl; [done|].
    destruct (Z.ltb_spec 0 (remaining_time p)); lia.
  - done.
Qed.

(** When the counter has reached [n], every job is completed. *)
Lemma run_inv_all_completed (n : nat) (temp : list Process) (t : Z) (c : nat) :
  run_inv n (temp, t, c) -> ~ (c < n)%nat ->
  c = n /\
  Forall (fun p => remaining_time p = 0 /\ 0 < completion_time p /\
                   start_time p <> -1) temp.
Proof.
  intros [Hok Htl _ Hcount _] Hge. simpl in *.
  pose proof (unfinished_le_remaining _ _ Hok) as [Hu _].
  assert (unfinished temp = 0) as Hzero by lia. split; [lia|].
  apply Forall_lookup_2. intros i p Hp.
  pose proof (Forall_lookup_1 _ _ _ _ Hok Hp) as Hpok.
  assert (remaining_time p = 0) as Hr.
  { destruct (decide (0 < remaining_time p)) as [Hpos|Hnp].
    - exfalso. clear Hcount Hu Hge. revert i Hp Hzero.
      unfold unfinished. induction Hok as [|q l Hq Hl IH]; intros [|i] Hp;
        simpl in *; try done.
      + injection Hp as ->. apply Forall_cons in Htl as [_ Htl].
        pose proof (unfinished_le_remaining _ _ Hl) as [Hu _].
        unfold unfinished in Hu.
        destruct (Z.ltb_spec 0 (remaining_time p)); lia.
      + apply Forall_cons in Htl as [_ Htl].
        pose proof (unfinished_le_remaining _ _ Hl) as [Hu _].
        unfold unfinished in Hu. intros Hz. apply (IH Htl i Hp).
        destruct (0 <? remaining_time q); lia.
    - destruct Hpok as (_ & Hr & _). lia. }
  split; [done|]. destruct Hpok as (_ & _ & _ & Hc & _ & _ & Hs & _).
  split; [by apply Hc|]. apply Hs. right. by apply Hc.
Qed.

(** ** The main loops refine the service steps *)

Lemma priority_loop_reachable (proc : list Process) (fuel : nat)
    (s r : Priority.State) :
  priority_reachable proc s ->
  Priority.loop fuel (length proc) s = Returned r ->
  priority_reachable proc r /\ ~ (Priority.completed r < length proc)%nat.
Proof.
  revert s. induction fuel as [|fuel IH]; intros s Hreach; simpl;
    destruct (Nat.ltb_spec (Priority.completed s) (length proc)) as [Hlt|Hge];
    try done.
  - intros [= <-]. split; [done|lia].
  - intros H. apply bind_Returned in H as (s' & Hstep & H).
    eapply IH; [|exact H]. by eapply priority_reach_step.
  - intros [= <-]. split; [done|lia].
Qed.

Lemma priority_run_reachable (proc : list Process) (fuel : nat)
    (r : Priority.State) :
  Priority.run fuel proc = Returned r ->
  priority_reachable proc r /\ ~ (Priority.completed r < length proc)%nat.
Proof.
  unfold Priority.run. intros H. apply bind_Returned in H as (temp0 & Hc & H).
  eapply priority_loop_reachable; [|exact H]. by apply priority_reach_init.
Qed.

Lemma priority_reachable_inv (proc : list Process) (s : Priority.State) :
  valid_registry proc -> priority_reachable proc s -> priority_inv s.
Proof.
  intros Hv Hreach. induction Hreach as [temp0 Hc|s s' _ IH _ Hstep].
  - apply copy_in_Returned in Hc as [-> _]. by apply priority_init_inv.
  - by eapply priority_step_inv.
Qed.

Lemma priority_step_service (s s' : Priority.State) :
  priority_inv s -> Priority.step s = Returned s' ->
  service_step (priority_view s) (priority_view s').
Proof.
  intros [_ Hrun] Hstep. unfold priority_view.
  destruct (priority_step_spec s s' Hstep)
    as (-> & [(_ & -> & -> & _)
             |(next & p & q & Hp & Harr & Hrem & Hq & -> & -> & _)]).
  - apply service_idle. lia.
  - assert (q = if start_time p =? -1
                then mark_started (Priority.current_time s) p else p) as Hq'.
    { subst q. case_decide as Hd; [|done].
      destruct (Hrun next Hd) as (p0 & Hp0 & Hs0).
      rewrite Hp in Hp0. injection Hp0 as <-.
      by destruct (Z.eqb_spec (start_time p) (-1)). }
    rewrite list_insert_alter.
    assert (alter (fun _ =>
                     if remaining_time p - 1 =? 0
                     then mark_completed (Priority.current_time s + 1)
                            (set_remaining_time (remaining_time p - 1) q)
                     else set_remaining_time (remaining_time p - 1) q)
                  next (Priority.temp s)
            = alter (serve_job (Priority.current_time s) 1) next
                (Priority.temp s)) as ->.
    { apply list_alter_ext; [|done]. intros x Hx. rewrite Hp in Hx.
      injection Hx as <-. unfold serve_job. by rewrite <- Hq'. }
    apply (service_run _ _ _ _ p); [done|done|lia].
Qed.

Lemma priority_reachable_run_inv (proc : list Process) (s : Priority.State) :
  valid_registry proc -> priority_reachable proc s ->
  run_inv (length proc) (priority_view s).
Proof.
  intros Hv Hreach. induction Hreach as [temp0 Hc|s s' Hreach IH _ Hstep].
  - apply copy_in_Returned in Hc as [-> _]. by apply run_inv_fresh.
  - eapply service_step_inv; [exact IH|].
    apply priority_step_service; [|done]. by eapply priority_reachable_inv.
Qed.

Lemma run_to_completion_serve_job (t : Z) (p : Process) :
  start_time p = -1 -> remaining_time p = burst_time p ->
  SJF.run_to_completion t p = serve_job t (burst_time p) p.
Proof.
  intros Hs Hr. unfold SJF.run_to_completion, serve_job.
  rewrite Hs, Hr, Z.sub_diag. by destruct p.
Qed.

Lemma sjf_loop_reachable (proc : list Process) (fuel : nat) (s r : SJF.State) :
  SJF.reachable proc s ->
  SJF.loop fuel (length proc) s = Returned r ->
  SJF.reachable proc r /\ ~ (SJF.completed r < length proc)%nat.
Proof.
  revert s. induction fuel as [|fuel IH]; intros s Hreach; simpl;
    destruct (Nat.ltb_spec (SJF.completed s) (length proc)) as [Hlt|Hge];
    try done.
  - intros [= <-]. split; [done|lia].
  - intros H. eapply IH; [|exact H]. by apply SJF.reach_step.
  - intros [= <-]. split; [done|lia].
Qed.

Lemma sjf_run_reachable (proc : list Process) (fuel : nat) (r : SJF.State) :
  SJF.run fuel proc = Returned r ->
  SJF.reachable proc r /\ ~ (SJF.completed r < length proc)%nat.
Proof.
  unfold SJF.run. intros H. apply bind_Returned in H as (temp0 & Hc & H).
  eapply sjf_loop_reachable; [|exact H]. by apply SJF.reach_init.
Qed.

Lemma sjf_step_service (s : SJF.State) :
  sjf_inv s -> Forall (job_timeline (SJF.current_time s)) (SJF.temp s) ->
  Forall unserved (SJF.temp s) ->
  service_step (sjf_view s) (sjf_view (SJF.step s)) /\
  Forall unserved (SJF.temp (SJF.step s)).
Proof.
  intros [Hlen Hfl Hjobs Hflags] Htl Hun. unfold sjf_view.
  destruct (SJF.select s) as [next|] eqn:Hsel.
  - destruct (sjf_select_spec s next Hsel) as (p & Hp & [Harr Hflag] & _).
    pose proof (Forall_lookup_1 _ _ _ _ Hjobs Hp) as Hok.
    assert (0 < remaining_time p) as Hrem.
    { destruct Hok as (_ & Hr & _).
      destruct (decide (remaining_time p = 0)) as [E|E]; [|lia].
      apply (Hflags next p Hp) in E. congruence. }
    pose proof (Forall_lookup_1 _ _ _ _ Hun Hp Hrem) as Hs.
    pose proof (Forall_lookup_1 _ _ _ _ Htl Hp) as [Hfresh _].
    destruct (Hfresh Hs) as [Hr _].
    rewrite (sjf_step_dispatch s next p Hsel Hp). simpl.
    assert (alter (SJF.run_to_completion (SJF.current_time s)) next (SJF.temp s)
            = alter (serve_job (SJF.current_time s) (burst_time p)) next
                (SJF.temp s)) as Halt.
    { apply list_alter_ext; [|done]. intros x Hx. rewrite Hp in Hx.
      injection Hx as <-. by apply run_to_completion_serve_job. }
    split.
    + rewrite Halt.
      assert (S (SJF.completed s)
              = if remaining_time p - burst_time p =? 0
                then S (SJF.completed s) else SJF.completed s) as ->
        by (by rewrite Hr, Z.sub_diag).
      apply (service_run _ _ _ _ p); [done|done|lia].
    + eapply Forall_alter_change; [exact Hun|done|].
      intros x Hx _. rewrite Hp in Hx. injection Hx as <-.
      unfold unserved. simpl. lia.
  - unfold SJF.step. rewrite Hsel. simpl. split; [|done].
    apply service_idle. lia.
Qed.

Lemma sjf_reachable_run_inv (proc : list Process) (s : SJF.State) :
  valid_registry proc -> SJF.reachable proc s ->
  run_inv (length proc) (sjf_view s) /\ Forall unserved (SJF.temp s).
Proof.
  intros Hv Hreach. induction Hreach as [temp0 Hc|s Hreach [IH IHun] _].
  - apply copy_in_Returned in Hc as [-> _]. split; [by apply run_inv_fresh|].
    destruct Hv as [_ Hjobs]. eapply Forall_impl; [exact Hjobs|].
    intros p [_ Hf] _. apply Hf.
  - destruct (sjf_step_service s) as [Hstep Hun]; try done.
    + by eapply sjf_reachable_inv.
    + apply IH.
    + split; [|done]. by eapply service_step_inv.
Qed.

Lemma rr_step_service (s s' : RR.State) :
  rr_inv s -> RR.step s = Returned s' ->
  service_step (rr_view s) (rr_view s').
Proof.
  intros Hinv Hstep. unfold rr_view, RR.step in *. case_decide as Hfr.
  - destruct (rr_idle_spec s s' Hinv Hfr Hstep) as (_ & -> & -> & ->).
    apply service_idle. lia.
  - destruct (rr_serve_spec s s' Hinv Hfr Hstep)
      as (idx & p & rest & _ & Hp & Harr & Hrem & Hs).
    cbv zeta in Hs. destruct Hs as (-> & -> & -> & _).
    set (e := if TIME_QUANTUM <? remaining_time p then TIME_QUANTUM
              else remaining_time p) in *.
    assert (0 < e <= remaining_time p) as He.
    { subst e. unfold TIME_QUANTUM.
      destruct (Z.ltb_spec 4 (remaining_time p)); lia. }
    match goal with |- context [alter ?f idx _] => set (F := f) end.
    assert (alter F idx (RR.temp s)
            = alter (serve_job (RR.current_time s) e) idx (RR.temp s)) as ->.
    { apply list_alter_ext; [|done]. intros x Hx. rewrite Hp in Hx.
      injection Hx as <-. subst F. unfold serve_job. cbv beta zeta.
      by destruct (start_time p =? -1). }
    by apply (service_run _ _ _ _ p).
Qed.

Lemma rr_start_view (proc : list Process) (s0 : RR.State) :
  valid_registry proc -> RR.start proc = Returned s0 ->
  rr_view s0 = (proc, 0, 0%nat) /\ RR.context_switches s0 = 0 /\
  RR.front s0 = 0%nat.
Proof.
  intros Hv Hstart. unfold RR.start in Hstart.
  rewrite copy_in_fits in Hstart by apply Hv. simpl in Hstart.
  destruct (rr_scan_spec _ _ _ _ _ arrives_at_zero_condition
              (length_replicate _ _ : length (RR.queue (RR.init proc)) = _)
              Hstart) as (Htemp & Ht & Hc & Hcs & Hf & _).
  cbn [RR.temp RR.current_time RR.completed RR.context_switches RR.front
       RR.init] in *.
  unfold rr_view. by rewrite Htemp, Ht, Hc.
Qed.

Lemma rr_reachable_run_inv (proc : list Process) (s : RR.State) :
  valid_registry proc -> RR.reachable proc s ->
  run_inv (length proc) (rr_view s).
Proof.
  intros Hv Hreach. induction Hreach as [s0 H0|s s' Hreach IH _ Hstep].
  - destruct (rr_start_view proc s0 Hv H0) as (-> & _).
    by apply run_inv_fresh.
  - eapply service_step_inv; [exact IH|].
    apply rr_step_service; [|done]. by eapply rr_reachable_inv.
Qed.

Lemma rr_loop_exit (fuel n : nat) (s r : RR.State) :
  RR.loop fuel n s = Returned r -> ~ (RR.completed r < n)%nat.
Proof.
  revert s. induction fuel as [|fuel IH]; intros s; simpl;
    destruct (Nat.ltb_spec (RR.completed s) n) as [Hlt|Hge]; try done.
  - intros [= <-]. lia.
  - intros H. apply bind_Returned in H as (s' & _ & H). by eapply IH.
  - intros [= <-]. lia.
Qed.

Lemma rr_run_exit (proc : list Process) (fuel : nat) (r : RR.State) :
  RR.run fuel proc = Returned r -> ~ (RR.completed r < length proc)%nat.
Proof.
  unfold RR.run. intros H. apply bind_Returned in H as (s0 & _ & H).
  by eapply rr_loop_exit.
Qed.

Lemma fcfs_loop_run (ps : list Process) (t cs : Z) :
  Forall (fun p => valid_job p /\ fresh p) ps -> 0 <= t ->
  let '(out, t', cs') := FCFS.loop ps t cs in
  Forall (job_timeline t') out /\
  Forall (fun p => remaining_time p = 0) out /\
  t <= t' /\
  t + sum_of burst_time ps <= t' /\
  sum_of burst_time out = sum_of burst_time ps /\
  length out = length ps.
Proof.
  revert t cs. induction ps as [|p rest IH]; intros t cs Hjobs Ht; simpl.
  - repeat split; try done; unfold sum_of; simpl; lia.
  - apply Forall_cons in Hjobs as [[[Ha Hb] Hf] Hrest].
    set (t0 := if t <? arrival_time p then arrival_time p else t).
    assert (t <= t0 /\ arrival_time p <= t0) as [Ht0 Ha0].
    { subst t0. destruct (Z.ltb_spec t (arrival_time p)); lia. }
    specialize (IH (t0 + burst_time p) (cs + 1) Hrest).
    destruct (FCFS.loop rest (t0 + burst_time p) (cs + 1)) as [[out t'] cs'].
    destruct IH as (Htl & Hrem & Hle' & Hle & Hsum & Hlen); [lia|].
    unfold sum_of in *. simpl. repeat split; try done; try lia.
    + constructor; [|done]. apply (job_timeline_mono (t0 + burst_time p));
        [lia|]. revert Hf. unfold fresh. timeline_crush.
    + by constructor.
Qed.

Lemma unfinished_none (temp : list Process) :
  Forall (fun p => remaining_time p = 0) temp -> unfinished temp = 0.
Proof.
  unfold unfinished, sum_of. induction 1 as [|p l Hp _ IH]; simpl; [done|].
  rewrite Hp. simpl. lia.
Qed.

Lemma service_given_all (temp : list Process) :
  Forall (fun p => remaining_time p = 0) temp ->
  service_given temp = sum_of burst_time temp.
Proof.
  unfold service_given, sum_of. induction 1 as [|p l Hp _ IH]; simpl; [done|].
  rewrite Hp. lia.
Qed.

(** What each of the four schedulers returns for a valid registry: the
    invariant of a run, with every job counted as completed. *)
Lemma scheduling_run_inv (proc : list Process) (fuel : nat)
    (out : list Process) (m : Metrics) :
  valid_registry proc ->
  priority_scheduling fuel proc = Returned (out, m) \/
  fcfs_scheduling proc = Returned (out, m) \/
  sjf_scheduling fuel proc = Returned (out, m) \/
  round_robin_scheduling fuel proc = Returned (out, m) ->
  run_inv (length proc) (out, total_time m, length proc).
Proof.
  intros Hv [H|[H|[H|H]]].
  - unfold priority_scheduling in H.
    apply bind_Returned in H as (s & Hrun & H). injection H as <- <-. simpl.
    apply priority_run_reachable in Hrun as [Hreach Hexit].
    pose proof (priority_reachable_run_inv proc s Hv Hreach) as Hinv.
    destruct (run_inv_all_completed _ _ _ _ Hinv Hexit) as [Hc _].
    unfold priority_view in Hinv. by rewrite Hc in Hinv.
  - pose proof (fcfs_scheduling_job_ok proc out m Hv H) as Hok.
    unfold fcfs_scheduling in H. rewrite copy_in_fits in H by apply Hv.
    simpl in H. destruct Hv as [_ Hjobs].
    pose proof (fcfs_loop_run proc 0 0 Hjobs (Z.le_refl 0)) as Hrun.
    destruct (FCFS.loop proc 0 0) as [[out' t] cs].
    injection H as <- <-. simpl in *.
    destruct Hrun as (Htl & Hrem & _ & Hle & Hsum & Hlen).
    split; simpl; try done.
    + rewrite service_given_all by done. lia.
    + rewrite unfinished_none by done. lia.
  - unfold sjf_scheduling in H.
    apply bind_Returned in H as (s & Hrun & H). injection H as <- <-. simpl.
    apply sjf_run_reachable in Hrun as [Hreach Hexit].
    destruct (sjf_reachable_run_inv proc s Hv Hreach) as [Hinv _].
    destruct (run_inv_all_completed _ _ _ _ Hinv Hexit) as [Hc _].
    unfold sjf_view in Hinv. by rewrite Hc in Hinv.
  - unfold round_robin_scheduling in H.
    apply bind_Returned in H as (s & Hrun & H). injection H as <- <-. simpl.
    pose proof (rr_run_exit _ _ _ Hrun) as Hexit.
    apply rr_run_reachable in Hrun as Hreach.
    pose proof (rr_reachable_run_inv proc s Hv Hreach) as Hinv.
    destruct (run_inv_all_completed _ _ _ _ Hinv Hexit) as [Hc _].
    unfold rr_view in Hinv. by rewrite Hc in Hinv.
Qed.

(** ** What every run returns *)

Lemma count_completed_all (l : list Process) :
  Forall (fun p => 0 < completion_time p) l -> count_completed l = length l.
Proof.
  unfold count_completed. induction 1 as [|p l Hc _ IH]; [done|].
  rewrite filter_cons. case_decide as Hd.
  - simpl. by rewrite IH.
  - exfalso. apply Hd. unfold counted. by apply Z.ltb_lt.
Qed.

(** X1: whichever of the four schedulers returns on a valid registry that
    fits the [int] clock, the list it returns has one entry per job of the
    registry, with the descriptors unchanged and in the same order, and
    every job in it is completed: no service remains, the completion time
    is set and the job has been started.  [calculate_metrics] counts all of
    them. *)
Theorem X1_every_job_completed (proc : list Process) (fuel : nat)
    (out : list Process) (m : Metrics) :
  valid_registry proc -> fits_int proc ->
  priority_scheduling fuel proc = Returned (out, m) \/
  fcfs_scheduling proc = Returned (out, m) \/
  sjf_scheduling fuel proc = Returned (out, m) \/
  round_robin_scheduling fuel proc = Returned (out, m) ->
  length out = length proc /\
  map descriptor out = map descriptor proc /\
  Forall (fun p => remaining_time p = 0 /\ 0 < completion_time p /\
                   start_time p <> -1) out /\
  count_completed out = length proc.
Proof.
  intros Hv _ H.
  pose proof (scheduling_run_inv proc fuel out m Hv H) as Hinv.
  destruct (run_inv_all_completed _ _ _ _ Hinv) as [_ Hall]; [lia|].
  pose proof (run_length _ _ Hinv) as Hlen. simpl in Hlen.
  split; [done|]. split; [by eapply scheduling_descriptor|]. split; [done|].
  rewrite <- Hlen. apply count_completed_all.
  eapply Forall_impl; [exact Hall|]. by intros p (_ & Hc & _).
Qed.

Lemma X1_every_job_completed_witness :
  valid_registry init_best_scenario /\ fits_int init_best_scenario /\
  count_completed (fst (result_of (round_robin_scheduling 60 init_best_scenario)))
  = 5%nat.
Proof.
  assert (valid_registry init_best_scenario) as Hv.
  { split; [vm_compute; lia|]. repeat constructor; simpl; lia. }
  assert (fits_int init_best_scenario) as Hfit by (by vm_compute).
  split; [exact Hv|]. split; [exact Hfit|].
  assert (exists r, round_robin_scheduling 60 init_best_scenario = Returned r)
    as [[out m] Hr] by (vm_compute; eauto).
  rewrite Hr. simpl.
  apply (X1_every_job_completed init_best_scenario 60 out m Hv Hfit).
  right; right; right. exact Hr.
Defined.

(** ** First come, first served: registry order *)

Lemma last_arrival_nonneg (proc : list Process) : 0 <= last_arrival proc.
Proof. unfold last_arrival. induction proc as [|p l IH]; simpl; lia. Qed.

Lemma last_arrival_upper (proc : list Process) :
  Forall (fun p => arrival_time p <= last_arrival proc) proc.
Proof.
  unfold last_arrival. induction proc as [|p l IH]; simpl; constructor; [lia|].
  eapply Forall_impl; [exact IH|]. simpl. intros q Hq. lia.
Qed.

Lemma last_arrival_descriptor (l1 l2 : list Process) :
  map descriptor l1 = map descriptor l2 -> last_arrival l1 = last_arrival l2.
Proof.
  unfold last_arrival. revert l2.
  induction l1 as [|p l1 IH]; intros [|q l2] H; simpl in *; try done.
  assert (descriptor p = descriptor q) as Hd by congruence.
  assert (map descriptor l1 = map descriptor l2) as Hl by congruence.
  apply descriptor_fields in Hd as (_ & -> & _). by rewrite (IH l2 Hl).
Qed.

(** The clock of first come, first served ends no later than the latest
    arrival plus the burst times. *)
Lemma fcfs_loop_bound (ps : list Process) (t cs : Z) :
  Forall valid_job ps ->
  let '(out, t', cs') := FCFS.loop ps t cs in
  t' <= Z.max t (last_arrival ps) + sum_of burst_time ps.
Proof.
  revert t cs. unfold last_arrival, sum_of.
  induction ps as [|p rest IH]; intros t cs Hjobs; simpl; [lia|].
  apply Forall_cons in Hjobs as [[Ha Hb] Hrest].
  set (t0 := if t <? arrival_time p then arrival_time p else t).
  assert (t0 = Z.max t (arrival_time p)) as Ht0
    by (subst t0; destruct (Z.ltb_spec t (arrival_time p)); lia).
  specialize (IH (t0 + burst_time p) (cs + 1) Hrest).
  destruct (FCFS.loop rest (t0 + burst_time p) (cs + 1)) as [[out t'] cs'].
  lia.
Qed.

Lemma fcfs_loop_order (ps : list Process) (t cs : Z) :
  let '(out, t', cs') := FCFS.loop ps t cs in
  cs' = cs + Z.of_nat (length ps) /\
  t' = default t (completion_time <$> last out) /\
  (forall p, out !! 0%nat = Some p ->
     start_time p = Z.max t (arrival_time p)) /\
  (forall i p q, out !! i = Some p -> out !! S i = Some q ->
     start_time q = Z.max (completion_time p) (arrival_time q)) /\
  Forall (fun p => remaining_time p = 0 /\
                   completion_time p = start_time p + burst_time p /\
                   response_time p = start_time p - arrival_time p /\
                   turnaround_time p = completion_time p - arrival_time p /\
                   waiting_time p = response_time p) out.
Proof.
  revert t cs. induction ps as [|p rest IH]; intros t cs; simpl.
  - repeat split; try done; lia.
  - set (t0 := if t <? arrival_time p then arrival_time p else t).
    assert (t0 = Z.max t (arrival_time p)) as Ht0.
    { subst t0. destruct (Z.ltb_spec t (arrival_time p)); lia. }
    specialize (IH (t0 + burst_time p) (cs + 1)).
    destruct (FCFS.loop rest (t0 + burst_time p) (cs + 1)) as [[out t'] cs'].
    destruct IH as (Hcs & Ht' & Hfirst & Hnext & Hall).
    split; [lia|]. split; [|split; [|split]].
    + rewrite last_cons. destruct (last out) as [y|]; simpl in *; done.
    + intros p' [= <-]. simpl. done.
    + intros [|i] p1 q H1 H2; simpl in *.
      * injection H1 as <-. simpl. by apply Hfirst.
      * by eapply Hnext.
    + constructor; [|done]. simpl. repeat split; lia.
Qed.

(** X3: first come, first served returns for every valid registry that
    fits the [int] clock.  It serves the jobs in registry order, each in
    one piece: the first job starts at time 0 or at its arrival if that is
    later, every other job starts when its predecessor in the registry
    completes or at its own arrival if that is later, each job completes
    one burst after its start, the total time is the completion time of
    the last job, an [int], and there is one context switch per job. *)
Theorem X3_fcfs_registry_order (proc : list Process) :
  valid_registry proc -> fits_int proc ->
  exists (out : list Process) (m : Metrics),
    fcfs_scheduling proc = Returned (out, m) /\
    map descriptor out = map descriptor proc /\
    context_switches m = Z.of_nat (length proc) /\
    total_time m = default 0 (completion_time <$> last out) /\
    total_time m <= INT_MAX /\
    (forall p, out !! 0%nat = Some p ->
       start_time p = Z.max 0 (arrival_time p)) /\
    (forall i p q, out !! i = Some p -> out !! S i = Some q ->
       start_time q = Z.max (completion_time p) (arrival_time q)) /\
    Forall (fun p => remaining_time p = 0 /\
                     completion_time p = start_time p + burst_time p /\
                     response_time p = start_time p - arrival_time p /\
                     turnaround_time p = completion_time p - arrival_time p /\
                     waiting_time p = response_time p) out.
Proof.
  intros [Hlen Hjobs] Hfit. unfold fcfs_scheduling.
  rewrite copy_in_fits by done. simpl.
  pose proof (fcfs_loop_order proc 0 0) as Hord.
  pose proof (fcfs_loop_descriptor proc 0 0) as Hdesc.
  pose proof (fcfs_loop_bound proc 0 0) as Hbound.
  destruct (FCFS.loop proc 0 0) as [[out t] cs].
  destruct Hord as (Hcs & Ht & Hfirst & Hnext & Hall).
  assert (t <= INT_MAX) as Hint.
  { pose proof (last_arrival_nonneg proc). unfold fits_int in Hfit.
    assert (t <= Z.max 0 (last_arrival proc) + sum_of burst_time proc); [|lia].
    apply Hbound. eapply Forall_impl; [exact Hjobs|]. by intros p [Hp _]. }
  eexists _, _. split; [done|]. simpl. repeat split; try done; lia.
Qed.

Lemma X3_fcfs_registry_order_witness :
  valid_registry init_normal_scenario /\ fits_int init_normal_scenario /\
  exists (out : list Process) (m : Metrics),
    fcfs_scheduling init_normal_scenario = Returned (out, m) /\
    context_switches m = 8 /\
    total_time m = default 0 (completion_time <$> last out).
Proof.
  assert (valid_registry init_normal_scenario) as Hv.
  { split; [vm_compute; lia|]. repeat constructor; simpl; lia. }
  assert (fits_int init_normal_scenario) as Hfit by (by vm_compute).
  split; [exact Hv|]. split; [exact Hfit|].
  destruct (X3_fcfs_registry_order init_normal_scenario Hv Hfit)
    as (out & m & Hr & _ & Hcs & Ht & _).
  exists out, m. split; [exact Hr|]. split; [exact Hcs|exact Ht].
Defined.

(** ** Shortest job first: one job at a time *)

Lemma sjf_reachable_whole_jobs (proc : list Process) (s : SJF.State) :
  valid_registry proc -> SJF.reachable proc s ->
  SJF.context_switches s = Z.of_nat (SJF.completed s) /\
  Forall uninterrupted (SJF.temp s) /\
  no_overlap (SJF.temp s).
Proof.
  intros Hv Hreach. induction Hreach as [temp0 Hc|s Hreach IH Hlt].
  - apply copy_in_Returned in Hc as [-> _]. simpl. split; [done|].
    destruct Hv as [_ Hjobs]. split.
    + eapply Forall_impl; [exact Hjobs|].
      intros p [[_ Hb] [Hr _]] H0. lia.
    + intros i j p q Hp _ _ H0 _.
      pose proof (Forall_lookup_1 _ _ _ _ Hjobs Hp) as [[_ Hb] [Hr _]]. lia.
  - destruct IH as (Hcs & Hun & Hno).
    pose proof (sjf_reachable_inv proc s Hv Hreach) as [_ _ Hjobs Hflags].
    destruct (SJF.select s) as [next|] eqn:Hsel.
    + destruct (sjf_select_spec s next Hsel) as (p & Hp & [Harr Hflag] & _).
      rewrite (sjf_step_dispatch s next p Hsel Hp). simpl.
      pose proof (Forall_lookup_1 _ _ _ _ Hjobs Hp) as Hpok.
      split; [lia|]. split.
      * eapply Forall_alter_change; [exact Hun|done|].
        intros x Hx _. rewrite Hp in Hx. injection Hx as <-.
        unfold uninterrupted. simpl. lia.
      * assert (forall j q, j <> next -> SJF.temp s !! j = Some q ->
                  remaining_time q = 0 ->
                  completion_time q <= SJF.current_time s) as Hdone.
        { intros j q _ Hq _.
          pose proof (Forall_lookup_1 _ _ _ _ Hjobs Hq) as Hqok.
          destruct Hqok as (_ & _ & _ & _ & Hle & _). exact Hle. }
        intros i j x y Hx Hy Hij Hx0 Hy0.
        destruct (decide (i = next)) as [->|Hi];
          destruct (decide (j = next)) as [->|Hj]; try done.
        -- rewrite list_lookup_alter_eq, Hp in Hx. injection Hx as <-.
           rewrite list_lookup_alter_ne in Hy by done.
           right. simpl. by apply (Hdone j y).
        -- rewrite list_lookup_alter_eq, Hp in Hy. injection Hy as <-.
           rewrite list_lookup_alter_ne in Hx by done.
           left. simpl. by apply (Hdone i x).
        -- rewrite list_lookup_alter_ne in Hx, Hy by done.
           by apply (Hno i j).
    + unfold SJF.step. rewrite Hsel. simpl. done.
Qed.

(** X4: on a valid registry that fits the [int] clock and whose burst
    times are below 999999, shortest job first returns once the fuel covers
    one iteration per job and one per tick up to the last arrival [A].  It
    has switched context once per job; every job ran in one piece, so that
    it completed one burst after its start and waited exactly its response
    time; and no two jobs ran at the same time. *)
Theorem X4_sjf_whole_jobs (A : Z) (proc : list Process) (fuel : nat) :
  valid_registry proc -> fits_int proc ->
  Forall (fun p => burst_time p < 999999) proc ->
  Forall (fun p => arrival_time p <= A) proc ->
  Z.of_nat (length proc) + Z.max 0 A <= Z.of_nat fuel ->
  exists (out : list Process) (m : Metrics),
    sjf_scheduling fuel proc = Returned (out, m) /\
    context_switches m = Z.of_nat (length proc) /\
    Forall (fun p => completion_time p = start_time p + burst_time p /\
                     waiting_time p = response_time p) out /\
    no_overlap out.
Proof.
  intros Hv _ Hshort HA Hfuel.
  destruct (progress_inv_fresh A proc Hv HA) as [Hprog _].
  assert (SJF.reachable proc (SJF.init proc)) as Hreach
    by (apply SJF.reach_init, copy_in_fits, Hv).
  destruct (sjf_loop_terminates A (length proc) fuel (SJF.init proc))
    as [r Hr]; try done.
  { by eapply sjf_reachable_inv. }
  { destruct Hprog as [_ Hcount]. unfold iterations_left. simpl in *. lia. }
  destruct (sjf_loop_reachable proc fuel _ r Hreach Hr) as [Hreach' Hexit].
  destruct (sjf_reachable_whole_jobs proc r Hv Hreach') as (Hcs & Hun & Hno).
  destruct (sjf_reachable_run_inv proc r Hv Hreach') as [Hinv _].
  destruct (run_inv_all_completed _ _ _ _ Hinv Hexit) as [Hc Hall].
  destruct Hinv as [Hok Htl _ _ _]. simpl in *.
  exists (SJF.temp r). eexists.
  unfold sjf_scheduling, SJF.run. rewrite copy_in_fits by apply Hv. simpl.
  rewrite Hr. simpl. split; [done|]. simpl. split; [lia|]. split; [|done].
  apply Forall_lookup_2. intros i p Hp.
  pose proof (Forall_lookup_1 _ _ _ _ Hok Hp) as Hpok.
  pose proof (Forall_lookup_1 _ _ _ _ Htl Hp) as Hptl.
  pose proof (Forall_lookup_1 _ _ _ _ Hall Hp) as (Hr0 & Hc0 & Hs0).
  pose proof (Forall_lookup_1 _ _ _ _ Hun Hp Hr0) as Hwhole.
  revert Hpok Hptl Hwhole Hc0 Hs0. timeline_crush.
Qed.

Lemma X4_sjf_whole_jobs_witness :
  valid_registry init_emergency_scenario /\
  fits_int init_emergency_scenario /\
  exists (out : list Process) (m : Metrics),
    sjf_scheduling 32 init_emergency_scenario = Returned (out, m) /\
    context_switches m = 12 /\ no_overlap out.
Proof.
  assert (valid_registry init_emergency_scenario) as Hv.
  { split; [vm_compute; lia|]. repeat constructor; simpl; lia. }
  assert (fits_int init_emergency_scenario) as Hfit by (by vm_compute).
  split; [exact Hv|]. split; [exact Hfit|].
  destruct (X4_sjf_whole_jobs 20 init_emergency_scenario 32 Hv Hfit)
    as (out & m & Hr & Hcs & _ & Hno).
  - repeat constructor; simpl; lia.
  - repeat constructor; simpl; lia.
  - vm_compute. discriminate.
  - exists out, m. split; [exact Hr|]. split; [exact Hcs|exact Hno].
Defined.

(** ** The preemptive scheduler: the selection *)

Lemma priority_select_from_min (ps : list Process) (i : nat) (t : Z)
    (next : option nat) (hp : Z) :
  (Priority.select_from i ps t next hp = next /\
   forall j q, ps !! j = Some q -> priority_eligible t q ->
               hp <= priority q) \/
  (exists k p,
     Priority.select_from i ps t next hp = Some (i + k)%nat /\
     ps !! k = Some p /\ priority_eligible t p /\ priority p < hp /\
     forall j q, ps !! j = Some q -> priority_eligible t q ->
                 priority p <= priority q /\
                 ((j < k)%nat -> priority p < priority q)).
Proof.
  revert i next hp. induction ps as [|p rest IH]; intros i next hp; simpl.
  - left. split; [done|]. intros j q Hq. by rewrite lookup_nil in Hq.
  - assert (forall j, (S i + j = i + S j)%nat) as Hshift by (intros; lia).
    destruct ((arrival_time p <=? t) && (0 <? remaining_time p)
              && (priority p <? hp)) eqn:E.
    + apply andb_prop in E as [E Hb]. apply andb_prop in E as [Ha Hr].
      apply Z.leb_le in Ha. apply Z.ltb_lt in Hb, Hr.
      right. destruct (IH (S i) (Some i) (priority p))
        as [[-> Hall]|(k & p' & -> & Hk & Hel & Hlt & Hall)].
      * exists 0%nat, p. rewrite Nat.add_0_r.
        split; [done|]. split; [done|]. split; [by split|]. split; [done|].
        intros [|j] q Hq Helig; simpl in Hq.
        -- injection Hq as <-. split; lia.
        -- split; [|lia]. by apply (Hall j).
      * exists (S k), p'. rewrite <- Hshift.
        split; [done|]. split; [done|]. split; [done|]. split; [lia|].
        intros [|j] q Hq Helig; simpl in Hq.
        -- injection Hq as <-. split; lia.
        -- destruct (Hall j q Hq Helig) as [H1 H2].
           split; [done|]. intros Hjk. apply H2. lia.
    + assert (priority_eligible t p -> hp <= priority p) as Hp.
      { intros [Ha Hr]. apply Z.leb_le in Ha. apply Z.ltb_lt in Hr.
        rewrite Ha, Hr in E. simpl in E. by apply Z.ltb_ge in E. }
      destruct (IH (S i) next hp)
        as [[-> Hall]|(k & p' & -> & Hk & Hel & Hlt & Hall)].
      * left. split; [done|]. intros [|j] q Hq Helig; simpl in Hq.
        -- injection Hq as <-. auto.
        -- by apply (Hall j).
      * right. exists (S k), p'. rewrite <- Hshift.
        split; [done|]. split; [done|]. split; [done|]. split; [done|].
        intros [|j] q Hq Helig; simpl in Hq.
        -- injection Hq as <-. specialize (Hp Helig). split; lia.
        -- destruct (Hall j q Hq Helig) as [H1 H2].
           split; [done|]. intros Hjk. apply H2. lia.
Qed.

(** The scan selects the job that goes before every other job that can be
    selected; it selects none only when every such job has a priority
    value of 999 or more. *)
Lemma priority_select_min (temp : list Process) (t : Z) :
  match Priority.select temp t with
  | Some next =>
      exists p, temp !! next = Some p /\ priority_eligible t p /\
        priority p < 999 /\
        forall j q, temp !! j = Some q -> priority_eligible t q ->
                    goes_before next p j q
  | None =>
      forall j q, temp !! j = Some q -> priority_eligible t q ->
                  999 <= priority q
  end.
Proof.
  unfold Priority.select.
  destruct (priority_select_from_min temp 0 t None 999)
    as [[-> Hall]|(k & p & -> & Hk & Hel & Hlt & Hall)]; [done|].
  simpl. exists p. split; [done|]. split; [done|]. split; [done|].
  intros j q Hq Helig. destruct (Hall j q Hq Helig) as [H1 H2].
  unfold goes_before.
  destruct (Nat.le_gt_cases k j) as [|Hjk]; [lia|].
  specialize (H2 Hjk). lia.
Qed.

(** ** The preemptive scheduler: the event log *)

Lemma priority_record_event_log (t : Z) (i : nat) (k : Priority.event_type)
    (s s' : Priority.State) :
  Priority.record_event t i k s = Returned s' ->
  Priority.events s' = Priority.events s ++ [Priority.mkEvent t i k] /\
  Priority.context_switches s' = Priority.context_switches s.
Proof.
  unfold Priority.record_event.
  destruct (length (Priority.events s) <? Priority.MAX_EVENTS)%nat; [|done].
  by intros [= <-].
Qed.

Lemma priority_record_event_returns (t : Z) (i : nat)
    (k : Priority.event_type) (s : Priority.State) :
  (length (Priority.events s) < Priority.MAX_EVENTS)%nat ->
  exists s', Priority.record_event t i k s = Returned s' /\
             length (Priority.events s') = S (length (Priority.events s)).
Proof.
  intros H. unfold Priority.record_event.
  destruct (Nat.ltb_spec (length (Priority.events s)) Priority.MAX_EVENTS);
    [|lia].
  eexists. split; [done|]. simpl. rewrite length_app. simpl. lia.
Qed.

Lemma priority_dispatch_log (next : nat) (s s' : Priority.State) :
  Priority.dispatch next s = Returned s' ->
  Priority.context_switches s' = Priority.context_switches s + 1 /\
  Priority.events s' =
    Priority.events s
    ++ match Priority.is_running s with
       | Some r =>
           if 0 <? remaining_time (Priority.temp s !!! r)
           then [Priority.mkEvent (Priority.current_time s) r Priority.Preempt]
           else []
       | None => []
       end
    ++ [Priority.mkEvent (Priority.current_time s) next Priority.Start].
Proof.
  unfold Priority.dispatch. intros H.
  apply bind_Returned in H as (s1 & H1 & H).
  apply bind_Returned in H as (s2 & H2 & H).
  injection H as <-. simpl.
  apply priority_record_event_log in H2 as [-> ->]. simpl.
  destruct (Priority.is_running s) as [r|].
  - destruct (0 <? remaining_time (Priority.temp s !!! r)).
    + apply priority_record_event_log in H1 as [-> ->].
      by rewrite <- app_assoc.
    + by injection H1 as <-.
  - by injection H1 as <-.
Qed.

Lemma priority_tick_log (next : nat) (s s' : Priority.State) (p : Process) :
  Priority.tick next s = Returned s' ->
  Priority.temp s !! next = Some p ->
  Priority.context_switches s' = Priority.context_switches s /\
  Priority.events s' =
    Priority.events s
    ++ (if remaining_time p - 1 =? 0
        then [Priority.mkEvent (Priority.current_time s + 1) next
                Priority.Complete]
        else []).
Proof.
  unfold Priority.tick. intros H Hp.
  rewrite (list_lookup_total_correct _ next
             (set_remaining_time (remaining_time p - 1) p)) in H
    by (by rewrite list_lookup_alter_eq, Hp).
  simpl in H. destruct (remaining_time p - 1 =? 0).
  - apply bind_Returned in H as (s1 & H1 & H). injection H as <-.
    by apply priority_record_event_log in H1 as [-> ->].
  - injection H as <-. simpl. by rewrite app_nil_r.
Qed.

(** The rows and the context switch that an iteration adds when it serves
    slot [next]. *)
Lemma priority_step_log (s s' : Priority.State) (next : nat) (p : Process) :
  Priority.select (Priority.temp s) (Priority.current_time s) = Some next ->
  Priority.temp s !! next = Some p ->
  Priority.step s = Returned s' ->
  Priority.events s' = Priority.events s ++ step_events s next p /\
  Priority.context_switches s' =
    Priority.context_switches s
    + (if decide (Priority.is_running s = Some next) then 0 else 1).
Proof.
  intros Hsel Hp H. unfold Priority.step in H. rewrite Hsel in H.
  apply bind_Returned in H as (s1 & H1 & H). unfold step_events.
  case_decide as Hd.
  - injection H1 as <-.
    destruct (priority_tick_log _ _ _ _ H Hp) as [-> ->].
    split; [done|lia].
  - destruct (priority_dispatch_spec _ _ _ p H1 Hp) as (Ht & _ & _ & Htemp).
    destruct (priority_dispatch_log _ _ _ H1) as [Hcs Hev].
    assert (exists q, Priority.temp s1 !! next = Some q /\
                      remaining_time q = remaining_time p) as (q & Hq & Hrq).
    { rewrite Htemp, list_lookup_alter_eq, Hp. simpl. eexists. split; [done|].
      by destruct (start_time p =? -1). }
    destruct (priority_tick_log _ _ _ _ H Hq) as [-> ->].
    rewrite Hcs, Hev, Ht, Hrq. split; [|done]. by rewrite <- !app_assoc.
Qed.

Lemma priority_step_idle_log (s s' : Priority.State) :
  Priority.select (Priority.temp s) (Priority.current_time s) = None ->
  Priority.step s = Returned s' ->
  Priority.events s' = Priority.events s /\
  Priority.context_switches s' = Priority.context_switches s.
Proof.
  intros Hsel H. unfold Priority.step in H. rewrite Hsel in H.
  by injection H as <-.
Qed.

(** An iteration goes through as long as three more rows fit into the
    event log. *)
Lemma priority_step_returns (s : Priority.State) :
  (length (Priority.events s) + 3 <= Priority.MAX_EVENTS)%nat ->
  exists s', Priority.step s = Returned s'.
Proof.
  intros Hlen. unfold Priority.step.
  destruct (Priority.select _ _) as [next|]; [|by eexists].
  assert (exists s1,
            (if decide (Priority.is_running s = Some next) then Returned s
             else Priority.dispatch next s) = Returned s1 /\
            (length (Priority.events s1) <= length (Priority.events s) + 2)%nat)
    as (s1 & -> & Hlen1).
  { case_decide as Hd; [exists s; split; [done|lia]|].
    unfold Priority.dispatch.
    assert (exists s0,
              match Priority.is_running s with
              | Some r =>
                  if 0 <? remaining_time (Priority.temp s !!! r)
                  then Priority.record_event (Priority.current_time s) r
                         Priority.Preempt s
                  else Returned s
              | None => Returned s
              end = Returned s0 /\
              (length (Priority.events s0) <= length (Priority.events s) + 1)%nat)
      as (s0 & -> & Hlen0).
    { destruct (Priority.is_running s) as [r|];
        [|exists s; split; [done|lia]].
      destruct (0 <? remaining_time (Priority.temp s !!! r));
        [|exists s; split; [done|lia]].
      destruct (priority_record_event_returns (Priority.current_time s) r
                  Priority.Preempt s) as (s0 & -> & Hl); [lia|].
      exists s0. split; [done|lia]. }
    simpl.
    match goal with
    | |- context [Priority.record_event ?t ?i ?k ?st] =>
        destruct (priority_record_event_returns t i k st) as (s2 & -> & Hl)
    end; [simpl; lia|].
    simpl in *. eexists. split; [done|]. simpl. lia. }
  simpl. unfold Priority.tick.
  destruct (remaining_time _ =? 0); [|by eexists].
  match goal with
  | |- context [Priority.record_event ?t ?i ?k ?st] =>
      destruct (priority_record_event_returns t i k st) as (s2 & -> & Hl)
  end; [simpl; lia|].
  simpl. by eexists.
Qed.

Lemma count_events_cons (k : Priority.event_type) (e : Priority.Event)
    (l : list Priority.Event) :
  count_events k (e :: l) = (if has_kind k e then 1 else 0) + count_events k l.
Proof. done. Qed.

Lemma count_events_app (k : Priority.event_type) (l1 l2 : list Priority.Event) :
  count_events k (l1 ++ l2) = count_events k l1 + count_events k l2.
Proof.
  induction l1 as [|e l1 IH]; [done|].
  rewrite <- app_comm_cons, !count_events_cons, IH. lia.
Qed.

Lemma count_events_total (evs : list Priority.Event) :
  Z.of_nat (length evs)
  = count_events Priority.Start evs + count_events Priority.Preempt evs
    + count_events Priority.Complete evs.
Proof.
  induction evs as [|[t i k] evs IH]; [done|].
  rewrite !count_events_cons, length_cons, Nat2Z.inj_succ.
  destruct k; cbn [has_kind Priority.ev_type]; lia.
Qed.

Lemma count_events_nonneg (k : Priority.event_type) (evs : list Priority.Event) :
  0 <= count_events k evs.
Proof.
  induction evs as [|e evs IH]; [done|].
  rewrite count_events_cons. destruct (has_kind k e); lia.
Qed.

Lemma started_bounds (temp : list Process) :
  0 <= started temp <= Z.of_nat (length temp).
Proof.
  unfold started, sum_of. induction temp as [|p l IH]; simpl; [lia|].
  destruct (start_time p =? -1); lia.
Qed.

(** One iteration that serves the selected slot. *)
Lemma priority_step_selected (s s' : Priority.State) (next : nat) :
  priority_inv s ->
  Priority.select (Priority.temp s) (Priority.current_time s) = Some next ->
  Priority.step s = Returned s' ->
  exists p,
    Priority.temp s !! next = Some p /\
    Priority.temp s' =
      alter (serve_job (Priority.current_time s) 1) next (Priority.temp s) /\
    Priority.current_time s' = Priority.current_time s + 1 /\
    Priority.completed s' =
      (if remaining_time p - 1 =? 0 then S (Priority.completed s)
       else Priority.completed s) /\
    Priority.is_running s' =
      (if remaining_time p - 1 =? 0 then None else Some next).
Proof.
  intros [_ Hrun] Hsel H.
  destruct (priority_select_spec _ _ _ Hsel) as (p & Hp & _).
  exists p. split; [done|].
  unfold Priority.step in H. rewrite Hsel in H.
  apply bind_Returned in H as (s1 & H1 & H).
  set (q := if start_time p =? -1
            then mark_started (Priority.current_time s) p else p).
  assert (Priority.temp s1 = alter (fun _ => q) next (Priority.temp s) /\
          Priority.current_time s1 = Priority.current_time s /\
          Priority.completed s1 = Priority.completed s /\
          Priority.is_running s1 = Some next) as (Htemp1 & Ht1 & Hc1 & Hr1).
  { case_decide as Hd.
    - injection H1 as <-. repeat split; try done.
      destruct (Hrun next Hd) as (p0 & Hp0 & Hs0).
      rewrite Hp in Hp0. injection Hp0 as <-.
      assert (q = p) as -> by (subst q; by destruct (Z.eqb_spec (start_time p) (-1))).
      rewrite <- list_insert_alter. by rewrite list_insert_id.
    - apply (priority_dispatch_spec _ _ _ p) in H1 as (Ht & Hc & Hr & Htemp);
        [|done].
      rewrite Htemp. repeat split; try done.
      apply list_alter_ext; [|done]. intros x Hx. rewrite Hp in Hx.
      by injection Hx as <-. }
  assert (remaining_time q = remaining_time p) as Hrq
    by (subst q; by destruct (start_time p =? -1)).
  assert (Priority.temp s1 !! next = Some q) as Hq
    by (by rewrite Htemp1, list_lookup_alter_eq, Hp).
  destruct (priority_tick_spec _ _ _ _ H Hq) as (Ht & Hcase).
  rewrite Hrq, Ht1, Hc1, Hr1, Htemp1, !alter_alter in Hcase.
  rewrite Ht, Ht1. split; [|split; [done|]].
  - assert (forall F, (forall x, F x = serve_job (Priority.current_time s) 1 p) ->
              alter F next (Priority.temp s)
              = alter (serve_job (Priority.current_time s) 1) next
                  (Priority.temp s)) as Halt.
    { intros F HF. apply list_alter_ext; [|done]. intros x Hx.
      rewrite Hp in Hx. injection Hx as <-. apply HF. }
    destruct Hcase as [(E & -> & _)|(E & -> & _)]; apply Halt; intros x;
      unfold serve_job; fold q; rewrite Hrq.
    + apply Z.eqb_eq in E. by rewrite E.
    + apply Z.eqb_neq in E. by rewrite E.
  - destruct Hcase as [(E & _ & -> & ->)|(E & _ & -> & ->)].
    + apply Z.eqb_eq in E. by rewrite E.
    + apply Z.eqb_neq in E. by rewrite E.
Qed.

Lemma started_serve (temp : list Process) (i : nat) (p : Process) (t e : Z) :
  temp !! i = Some p -> 0 <= t ->
  started (alter (serve_job t e) i temp)
  = started temp + (if start_time p =? -1 then 1 else 0).
Proof.
  intros Hp Ht. unfold started. rewrite (sum_of_alter _ _ _ _ _ Hp).
  destruct (serve_job_fields t e p) as (_ & _ & ->).
  destruct (Z.eqb_spec (start_time p) (-1)) as [E|E].
  - destruct (Z.eqb_spec t (-1)); lia.
  - destruct (Z.eqb_spec (start_time p) (-1)); lia.
Qed.

Lemma started_pos (temp : list Process) (i : nat) (p : Process) :
  temp !! i = Some p -> start_time p <> -1 -> 1 <= started temp.
Proof.
  revert i. unfold started, sum_of.
  induction temp as [|q l IH]; intros [|i] Hp Hs; simpl in *; try done.
  - injection Hp as ->. pose proof (started_bounds l) as Hb.
    unfold started, sum_of in Hb.
    destruct (Z.eqb_spec (start_time p) (-1)); lia.
  - specialize (IH i Hp Hs). destruct (start_time q =? -1); lia.
Qed.

(** The three shapes of the rows that an iteration appends. *)
Lemma step_events_continue (s : Priority.State) (next : nat) (p : Process) :
  Priority.is_running s = Some next ->
  step_events s next p =
    if remaining_time p - 1 =? 0
    then [Priority.mkEvent (Priority.current_time s + 1) next Priority.Complete]
    else [].
Proof. intros H. unfold step_events. by rewrite decide_True. Qed.

Lemma step_events_idle_cpu (s : Priority.State) (next : nat) (p : Process) :
  Priority.is_running s = None ->
  step_events s next p =
    Priority.mkEvent (Priority.current_time s) next Priority.Start
    :: if remaining_time p - 1 =? 0
       then [Priority.mkEvent (Priority.current_time s + 1) next
               Priority.Complete]
       else [].
Proof.
  intros H. unfold step_events. rewrite decide_False by congruence.
  by rewrite H.
Qed.

Lemma step_events_preempt (s : Priority.State) (next r : nat)
    (p pr : Process) :
  Priority.is_running s = Some r -> r <> next ->
  Priority.temp s !! r = Some pr -> 0 < remaining_time pr ->
  step_events s next p =
    Priority.mkEvent (Priority.current_time s) r Priority.Preempt
    :: Priority.mkEvent (Priority.current_time s) next Priority.Start
    :: if remaining_time p - 1 =? 0
       then [Priority.mkEvent (Priority.current_time s + 1) next
               Priority.Complete]
       else [].
Proof.
  intros H Hne Hr Hrem. unfold step_events.
  rewrite decide_False by congruence.
  rewrite H, (list_lookup_total_correct _ _ _ Hr).
  by destruct (Z.ltb_spec 0 (remaining_time pr)); [|lia].
Qed.

Lemma events_sorted_app (l1 l2 : list Priority.Event) (t : Z) :
  (forall i j e1 e2, l1 !! i = Some e1 -> l1 !! j = Some e2 -> (i <= j)%nat ->
     Priority.ev_time e1 <= Priority.ev_time e2) ->
  (forall i j e1 e2, l2 !! i = Some e1 -> l2 !! j = Some e2 -> (i <= j)%nat ->
     Priority.ev_time e1 <= Priority.ev_time e2) ->
  Forall (fun e => Priority.ev_time e <= t) l1 ->
  Forall (fun e => t <= Priority.ev_time e) l2 ->
  forall i j e1 e2,
    (l1 ++ l2) !! i = Some e1 -> (l1 ++ l2) !! j = Some e2 -> (i <= j)%nat ->
    Priority.ev_time e1 <= Priority.ev_time e2.
Proof.
  intros H1 H2 Hle Hge i j e1 e2 Hi Hj Hij.
  apply lookup_app_Some in Hi as [Hi|[Hi1 Hi]];
    apply lookup_app_Some in Hj as [Hj|[Hj1 Hj]].
  - by eapply H1.
  - pose proof (Forall_lookup_1 _ _ _ _ Hle Hi).
    pose proof (Forall_lookup_1 _ _ _ _ Hge Hj). simpl in *. lia.
  - apply lookup_lt_Some in Hj. lia.
  - eapply H2; [exact Hi|exact Hj|lia].
Qed.

Lemma priority_step_log_inv (n : nat) (s s' : Priority.State) :
  priority_inv s -> run_inv n (priority_view s) -> priority_log_inv s ->
  Priority.step s = Returned s' -> priority_log_inv s'.
Proof.
  intros Hpinv [Hok Htl _ _ _] [HS Hbal HC HP Hrun Hrows Hsorted] Hstep.
  simpl in Hok, Htl.
  pose proof (priority_select_min (Priority.temp s) (Priority.current_time s))
    as Hmin.
  destruct (Priority.select (Priority.temp s) (Priority.current_time s))
    as [next|] eqn:Hsel.
  - destruct Hmin as (p & Hp & [Harr Hrem] & Hprio & Hbefore).
    destruct (priority_step_selected s s' next Hpinv Hsel Hstep)
      as (p0 & Hp0 & Htemp & Ht & Hc & Hr).
    rewrite Hp in Hp0. injection Hp0 as <-.
    destruct (priority_step_log s s' next p Hsel Hp Hstep) as [Hev Hcs].
    pose proof (Forall_lookup_1 _ _ _ _ Hok Hp) as Hpok.
    pose proof (Forall_lookup_1 _ _ _ _ Htl Hp) as Hptl.
    assert (0 <= Priority.current_time s) as Ht0
      by (destruct Hpok as [[Ha _] _]; lia).
    pose proof (started_serve _ _ _ _ 1 Hp Ht0) as Hst. rewrite <- Htemp in Hst.
    pose proof (lookup_lt_Some _ _ _ Hp) as Hnext.
    destruct (serve_job_fields (Priority.current_time s) 1 p) as (Hd' & Hr' & Hs').
    apply descriptor_fields in Hd' as (Hprio' & Harr' & _).
    set (tl := if remaining_time p - 1 =? 0
               then [Priority.mkEvent (Priority.current_time s + 1) next
                       Priority.Complete]
               else []) in *.
    (* what the rows appended before [tl] are *)
    assert (exists pre : list Priority.Event,
              step_events s next p = pre ++ tl /\
              count_events Priority.Start pre
                = (if decide (Priority.is_running s = Some next) then 0 else 1) /\
              count_events Priority.Complete pre = 0 /\
              (count_events Priority.Preempt pre = 0 \/
               count_events Priority.Preempt pre = 1 /\
               start_time p = -1 /\ 1 <= started (Priority.temp s) /\
               Priority.is_running s <> None) /\
              (Priority.is_running s = None ->
               count_events Priority.Preempt pre = 0 /\
               count_events Priority.Start pre = 1) /\
              (forall r, Priority.is_running s = Some r -> r <> next ->
               count_events Priority.Preempt pre = 1) /\
              Forall (fun e => (Priority.ev_pid e < length (Priority.temp s))%nat /\
                               Priority.ev_time e = Priority.current_time s) pre)
      as (pre & Hshape & HpreS & HpreC & HpreP & HpreN & HpreR & Hpre).
    { destruct (Priority.is_running s) as [r|] eqn:HR.
      - destruct (decide (r = next)) as [->|Hne].
        + exists []. rewrite (step_events_continue s next p HR).
          rewrite decide_True by done.
          repeat split; try done; [by left|congruence].
        + destruct (Hrun r eq_refl) as (pr & Hpr & Hrrem & Hrarr & Hrprio & Hrs & Hrmin).
          eexists [_; _]. rewrite (step_events_preempt s next r p pr HR Hne Hpr Hrrem).
          rewrite decide_False by congruence.
          split; [done|]. split; [done|]. split; [done|].
          split; [|split; [done|split; [done|]]].
          * right. split; [done|]. split; [|split; [by eapply started_pos|done]].
            destruct (decide (start_time p = -1)) as [|Hstarted]; [done|].
            exfalso.
            assert (arrival_time p < Priority.current_time s) as Hearly.
            { destruct Hptl as (_ & Hb & _). specialize (Hb Hstarted). lia. }
            pose proof (Hrmin next p Hp Hearly Hrem) as H1.
            assert (priority_eligible (Priority.current_time s) pr) as Hel
              by (split; [lia|done]).
            pose proof (Hbefore r pr Hpr Hel) as H2.
            unfold goes_before in *. lia.
          * pose proof (lookup_lt_Some _ _ _ Hpr).
            repeat constructor; simpl; done.
      - exists [Priority.mkEvent (Priority.current_time s) next Priority.Start].
        rewrite (step_events_idle_cpu s next p HR).
        rewrite decide_False by congruence.
        repeat split; try done; [by left|].
        repeat constructor; simpl; done. }
    assert (count_events Priority.Start tl = 0 /\
            count_events Priority.Preempt tl = 0 /\
            count_events Priority.Complete tl
              = (if remaining_time p - 1 =? 0 then 1 else 0) /\
            Forall (fun e => (Priority.ev_pid e < length (Priority.temp s))%nat /\
                             Priority.ev_time e = Priority.current_time s + 1) tl)
      as (HtlS & HtlP & HtlC & Htlrows).
    { subst tl. destruct (remaining_time p - 1 =? 0); repeat split; try done.
      repeat constructor; simpl; done. }
    rewrite Hshape in Hev.
    split; rewrite ?Hev, ?Hcs, ?Ht, ?Hc, ?Hr, ?Htemp, ?length_alter,
             ?count_events_app.
    + rewrite HpreS, HtlS. case_decide; lia.
    + rewrite HpreS, HtlS.
      destruct (Priority.is_running s) as [r|] eqn:HR.
      * destruct (decide (r = next)) as [->|Hne].
        -- rewrite decide_True by done.
           destruct HpreP as [->|(_ & Hfresh & _)].
           ++ destruct (remaining_time p - 1 =? 0); lia.
           ++ exfalso.
              destruct (Hrun next eq_refl) as (p0 & Hp0 & _ & _ & _ & Hs0 & _).
              rewrite Hp in Hp0. injection Hp0 as <-. done.
        -- rewrite decide_False by congruence. rewrite (HpreR r eq_refl Hne).
           destruct (remaining_time p - 1 =? 0); lia.
      * destruct (HpreN eq_refl) as [-> _]. rewrite decide_False by congruence.
        destruct (remaining_time p - 1 =? 0); lia.
    + rewrite HpreC, HtlC. destruct (remaining_time p - 1 =? 0); lia.
    + rewrite HtlP, <- Htemp, Hst.
      destruct HpreP as [->|(-> & Hfresh & Hone & _)].
      * destruct HP as [HP|HP]; [left; lia|right].
        destruct (start_time p =? -1); lia.
      * right. rewrite Hfresh. simpl. destruct HP as [HP|HP]; lia.
    + intros r. destruct (Z.eqb_spec (remaining_time p - 1) 0) as [E|E]; [done|].
      intros [= <-]. exists (serve_job (Priority.current_time s) 1 p).
      rewrite list_lookup_alter_eq, Hp. split; [done|].
      split; [lia|]. split; [lia|]. split; [lia|]. split.
      * rewrite Hs'. destruct (Z.eqb_spec (start_time p) (-1)); lia.
      * intros j q Hq Hqa Hqr. destruct (decide (j = next)) as [->|Hj].
        -- rewrite list_lookup_alter_eq, Hp in Hq. injection Hq as <-.
           right. split; [done|lia].
        -- rewrite list_lookup_alter_ne in Hq by done.
           assert (priority_eligible (Priority.current_time s) q) as Hel
             by (split; [lia|done]).
           pose proof (Hbefore j q Hq Hel) as Hgb.
           unfold goes_before in *. lia.
    + rewrite !Forall_app. split; [|split].
      * eapply Forall_impl; [exact Hrows|]. simpl. intros e He. lia.
      * eapply Forall_impl; [exact Hpre|]. simpl. intros e He. lia.
      * eapply Forall_impl; [exact Htlrows|]. simpl. intros e He. lia.
    + apply (events_sorted_app _ _ (Priority.current_time s)); [done| | |].
      * apply (events_sorted_app _ _ (Priority.current_time s)).
        -- intros i j e1 e2 H1 H2 _.
           pose proof (Forall_lookup_1 _ _ _ _ Hpre H1) as [_ ->].
           pose proof (Forall_lookup_1 _ _ _ _ Hpre H2) as [_ ->]. lia.
        -- intros i j e1 e2 H1 H2 _.
           pose proof (Forall_lookup_1 _ _ _ _ Htlrows H1) as [_ ->].
           pose proof (Forall_lookup_1 _ _ _ _ Htlrows H2) as [_ ->]. lia.
        -- eapply Forall_impl; [exact Hpre|]. simpl. intros e He. lia.
        -- eapply Forall_impl; [exact Htlrows|]. simpl. intros e He. lia.
      * eapply Forall_impl; [exact Hrows|]. simpl. intros e He. lia.
      * apply Forall_app. split.
        -- eapply Forall_impl; [exact Hpre|]. simpl. intros e He. lia.
        -- eapply Forall_impl; [exact Htlrows|]. simpl. intros e He. lia.
  - assert (Priority.is_running s = None) as Hnone.
    { destruct (Priority.is_running s) as [r|] eqn:HR; [|done].
      destruct (Hrun r eq_refl) as (pr & Hpr & Hrem & Harr & Hprio & _).
      assert (priority_eligible (Priority.current_time s) pr) as Hel
        by (split; [lia|done]).
      specialize (Hmin r pr Hpr Hel). lia. }
    unfold Priority.step in Hstep. rewrite Hsel in Hstep.
    injection Hstep as <-. split; simpl; try done.
    + intros r. by rewrite Hnone.
    + eapply Forall_impl; [exact Hrows|]. simpl. intros e He. lia.
Qed.

Lemma priority_reachable_log_inv (proc : list Process) (s : Priority.State) :
  valid_registry proc -> priority_reachable proc s -> priority_log_inv s.
Proof.
  intros Hv Hreach. induction Hreach as [temp0 Hc|s s' Hreach IH _ Hstep].
  - split; simpl; try done. by left.
  - eapply (priority_step_log_inv (length proc)); try done.
    + by eapply priority_reachable_inv.
    + by apply priority_reachable_run_inv.
Qed.

(** The size of the event log: two rows per completed job, two per
    preemption and one for the running job. *)
Lemma priority_log_size (proc : list Process) (s : Priority.State) :
  valid_registry proc -> priority_reachable proc s ->
  let k := count_events Priority.Preempt (Priority.events s) in
  Z.of_nat (length (Priority.events s))
  = 2 * Z.of_nat (Priority.completed s) + 2 * k
    + match Priority.is_running s with Some _ => 1 | None => 0 end /\
  Priority.context_switches s
  = Z.of_nat (Priority.completed s) + k
    + match Priority.is_running s with Some _ => 1 | None => 0 end /\
  0 <= k <= Z.max 0 (Z.of_nat (length proc) - 1) /\
  (Priority.completed s <= length proc)%nat.
Proof.
  intros Hv Hreach k.
  pose proof (priority_reachable_log_inv proc s Hv Hreach)
    as [HS Hbal HC HP _ _ _].
  pose proof (priority_reachable_run_inv proc s Hv Hreach)
    as [Hok _ _ Hcount Hlen]. simpl in *.
  pose proof (count_events_total (Priority.events s)) as Htot.
  pose proof (count_events_nonneg Priority.Preempt (Priority.events s)) as Hk.
  pose proof (started_bounds (Priority.temp s)) as Hst.
  pose proof (unfinished_le_remaining _ _ Hok) as [Hu _].
  fold k in Hbal, HP, Htot, Hk. rewrite Hlen in Hst.
  repeat split; lia.
Qed.

Lemma priority_loop_returns (A : Z) (proc : list Process) (fuel : nat)
    (s : Priority.State) :
  valid_registry proc -> priority_reachable proc s ->
  Forall (fun p => priority p < 999) (Priority.temp s) ->
  progress_inv A (length proc) (Priority.temp s) (Priority.completed s) ->
  iterations_left A (total_remaining (Priority.temp s))
    (Priority.current_time s) <= Z.of_nat fuel ->
  exists r, Priority.loop fuel (length proc) s = Returned r.
Proof.
  intros Hv. revert s.
  induction fuel as [|fuel IH]; intros s Hreach Hprio Hprog Hfuel; simpl;
    destruct (Nat.ltb_spec (Priority.completed s) (length proc)) as [Hlt|Hge];
    eauto.
  - exfalso. destruct Hprog as [_ Hcount].
    pose proof (priority_reachable_inv proc s Hv Hreach) as [Hok _].
    pose proof (unfinished_le_remaining _ _ Hok).
    unfold iterations_left in *. lia.
  - destruct (priority_step_returns s) as [s' Hstep].
    { destruct (priority_log_size proc s Hv Hreach) as (Hsize & _ & Hk & Hc).
      destruct Hv as [Hn _]. unfold MAX_PROCESSES in Hn.
      unfold Priority.MAX_EVENTS.
      destruct (Priority.is_running s); lia. }
    rewrite Hstep. simpl.
    destruct (priority_step_progress A (length proc) s s')
      as (Hprio' & Hprog' & Hless); try done.
    { by eapply priority_reachable_inv. }
    apply IH; try done; [|lia]. by eapply priority_reach_step.
Qed.

(** X5: on a valid registry that fits the [int] clock and whose
    priorities are below 999 the preemptive scheduler returns once the fuel
    covers one iteration per unit of service and one per tick up to the
    last arrival [A]; the event log [events[200]] never overflows.  With
    [k] the number of preemptions, the run has made [n + k] context
    switches and written [2 (n + k)] rows, and [k] is at most [n - 1]: a
    job is preempted only by a job that arrives at that moment and has not
    run before. *)
Theorem X5_priority_returns (A : Z) (proc : list Process) (fuel : nat) :
  valid_registry proc -> fits_int proc ->
  Forall (fun p => priority p < 999) proc ->
  Forall (fun p => arrival_time p <= A) proc ->
  sum_of burst_time proc + Z.max 0 A <= Z.of_nat fuel ->
  exists (s : Priority.State) (m : Metrics),
    Priority.run fuel proc = Returned s /\
    priority_scheduling fuel proc = Returned (Priority.temp s, m) /\
    let n := Z.of_nat (length proc) in
    let k := count_events Priority.Preempt (Priority.events s) in
    0 <= k <= Z.max 0 (n - 1) /\
    context_switches m = n + k /\
    Z.of_nat (length (Priority.events s)) = 2 * (n + k) /\
    (length (Priority.events s) < Priority.MAX_EVENTS)%nat.
Proof.
  intros Hv _ Hprio HA Hfuel.
  destruct (progress_inv_fresh A proc Hv HA) as [Hprog Htot].
  assert (priority_reachable proc (Priority.init proc)) as Hreach
    by (apply priority_reach_init, copy_in_fits, Hv).
  destruct (priority_loop_returns A proc fuel (Priority.init proc))
    as [s Hs]; try done.
  { unfold iterations_left. simpl. rewrite Htot, Z.sub_0_r. done. }
  destruct (priority_loop_reachable proc fuel _ s Hreach Hs) as [Hreach' Hexit].
  pose proof (priority_reachable_run_inv proc s Hv Hreach') as Hinv.
  destruct (run_inv_all_completed _ _ _ _ Hinv Hexit) as [Hc Hall].
  destruct (priority_log_size proc s Hv Hreach') as (Hsize & Hcs & Hk & _).
  assert (Priority.is_running s = None) as Hnone.
  { destruct (Priority.is_running s) as [r|] eqn:HR; [|done].
    destruct (log_running s (priority_reachable_log_inv proc s Hv Hreach')
                r HR) as (p & Hp & Hrem & _).
    pose proof (Forall_lookup_1 _ _ _ _ Hall Hp) as [Hz _]. lia. }
  rewrite Hnone, Hc in Hsize, Hcs.
  exists s. eexists. split.
  { unfold Priority.run. rewrite copy_in_fits by apply Hv. exact Hs. }
  split.
  { unfold priority_scheduling, Priority.run.
    rewrite copy_in_fits by apply Hv. simpl. rewrite Hs. done. }
  simpl. split; [done|]. split; [lia|]. split; [lia|].
  destruct Hv as [Hn _]. unfold MAX_PROCESSES in Hn.
  unfold Priority.MAX_EVENTS. lia.
Qed.

Lemma X5_priority_returns_witness :
  valid_registry init_emergency_scenario /\
  fits_int init_emergency_scenario /\
  exists (s : Priority.State) (m : Metrics),
    Priority.run 130 init_emergency_scenario = Returned s /\
    context_switches m
    = 12 + count_events Priority.Preempt (Priority.events s).
Proof.
  assert (valid_registry init_emergency_scenario) as Hv.
  { split; [vm_compute; lia|]. repeat constructor; simpl; lia. }
  assert (fits_int init_emergency_scenario) as Hfit by (by vm_compute).
  split; [exact Hv|]. split; [exact Hfit|].
  destruct (X5_priority_returns 20 init_emergency_scenario 130 Hv Hfit)
    as (s & m & Hr & _ & _ & Hcs & _).
  - repeat constructor; simpl; lia.
  - repeat constructor; simpl; lia.
  - vm_compute. discriminate.
  - exists s, m. split; [exact Hr|exact Hcs].
Defined.

(** ** The preemptive scheduler: who waits for whom *)

Lemma service_at_most_serve (P : Z) (temp : list Process) (i : nat)
    (p : Process) (t e : Z) :
  temp !! i = Some p ->
  service_at_most P (alter (serve_job t e) i temp)
  = service_at_most P temp + (if priority p <=? P then e else 0) /\
  burst_at_most P (alter (serve_job t e) i temp) = burst_at_most P temp.
Proof.
  intros Hp. unfold service_at_most, burst_at_most.
  rewrite !(sum_of_alter _ _ _ _ _ Hp).
  destruct (serve_job_fields t e p) as (Hd & -> & _).
  apply descriptor_fields in Hd as (-> & _ & ->).
  destruct (priority p <=? P); lia.
Qed.

Lemma service_at_most_bounds (P t : Z) (temp : list Process) :
  Forall (job_ok t) temp ->
  0 <= service_at_most P temp <= burst_at_most P temp.
Proof.
  unfold service_at_most, burst_at_most, sum_of.
  induction 1 as [|p l (_ & Hr & _) _ IH]; simpl; [lia|].
  destruct (priority p <=? P); lia.
Qed.

Lemma burst_at_most_descriptor (P : Z) (l1 l2 : list Process) :
  map descriptor l1 = map descriptor l2 ->
  burst_at_most P l1 = burst_at_most P l2.
Proof.
  unfold burst_at_most, sum_of. revert l2.
  induction l1 as [|p l1 IH]; intros [|q l2] H; simpl in *; try done.
  assert (descriptor p = descriptor q) as Hd by congruence.
  assert (map descriptor l1 = map descriptor l2) as Hl by congruence.
  apply descriptor_fields in Hd as (-> & _ & ->).
  by rewrite (IH l2 Hl).
Qed.

Lemma priority_step_wait_inv (n : nat) (s s' : Priority.State) :
  priority_inv s -> run_inv n (priority_view s) -> priority_wait_inv s ->
  Priority.step s = Returned s' -> priority_wait_inv s'.
Proof.
  intros Hpinv Hrinv Hwait Hstep.
  pose proof (service_step_inv n _ _ Hrinv
                (priority_step_service s s' Hpinv Hstep)) as [Hok' _ _ _ _].
  destruct Hrinv as [Hok _ _ _ _]. simpl in Hok, Hok'.
  pose proof (priority_select_min (Priority.temp s) (Priority.current_time s))
    as Hmin.
  destruct (Priority.select (Priority.temp s) (Priority.current_time s))
    as [next|] eqn:Hsel.
  - destruct Hmin as (pn & Hpn & [Harr Hrem] & Hprio & Hbefore).
    destruct (priority_step_selected s s' next Hpinv Hsel Hstep)
      as (p0 & Hp0 & Htemp & Ht & _).
    rewrite Hpn in Hp0. injection Hp0 as <-.
    destruct (serve_job_fields (Priority.current_time s) 1 pn)
      as (Hd & Hr & Hs).
    apply descriptor_fields in Hd as (Hprio' & Harr' & Hburst').
    intros k p' Hp'. rewrite Htemp in Hp'. rewrite Ht, Htemp.
    destruct (service_at_most_serve (priority p') _ _ _
                (Priority.current_time s) 1 Hpn) as [-> ->].
    destruct (decide (k = next)) as [->|Hk].
    + rewrite list_lookup_alter_eq, Hpn in Hp'. injection Hp' as <-.
      destruct (Hwait next pn Hpn) as (_ & H2 & _).
      rewrite Hprio', Hr. specialize (H2 Hprio Hrem).
      rewrite Z.leb_refl. split; [lia|]. split; [lia|].
      intros Hz.
      pose proof (service_at_most_bounds (priority pn) _ _ Hok') as Hb.
      rewrite Htemp in Hb.
      destruct (service_at_most_serve (priority pn) _ _ _
                  (Priority.current_time s) 1 Hpn) as [Hsv Hbu].
      rewrite Hsv, Hbu, Z.leb_refl in Hb.
      assert (turnaround_time (serve_job (Priority.current_time s) 1 pn)
              = Priority.current_time s + 1 - arrival_time pn) as ->.
      { unfold serve_job. rewrite Hz. simpl.
        by destruct (start_time pn =? -1). }
      lia.
    + rewrite list_lookup_alter_ne in Hp' by done.
      destruct (Hwait k p' Hp') as (H1 & H2 & H3).
      split; [done|]. split; [|done]. intros Hp999 Hprem.
      specialize (H2 Hp999 Hprem).
      pose proof (service_at_most_bounds (priority p') _ _ Hok) as Hb.
      destruct (Z.le_gt_cases (arrival_time p') (Priority.current_time s))
        as [Hle|Hgt].
      * assert (priority_eligible (Priority.current_time s) p') as Hel
          by (by split).
        pose proof (Hbefore k p' Hp' Hel) as Hgb. unfold goes_before in Hgb.
        destruct (Z.leb_spec (priority pn) (priority p')); lia.
      * destruct (priority pn <=? priority p'); lia.
  - unfold Priority.step in Hstep. rewrite Hsel in Hstep.
    injection Hstep as <-. intros k p Hp. simpl in *.
    destruct (Hwait k p Hp) as (H1 & H2 & H3).
    split; [done|]. split; [|done]. intros Hp999 Hprem.
    pose proof (service_at_most_bounds (priority p) _ _ Hok) as Hb.
    destruct (Z.le_gt_cases (arrival_time p) (Priority.current_time s))
      as [Hle|Hgt]; [|lia].
    assert (priority_eligible (Priority.current_time s) p) as Hel by (by split).
    specialize (Hmin k p Hp Hel). lia.
Qed.

Lemma priority_reachable_wait_inv (proc : list Process) (s : Priority.State) :
  valid_registry proc -> priority_reachable proc s -> priority_wait_inv s.
Proof.
  intros Hv Hreach. induction Hreach as [temp0 Hc|s s' Hreach IH _ Hstep].
  - apply copy_in_Returned in Hc as [-> _]. intros k p Hp. simpl in *.
    pose proof (service_at_most_bounds (priority p) 0 proc
                  (registry_job_ok proc Hv)) as Hb.
    destruct Hv as [_ Hjobs].
    pose proof (Forall_lookup_1 _ _ _ _ Hjobs Hp)
      as [[Ha Hb'] (Hr & _ & _ & _ & _ & Hs)].
    simpl. split; [done|]. split; lia.
  - eapply (priority_step_wait_inv (length proc)); try done.
    + by eapply priority_reachable_inv.
    + by apply priority_reachable_run_inv.
Qed.

(** What the preemptive scheduler returns: the bound on every job's
    waiting time, and the priorities it can serve. *)
Lemma priority_scheduling_waiting (proc : list Process) (fuel : nat)
    (out : list Process) (m : Metrics) :
  valid_registry proc ->
  priority_scheduling fuel proc = Returned (out, m) ->
  Forall (fun p =>
            priority p < 999 /\
            0 <= response_time p <= waiting_time p /\
            waiting_time p
            <= burst_at_most (priority p) proc - burst_time p) out.
Proof.
  intros Hv H.
  pose proof (scheduling_descriptor proc fuel out m (or_introl H)) as Hdesc.
  pose proof H as Hrun. unfold priority_scheduling in Hrun.
  apply bind_Returned in Hrun as (s & Hrun & Hret).
  injection Hret as <- <-.
  apply priority_run_reachable in Hrun as [Hreach Hexit].
  pose proof (priority_reachable_run_inv proc s Hv Hreach) as Hinv.
  destruct (run_inv_all_completed _ _ _ _ Hinv Hexit) as [_ Hall].
  pose proof (priority_reachable_wait_inv proc s Hv Hreach) as Hwait.
  destruct Hinv as [Hok Htl _ _ _]. simpl in Hok, Htl.
  apply Forall_lookup_2. intros k p Hp.
  pose proof (Forall_lookup_1 _ _ _ _ Hok Hp) as Hpok.
  pose proof (Forall_lookup_1 _ _ _ _ Htl Hp) as Hptl.
  pose proof (Forall_lookup_1 _ _ _ _ Hall Hp) as (Hz & Hc & Hs).
  destruct (Hwait k p Hp) as (H1 & _ & H3).
  specialize (H1 Hs). specialize (H3 Hz).
  rewrite (burst_at_most_descriptor _ _ _ Hdesc) in H3.
  split; [done|]. revert Hpok Hptl Hz Hc Hs H3. timeline_crush.
Qed.

(** X7: under preemptive priority scheduling a job waits at most for the
    other jobs whose priority value is no larger than its own: in the list
    returned for a valid registry that fits the [int] clock, the waiting
    time of every job is at most the sum of the burst times of those jobs,
    and its response time is at most its waiting time.  Jobs with a larger
    priority value never delay it. *)
Theorem X7_priority_waiting_bound (proc : list Process) (fuel : nat)
    (out : list Process) (m : Metrics) :
  valid_registry proc -> fits_int proc ->
  priority_scheduling fuel proc = Returned (out, m) ->
  Forall (fun p =>
            0 <= response_time p <= waiting_time p /\
            waiting_time p
            <= burst_at_most (priority p) proc - burst_time p) out.
Proof.
  intros Hv _ H.
  eapply Forall_impl; [by apply (priority_scheduling_waiting proc fuel out m)|].
  simpl. intros p (_ & H1 & H2). by split.
Qed.

Lemma X7_priority_waiting_bound_witness :
  valid_registry init_emergency_scenario /\
  fits_int init_emergency_scenario /\
  Forall (fun p => waiting_time p
                   <= burst_at_most (priority p) init_emergency_scenario
                      - burst_time p)
    (fst (result_of (priority_scheduling 130 init_emergency_scenario))).
Proof.
  assert (valid_registry init_emergency_scenario) as Hv.
  { split; [vm_compute; lia|]. repeat constructor; simpl; lia. }
  assert (fits_int init_emergency_scenario) as Hfit by (by vm_compute).
  split; [exact Hv|]. split; [exact Hfit|].
  assert (exists r, priority_scheduling 130 init_emergency_scenario = Returned r)
    as [[out m] Hr] by (vm_compute; eauto).
  rewrite Hr. simpl.
  eapply Forall_impl;
    [apply (X7_priority_waiting_bound init_emergency_scenario 130 out m Hv
              Hfit Hr)|].
  simpl. intros p Hp. apply Hp.
Defined.

Lemma sum_of_single (g : Process -> Z) (l : list Process) (k : nat)
    (p : Process) :
  l !! k = Some p ->
  (forall j q, l !! j = Some q -> j <> k -> g q = 0) ->
  sum_of g l = g p.
Proof.
  unfold sum_of. revert k. induction l as [|x l IH]; intros [|k] Hp Hz;
    simpl in *; try done.
  - injection Hp as ->.
    assert (foldr (fun q acc => g q + acc) 0 l = 0) as ->; [|lia].
    clear IH. assert (forall j q, l !! j = Some q -> g q = 0) as Hz'
      by (intros j q Hq; by apply (Hz (S j) q)).
    clear Hz. induction l as [|y l IH]; simpl; [done|].
    rewrite (Hz' 0%nat y eq_refl), IH; [done|].
    intros j q Hq. by apply (Hz' (S j)).
  - rewrite (Hz 0%nat x eq_refl) by done.
    rewrite (IH k Hp); [lia|]. intros j q Hq Hj. apply (Hz (S j) q Hq). lia.
Qed.

(** X8: a job whose priority value is below that of every other job of a
    valid registry that fits the [int] clock is served by the preemptive
    scheduler the moment it arrives and is never interrupted: in the
    returned list its response time and waiting time are 0, it starts at
    its arrival and completes one burst later. *)
Theorem X8_top_priority_served_at_once (proc : list Process) (fuel : nat)
    (out : list Process) (m : Metrics) (k : nat) (p : Process) :
  valid_registry proc -> fits_int proc ->
  priority_scheduling fuel proc = Returned (out, m) ->
  out !! k = Some p ->
  (forall j q, out !! j = Some q -> j <> k -> priority p < priority q) ->
  response_time p = 0 /\ waiting_time p = 0 /\
  start_time p = arrival_time p /\
  completion_time p = arrival_time p + burst_time p.
Proof.
  intros Hv _ H Hp Htop.
  pose proof (priority_scheduling_waiting proc fuel out m Hv H) as Hwait.
  pose proof (Forall_lookup_1 _ _ _ _ Hwait Hp) as (_ & Hresp & Hbound).
  simpl in Hresp, Hbound.
  pose proof (scheduling_descriptor proc fuel out m (or_introl H)) as Hdesc.
  rewrite <- (burst_at_most_descriptor _ _ _ Hdesc) in Hbound.
  assert (burst_at_most (priority p) out = burst_time p) as Hsum.
  { unfold burst_at_most. rewrite (sum_of_single _ out k p Hp).
    - by rewrite Z.leb_refl.
    - intros j q Hq Hj. specialize (Htop j q Hq Hj).
      destruct (Z.leb_spec (priority q) (priority p)); [lia|done]. }
  pose proof (scheduling_run_inv proc fuel out m Hv (or_introl H)) as Hinv.
  destruct (run_inv_all_completed _ _ _ _ Hinv) as [_ Hall]; [lia|].
  destruct Hinv as [Hok Htl _ _ _]. simpl in Hok, Htl.
  pose proof (Forall_lookup_1 _ _ _ _ Hok Hp) as Hpok.
  pose proof (Forall_lookup_1 _ _ _ _ Htl Hp) as Hptl.
  pose proof (Forall_lookup_1 _ _ _ _ Hall Hp) as (Hz & Hc & Hs).
  rewrite Hsum in Hbound.
  revert Hpok Hptl Hz Hc Hs Hresp Hbound. timeline_crush.
Qed.

Lemma X8_top_priority_served_at_once_witness :
  valid_registry example_registry /\ fits_int example_registry /\
  exists (out : list Process) (m : Metrics) (p : Process),
    priority_scheduling 10 example_registry = Returned (out, m) /\
    out !! 1%nat = Some p /\
    response_time p = 0 /\ waiting_time p = 0.
Proof.
  assert (valid_registry example_registry) as Hv.
  { split; [vm_compute; lia|]. repeat constructor; simpl; lia. }
  assert (fits_int example_registry) as Hfit by (by vm_compute).
  split; [exact Hv|]. split; [exact Hfit|].
  assert (exists r, priority_scheduling 10 example_registry = Returned r)
    as [[out m] Hr] by (vm_compute; eauto).
  pose proof (scheduling_descriptor _ _ _ _ (or_introl Hr)) as Hd.
  destruct out as [|p0 [|p1 [|p2 [|p3 out]]]]; try discriminate Hd.
  unfold descriptor in Hd. simpl in Hd. injection Hd; intros.
  exists [p0; p1; p2], m, p1. split; [exact Hr|]. split; [reflexivity|].
  destruct (X8_top_priority_served_at_once example_registry 10
              [p0; p1; p2] m 1 p1 Hv Hfit Hr eq_refl) as (Ha & Hb & _).
  - clear Hr. intros [|[|[|j]]] q Hq Hj; try done; injection Hq as <-; lia.
  - split; [exact Ha|exact Hb].
Defined.

(** ** The initial values of the scans *)

Lemma priority_loop_in_bounds (proc : list Process) (fuel : nat)
    (s : Priority.State) (i : nat) :
  valid_registry proc -> priority_reachable proc s ->
  Priority.loop fuel (length proc) s <> OutOfBounds i.
Proof.
  intros Hv. revert s. induction fuel as [|fuel IH]; intros s Hreach; simpl;
    destruct (Nat.ltb_spec (Priority.completed s) (length proc)) as [Hlt|Hge];
    try done.
  destruct (priority_step_returns s) as [s' Hstep].
  { destruct (priority_log_size proc s Hv Hreach) as (Hsize & _ & Hk & Hc).
    destruct Hv as [Hn _]. unfold MAX_PROCESSES in Hn.
    unfold Priority.MAX_EVENTS.
    destruct (Priority.is_running s); lia. }
  rewrite Hstep. simpl. apply IH. by eapply priority_reach_step.
Qed.

Lemma sjf_reachable_short_jobs (proc : list Process) (s : SJF.State) :
  valid_registry proc -> SJF.reachable proc s ->
  Forall (fun p => start_time p <> -1 -> burst_time p < 999999) (SJF.temp s).
Proof.
  intros Hv Hreach. induction Hreach as [temp0 Hc|s Hreach IH _].
  - apply copy_in_Returned in Hc as [-> _]. simpl. destruct Hv as [_ Hjobs].
    eapply Forall_impl; [exact Hjobs|]. intros p [_ (_ & _ & _ & _ & _ & Hs)].
    done.
  - destruct (SJF.select s) as [next|] eqn:Hsel.
    + destruct (sjf_select_spec s next Hsel) as (p & Hp & _ & Hshort & _).
      rewrite (sjf_step_dispatch s next p Hsel Hp). simpl.
      eapply Forall_alter_change; [exact IH|done|].
      intros x Hx _ _. rewrite Hp in Hx. by injection Hx as <-.
    + unfold SJF.step. by rewrite Hsel.
Qed.

Lemma sjf_loop_in_bounds (fuel n : nat) (s : SJF.State) (i : nat) :
  SJF.loop fuel n s <> OutOfBounds i.
Proof.
  revert s. induction fuel as [|fuel IH]; intros s; simpl;
    destruct (SJF.completed s <? n)%nat; try done; apply IH.
Qed.

(** X10: shortest job first never serves a job whose burst time is 999999
    or more: the scan starts from [shortest = 999999] and selects only
    smaller bursts.  On a valid registry that contains such a job the main
    loop is still running after any number of iterations. *)
Theorem X10_sjf_999999_never_served (proc : list Process) (fuel : nat) :
  valid_registry proc ->
  Exists (fun p => 999999 <= burst_time p) proc ->
  sjf_scheduling fuel proc = OutOfFuel.
Proof.
  intros Hv Hex.
  destruct (sjf_scheduling fuel proc) as [[out m]|i|] eqn:H; [| |done].
  - exfalso.
    pose proof (scheduling_descriptor proc fuel out m
                  (or_intror (or_intror (or_introl H)))) as Hdesc.
    unfold sjf_scheduling in H.
    apply bind_Returned in H as (s & Hrun & Hret). injection Hret as <- <-.
    apply sjf_run_reachable in Hrun as [Hreach Hexit].
    destruct (sjf_reachable_run_inv proc s Hv Hreach) as [Hinv _].
    destruct (run_inv_all_completed _ _ _ _ Hinv Hexit) as [_ Hall].
    pose proof (sjf_reachable_short_jobs proc s Hv Hreach) as Hshort.
    apply Exists_exists in Hex as (p & Hin & Hp).
    apply list_elem_of_lookup in Hin as [k Hk].
    assert (exists q, SJF.temp s !! k = Some q /\ descriptor q = descriptor p)
      as (q & Hq & Hd).
    { apply (f_equal (fun l => l !! k)) in Hdesc.
      rewrite !list_lookup_fmap, Hk in Hdesc. simpl in Hdesc.
      destruct (SJF.temp s !! k) as [q|]; [|done]. exists q. split; [done|].
      simpl in Hdesc. congruence. }
    apply descriptor_fields in Hd as (_ & _ & Hburst).
    pose proof (Forall_lookup_1 _ _ _ _ Hall Hq) as (_ & _ & Hs).
    pose proof (Forall_lookup_1 _ _ _ _ Hshort Hq Hs). lia.
  - exfalso. unfold sjf_scheduling, SJF.run in H.
    rewrite copy_in_fits in H by apply Hv. simpl in H.
    destruct (SJF.loop fuel (length proc) (SJF.init proc))
      as [s|j|] eqn:Hloop; simpl in H; try done.
    by apply sjf_loop_in_bounds in Hloop.
Qed.

Lemma X10_sjf_999999_never_served_witness :
  valid_registry [new_process 0 "Short" "Routine" 3 0 2;
                  new_process 1 "Long" "Routine" 3 0 1000000] /\
  sjf_scheduling 40 [new_process 0 "Short" "Routine" 3 0 2;
                     new_process 1 "Long" "Routine" 3 0 1000000] = OutOfFuel.
Proof.
  assert (valid_registry [new_process 0 "Short" "Routine" 3 0 2;
                          new_process 1 "Long" "Routine" 3 0 1000000]) as Hv.
  { split; [vm_compute; lia|]. repeat constructor; simpl; lia. }
  split; [exact Hv|].
  apply (X10_sjf_999999_never_served _ 40 Hv).
  apply Exists_cons_tl, Exists_cons_hd. simpl. lia.
Defined.

(** ** Round robin: the quanta and the ready queue *)

Lemma quanta_served (r : Z) :
  0 < r ->
  quanta (r - (if TIME_QUANTUM <? r then TIME_QUANTUM else r)) = quanta r - 1.
Proof.
  intros Hr. unfold quanta, TIME_QUANTUM.
  destruct (Z.ltb_spec 4 r); Z.div_mod_to_equations; lia.
Qed.

Lemma quanta_bounds (r : Z) :
  0 <= r -> 0 <= quanta r /\ (0 < r -> 1 <= quanta r) /\
  (TIME_QUANTUM < r -> 2 <= quanta r).
Proof.
  intros Hr. unfold quanta, TIME_QUANTUM.
  repeat split; intros; Z.div_mod_to_equations; lia.
Qed.

Lemma rr_scan_front (cond : nat -> Process -> RR.State -> bool) (i : nat)
    (ps : list Process) (s s' : RR.State) :
  RR.scan cond i ps s = Returned s' ->
  RR.front s' = RR.front s /\
  RR.context_switches s' = RR.context_switches s.
Proof.
  revert i s. induction ps as [|p rest IH]; intros i s; simpl.
  - by intros [= <-].
  - destruct (cond i p s); [|apply IH].
    intros H. apply bind_Returned in H as (s1 & Henq & H).
    apply rr_enqueue_spec in Henq as [_ ->]. by apply IH in H.
Qed.

Lemma rr_step_front (s s' : RR.State) :
  RR.step s = Returned s' ->
  RR.front s' = (if decide (RR.front s = RR.rear s) then RR.front s
                 else S (RR.front s)) /\
  RR.context_switches s' =
    (if decide (RR.front s = RR.rear s) then RR.context_switches s
     else RR.context_switches s + 1).
Proof.
  unfold RR.step. case_decide as Hfr.
  - unfold RR.idle. intros H. by apply rr_scan_front in H.
  - unfold RR.serve. intros H. apply bind_Returned in H as (s3 & Hscan & H).
    apply rr_scan_front in Hscan as [Hf Hc]. simpl in Hf, Hc.
    destruct (remaining_time _ =? 0).
    + injection H as <-. by simpl.
    + apply rr_enqueue_spec in H as [_ ->]. by simpl.
Qed.

Lemma rr_serve_job (s s' : RR.State) :
  rr_inv s -> RR.front s <> RR.rear s -> RR.serve s = Returned s' ->
  exists (idx : nat) (p : Process),
    RR.temp s !! idx = Some p /\ 0 < remaining_time p /\
    RR.temp s' =
      alter (serve_job (RR.current_time s)
               (if TIME_QUANTUM <? remaining_time p then TIME_QUANTUM
                else remaining_time p)) idx (RR.temp s).
Proof.
  intros Hinv Hfr Hstep.
  destruct (rr_serve_spec s s' Hinv Hfr Hstep)
    as (idx & p & rest & _ & Hp & Harr & Hrem & Hs).
  cbv zeta in Hs. destruct Hs as (-> & _).
  exists idx, p. split; [done|]. split; [done|].
  apply list_alter_ext; [|done]. intros x Hx. rewrite Hp in Hx.
  injection Hx as <-. unfold serve_job. cbv beta zeta.
  by destruct (start_time p =? -1).
Qed.

Lemma rr_step_quanta_inv (Q : Z) (s s' : RR.State) :
  rr_inv s -> rr_quanta_inv Q s -> RR.step s = Returned s' ->
  rr_quanta_inv Q s'.
Proof.
  intros Hinv [Hq Hcs] Hstep. unfold rr_quanta_inv.
  destruct (rr_step_front s s' Hstep) as [Hf Hc]. rewrite Hf, Hc.
  unfold RR.step in Hstep. case_decide as Hfr.
  - destruct (rr_idle_spec s s' Hinv Hfr Hstep) as (_ & -> & _). done.
  - destruct (rr_serve_job s s' Hinv Hfr Hstep) as (idx & p & Hp & Hrem & ->).
    split; [|lia]. unfold quanta_left in *.
    rewrite (sum_of_alter _ _ _ _ _ Hp).
    destruct (serve_job_fields (RR.current_time s)
                (if TIME_QUANTUM <? remaining_time p then TIME_QUANTUM
                 else remaining_time p) p) as (_ & -> & _).
    rewrite quanta_served by done. lia.
Qed.

Lemma quanta_left_fresh (proc : list Process) :
  valid_registry proc -> quanta_left proc = quanta_needed proc.
Proof.
  intros [_ Hjobs]. unfold quanta_left, quanta_needed, sum_of.
  induction Hjobs as [|p l [_ [Hr _]] _ IH]; simpl; [done|].
  by rewrite Hr, IH.
Qed.

Lemma rr_reachable_quanta_inv (proc : list Process) (s : RR.State) :
  valid_registry proc -> RR.reachable proc s ->
  rr_quanta_inv (quanta_needed proc) s.
Proof.
  intros Hv Hreach. induction Hreach as [s0 H0|s s' Hreach IH _ Hstep].
  - destruct (rr_start_view proc s0 Hv H0) as (Hview & Hcs & Hf).
    unfold rr_view in Hview. injection Hview as Htemp _ _.
    unfold rr_quanta_inv. rewrite Htemp, Hcs, Hf, quanta_left_fresh by done.
    split; lia.
  - eapply rr_step_quanta_inv; [|exact IH|exact Hstep].
    by eapply rr_reachable_inv.
Qed.

Lemma rr_scan_returns (cond : nat -> Process -> RR.State -> bool)
    (ps : list Process) (i : nat) (s : RR.State) :
  scan_condition cond ->
  (RR.rear s + length (indices_where (fun j p => cond j p s) i ps)
   <= MAX_PROCESSES)%nat ->
  exists s', RR.scan cond i ps s = Returned s'.
Proof.
  intros Hcond. revert i s. induction ps as [|p rest IH]; intros i s; simpl.
  - by eexists.
  - destruct (cond i p s) eqn:E; [|apply IH]. simpl. intros Hlen.
    unfold RR.enqueue.
    destruct (Nat.ltb_spec (RR.rear s) MAX_PROCESSES) as [Hlt|Hge]; [|lia].
    simpl. apply IH. simpl.
    rewrite (indices_where_ext _ (fun j q => cond j q s)); [lia|].
    intros k q _. apply Hcond; simpl; [done|].
    apply list_lookup_total_insert_ne. lia.
Qed.

Lemma rr_scan_overflow (cond : nat -> Process -> RR.State -> bool)
    (ps : list Process) (i : nat) (s : RR.State) (j : nat) :
  (RR.rear s <= MAX_PROCESSES)%nat ->
  RR.scan cond i ps s = OutOfBounds j -> j = MAX_PROCESSES.
Proof.
  revert i s. induction ps as [|p rest IH]; intros i s Hr; simpl; [done|].
  destruct (cond i p s); [|by apply IH]. unfold RR.enqueue.
  destruct (Nat.ltb_spec (RR.rear s) MAX_PROCESSES) as [Hlt|Hge]; simpl.
  - apply IH. simpl. lia.
  - intros [= <-]. lia.
Qed.

Lemma length_indices_unfinished (i : nat) (temp : list Process) :
  Z.of_nat (length (indices_where (fun _ p => 0 <? remaining_time p) i temp))
  = unfinished temp.
Proof.
  unfold unfinished, sum_of. revert i.
  induction temp as [|p l IH]; intros i; simpl; [done|].
  destruct (0 <? remaining_time p); simpl; rewrite <- (IH (S i)); lia.
Qed.

(** Distinct slots that all need service are no more than the unfinished
    jobs. *)
Lemma unfinished_indices (L : list nat) (temp : list Process) :
  NoDup L ->
  (forall i, i ∈ L -> exists p, temp !! i = Some p /\ 0 < remaining_time p) ->
  Z.of_nat (length L) <= unfinished temp.
Proof.
  intros Hnd HL. rewrite <- (length_indices_unfinished 0).
  apply Nat2Z.inj_le, submseteq_length, NoDup_submseteq; [done|].
  intros i Hi. destruct (HL i Hi) as (p & Hp & Hr).
  apply elem_of_indices_where. exists i, p. split; [done|]. split; [done|].
  by apply Z.ltb_lt.
Qed.

Lemma sum_of_le_at (g h : Process -> Z) (l : list Process) (i : nat)
    (p : Process) :
  Forall (fun q => g q <= h q) l -> l !! i = Some p ->
  sum_of g l + (h p - g p) <= sum_of h l.
Proof.
  intros Hl. revert i. unfold sum_of.
  induction Hl as [|q l Hq Hl IH]; intros [|i] Hp; simpl in *; try done.
  - injection Hp as ->. pose proof (sum_of_le g h l Hl) as Hle.
    unfold sum_of in Hle. lia.
  - specialize (IH i Hp). lia.
Qed.

(** The unfinished jobs need a quantum each, and one more for a job that
    needs more than a quantum. *)
Lemma quanta_left_lower (t : Z) (temp : list Process) (i : nat) (p : Process) :
  Forall (job_ok t) temp -> temp !! i = Some p -> 0 < remaining_time p ->
  unfinished temp + (quanta (remaining_time p) - 1) <= quanta_left temp.
Proof.
  intros Hok Hp Hr. unfold unfinished, quanta_left.
  pose proof (sum_of_le_at
                (fun q => if 0 <? remaining_time q then 1 else 0)
                (fun q => quanta (remaining_time q)) temp i p) as H.
  simpl in H. destruct (Z.ltb_spec 0 (remaining_time p)); [|lia].
  apply H; [|done]. eapply Forall_impl; [exact Hok|].
  intros q (_ & Hq & _). simpl.
  destruct (quanta_bounds (remaining_time q)) as (Hq0 & Hq1 & _); [lia|].
  destruct (Z.ltb_spec 0 (remaining_time q)); lia.
Qed.

Lemma unfinished_le_quanta (t : Z) (temp : list Process) :
  Forall (job_ok t) temp -> unfinished temp <= quanta_left temp.
Proof.
  intros Hok. unfold unfinished, quanta_left. apply sum_of_le.
  eapply Forall_impl; [exact Hok|]. intros q (_ & Hq & _). simpl.
  destruct (quanta_bounds (remaining_time q)) as (Hq0 & Hq1 & _); [lia|].
  destruct (Z.ltb_spec 0 (remaining_time q)); lia.
Qed.

Lemma length_pending (s : RR.State) :
  (RR.front s <= RR.rear s <= length (RR.queue s))%nat ->
  length (RR.pending s) = (RR.rear s - RR.front s)%nat.
Proof.
  intros H. unfold RR.pending. rewrite length_drop, length_take. lia.
Qed.

(** An iteration of round robin goes through as long as the registry
    needs no more quanta than the ready queue has slots. *)
Lemma rr_step_returns (Q : Z) (s : RR.State) :
  rr_inv s -> rr_quanta_inv Q s -> Q <= Z.of_nat MAX_PROCESSES ->
  exists s', RR.step s = Returned s'.
Proof.
  intros Hinv [Hq _] HQ.
  pose proof Hinv as [Hlen Hql Hil Hfrm Hjobs Hnd Hpend Hinq Hready].
  pose proof (unfinished_le_quanta _ _ Hjobs) as Hun.
  unfold RR.step. case_decide as Hfr.
  - unfold RR.idle. apply rr_scan_returns; [apply arrived_condition|]. simpl.
    match goal with
    | |- context [length ?l] => set (L := l)
    end.
    assert (Z.of_nat (length L) <= unfinished (RR.temp s)) as HL.
    { apply unfinished_indices; [apply NoDup_indices_where|].
      intros i (k & p & Hik & Hk & Hc)%elem_of_indices_where.
      simpl in Hik. subst k. exists p. split; [done|].
      apply arrived_true in Hc. tauto. }
    lia.
  - assert (RR.front s < RR.rear s <= length (RR.queue s))%nat as Hlt by lia.
    pose proof (pending_head s Hlt) as Hhead.
    set (idx := RR.queue s !!! RR.front s) in *.
    assert (idx ∈ RR.pending s) as Hidx
      by (rewrite Hhead; apply elem_of_cons; by left).
    pose proof (Hpend idx Hidx) as Hidxlt.
    destruct (lookup_lt_is_Some_2 _ _ Hidxlt) as [p Hp].
    assert (arrival_time p <= RR.current_time s /\ 0 < remaining_time p)
      as [Harr Hrem].
    { apply (Hready idx p Hp). by apply Hinq. }
    rewrite (rr_serve_unfold s p Hp). fold idx.
    set (t := RR.current_time s).
    set (e := if TIME_QUANTUM <? remaining_time p then TIME_QUANTUM
              else remaining_time p).
    set (G := fun q : Process => _).
    set (temp2 := alter G idx (RR.temp s)).
    set (s2 := RR.mkState temp2 (t + e) _ _ _ _ _ _).
    set (W := arrivals_within t (t + e) (RR.temp s)).
    assert (indices_where (fun j q => RR.arrived (Some idx) j q s2) 0 temp2 = W)
      as HW by (by apply (rr_scan_after_execution s idx p temp2 G s2 (t + e))).
    assert (Z.of_nat (length (RR.pending s ++ W)) <= unfinished (RR.temp s))
      as Hcount.
    { apply unfinished_indices.
      - apply NoDup_app. split; [done|]. split; [|apply NoDup_indices_where].
        intros x Hx (q & Hxq & Hq1 & Hq2)%elem_of_arrivals_within.
        apply Hinq in Hx; [|by eapply lookup_lt_Some].
        apply (Hready x q Hxq) in Hx. fold t in Hx. lia.
      - intros x [Hx|Hx]%elem_of_app.
        + destruct (lookup_lt_is_Some_2 _ _ (Hpend x Hx)) as [q Hxq].
          exists q. split; [done|].
          assert (RR.in_queue s !!! x = true) as Hqx
            by (apply Hinq; [by eapply lookup_lt_Some|done]).
          apply (Hready x q Hxq) in Hqx. tauto.
        + apply elem_of_arrivals_within in Hx as (q & Hxq & Hq1 & Hq2).
          exists q. split; [done|].
          pose proof (Forall_lookup_1 _ _ _ _ Hjobs Hxq) as Hok.
          apply (job_ok_not_arrived _ _ Hok). by fold t. }
    rewrite length_app, length_pending in Hcount by lia.
    destruct (rr_scan_returns (RR.arrived (Some idx)) temp2 0 s2)
      as [s3 Hscan]; [apply arrived_condition| |].
    { rewrite HW. simpl. lia. }
    rewrite Hscan. simpl.
    apply rr_scan_spec in Hscan
      as (Htemp3 & _ & _ & _ & _ & Hql3 & _ & _ & Hmax3 & Htake3 & _);
      [|apply arrived_condition|exact Hql].
    rewrite HW in Htake3. simpl in Htemp3, Hmax3, Htake3.
    assert (RR.rear s3 = (RR.rear s + length W)%nat) as Hrear3.
    { apply (f_equal length) in Htake3.
      rewrite length_app, !length_take in Htake3. specialize (Hmax3 ltac:(lia)).
      lia. }
    assert (temp2 !! idx = Some (G p)) as Hp2
      by (subst temp2; by rewrite list_lookup_alter_eq, Hp).
    assert (remaining_time (G p) = remaining_time p - e) as HrG.
    { subst G. simpl. by destruct (start_time p =? -1). }
    rewrite Htemp3, (list_lookup_total_correct _ _ _ Hp2), HrG.
    destruct (Z.eqb_spec (remaining_time p - e) 0) as [E|E]; [by eexists|].
    unfold RR.enqueue.
    destruct (Nat.ltb_spec (RR.rear s3) MAX_PROCESSES) as [|Hge];
      [by eexists|].
    exfalso.
    assert (TIME_QUANTUM < remaining_time p) as Hlong.
    { subst e. destruct (Z.ltb_spec TIME_QUANTUM (remaining_time p)); lia. }
    pose proof (Forall_lookup_1 _ _ _ _ Hjobs Hp) as (_ & Hr & _).
    destruct (quanta_bounds (remaining_time p)) as (_ & _ & H2); [lia|].
    specialize (H2 Hlong).
    pose proof (quanta_left_lower _ _ _ _ Hjobs Hp Hrem). lia.
Qed.

Lemma length_indices_where (f : nat -> Process -> bool) (i : nat)
    (ps : list Process) :
  (length (indices_where f i ps) <= length ps)%nat.
Proof.
  revert i. induction ps as [|p rest IH]; intros i; simpl; [done|].
  specialize (IH (S i)). destruct (f i p); simpl; lia.
Qed.

Lemma rr_start_returns (proc : list Process) :
  valid_registry proc -> exists s0, RR.start proc = Returned s0.
Proof.
  intros Hv. unfold RR.start. rewrite copy_in_fits by apply Hv. simpl.
  apply rr_scan_returns; [apply arrives_at_zero_condition|]. simpl.
  pose proof (length_indices_where
                (fun j p => RR.arrives_at_zero j p (RR.init proc)) 0 proc).
  destruct Hv as [Hn _]. lia.
Qed.

Lemma rr_loop_returns (A : Z) (proc : list Process) (fuel : nat)
    (s : RR.State) :
  valid_registry proc -> RR.reachable proc s ->
  quanta_needed proc <= Z.of_nat MAX_PROCESSES ->
  progress_inv A (length proc) (RR.temp s) (RR.completed s) ->
  iterations_left A (total_remaining (RR.temp s)) (RR.current_time s)
    <= Z.of_nat fuel ->
  exists r, RR.loop fuel (length proc) s = Returned r.
Proof.
  intros Hv. revert s.
  induction fuel as [|fuel IH]; intros s Hreach HQ Hprog Hfuel; simpl;
    destruct (Nat.ltb_spec (RR.completed s) (length proc)) as [Hlt|Hge];
    eauto.
  - exfalso. destruct Hprog as [_ Hcount].
    pose proof (rr_reachable_inv proc s Hv Hreach) as Hinv.
    pose proof (unfinished_le_remaining _ _ (inv_jobs s Hinv)).
    unfold iterations_left in *. lia.
  - pose proof (rr_reachable_inv proc s Hv Hreach) as Hinv.
    destruct (rr_step_returns (quanta_needed proc) s) as [s' Hstep];
      [done|by apply rr_reachable_quanta_inv|done|].
    rewrite Hstep. simpl.
    destruct (rr_step_progress A (length proc) s s') as (Hprog' & Hless);
      try done.
    apply IH; try done; [|lia]. by eapply RR.reach_step.
Qed.

(** What a run of round robin that returns has counted. *)
Lemma rr_returned_quanta (proc : list Process) (fuel : nat) (s : RR.State) :
  valid_registry proc -> RR.run fuel proc = Returned s ->
  RR.context_switches s = quanta_needed proc /\
  quanta_needed proc <= Z.of_nat MAX_PROCESSES.
Proof.
  intros Hv Hrun. pose proof (rr_run_exit _ _ _ Hrun) as Hexit.
  apply rr_run_reachable in Hrun as Hreach.
  pose proof (rr_reachable_run_inv proc s Hv Hreach) as Hinv.
  destruct (run_inv_all_completed _ _ _ _ Hinv Hexit) as [_ Hall].
  destruct (rr_reachable_quanta_inv proc s Hv Hreach) as [Hq Hcs].
  pose proof (rr_reachable_inv proc s Hv Hreach) as [_ _ _ Hfr _ _ _ _ _].
  assert (quanta_left (RR.temp s) = 0) as Hzero.
  { unfold quanta_left, sum_of. clear -Hall.
    induction Hall as [|p l (Hz & _) _ IH]; simpl; [done|].
    rewrite Hz, IH. done. }
  lia.
Qed.

(** X11: round robin returns on a valid registry whose jobs need at most
    20 quanta in all, a job of burst [b] needing [b / 4] quanta, rounded
    up: with fuel for every unit of service and every tick up to the last
    arrival [A], no store [queue[rear++]] leaves the ready queue, and the
    number of context switches is the number of quanta. *)
Theorem X11_round_robin_within_capacity (A : Z) (proc : list Process)
    (fuel : nat) :
  valid_registry proc ->
  quanta_needed proc <= Z.of_nat MAX_PROCESSES ->
  Forall (fun p => arrival_time p <= A) proc ->
  sum_of burst_time proc + Z.max 0 A <= Z.of_nat fuel ->
  exists (out : list Process) (m : Metrics),
    round_robin_scheduling fuel proc = Returned (out, m) /\
    context_switches m = quanta_needed proc.
Proof.
  intros Hv HQ HA Hfuel.
  destruct (progress_inv_fresh A proc Hv HA) as [Hprog Htot].
  destruct (rr_start_returns proc Hv) as [s0 Hstart].
  destruct (rr_start_view proc s0 Hv Hstart) as (Hview & _).
  unfold rr_view in Hview. injection Hview as Htemp Ht Hc.
  destruct (rr_loop_returns A proc fuel s0) as [r Hr]; try done.
  { by apply RR.reach_start. }
  { by rewrite Htemp, Hc. }
  { unfold iterations_left. rewrite Htemp, Ht, Htot, Z.sub_0_r. done. }
  assert (RR.run fuel proc = Returned r) as Hrun
    by (unfold RR.run; rewrite Hstart; exact Hr).
  destruct (rr_returned_quanta proc fuel r Hv Hrun) as [Hcs _].
  unfold round_robin_scheduling. rewrite Hrun. simpl.
  eexists _, _. split; [done|]. simpl. done.
Qed.

Lemma X11_round_robin_within_capacity_witness :
  valid_registry init_best_scenario /\
  quanta_needed init_best_scenario = 11 /\
  exists (out : list Process) (m : Metrics),
    round_robin_scheduling 70 init_best_scenario = Returned (out, m) /\
    context_switches m = quanta_needed init_best_scenario.
Proof.
  assert (valid_registry init_best_scenario) as Hv.
  { split; [vm_compute; lia|]. repeat constructor; simpl; lia. }
  split; [exact Hv|]. split; [reflexivity|].
  apply (X11_round_robin_within_capacity 25 init_best_scenario 70 Hv).
  - vm_compute. discriminate.
  - repeat constructor; simpl; lia.
  - vm_compute. discriminate.
Defined.

Lemma rr_step_overflow (s : RR.State) (j : nat) :
  rr_inv s -> RR.step s = OutOfBounds j -> j = MAX_PROCESSES.
Proof.
  intros [_ Hql _ Hfr _ _ _ _ _]. unfold RR.step. case_decide as Hd; clear Hd.
  - unfold RR.idle. apply rr_scan_overflow. simpl. lia.
  - unfold RR.serve.
    destruct (RR.scan _ _ _ _) as [s3|k|] eqn:Hscan; simpl; try done.
    + apply rr_scan_spec in Hscan
        as (_ & _ & _ & _ & _ & _ & _ & _ & Hmax & _);
        [|apply arrived_condition|exact Hql].
      simpl in Hmax. specialize (Hmax ltac:(lia)).
      destruct (remaining_time _ =? 0); [done|]. unfold RR.enqueue.
      destruct (Nat.ltb_spec (RR.rear s3) MAX_PROCESSES); [done|].
      intros [= <-]. lia.
    + intros [= <-]. apply rr_scan_overflow in Hscan; [done|]. simpl. lia.
Qed.

Lemma rr_loop_overflow (proc : list Process) (fuel : nat) (s : RR.State)
    (j : nat) :
  valid_registry proc -> RR.reachable proc s ->
  RR.loop fuel (length proc) s = OutOfBounds j -> j = MAX_PROCESSES.
Proof.
  intros Hv. revert s. induction fuel as [|fuel IH]; intros s Hreach; simpl;
    destruct (Nat.ltb_spec (RR.completed s) (length proc)) as [Hlt|Hge];
    try done.
  destruct (RR.step s) as [s'|k|] eqn:Hstep; simpl; try done.
  - apply IH. by eapply RR.reach_step.
  - intros [= <-]. apply (rr_step_overflow s); [|done].
    by eapply rr_reachable_inv.
Qed.

(** X12: round robin cannot finish a valid registry whose jobs need more
    than 20 quanta in all: [rear] is never reset, every quantum served
    was stored once in [queue], and the array has 20 slots.  No amount of
    fuel makes it return, and with fuel for every unit of service and
    every tick up to the last arrival [A] it has stored at [queue[20]]. *)
Theorem X12_round_robin_beyond_capacity (proc : list Process) :
  valid_registry proc ->
  Z.of_nat MAX_PROCESSES < quanta_needed proc ->
  (forall (fuel : nat) (r : list Process * Metrics),
      round_robin_scheduling fuel proc <> Returned r) /\
  (forall (A : Z) (fuel : nat),
      Forall (fun p => arrival_time p <= A) proc ->
      sum_of burst_time proc + Z.max 0 A <= Z.of_nat fuel ->
      round_robin_scheduling fuel proc = OutOfBounds MAX_PROCESSES).
Proof.
  intros Hv HQ.
  assert (forall fuel r, round_robin_scheduling fuel proc <> Returned r)
    as Hnever.
  { intros fuel r H. unfold round_robin_scheduling in H.
    apply bind_Returned in H as (s & Hrun & _).
    destruct (rr_returned_quanta proc fuel s Hv Hrun) as [_ Hle]. lia. }
  split; [done|]. intros A fuel HA Hfuel.
  pose proof (round_robin_scheduling_terminates A proc fuel Hv HA Hfuel)
    as Hstops.
  destruct (round_robin_scheduling fuel proc) as [r|j|] eqn:H; [| |done].
  { by apply Hnever in H. }
  f_equal. unfold round_robin_scheduling, RR.run in H.
  destruct (rr_start_returns proc Hv) as [s0 Hstart].
  rewrite Hstart in H. simpl in H.
  destruct (RR.loop fuel (length proc) s0) as [s|k|] eqn:Hloop; simpl in H;
    try done.
  injection H as ->.
  apply (rr_loop_overflow proc fuel s0 j Hv); [|done].
  by apply RR.reach_start.
Qed.

Lemma X12_round_robin_beyond_capacity_witness :
  valid_registry init_emergency_scenario /\
  quanta_needed init_emergency_scenario = 30 /\
  round_robin_scheduling 124 init_emergency_scenario
  = OutOfBounds MAX_PROCESSES.
Proof.
  assert (valid_registry init_emergency_scenario) as Hv.
  { split; [vm_compute; lia|]. repeat constructor; simpl; lia. }
  split; [exact Hv|]. split; [reflexivity|].
  destruct (X12_round_robin_beyond_capacity init_emergency_scenario Hv)
    as [_ Hover]; [vm_compute; reflexivity|].
  apply (Hover 20).
  - repeat constructor; simpl; lia.
  - vm_compute. discriminate.
Defined.

(** ** The metrics calculator: what it depends on *)

Lemma if_ltb_min (r m : Z) : (if r <? m then r else m) = Z.min m r.
Proof. destruct (Z.ltb_spec r m); lia. Qed.

Lemma if_ltb_max (r m : Z) : (if m <? r then r else m) = Z.max m r.
Proof. destruct (Z.ltb_spec m r); lia. Qed.

Lemma sums_step_comm (a : Sums) (p q : Process) :
  sums_step (sums_step a p) q = sums_step (sums_step a q) p.
Proof.
  unfold sums_step.
  destruct (0 <? completion_time p), (0 <? completion_time q); try done.
  destruct (priority p =? 1), (priority q =? 1); simpl;
    rewrite ?if_ltb_min, ?if_ltb_max; f_equal; lia.
Qed.

Lemma sums_fold_permutation (l1 l2 : list Process) (a : Sums) :
  l1 ≡ₚ l2 -> fold_left sums_step l1 a = fold_left sums_step l2 a.
Proof.
  intros H. revert a. induction H as [|x l1 l2 _ IH|x y l|l1 l2 l3 _ IH1 _ IH2];
    intros a; simpl.
  - done.
  - apply IH.
  - by rewrite sums_step_comm.
  - by rewrite IH1.
Qed.

Lemma sums_fold_counted (proc : list Process) (a : Sums) :
  fold_left sums_step (filter (fun p => counted p = true) proc) a
  = fold_left sums_step proc a.
Proof.
  revert a. induction proc as [|p proc IH]; intros a; [done|].
  rewrite filter_cons. case_decide as Hc; simpl.
  - apply IH.
  - rewrite IH. f_equal. unfold sums_step. unfold counted in Hc.
    by destruct (0 <? completion_time p).
Qed.

(** The sums stay exact when the completed jobs are taken in another
    order or mixed with jobs that are not completed. *)
Lemma exact_sums_permutation (proc1 proc2 : list Process) :
  filter (fun p => counted p = true) proc1
    ≡ₚ filter (fun p => counted p = true) proc2 ->
  exact_sums proc1 -> exact_sums proc2.
Proof.
  intros H (Hpos & Hsums). split.
  - apply Forall_forall. intros p Hin Hc.
    assert (p ∈ filter (fun p => counted p = true) proc1) as Hin1.
    { rewrite H. apply list_elem_of_filter. by split. }
    apply list_elem_of_filter in Hin1 as [_ Hin1].
    rewrite Forall_forall in Hpos. by apply Hpos.
  - rewrite <- (sums_fold_counted proc2),
      <- (sums_fold_permutation _ _ sums_init H), sums_fold_counted.
    exact Hsums.
Qed.

(** X13: [calculate_metrics] depends only on the completed jobs of the
    list and not on their order.  Take a list over which the sums are
    exact: the times and bursts of its completed jobs (the jobs with
    [completion_time > 0]) are not negative, the sum of each time is at
    most 2^24 and the sum of the bursts at most [INT_MAX].  Any list with
    the same completed jobs up to order has exact sums as well and gives
    the same metrics for the same total time. *)
Theorem X13_metrics_of_completed_jobs (proc1 proc2 : list Process) (total : Z) :
  exact_sums proc1 ->
  filter (fun p => counted p = true) proc1
    ≡ₚ filter (fun p => counted p = true) proc2 ->
  exact_sums proc2 /\
  calculate_metrics proc1 total = calculate_metrics proc2 total.
Proof.
  intros Hex H. split; [by apply (exact_sums_permutation proc1)|].
  unfold calculate_metrics.
  rewrite <- (sums_fold_counted proc1), <- (sums_fold_counted proc2).
  by rewrite (sums_fold_permutation _ _ sums_init H).
Qed.

Lemma X13_metrics_of_completed_jobs_witness :
  exact_sums (fst normal_after_fcfs) /\
  calculate_metrics (fst normal_after_fcfs) 55
  = calculate_metrics
      (init_best_scenario ++ reverse (fst normal_after_fcfs)) 55.
Proof.
  assert (exact_sums (fst normal_after_fcfs)) as Hex.
  { split; [|by vm_compute]. repeat constructor; simpl; lia. }
  split; [exact Hex|].
  apply (X13_metrics_of_completed_jobs _ _ 55 Hex).
  rewrite filter_app.
  assert (filter (fun p => counted p = true) init_best_scenario = []) as ->
    by reflexivity.
  by rewrite app_nil_l, reverse_Permutation.
Defined.

(** ** The metrics of a run *)

Lemma sums_fold_all (l : list Process) (a : Sums) :
  Forall (fun p => 0 < completion_time p) l ->
  let b := fold_left sums_step l a in
  sum_response b = sum_response a + sum_of response_time l /\
  sum_turnaround b = sum_turnaround a + sum_of turnaround_time l /\
  sum_waiting b = sum_waiting a + sum_of waiting_time l /\
  completed b = completed a + Z.of_nat (length l) /\
  total_burst b = total_burst a + sum_of burst_time l.
Proof.
  intros H. revert a. unfold sum_of.
  induction H as [|p l Hp _ IH]; intros a; simpl.
  - repeat split; lia.
  - destruct (IH (sums_step a p)) as (-> & -> & -> & -> & ->).
    unfold sums_step. destruct (Z.ltb_spec 0 (completion_time p)); [|lia].
    simpl. repeat split; lia.
Qed.

Lemma sum_of_descriptor (g : Z * string * string * Z * Z * Z -> Z)
    (l1 l2 : list Process) :
  map descriptor l1 = map descriptor l2 ->
  sum_of (fun p => g (descriptor p)) l1 = sum_of (fun p => g (descriptor p)) l2.
Proof.
  unfold sum_of. revert l2.
  induction l1 as [|p l1 IH]; intros [|q l2] H; simpl in *; try done.
  assert (descriptor p = descriptor q) as Hd by congruence.
  assert (map descriptor l1 = map descriptor l2) as Hl by congruence.
  by rewrite Hd, (IH l2 Hl).
Qed.

Lemma sum_of_burst_descriptor (l1 l2 : list Process) :
  map descriptor l1 = map descriptor l2 ->
  sum_of burst_time l1 = sum_of burst_time l2.
Proof. apply (sum_of_descriptor (fun d => d.2)). Qed.

Lemma sum_of_burst_pos (proc : list Process) :
  valid_registry proc -> Z.of_nat (length proc) <= sum_of burst_time proc.
Proof.
  intros [_ H]. unfold sum_of.
  induction H as [|p l [[_ Hb] _] _ IH]; simpl; lia.
Qed.

Lemma ratio_le (a b c : Z) :
  0 < c -> a <= b -> (ratio a c <= ratio b c)%Q.
Proof.
  intros Hc Hab. unfold ratio, Qdiv. apply Qmult_le_compat_r.
  - by rewrite <- Zle_Qle.
  - apply Qinv_le_0_compat. change (inject_Z 0 <= inject_Z c)%Q.
    rewrite <- Zle_Qle. lia.
Qed.

Lemma ratio_nonneg (a c : Z) : 0 < c -> 0 <= a -> (0 <= ratio a c)%Q.
Proof.
  intros Hc Ha. unfold ratio, Qdiv. apply Qmult_le_0_compat.
  - change (inject_Z 0 <= inject_Z a)%Q. by rewrite <- Zle_Qle.
  - apply Qinv_le_0_compat. change (inject_Z 0 <= inject_Z c)%Q.
    rewrite <- Zle_Qle. lia.
Qed.

Lemma ratio_same (c : Z) : 0 < c -> (ratio c c == 1)%Q.
Proof.
  intros Hc. unfold ratio, Qdiv. apply Qmult_inv_r.
  intros H. apply (inject_Z_injective c 0) in H. lia.
Qed.

(** What the metrics of a returned run are made of. *)
Lemma run_metrics (proc : list Process) (fuel : nat)
    (out : list Process) (m : Metrics) :
  valid_registry proc -> proc <> [] ->
  priority_scheduling fuel proc = Returned (out, m) \/
  fcfs_scheduling proc = Returned (out, m) \/
  sjf_scheduling fuel proc = Returned (out, m) \/
  round_robin_scheduling fuel proc = Returned (out, m) ->
  let n := Z.of_nat (length proc) in
  0 < n /\ n <= sum_of burst_time proc /\
  sum_of burst_time proc <= total_time m /\
  avg_response_time m = ratio (sum_of response_time out) n /\
  avg_turnaround_time m = ratio (sum_of turnaround_time out) n /\
  avg_waiting_time m = ratio (sum_of waiting_time out) n /\
  throughput m = ratio n (total_time m) /\
  cpu_utilization m
  = Qmult (ratio (sum_of burst_time proc) (total_time m)) (inject_Z 100) /\
  0 <= emergency_response_min m <= emergency_response_max m.
Proof.
  intros Hv Hne H n.
  pose proof (scheduling_run_inv proc fuel out m Hv H) as Hinv.
  destruct (run_inv_all_completed _ _ _ _ Hinv) as [_ Hall]; [lia|].
  pose proof (scheduling_descriptor proc fuel out m H) as Hdesc.
  destruct Hinv as [Hok _ Hwork _ Hlen]. simpl in Hok, Hwork, Hlen.
  assert (Forall (fun p => remaining_time p = 0) out) as Hzero
    by (eapply Forall_impl; [exact Hall|]; by intros p (Hz & _)).
  assert (Forall (fun p => 0 < completion_time p) out) as Hdone
    by (eapply Forall_impl; [exact Hall|]; by intros p (_ & Hc & _)).
  rewrite (service_given_all _ Hzero), (sum_of_burst_descriptor _ _ Hdesc)
    in Hwork.
  pose proof (sum_of_burst_pos proc Hv) as Hpos. fold n in Hpos.
  assert (0 < n) as Hn by (subst n; destruct proc; [done|simpl; lia]).
  destruct (scheduling_metrics proc fuel out m H) as [cs Hm].
  remember (total_time m) as T eqn:HT. clear HT.
  destruct (sums_fold_all out sums_init Hdone) as (Hsr & Hst & Hsw & Hsc & Hsb).
  destruct (sums_fold_extrema out sums_init) as [Hmin Hmax].
  pose proof (emergency_responses_nonneg T out Hok) as Hnonneg.
  rewrite Hlen in Hsc. fold n in Hsc. simpl in Hsr, Hst, Hsw, Hsc, Hsb, Hmin, Hmax.
  rewrite (sum_of_burst_descriptor _ _ Hdesc) in Hsb.
  subst m. unfold calculate_metrics. simpl.
  rewrite Hsr, Hst, Hsw, Hsc, Hsb, Hmin, Hmax, !Z.add_0_l.
  destruct (Z.ltb_spec 0 n); [|lia]. destruct (Z.ltb_spec 0 T); [|lia].
  do 8 (split; [done|]).
  set (E := emergency_responses out) in *.
  assert (forall x, x ∈ E -> 0 <= x) as HE
    by (intros x Hx; by apply (proj1 (Forall_forall _ _) Hnonneg)).
  pose proof (fold_max_ge E 0) as Hge.
  destruct (fold_min_attained E 999) as [H9|Hmem].
  - rewrite H9. simpl. lia.
  - pose proof (HE _ Hmem). pose proof (fold_max_upper E 0 _ Hmem).
    destruct (_ =? 999); lia.
Qed.

(** ** The total time of a run *)

Lemma late_service_serve (a : Z) (temp : list Process) (i : nat)
    (p : Process) (t e : Z) :
  temp !! i = Some p ->
  late_service a (alter (serve_job t e) i temp)
  = late_service a temp + (if a <=? arrival_time p then e else 0) /\
  late_burst a (alter (serve_job t e) i temp) = late_burst a temp.
Proof.
  intros Hp. unfold late_service, late_burst.
  rewrite !(sum_of_alter _ _ _ _ _ Hp).
  destruct (serve_job_fields t e p) as (Hd & -> & _).
  apply descriptor_fields in Hd as (_ & -> & ->).
  destruct (a <=? arrival_time p); lia.
Qed.

Lemma late_burst_descriptor (a : Z) (l1 l2 : list Process) :
  map descriptor l1 = map descriptor l2 ->
  late_burst a l1 = late_burst a l2.
Proof.
  unfold late_burst, sum_of. revert l2.
  induction l1 as [|p l1 IH]; intros [|q l2] H; simpl in *; try done.
  assert (descriptor p = descriptor q) as Hd by congruence.
  assert (map descriptor l1 = map descriptor l2) as Hl by congruence.
  apply descriptor_fields in Hd as (_ & -> & ->).
  by rewrite (IH l2 Hl).
Qed.

Lemma late_service_completed (a : Z) (temp : list Process) :
  Forall (fun p => remaining_time p = 0) temp ->
  late_service a temp = late_burst a temp.
Proof.
  unfold late_service, late_burst, sum_of.
  induction 1 as [|p l Hp _ IH]; simpl; [done|].
  rewrite Hp, IH. destruct (a <=? arrival_time p); lia.
Qed.

Lemma late_service_bounds (a t : Z) (temp : list Process) :
  Forall (job_ok t) temp ->
  0 <= late_service a temp <= late_burst a temp.
Proof.
  unfold late_service, late_burst, sum_of.
  induction 1 as [|p l (_ & Hr & _) _ IH]; simpl; [lia|].
  destruct (a <=? arrival_time p); lia.
Qed.

(** Jobs that have not arrived have received no service. *)
Lemma late_service_future (t : Z) (temp : list Process) :
  Forall (job_ok t) temp -> late_service (t + 1) temp = 0.
Proof.
  unfold late_service, sum_of.
  induction 1 as [|p l Hp _ IH]; simpl; [done|]. rewrite IH.
  destruct (Z.leb_spec (t + 1) (arrival_time p)); [|done].
  revert Hp. unfold job_ok. lia.
Qed.

Lemma late_burst_pos (a : Z) (t : Z) (temp : list Process) (j : nat)
    (q : Process) :
  Forall (job_ok t) temp -> temp !! j = Some q -> a <= arrival_time q ->
  0 < late_burst a temp.
Proof.
  intros Hok Hq Ha.
  pose proof (sum_of_le_at (fun _ => 0)
                (fun p => if a <=? arrival_time p then burst_time p else 0)
                temp j q) as H.
  assert (sum_of (fun _ => 0) temp = 0) as Hz
    by (unfold sum_of; clear; induction temp; simpl; lia).
  rewrite Hz in H. simpl in H.
  pose proof (Forall_lookup_1 _ _ _ _ Hok Hq) as [[_ Hb] _].
  destruct (Z.leb_spec a (arrival_time q)); [|lia].
  unfold late_burst. enough (0 + (burst_time q - 0) <=
    sum_of (fun p => if a <=? arrival_time p then burst_time p else 0) temp)
    by lia.
  apply H; [|done]. eapply Forall_impl; [exact Hok|].
  intros p [[_ Hpb] _]. simpl. destruct (a <=? arrival_time p); lia.
Qed.

Lemma service_step_fits (n : nat) (temp temp' : list Process) (t t' : Z)
    (c c' : nat) :
  run_inv n (temp, t, c) -> service_fits temp t ->
  service_step (temp, t, c) (temp', t', c') -> service_fits temp' t'.
Proof.
  intros Hinv Hfit Hstep a. specialize (Hfit a).
  inversion Hstep as [? ? ? ? Hle|? ? ? i p e Hp Harr He]; subst.
  - lia.
  - destruct (late_service_serve a temp i p t e Hp) as [-> _].
    destruct (Z.leb_spec a (arrival_time p)); lia.
Qed.

(** One more service keeps the processor busy since [a]. *)
Lemma busy_since_serve (a : Z) (temp : list Process) (t : Z) (i : nat)
    (p : Process) (e : Z) :
  busy_since a temp t -> temp !! i = Some p ->
  0 < e <= remaining_time p ->
  busy_since a (alter (serve_job t e) i temp) (t + e).
Proof.
  intros (Ha & Hbusy & Hdone & Hlate) Hp He.
  destruct (late_service_serve a temp i p t e Hp) as [Hs Hb].
  assert (a <= arrival_time p) as Hpa.
  { destruct (Z.le_gt_cases a (arrival_time p)) as [|Hlt]; [done|].
    specialize (Hdone i p Hp Hlt). lia. }
  unfold busy_since. rewrite Hs, Hb.
  destruct (Z.leb_spec a (arrival_time p)); [|lia].
  split; [lia|]. split; [lia|]. split; [|done].
  intros j q Hq Hqa. destruct (decide (j = i)) as [->|Hj].
  - rewrite list_lookup_alter_eq, Hp in Hq. injection Hq as <-.
    destruct (serve_job_fields t e p) as (Hd & _ & _).
    apply descriptor_fields in Hd as (_ & Harr & _). lia.
  - rewrite list_lookup_alter_ne in Hq by done. by apply (Hdone j q).
Qed.

(** An idle tick taken while nothing is ready and a job is still to come
    starts a new busy period. *)
Lemma busy_since_idle (n : nat) (temp : list Process) (t : Z) (c : nat) :
  run_inv n (temp, t, c) -> 0 <= t -> (c < n)%nat ->
  nothing_ready temp t ->
  busy_since (t + 1) temp (t + 1).
Proof.
  intros [Hok _ _ Hcount _] Ht Hlt Hidle. simpl in *.
  split; [lia|]. split; [by rewrite (late_service_future t), Z.sub_diag|].
  split.
  - intros j q Hq Hqa. apply (Hidle j q Hq). lia.
  - destruct (unfinished_job temp) as (j & q & Hq & Hrem); [lia|].
    apply (late_burst_pos _ t temp j q Hok Hq).
    destruct (Z.le_gt_cases (arrival_time q) t) as [Hle|]; [|lia].
    specialize (Hidle j q Hq Hle). lia.
Qed.

Lemma busy_step_service (v v' : list Process * Z * nat) :
  busy_step v v' -> service_step v v'.
Proof.
  intros [temp t c _|temp t c i p e Hp Harr He].
  - apply service_idle. lia.
  - by apply (service_run _ _ _ _ p).
Qed.

Lemma busy_step_since (n : nat) (a : Z) (temp temp' : list Process)
    (t t' : Z) (c c' : nat) :
  run_inv n (temp, t, c) -> (c < n)%nat -> busy_since a temp t ->
  busy_step (temp, t, c) (temp', t', c') ->
  exists a', busy_since a' temp' t'.
Proof.
  intros Hinv Hlt Hbusy Hstep.
  inversion Hstep as [? ? ? Hidle|? ? ? i p e Hp Harr He]; subst.
  - exists (t + 1). apply (busy_since_idle n temp' t c'); try done.
    destruct Hbusy as [Ha _]. lia.
  - exists a. by apply (busy_since_serve _ _ _ _ p).
Qed.

Lemma late_service_fresh (a : Z) (proc : list Process) :
  valid_registry proc -> late_service a proc = 0.
Proof.
  intros [_ H]. unfold late_service, sum_of.
  induction H as [|p l [_ [Hr _]] _ IH]; simpl; [done|].
  rewrite IH, Hr. destruct (a <=? arrival_time p); lia.
Qed.

Lemma busy_since_fresh (proc : list Process) :
  valid_registry proc -> proc <> [] ->
  busy_since 0 proc 0 /\ service_fits proc 0.
Proof.
  intros Hv Hne. split.
  - split; [lia|]. split; [by rewrite late_service_fresh|]. split.
    + intros j q Hq Hqa. destruct Hv as [_ Hjobs].
      pose proof (Forall_lookup_1 _ _ _ _ Hjobs Hq) as [[Ha _] _]. lia.
    + destruct proc as [|q proc]; [done|].
      apply (late_burst_pos 0 0 (q :: proc) 0 q (registry_job_ok _ Hv) eq_refl).
      destruct Hv as [_ Hjobs]. apply Forall_cons in Hjobs as [[[Ha _] _] _].
      exact Ha.
  - intros a. rewrite late_service_fresh by done. lia.
Qed.

Lemma priority_reachable_descriptor (proc : list Process) (s : Priority.State) :
  priority_reachable proc s ->
  map descriptor (Priority.temp s) = map descriptor proc.
Proof.
  induction 1 as [temp0 Hc|s s' _ IH _ Hstep].
  - by apply copy_in_Returned in Hc as [-> _].
  - by rewrite (priority_step_descriptor s s' Hstep).
Qed.

Lemma Forall_descriptor (P : Z * string * string * Z * Z * Z -> Prop)
    (l1 l2 : list Process) :
  map descriptor l1 = map descriptor l2 ->
  Forall (fun p => P (descriptor p)) l2 -> Forall (fun p => P (descriptor p)) l1.
Proof.
  revert l2. induction l1 as [|p l1 IH]; intros [|q l2] H Hl; simpl in *;
    try done.
  assert (descriptor p = descriptor q) as Hd by congruence.
  assert (map descriptor l1 = map descriptor l2) as Hm by congruence.
  apply Forall_cons in Hl as [Hq Hl]. constructor.
  - by rewrite Hd.
  - by apply (IH l2).
Qed.

Lemma priority_step_busy (s s' : Priority.State) :
  priority_inv s ->
  Forall (fun p => priority p < 999) (Priority.temp s) ->
  Priority.step s = Returned s' ->
  busy_step (priority_view s) (priority_view s').
Proof.
  intros Hpinv Hprio Hstep. unfold priority_view.
  pose proof (priority_select_min (Priority.temp s) (Priority.current_time s))
    as Hmin.
  destruct (Priority.select (Priority.temp s) (Priority.current_time s))
    as [next|] eqn:Hsel.
  - destruct Hmin as (pn & Hpn & [Harr Hrem] & _).
    destruct (priority_step_selected s s' next Hpinv Hsel Hstep)
      as (p0 & Hp0 & -> & -> & -> & _).
    rewrite Hpn in Hp0. injection Hp0 as <-.
    apply (busy_run _ _ _ _ pn); [done|done|lia].
  - unfold Priority.step in Hstep. rewrite Hsel in Hstep.
    injection Hstep as <-. simpl. apply busy_idle.
    intros j q Hq Hqa. destruct Hpinv as [Hok _].
    pose proof (Forall_lookup_1 _ _ _ _ Hok Hq) as (_ & Hr & _).
    pose proof (Forall_lookup_1 _ _ _ _ Hprio Hq) as Hq9. simpl in Hq9.
    destruct (decide (remaining_time q = 0)) as [|Hne]; [done|].
    assert (priority_eligible (Priority.current_time s) q) as Hel
      by (split; [done|lia]).
    specialize (Hmin j q Hq Hel). lia.
Qed.

Lemma sjf_step_busy (s : SJF.State) :
  sjf_inv s -> Forall (job_timeline (SJF.current_time s)) (SJF.temp s) ->
  Forall unserved (SJF.temp s) ->
  Forall (fun p => burst_time p < 999999) (SJF.temp s) ->
  busy_step (sjf_view s) (sjf_view (SJF.step s)).
Proof.
  intros [Hlen Hfl Hjobs Hflags] Htl Hun Hshort. unfold sjf_view.
  destruct (SJF.select s) as [next|] eqn:Hsel.
  - destruct (sjf_select_spec s next Hsel) as (p & Hp & [Harr Hflag] & _).
    pose proof (Forall_lookup_1 _ _ _ _ Hjobs Hp) as Hok.
    assert (0 < remaining_time p) as Hrem.
    { destruct Hok as (_ & Hr & _).
      destruct (decide (remaining_time p = 0)) as [E|E]; [|lia].
      apply (Hflags next p Hp) in E. congruence. }
    pose proof (Forall_lookup_1 _ _ _ _ Hun Hp Hrem) as Hs.
    pose proof (Forall_lookup_1 _ _ _ _ Htl Hp) as [Hfresh _].
    destruct (Hfresh Hs) as [Hr _].
    rewrite (sjf_step_dispatch s next p Hsel Hp). simpl.
    assert (alter (SJF.run_to_completion (SJF.current_time s)) next (SJF.temp s)
            = alter (serve_job (SJF.current_time s) (burst_time p)) next
                (SJF.temp s)) as ->.
    { apply list_alter_ext; [|done]. intros x Hx. rewrite Hp in Hx.
      injection Hx as <-. by apply run_to_completion_serve_job. }
    assert (S (SJF.completed s)
            = if remaining_time p - burst_time p =? 0
              then S (SJF.completed s) else SJF.completed s) as ->
      by (by rewrite Hr, Z.sub_diag).
    apply (busy_run _ _ _ _ p); [done|done|lia].
  - unfold SJF.step. rewrite Hsel. simpl. apply busy_idle.
    intros j q Hq Hqa.
    pose proof (Forall_lookup_1 _ _ _ _ Hjobs Hq) as (_ & Hr & _).
    pose proof (Forall_lookup_1 _ _ _ _ Hshort Hq) as Hqs. simpl in Hqs.
    destruct (decide (remaining_time q = 0)) as [|Hne]; [done|].
    assert (SJF.is_completed s !!! j = false) as Hflag.
    { destruct (SJF.is_completed s !!! j) eqn:E; [|done].
      apply (Hflags j q Hq) in E. done. }
    unfold SJF.select in Hsel.
    destruct (sjf_select_from_spec (SJF.temp s) 0 (SJF.current_time s)
                (SJF.is_completed s) None 999999)
      as [[_ Hall]|(k & x & Hk & _)]; [|congruence].
    assert (999999 <= burst_time q); [|lia].
    apply (Hall j q Hq). by split.
Qed.

Lemma rr_step_busy (s s' : RR.State) :
  rr_inv s -> RR.step s = Returned s' ->
  busy_step (rr_view s) (rr_view s').
Proof.
  intros Hinv Hstep. unfold rr_view, RR.step in *. case_decide as Hfr.
  - destruct (rr_idle_spec s s' Hinv Hfr Hstep) as (_ & -> & -> & ->).
    apply busy_idle. intros j q Hq Hqa.
    pose proof (Forall_lookup_1 _ _ _ _ (inv_jobs s Hinv) Hq) as (_ & Hr & _).
    destruct (decide (remaining_time q = 0)) as [|Hne]; [done|].
    assert (RR.in_queue s !!! j = true) as Hin
      by (apply (inv_ready s Hinv j q Hq); split; [done|lia]).
    apply (inv_in_queue s Hinv) in Hin; [|by eapply lookup_lt_Some].
    rewrite (pending_empty s Hfr) in Hin. by apply elem_of_nil in Hin.
  - destruct (rr_serve_spec s s' Hinv Hfr Hstep)
      as (idx & p & rest & _ & Hp & Harr & Hrem & Hs).
    cbv zeta in Hs. destruct Hs as (-> & -> & -> & _).
    set (e := if TIME_QUANTUM <? remaining_time p then TIME_QUANTUM
              else remaining_time p) in *.
    assert (0 < e <= remaining_time p) as He.
    { subst e. unfold TIME_QUANTUM.
      destruct (Z.ltb_spec 4 (remaining_time p)); lia. }
    match goal with |- context [alter ?f idx _] => set (F := f) end.
    assert (alter F idx (RR.temp s)
            = alter (serve_job (RR.current_time s) e) idx (RR.temp s)) as ->.
    { apply list_alter_ext; [|done]. intros x Hx. rewrite Hp in Hx.
      injection Hx as <-. subst F. unfold serve_job. cbv beta zeta.
      by destruct (start_time p =? -1). }
    by apply (busy_run _ _ _ _ p).
Qed.

Lemma priority_reachable_busy (proc : list Process) (s : Priority.State) :
  valid_registry proc -> proc <> [] ->
  Forall (fun p => priority p < 999) proc ->
  priority_reachable proc s ->
  exists a, busy_since a (Priority.temp s) (Priority.current_time s).
Proof.
  intros Hv Hne Hprio Hreach.
  induction Hreach as [temp0 Hc|s s' Hreach [a IH] Hlt Hstep].
  - apply copy_in_Returned in Hc as [-> _]. exists 0.
    by apply busy_since_fresh.
  - pose proof (priority_reachable_run_inv proc s Hv Hreach) as Hinv.
    apply (busy_step_since (length proc) a (Priority.temp s) _
             (Priority.current_time s) _ (Priority.completed s)
             (Priority.completed s')); try done.
    apply (priority_step_busy s s'); [by eapply priority_reachable_inv| |done].
    apply (Forall_descriptor (fun d => d.1.1.2 < 999) _ proc); [|done].
    by apply priority_reachable_descriptor.
Qed.

Lemma priority_reachable_fits (proc : list Process) (s : Priority.State) :
  valid_registry proc -> priority_reachable proc s ->
  service_fits (Priority.temp s) (Priority.current_time s).
Proof.
  intros Hv Hreach. induction Hreach as [temp0 Hc|s s' Hreach IH Hlt Hstep].
  - apply copy_in_Returned in Hc as [-> _]. simpl. intros a.
    rewrite late_service_fresh by done. lia.
  - apply (service_step_fits (length proc) (Priority.temp s) _
             (Priority.current_time s) _ (Priority.completed s)
             (Priority.completed s')); try done.
    + by apply priority_reachable_run_inv.
    + apply (priority_step_service s s'); [|done].
      by eapply priority_reachable_inv.
Qed.

Lemma sjf_reachable_descriptor (proc : list Process) (s : SJF.State) :
  SJF.reachable proc s -> map descriptor (SJF.temp s) = map descriptor proc.
Proof.
  induction 1 as [temp0 Hc|s _ IH _].
  - by apply copy_in_Returned in Hc as [-> _].
  - by rewrite sjf_step_descriptor.
Qed.

Lemma sjf_reachable_busy (proc : list Process) (s : SJF.State) :
  valid_registry proc -> proc <> [] ->
  Forall (fun p => burst_time p < 999999) proc ->
  SJF.reachable proc s ->
  exists a, busy_since a (SJF.temp s) (SJF.current_time s).
Proof.
  intros Hv Hne Hshort Hreach.
  induction Hreach as [temp0 Hc|s Hreach [a IH] Hlt].
  - apply copy_in_Returned in Hc as [-> _]. exists 0.
    by apply busy_since_fresh.
  - destruct (sjf_reachable_run_inv proc s Hv Hreach) as [Hinv Hun].
    apply (busy_step_since (length proc) a (SJF.temp s) _
             (SJF.current_time s) _ (SJF.completed s)
             (SJF.completed (SJF.step s))); try done.
    apply (sjf_step_busy s); try done.
    + by eapply sjf_reachable_inv.
    + apply (run_timeline _ _ Hinv).
    + apply (Forall_descriptor (fun d => d.2 < 999999) _ proc); [|done].
      by apply sjf_reachable_descriptor.
Qed.

Lemma sjf_reachable_fits (proc : list Process) (s : SJF.State) :
  valid_registry proc -> SJF.reachable proc s ->
  service_fits (SJF.temp s) (SJF.current_time s).
Proof.
  intros Hv Hreach. induction Hreach as [temp0 Hc|s Hreach IH Hlt].
  - apply copy_in_Returned in Hc as [-> _]. simpl. intros a.
    rewrite late_service_fresh by done. lia.
  - destruct (sjf_reachable_run_inv proc s Hv Hreach) as [Hinv Hun].
    apply (service_step_fits (length proc) (SJF.temp s) _
             (SJF.current_time s) _ (SJF.completed s)
             (SJF.completed (SJF.step s))); try done.
    apply (sjf_step_service s); try done.
    + by eapply sjf_reachable_inv.
    + apply (run_timeline _ _ Hinv).
Qed.

Lemma rr_reachable_busy (proc : list Process) (s : RR.State) :
  valid_registry proc -> proc <> [] -> RR.reachable proc s ->
  (exists a, busy_since a (RR.temp s) (RR.current_time s)) /\
  service_fits (RR.temp s) (RR.current_time s).
Proof.
  intros Hv Hne Hreach.
  induction Hreach as [s0 H0|s s' Hreach [[a IH] IHfit] Hlt Hstep].
  - destruct (rr_start_view proc s0 Hv H0) as (Hview & _).
    unfold rr_view in Hview. injection Hview as -> -> _.
    destruct (busy_since_fresh proc Hv Hne) as [Hb Hf]. split; [by exists 0|done].
  - pose proof (rr_reachable_run_inv proc s Hv Hreach) as Hinv.
    pose proof (rr_step_busy s s' (rr_reachable_inv proc s Hv Hreach) Hstep)
      as Hbusy.
    split.
    + by apply (busy_step_since (length proc) a (RR.temp s) _
                  (RR.current_time s) _ (RR.completed s) (RR.completed s')).
    + apply (service_step_fits (length proc) (RR.temp s) _
               (RR.current_time s) _ (RR.completed s) (RR.completed s'));
        try done.
      by apply busy_step_service.
Qed.

Lemma rr_reachable_fits (proc : list Process) (s : RR.State) :
  valid_registry proc -> RR.reachable proc s ->
  service_fits (RR.temp s) (RR.current_time s).
Proof.
  intros Hv Hreach. induction Hreach as [s0 H0|s s' Hreach IH Hlt Hstep].
  - destruct (rr_start_view proc s0 Hv H0) as (Hview & _).
    unfold rr_view in Hview. injection Hview as -> -> _. intros a.
    rewrite late_service_fresh by done. lia.
  - apply (service_step_fits (length proc) (RR.temp s) _
             (RR.current_time s) _ (RR.completed s) (RR.completed s'));
      try done.
    + by apply rr_reachable_run_inv.
    + apply rr_step_service; [|done]. by eapply rr_reachable_inv.
Qed.

Lemma late_burst_le_sum (a : Z) (l : list Process) :
  Forall (fun p => valid_job p /\ fresh p) l ->
  0 <= late_burst a l <= sum_of burst_time l.
Proof.
  unfold late_burst, sum_of.
  induction 1 as [|p l [[_ Hb] _] _ IH]; simpl; [lia|].
  destruct (a <=? arrival_time p); lia.
Qed.

Lemma fcfs_loop_fits (ps : list Process) (t cs a : Z) :
  Forall (fun p => valid_job p /\ fresh p) ps -> 0 <= t ->
  let '(out, t', cs') := FCFS.loop ps t cs in
  late_burst a ps <= Z.max 0 (t' - a).
Proof.
  revert t cs. induction ps as [|p rest IH]; intros t cs Hjobs Ht; simpl.
  - unfold late_burst, sum_of. simpl. lia.
  - apply Forall_cons in Hjobs as [[[Ha Hb] Hf] Hrest].
    set (t0 := if t <? arrival_time p then arrival_time p else t).
    assert (t <= t0 /\ arrival_time p <= t0) as [Ht0 Ha0].
    { subst t0. destruct (Z.ltb_spec t (arrival_time p)); lia. }
    specialize (IH (t0 + burst_time p) (cs + 1) Hrest).
    pose proof (fcfs_loop_run rest (t0 + burst_time p) (cs + 1) Hrest) as Hrun.
    destruct (FCFS.loop rest (t0 + burst_time p) (cs + 1)) as [[out t'] cs'].
    destruct Hrun as (_ & _ & _ & Hle & _); [lia|].
    specialize (IH ltac:(lia)).
    pose proof (late_burst_le_sum a rest Hrest) as Hl.
    unfold late_burst, sum_of in *. simpl.
    destruct (Z.leb_spec a (arrival_time p)); lia.
Qed.

(** What every run leaves of the time after [a], and what a run that was
    never idle with a job ready leaves of it. *)
Lemma run_late_bound (proc : list Process) (fuel : nat)
    (out : list Process) (m : Metrics) (a : Z) :
  valid_registry proc ->
  priority_scheduling fuel proc = Returned (out, m) \/
  fcfs_scheduling proc = Returned (out, m) \/
  sjf_scheduling fuel proc = Returned (out, m) \/
  round_robin_scheduling fuel proc = Returned (out, m) ->
  late_burst a proc <= Z.max 0 (total_time m - a).
Proof.
  intros Hv H.
  pose proof (scheduling_descriptor proc fuel out m H) as Hdesc.
  pose proof (scheduling_run_inv proc fuel out m Hv H) as Hinv.
  destruct (run_inv_all_completed _ _ _ _ Hinv) as [_ Hall]; [lia|].
  assert (Forall (fun p => remaining_time p = 0) out) as Hzero
    by (eapply Forall_impl; [exact Hall|]; by intros p (Hz & _)).
  rewrite <- (late_burst_descriptor a _ _ Hdesc),
    <- (late_service_completed a out Hzero).
  destruct H as [H|[H|[H|H]]].
  - unfold priority_scheduling in H.
    apply bind_Returned in H as (s & Hrun & Hret). injection Hret as <- <-.
    apply priority_run_reachable in Hrun as [Hreach _]. simpl.
    exact (priority_reachable_fits proc s Hv Hreach a).
  - rewrite (late_service_completed a out Hzero),
      (late_burst_descriptor a _ _ Hdesc).
    unfold fcfs_scheduling in H. rewrite copy_in_fits in H by apply Hv.
    simpl in H. destruct Hv as [_ Hjobs].
    pose proof (fcfs_loop_fits proc 0 0 a Hjobs (Z.le_refl 0)) as Hfit.
    destruct (FCFS.loop proc 0 0) as [[out' t] cs].
    injection H as <- <-. simpl. exact Hfit.
  - unfold sjf_scheduling in H.
    apply bind_Returned in H as (s & Hrun & Hret). injection Hret as <- <-.
    apply sjf_run_reachable in Hrun as [Hreach _]. simpl.
    exact (sjf_reachable_fits proc s Hv Hreach a).
  - unfold round_robin_scheduling in H.
    apply bind_Returned in H as (s & Hrun & Hret). injection Hret as <- <-.
    apply rr_run_reachable in Hrun. simpl.
    exact (rr_reachable_fits proc s Hv Hrun a).
Qed.

Lemma run_busy_total (proc : list Process) (fuel : nat)
    (out : list Process) (m : Metrics) :
  valid_registry proc -> proc <> [] ->
  priority_scheduling fuel proc = Returned (out, m) \/
  sjf_scheduling fuel proc = Returned (out, m) \/
  round_robin_scheduling fuel proc = Returned (out, m) ->
  exists a, 0 <= a /\ 0 < late_burst a proc /\
            total_time m = a + late_burst a proc.
Proof.
  intros Hv Hne H.
  assert (priority_scheduling fuel proc = Returned (out, m) \/
          fcfs_scheduling proc = Returned (out, m) \/
          sjf_scheduling fuel proc = Returned (out, m) \/
          round_robin_scheduling fuel proc = Returned (out, m)) as H4
    by tauto.
  pose proof (scheduling_descriptor proc fuel out m H4) as Hdesc.
  pose proof (scheduling_run_inv proc fuel out m Hv H4) as Hinv.
  destruct (run_inv_all_completed _ _ _ _ Hinv) as [_ Hall]; [lia|].
  assert (Forall (fun p => remaining_time p = 0) out) as Hzero
    by (eapply Forall_impl; [exact Hall|]; by intros p (Hz & _)).
  assert (exists a, busy_since a out (total_time m)) as [a Hbusy].
  { destruct H as [H|[H|H]].
    - pose proof (priority_scheduling_waiting proc fuel out m Hv H) as Hw.
      assert (Forall (fun p => priority p < 999) proc) as Hprio.
      { apply (Forall_descriptor (fun d => d.1.1.2 < 999) _ out); [done|].
        eapply Forall_impl; [exact Hw|]. by intros p (Hp & _). }
      unfold priority_scheduling in H.
      apply bind_Returned in H as (s & Hrun & Hret). injection Hret as <- <-.
      apply priority_run_reachable in Hrun as [Hreach _]. simpl.
      by apply (priority_reachable_busy proc).
    - unfold sjf_scheduling in H.
      apply bind_Returned in H as (s & Hrun & Hret). injection Hret as <- <-.
      apply sjf_run_reachable in Hrun as [Hreach _]. simpl.
      apply (sjf_reachable_busy proc); try done.
      pose proof (sjf_reachable_short_jobs proc s Hv Hreach) as Hshort.
      apply (Forall_descriptor (fun d => d.2 < 999999) _ (SJF.temp s));
        [done|].
      apply Forall_lookup_2. intros i p Hp.
      pose proof (Forall_lookup_1 _ _ _ _ Hall Hp) as (_ & _ & Hs).
      by apply (Forall_lookup_1 _ _ _ _ Hshort Hp).
    - unfold round_robin_scheduling in H.
      apply bind_Returned in H as (s & Hrun & Hret). injection Hret as <- <-.
      apply rr_run_reachable in Hrun. simpl.
      by apply (rr_reachable_busy proc). }
  destruct Hbusy as (Ha & Ht & _ & Hpos).
  rewrite (late_service_completed a out Hzero) in Ht.
  rewrite (late_burst_descriptor a _ _ Hdesc) in Ht, Hpos.
  exists a. split; [lia|]. split; [done|lia].
Qed.


(** ** The clock stays inside [int] *)

Lemma late_burst_after_last (a : Z) (l : list Process) :
  last_arrival l < a -> late_burst a l = 0.
Proof.
  unfold late_burst, last_arrival, sum_of.
  induction l as [|p l IH]; simpl; [done|].
  intros H. rewrite IH by lia. destruct (Z.leb_spec a (arrival_time p)); lia.
Qed.

Lemma late_burst_le_total (a t : Z) (l : list Process) :
  Forall (job_ok t) l -> late_burst a l <= sum_of burst_time l.
Proof.
  unfold late_burst, sum_of.
  induction 1 as [|p l [[_ Hb] _] _ IH]; simpl; [lia|].
  destruct (a <=? arrival_time p); lia.
Qed.

(** While the processor has been busy since [a], the clock is at most the
    latest arrival plus the burst times. *)
Lemma busy_since_bound (a : Z) (temp : list Process) (t : Z) :
  busy_since a temp t -> Forall (job_ok t) temp ->
  t <= last_arrival temp + sum_of burst_time temp.
Proof.
  intros (Ha & Ht & _ & Hpos) Hok.
  pose proof (late_service_bounds a t temp Hok) as Hs.
  pose proof (late_burst_le_total a t temp Hok) as Hb.
  destruct (Z.le_gt_cases a (last_arrival temp)) as [Hle|Hgt]; [lia|].
  rewrite (late_burst_after_last a temp) in Hpos by lia. lia.
Qed.

Lemma empty_registry_run (fuel : nat) :
  priority_scheduling fuel [] = Returned ([], zero_metrics) /\
  fcfs_scheduling [] = Returned ([], zero_metrics) /\
  sjf_scheduling fuel [] = Returned ([], zero_metrics) /\
  round_robin_scheduling fuel [] = Returned ([], zero_metrics).
Proof. by destruct fuel. Qed.

(** The total time of a run is at most the latest arrival plus the burst
    times: no clock has passed that value. *)
Lemma run_total_bound (proc : list Process) (fuel : nat)
    (out : list Process) (m : Metrics) :
  valid_registry proc ->
  priority_scheduling fuel proc = Returned (out, m) \/
  fcfs_scheduling proc = Returned (out, m) \/
  sjf_scheduling fuel proc = Returned (out, m) \/
  round_robin_scheduling fuel proc = Returned (out, m) ->
  0 <= total_time m <= last_arrival proc + sum_of burst_time proc.
Proof.
  intros Hv H. destruct (decide (proc = [])) as [->|Hne].
  - destruct (empty_registry_run fuel) as (H1 & H2 & H3 & H4).
    rewrite H1, H2, H3, H4 in H.
    assert (m = zero_metrics) as -> by (destruct H as [H|[H|[H|H]]]; congruence).
    done.
  - assert (0 <= total_time m) as H0.
    { pose proof (scheduling_run_inv proc fuel out m Hv H) as [Hok _ Hwork _ _].
      simpl in Hok, Hwork.
      assert (0 <= service_given out); [|lia].
      unfold service_given.
      pose proof (sum_of_le (fun _ => 0)
                    (fun p => burst_time p - remaining_time p) out) as Hle.
      assert (sum_of (fun _ => 0) out = 0) as Hz
        by (unfold sum_of; clear; induction out; simpl; lia).
      rewrite Hz in Hle. apply Hle.
      eapply Forall_impl; [exact Hok|]. intros p (_ & Hr & _). simpl. lia. }
    split; [done|].
    assert (priority_scheduling fuel proc = Returned (out, m) \/
            sjf_scheduling fuel proc = Returned (out, m) \/
            round_robin_scheduling fuel proc = Returned (out, m) \/
            fcfs_scheduling proc = Returned (out, m)) as H' by tauto.
    assert (forall H3 : priority_scheduling fuel proc = Returned (out, m) \/
                        sjf_scheduling fuel proc = Returned (out, m) \/
                        round_robin_scheduling fuel proc = Returned (out, m),
              total_time m <= last_arrival proc + sum_of burst_time proc)
      as Hbusy.
    { intros H3.
      destruct (run_busy_total proc fuel out m Hv Hne H3) as (a & Ha & Hpos & ->).
      destruct Hv as [_ Hjobs].
      pose proof (late_burst_le_sum a proc Hjobs) as Hb.
      destruct (Z.le_gt_cases a (last_arrival proc)) as [Hle|Hgt]; [lia|].
      rewrite (late_burst_after_last a proc) in Hpos by lia. lia. }
    destruct H' as [H'|[H'|[H'|H']]]; try (apply Hbusy; tauto).
    unfold fcfs_scheduling in H'. rewrite copy_in_fits in H' by apply Hv.
    simpl in H'. destruct Hv as [_ Hjobs].
    pose proof (fcfs_loop_bound proc 0 0) as Hbound.
    destruct (FCFS.loop proc 0 0) as [[out' t] cs].
    injection H' as <- <-. simpl.
    pose proof (last_arrival_nonneg proc).
    assert (t <= Z.max 0 (last_arrival proc) + sum_of burst_time proc); [|lia].
    apply Hbound. eapply Forall_impl; [exact Hjobs|]. by intros p [Hp _].
Qed.

Lemma rr_reachable_descriptor (proc : list Process) (s : RR.State) :
  valid_registry proc -> RR.reachable proc s ->
  map descriptor (RR.temp s) = map descriptor proc.
Proof.
  intros Hv. induction 1 as [s0 H0|s s' _ IH _ Hstep].
  - destruct (rr_start_view proc s0 Hv H0) as (Hview & _).
    unfold rr_view in Hview. by injection Hview as -> _ _.
  - by rewrite (rr_step_descriptor s s' Hstep).
Qed.

(** The clock of round robin never passes the latest arrival plus the
    burst times. *)
Lemma rr_reachable_clock (proc : list Process) (s : RR.State) :
  valid_registry proc -> proc <> [] -> RR.reachable proc s ->
  RR.current_time s <= last_arrival proc + sum_of burst_time proc.
Proof.
  intros Hv Hne Hreach.
  destruct (rr_reachable_busy proc s Hv Hne Hreach) as [[a Hbusy] _].
  pose proof (rr_reachable_descriptor proc s Hv Hreach) as Hdesc.
  rewrite <- (last_arrival_descriptor _ _ Hdesc),
    <- (sum_of_burst_descriptor _ _ Hdesc).
  apply (busy_since_bound a); [done|].
  apply inv_jobs. by eapply rr_reachable_inv.
Qed.

Lemma service_given_serve (temp : list Process) (i : nat) (p : Process)
    (t e : Z) :
  temp !! i = Some p ->
  service_given (alter (serve_job t e) i temp) = service_given temp + e.
Proof.
  intros Hp. unfold service_given. rewrite (sum_of_alter _ _ _ _ _ Hp).
  destruct (serve_job_fields t e p) as (Hd & -> & _).
  apply descriptor_fields in Hd as (_ & _ & ->). lia.
Qed.

Lemma service_given_nonneg (t : Z) (temp : list Process) :
  Forall (job_ok t) temp -> 0 <= service_given temp.
Proof.
  intros Hok. unfold service_given.
  pose proof (sum_of_le (fun _ => 0)
                (fun p => burst_time p - remaining_time p) temp) as Hle.
  assert (sum_of (fun _ => 0) temp = 0) as Hz
    by (unfold sum_of; clear; induction temp; simpl; lia).
  rewrite Hz in Hle. apply Hle.
  eapply Forall_impl; [exact Hok|]. intros p (_ & Hr & _). simpl. lia.
Qed.

(** The service given and the service that a job still needs fit into the
    burst times. *)
Lemma service_given_room (t : Z) (temp : list Process) (i : nat)
    (p : Process) :
  Forall (job_ok t) temp -> temp !! i = Some p ->
  service_given temp + remaining_time p <= sum_of burst_time temp.
Proof.
  intros Hok Hp. unfold service_given.
  pose proof (sum_of_le_at (fun q => burst_time q - remaining_time q)
                burst_time temp i p) as H.
  simpl in H. enough (sum_of (fun q => burst_time q - remaining_time q) temp
                      + (burst_time p - (burst_time p - remaining_time p))
                      <= sum_of burst_time temp) by lia.
  apply H; [|done].
  eapply Forall_impl; [exact Hok|]. intros q (_ & Hr & _). simpl. lia.
Qed.

(** While shortest job first still has a job that it can select, its clock
    is at most the latest arrival plus the service given so far: it has
    been idle only while waiting for an arrival. *)
Lemma sjf_reachable_clock (proc : list Process) (s : SJF.State) :
  valid_registry proc -> SJF.reachable proc s ->
  (exists j q, SJF.temp s !! j = Some q /\ burst_time q < 999999 /\
               0 < remaining_time q) ->
  SJF.current_time s <= last_arrival proc + service_given (SJF.temp s).
Proof.
  intros Hv Hreach. induction Hreach as [temp0 Hc|s Hreach IH Hlt].
  - apply copy_in_Returned in Hc as [-> _]. simpl. intros _.
    pose proof (last_arrival_nonneg proc).
    pose proof (service_given_nonneg 0 proc (registry_job_ok _ Hv)). lia.
  - intros (j & q & Hq & Hshort & Hrem).
    pose proof (sjf_reachable_inv proc s Hv Hreach) as [Hlen Hfl Hjobs Hflags].
    destruct (sjf_reachable_run_inv proc s Hv Hreach) as [Hinv Hun].
    pose proof (run_timeline _ _ Hinv) as Htl. simpl in Htl.
    pose proof (sjf_reachable_descriptor proc s Hreach) as Hdesc.
    destruct (SJF.select s) as [next|] eqn:Hsel.
    + destruct (sjf_select_spec s next Hsel) as (p & Hp & [Harr Hflag] & _).
      pose proof (Forall_lookup_1 _ _ _ _ Hjobs Hp) as Hok.
      assert (0 < remaining_time p) as Hprem.
      { destruct Hok as (_ & Hr & _).
        destruct (decide (remaining_time p = 0)) as [E|E]; [|lia].
        apply (Hflags next p Hp) in E. congruence. }
      pose proof (Forall_lookup_1 _ _ _ _ Hun Hp Hprem) as Hs.
      pose proof (Forall_lookup_1 _ _ _ _ Htl Hp) as [Hfresh _].
      destruct (Hfresh Hs) as [Hr _].
      rewrite (sjf_step_dispatch s next p Hsel Hp) in Hq |- *. simpl in *.
      assert (alter (SJF.run_to_completion (SJF.current_time s)) next (SJF.temp s)
              = alter (serve_job (SJF.current_time s) (burst_time p)) next
                  (SJF.temp s)) as Halt.
      { apply list_alter_ext; [|done]. intros x Hx. rewrite Hp in Hx.
        injection Hx as <-. by apply run_to_completion_serve_job. }
      rewrite Halt in Hq |- *. rewrite (service_given_serve _ _ p) by done.
      destruct (decide (j = next)) as [->|Hne].
      * rewrite list_lookup_alter_eq, Hp in Hq. injection Hq as <-.
        destruct (serve_job_fields (SJF.current_time s) (burst_time p) p)
          as (_ & Hr' & _). lia.
      * rewrite list_lookup_alter_ne in Hq by done.
        assert (SJF.current_time s
                <= last_arrival proc + service_given (SJF.temp s)); [|lia].
        apply IH. by exists j, q.
    + unfold SJF.step in Hq |- *. rewrite Hsel in Hq |- *. simpl in *.
      pose proof (service_given_nonneg _ _ Hjobs).
      assert (SJF.current_time s < arrival_time q) as Hlate.
      { destruct (Z.lt_ge_cases (SJF.current_time s) (arrival_time q))
          as [|Hle]; [done|]. exfalso.
        assert (SJF.is_completed s !!! j = false) as Hflag.
        { destruct (SJF.is_completed s !!! j) eqn:E; [|done].
          apply (Hflags j q Hq) in E. lia. }
        unfold SJF.select in Hsel.
        destruct (sjf_select_from_spec (SJF.temp s) 0 (SJF.current_time s)
                    (SJF.is_completed s) None 999999)
          as [[_ Hall]|(k & x & Hk & _)]; [|congruence].
        assert (999999 <= burst_time q); [|lia].
        apply (Hall j q Hq). split; [lia|done]. }
      pose proof (last_arrival_upper (SJF.temp s)) as Hup.
      pose proof (Forall_lookup_1 _ _ _ _ Hup Hq) as Hqa. simpl in Hqa.
      rewrite (last_arrival_descriptor _ _ Hdesc) in Hqa. lia.
Qed.

(** While the preemptive scheduler still has a job that it can select,
    its clock is at most the latest arrival plus the service given so
    far. *)
Lemma priority_reachable_clock (proc : list Process) (s : Priority.State) :
  valid_registry proc -> priority_reachable proc s ->
  (exists j q, Priority.temp s !! j = Some q /\ priority q < 999 /\
               0 < remaining_time q) ->
  Priority.current_time s
  <= last_arrival proc + service_given (Priority.temp s).
Proof.
  intros Hv Hreach. induction Hreach as [temp0 Hc|s s' Hreach IH _ Hstep].
  - apply copy_in_Returned in Hc as [-> _]. simpl. intros _.
    pose proof (last_arrival_nonneg proc).
    pose proof (service_given_nonneg 0 proc (registry_job_ok _ Hv)). lia.
  - intros (j & q & Hq & Hsel9 & Hrem).
    pose proof (priority_reachable_inv proc s Hv Hreach) as Hpinv.
    pose proof (pinv_jobs s Hpinv) as Hjobs.
    pose proof (priority_reachable_descriptor proc s Hreach) as Hdesc.
    pose proof (priority_select_min (Priority.temp s) (Priority.current_time s))
      as Hmin.
    destruct (Priority.select (Priority.temp s) (Priority.current_time s))
      as [next|] eqn:Hsel.
    + destruct Hmin as (p & Hp & [Harr Hprem] & Hprio & _).
      destruct (priority_step_selected s s' next Hpinv Hsel Hstep)
        as (p0 & Hp0 & Htemp & Ht & _).
      rewrite Hp in Hp0. injection Hp0 as <-.
      rewrite Ht, Htemp, (service_given_serve _ _ p) by done.
      assert (Priority.current_time s
              <= last_arrival proc + service_given (Priority.temp s)); [|lia].
      apply IH. by exists next, p.
    + unfold Priority.step in Hstep. rewrite Hsel in Hstep.
      injection Hstep as <-. simpl in *.
      pose proof (service_given_nonneg _ _ Hjobs).
      assert (Priority.current_time s < arrival_time q) as Hlate.
      { destruct (Z.lt_ge_cases (Priority.current_time s) (arrival_time q))
          as [|Hle]; [done|]. exfalso.
        assert (priority_eligible (Priority.current_time s) q) as Hel
          by (split; [lia|done]).
        specialize (Hmin j q Hq Hel). lia. }
      pose proof (last_arrival_upper (Priority.temp s)) as Hup.
      pose proof (Forall_lookup_1 _ _ _ _ Hup Hq) as Hqa. simpl in Hqa.
      rewrite (last_arrival_descriptor _ _ Hdesc) in Hqa. lia.
Qed.

(** ** The initial value of the priority scan *)

(** X9: the preemptive scheduler never serves a job whose priority value
    is 999 or more: the scan starts from [highest_priority = 999] and
    selects only smaller values.  On a valid registry that fits the [int]
    clock and contains such a job the main loop is still running after any
    number of iterations; it neither returns nor overflows its event log.
    Whenever it serves a job during such a run, the clock after that tick
    is an [int]: the jobs that can be served are served before the clock
    reaches [INT_MAX]. *)
Theorem X9_priority_999_never_served (proc : list Process) (fuel : nat) :
  valid_registry proc -> fits_int proc ->
  Exists (fun p => 999 <= priority p) proc ->
  priority_scheduling fuel proc = OutOfFuel /\
  forall (s : Priority.State) (next : nat),
    priority_reachable proc s ->
    Priority.select (Priority.temp s) (Priority.current_time s) = Some next ->
    0 <= Priority.current_time s /\ Priority.current_time s + 1 <= INT_MAX.
Proof.
  intros Hv Hfit Hex. split.
  - destruct (priority_scheduling fuel proc) as [[out m]|i|] eqn:H; [| |done].
    + exfalso.
      pose proof (priority_scheduling_waiting proc fuel out m Hv H) as Hwait.
      pose proof (scheduling_descriptor proc fuel out m (or_introl H)) as Hdesc.
      apply Exists_exists in Hex as (p & Hin & Hp).
      apply list_elem_of_lookup in Hin as [k Hk].
      assert (exists q, out !! k = Some q /\ descriptor q = descriptor p)
        as (q & Hq & Hd).
      { apply (f_equal (fun l => l !! k)) in Hdesc.
        rewrite !list_lookup_fmap, Hk in Hdesc. simpl in Hdesc.
        destruct (out !! k) as [q|]; [|done]. exists q. split; [done|].
        simpl in Hdesc. congruence. }
      apply descriptor_fields in Hd as (Hprio & _).
      pose proof (Forall_lookup_1 _ _ _ _ Hwait Hq) as (Hlt & _). simpl in Hlt.
      lia.
    + exfalso. unfold priority_scheduling, Priority.run in H.
      rewrite copy_in_fits in H by apply Hv. simpl in H.
      destruct (Priority.loop fuel (length proc) (Priority.init proc))
        as [s|j|] eqn:Hloop; simpl in H; try done.
      injection H as ->.
      apply (priority_loop_in_bounds proc fuel (Priority.init proc) i Hv);
        [|done].
      apply priority_reach_init, copy_in_fits, Hv.
  - intros s next Hreach Hsel.
    pose proof (priority_select_min (Priority.temp s) (Priority.current_time s))
      as Hmin.
    rewrite Hsel in Hmin. destruct Hmin as (p & Hp & [Harr Hrem] & Hprio & _).
    pose proof (priority_reachable_inv proc s Hv Hreach) as [Hjobs _].
    pose proof (Forall_lookup_1 _ _ _ _ Hjobs Hp) as [[Ha _] _].
    split; [lia|].
    pose proof (priority_reachable_clock proc s Hv Hreach) as Hclock.
    pose proof (service_given_room _ _ next p Hjobs Hp) as Hroom.
    rewrite (sum_of_burst_descriptor _ _
               (priority_reachable_descriptor proc s Hreach)) in Hroom.
    unfold fits_int in Hfit.
    assert (Priority.current_time s
            <= last_arrival proc + service_given (Priority.temp s)); [|lia].
    apply Hclock. by exists next, p.
Qed.

Lemma X9_priority_999_never_served_witness :
  valid_registry unserved_registry /\ fits_int unserved_registry /\
  priority_scheduling 50 unserved_registry = OutOfFuel /\
  Priority.select unserved_registry 0 = Some 0%nat /\
  Priority.current_time (Priority.init unserved_registry) + 1 <= INT_MAX.
Proof.
  assert (valid_registry unserved_registry) as Hv.
  { split; [vm_compute; lia|]. repeat constructor; simpl; lia. }
  assert (fits_int unserved_registry) as Hfit by (by vm_compute).
  assert (Exists (fun p => 999 <= priority p) unserved_registry) as Hex.
  { apply Exists_cons_tl, Exists_cons_hd. simpl. lia. }
  destruct (X9_priority_999_never_served unserved_registry 50 Hv Hfit Hex)
    as [Hrun Hclock].
  assert (Priority.select unserved_registry 0 = Some 0%nat) as Hsel
    by reflexivity.
  split; [exact Hv|]. split; [exact Hfit|]. split; [exact Hrun|].
  split; [exact Hsel|].
  apply (Hclock (Priority.init unserved_registry) 0%nat).
  - apply priority_reach_init. reflexivity.
  - exact Hsel.
Defined.

(** ** The times of the jobs of a run *)

(** X2: in the list that any of the four schedulers returns for a valid
    registry that fits the [int] clock, every job started no earlier than
    it arrived, its response time is the delay from arrival to start, it
    completed no earlier than one burst after its start and no later than
    the total time of the run, and it never waited less than its response
    time.  The total time is at most the latest arrival plus the burst
    times, so that every time of the run is an [int]. *)
Theorem X2_job_times (proc : list Process) (fuel : nat)
    (out : list Process) (m : Metrics) :
  valid_registry proc -> fits_int proc ->
  priority_scheduling fuel proc = Returned (out, m) \/
  fcfs_scheduling proc = Returned (out, m) \/
  sjf_scheduling fuel proc = Returned (out, m) \/
  round_robin_scheduling fuel proc = Returned (out, m) ->
  total_time m <= last_arrival proc + sum_of burst_time proc /\
  total_time m <= INT_MAX /\
  Forall (fun p =>
            0 <= arrival_time p <= start_time p /\
            response_time p = start_time p - arrival_time p /\
            start_time p + burst_time p <= completion_time p /\
            completion_time p <= total_time m /\
            0 <= response_time p <= waiting_time p /\
            waiting_time p <= turnaround_time p <= total_time m) out.
Proof.
  intros Hv Hfit H.
  pose proof (run_total_bound proc fuel out m Hv H) as [_ Hbound].
  split; [done|]. split; [unfold fits_int in Hfit; lia|].
  pose proof (scheduling_run_inv proc fuel out m Hv H) as Hinv.
  destruct (run_inv_all_completed _ _ _ _ Hinv) as [_ Hall]; [lia|].
  destruct Hinv as [Hok Htl _ _ _]. simpl in *.
  apply Forall_lookup_2. intros i p Hp.
  pose proof (Forall_lookup_1 _ _ _ _ Hok Hp) as Hpok.
  pose proof (Forall_lookup_1 _ _ _ _ Htl Hp) as Hptl.
  pose proof (Forall_lookup_1 _ _ _ _ Hall Hp) as Hpc. simpl in Hpc.
  revert Hpok Hptl Hpc. timeline_crush.
Qed.

Lemma X2_job_times_witness :
  valid_registry init_emergency_scenario /\
  fits_int init_emergency_scenario /\
  Forall (fun p => 0 <= response_time p <= waiting_time p)
    (fst (result_of (priority_scheduling 200 init_emergency_scenario))).
Proof.
  assert (valid_registry init_emergency_scenario) as Hv.
  { split; [vm_compute; lia|]. repeat constructor; simpl; lia. }
  assert (fits_int init_emergency_scenario) as Hfit by (by vm_compute).
  split; [exact Hv|]. split; [exact Hfit|].
  assert (exists r, priority_scheduling 200 init_emergency_scenario = Returned r)
    as [[out m] Hr] by (vm_compute; eauto).
  rewrite Hr. simpl.
  eapply Forall_impl;
    [exact (proj2 (proj2 (X2_job_times init_emergency_scenario 200 out m Hv
                            Hfit (or_introl Hr))))|].
  simpl. intros p Hp. apply Hp.
Defined.

(** X16: the three schedulers that never leave the processor idle while a
    job is ready finish together, and no run finishes earlier.  Whenever
    the preemptive scheduler, shortest job first or round robin returns
    on a valid registry of at least one job that fits the [int] clock, its
    total time is at most the total time that any of the four schedulers
    returns on that registry; so any two of these three report the same
    total time, and first come, first served is never faster.  Both total
    times are [int]s. *)
Theorem X16_same_total_time (proc : list Process) (fuel1 fuel2 : nat)
    (out1 out2 : list Process) (m1 m2 : Metrics) :
  valid_registry proc -> fits_int proc -> proc <> [] ->
  priority_scheduling fuel1 proc = Returned (out1, m1) \/
  sjf_scheduling fuel1 proc = Returned (out1, m1) \/
  round_robin_scheduling fuel1 proc = Returned (out1, m1) ->
  priority_scheduling fuel2 proc = Returned (out2, m2) \/
  fcfs_scheduling proc = Returned (out2, m2) \/
  sjf_scheduling fuel2 proc = Returned (out2, m2) \/
  round_robin_scheduling fuel2 proc = Returned (out2, m2) ->
  total_time m1 <= total_time m2 /\ total_time m2 <= INT_MAX.
Proof.
  intros Hv Hfit Hne H1 H2.
  pose proof (run_total_bound proc fuel2 out2 m2 Hv H2) as [_ Hbound].
  split; [|unfold fits_int in Hfit; lia].
  destruct (run_busy_total proc fuel1 out1 m1 Hv Hne H1) as (a & Ha & Hpos & ->).
  pose proof (run_late_bound proc fuel2 out2 m2 a Hv H2). lia.
Qed.

Lemma X16_same_total_time_witness :
  valid_registry init_normal_scenario /\ fits_int init_normal_scenario /\
  init_normal_scenario <> [] /\
  total_time (snd normal_after_priority) <= total_time (snd normal_after_rr) /\
  total_time (snd normal_after_rr) <= total_time (snd normal_after_priority).
Proof.
  assert (valid_registry init_normal_scenario) as Hv.
  { split; [vm_compute; lia|]. repeat constructor; simpl; lia. }
  assert (fits_int init_normal_scenario) as Hfit by (by vm_compute).
  assert (init_normal_scenario <> []) as Hne by discriminate.
  assert (priority_scheduling 100 init_normal_scenario
          = Returned (fst normal_after_priority, snd normal_after_priority))
    as Hp by (vm_compute; reflexivity).
  assert (round_robin_scheduling 100 init_normal_scenario
          = Returned (fst normal_after_rr, snd normal_after_rr))
    as Hr by (vm_compute; reflexivity).
  split; [exact Hv|]. split; [exact Hfit|]. split; [exact Hne|]. split.
  - exact (proj1 (X16_same_total_time init_normal_scenario 100 100 _ _ _ _
                    Hv Hfit Hne
                    (or_introl Hp) (or_intror (or_intror (or_intror Hr))))).
  - exact (proj1 (X16_same_total_time init_normal_scenario 100 100 _ _ _ _
                    Hv Hfit Hne
                    (or_intror (or_intror Hr)) (or_introl Hp))).
Defined.

(** ** The metrics of a run: what holds of the [float] fields *)

Lemma ratio_pos (a c : Z) : 0 < c -> 0 < a -> (0 < ratio a c)%Q.
Proof.
  intros Hc Ha. unfold ratio, Qdiv. apply Qmult_lt_0_compat.
  - change (inject_Z 0 < inject_Z a)%Q. by rewrite <- Zlt_Qlt.
  - apply Qinv_lt_0_compat. change (inject_Z 0 < inject_Z c)%Q.
    by rewrite <- Zlt_Qlt.
Qed.

(** X14: no guard of [calculate_metrics] fires on a run.  Whichever
    scheduler returns on a valid registry of [n >= 1] jobs that fits the
    [int] clock, the total time is positive and an [int] and all [n] jobs
    are counted.  Of the quotients this leaves what rounding to [float]
    keeps: the throughput is positive and at most 1, one job per time unit
    at best; the utilisation is positive; and the average turnaround time
    is at least 1, every job taking at least one time unit. *)
Theorem X14_metrics_of_a_run (proc : list Process) (fuel : nat)
    (out : list Process) (m : Metrics) :
  valid_registry proc -> fits_int proc -> proc <> [] ->
  priority_scheduling fuel proc = Returned (out, m) \/
  fcfs_scheduling proc = Returned (out, m) \/
  sjf_scheduling fuel proc = Returned (out, m) \/
  round_robin_scheduling fuel proc = Returned (out, m) ->
  0 < total_time m <= INT_MAX /\
  count_completed out = length proc /\
  (0 < throughput m)%Q /\ (throughput m <= 1)%Q /\
  (0 < cpu_utilization m)%Q /\
  (1 <= avg_turnaround_time m)%Q.
Proof.
  intros Hv Hfit Hne H.
  pose proof (run_total_bound proc fuel out m Hv H) as [_ Hbound].
  destruct (run_metrics proc fuel out m Hv Hne H)
    as (Hn & Hb & Ht & _ & -> & _ & -> & -> & _).
  pose proof (scheduling_run_inv proc fuel out m Hv H) as Hinv.
  destruct (run_inv_all_completed _ _ _ _ Hinv) as [_ Hall]; [lia|].
  pose proof (run_length _ _ Hinv) as Hlen.
  destruct Hinv as [Hok _ _ _ _]. simpl in Hok, Hlen.
  assert (0 < total_time m) as HT by lia.
  assert (Z.of_nat (length proc) <= sum_of turnaround_time out) as Hturn.
  { rewrite <- Hlen. clear -Hok Hall. unfold sum_of.
    induction out as [|p out IH]; simpl; [lia|].
    apply Forall_cons in Hok as [Hp Hok]. apply Forall_cons in Hall as [Hc Hall].
    specialize (IH Hok Hall).
    destruct Hp as ([_ Hb] & _ & _ & _ & _ & Htc & _).
    destruct Hc as (_ & Hc & _). destruct (Htc Hc) as (_ & _ & _ & Hbt). lia. }
  split; [unfold fits_int in Hfit; lia|]. split.
  { rewrite <- Hlen. apply count_completed_all.
    eapply Forall_impl; [exact Hall|]. by intros p (_ & Hc & _). }
  split; [by apply ratio_pos|]. split.
  { rewrite <- (ratio_same _ HT). apply ratio_le; [done|lia]. }
  split.
  { apply Qmult_lt_0_compat; [apply ratio_pos; lia|done]. }
  rewrite <- (ratio_same _ Hn). by apply ratio_le.
Qed.

Lemma X14_metrics_of_a_run_witness :
  valid_registry init_best_scenario /\ fits_int init_best_scenario /\
  init_best_scenario <> [] /\
  (throughput (snd (result_of (fcfs_scheduling init_best_scenario))) <= 1)%Q.
Proof.
  assert (valid_registry init_best_scenario) as Hv.
  { split; [vm_compute; lia|]. repeat constructor; simpl; lia. }
  assert (fits_int init_best_scenario) as Hfit by (by vm_compute).
  assert (init_best_scenario <> []) as Hne by discriminate.
  split; [exact Hv|]. split; [exact Hfit|]. split; [exact Hne|].
  assert (exists r, fcfs_scheduling init_best_scenario = Returned r)
    as [[out m] Hr] by (vm_compute; eauto).
  rewrite Hr. simpl.
  exact (proj1 (proj2 (proj2 (proj2
           (X14_metrics_of_a_run init_best_scenario 0 out m Hv Hfit Hne
              (or_intror (or_introl Hr))))))).
Defined.

(** X15: the metrics of a run are in range.  Whichever scheduler returns
    on a valid registry of at least one job that fits the [int] clock, the
    total time is an [int] and at least the sum of the burst times, so
    that the utilisation lies between 0 and 100; the average response time
    is not negative and at most the average waiting time, which is at most
    the average turnaround time; and the emergency extrema satisfy
    [0 <= min <= max].  Rounding to [float] keeps each of these
    comparisons. *)
Theorem X15_metrics_in_range (proc : list Process) (fuel : nat)
    (out : list Process) (m : Metrics) :
  valid_registry proc -> fits_int proc -> proc <> [] ->
  priority_scheduling fuel proc = Returned (out, m) \/
  fcfs_scheduling proc = Returned (out, m) \/
  sjf_scheduling fuel proc = Returned (out, m) \/
  round_robin_scheduling fuel proc = Returned (out, m) ->
  sum_of burst_time proc <= total_time m <= INT_MAX /\
  (0 <= cpu_utilization m)%Q /\ (cpu_utilization m <= 100)%Q /\
  (0 <= avg_response_time m)%Q /\
  (avg_response_time m <= avg_waiting_time m)%Q /\
  (avg_waiting_time m <= avg_turnaround_time m)%Q /\
  0 <= emergency_response_min m <= emergency_response_max m.
Proof.
  intros Hv Hfit Hne H.
  pose proof (run_total_bound proc fuel out m Hv H) as [_ Hbound].
  destruct (run_metrics proc fuel out m Hv Hne H)
    as (Hn & Hb & Ht & -> & -> & -> & _ & -> & Hem).
  pose proof (scheduling_run_inv proc fuel out m Hv H) as Hinv.
  destruct (run_inv_all_completed _ _ _ _ Hinv) as [_ Hall]; [lia|].
  destruct Hinv as [Hok Htl _ _ _]. simpl in Hok, Htl.
  assert (Forall (fun p => 0 <= response_time p /\
                           response_time p <= waiting_time p /\
                           waiting_time p <= turnaround_time p) out) as Hjobs.
  { apply Forall_lookup_2. intros i p Hp.
    pose proof (Forall_lookup_1 _ _ _ _ Hok Hp) as Hpok.
    pose proof (Forall_lookup_1 _ _ _ _ Htl Hp) as Hptl.
    pose proof (Forall_lookup_1 _ _ _ _ Hall Hp) as Hpc. simpl in Hpc.
    revert Hpok Hptl Hpc. timeline_crush. }
  assert (0 <= sum_of response_time out) as H0.
  { pose proof (sum_of_le (fun _ => 0) response_time out) as Hle.
    assert (sum_of (fun _ => 0) out = 0) as Hz
      by (unfold sum_of; clear; induction out; simpl; lia).
    rewrite Hz in Hle. apply Hle.
    eapply Forall_impl; [exact Hjobs|]. simpl. tauto. }
  assert (sum_of response_time out <= sum_of waiting_time out) as H1.
  { apply sum_of_le. eapply Forall_impl; [exact Hjobs|]. simpl. tauto. }
  assert (sum_of waiting_time out <= sum_of turnaround_time out) as H2.
  { apply sum_of_le. eapply Forall_impl; [exact Hjobs|]. simpl. tauto. }
  assert (0 < total_time m) as HT by lia.
  split; [unfold fits_int in Hfit; lia|].
  split; [|split; [|split; [|split; [|split; [|done]]]]].
  - apply Qmult_le_0_compat; [apply ratio_nonneg; lia|done].
  - apply (Qle_trans _
             (Qmult (ratio (total_time m) (total_time m)) (inject_Z 100))).
    + apply Qmult_le_compat_r; [by apply ratio_le|done].
    + rewrite (ratio_same _ HT). done.
  - by apply ratio_nonneg.
  - by apply ratio_le.
  - by apply ratio_le.
Qed.

Lemma X15_metrics_in_range_witness :
  valid_registry init_best_scenario /\ fits_int init_best_scenario /\
  init_best_scenario <> [] /\
  (cpu_utilization (snd (result_of (sjf_scheduling 40 init_best_scenario)))
   <= 100)%Q.
Proof.
  assert (valid_registry init_best_scenario) as Hv.
  { split; [vm_compute; lia|]. repeat constructor; simpl; lia. }
  assert (fits_int init_best_scenario) as Hfit by (by vm_compute).
  assert (init_best_scenario <> []) as Hne by discriminate.
  split; [exact Hv|]. split; [exact Hfit|]. split; [exact Hne|].
  assert (exists r, sjf_scheduling 40 init_best_scenario = Returned r)
    as [[out m] Hr] by (vm_compute; eauto).
  rewrite Hr. simpl.
  exact (proj1 (proj2 (proj2
           (X15_metrics_in_range init_best_scenario 40 out m Hv Hfit Hne
              (or_intror (or_intror (or_introl Hr))))))).
Defined.

(** ** The event log of a run *)

Lemma count_rows_cons (k : Priority.event_type) (i : nat) (e : Priority.Event)
    (l : list Priority.Event) :
  count_rows k i (e :: l) = (if is_row k i e then 1 else 0) + count_rows k i l.
Proof. done. Qed.

Lemma count_rows_app (k : Priority.event_type) (i : nat)
    (l1 l2 : list Priority.Event) :
  count_rows k i (l1 ++ l2) = count_rows k i l1 + count_rows k i l2.
Proof.
  induction l1 as [|e l1 IH]; [done|].
  rewrite <- app_comm_cons, !count_rows_cons, IH. lia.
Qed.

Lemma is_row_spec (k k' : Priority.event_type) (i j : nat) (t : Z) :
  is_row k i (Priority.mkEvent t j k') = true <-> k = k' /\ j = i.
Proof.
  unfold is_row, has_kind. simpl. rewrite andb_true_iff, bool_decide_eq_true.
  destruct k, k'; split; intros [H1 H2]; try done.
Qed.

Lemma count_rows_single (k k' : Priority.event_type) (i j : nat) (t : Z) :
  count_rows k i [Priority.mkEvent t j k']
  = if decide (k = k' /\ j = i) then 1 else 0.
Proof.
  rewrite count_rows_cons. simpl.
  pose proof (is_row_spec k k' i j t) as H.
  destruct (is_row k i _); case_decide; try done; exfalso;
    intuition congruence.
Qed.

Ltac rows_side := first [assumption | congruence | lia].

Ltac rows_crush :=
  repeat case_decide; destruct_and?; destruct_or?; simplify_eq; try lia;
  exfalso;
  match goal with
  | H : ~ _ |- _ =>
      apply H;
      first [repeat split; rows_side | left; rows_side | right; rows_side]
  end.

(** The rows of each job, one iteration on. *)
Lemma priority_step_rows_inv (s s' : Priority.State) :
  priority_inv s -> priority_log_inv s -> priority_rows_inv s ->
  Priority.step s = Returned s' -> priority_rows_inv s'.
Proof.
  intros Hpinv Hlog Hrows Hstep.
  pose proof (priority_select_min (Priority.temp s) (Priority.current_time s))
    as Hmin.
  destruct (Priority.select (Priority.temp s) (Priority.current_time s))
    as [next|] eqn:Hsel.
  - destruct Hmin as (p & Hp & [Harr Hrem] & _).
    destruct (priority_step_selected s s' next Hpinv Hsel Hstep)
      as (p0 & Hp0 & Htemp & _ & _ & Hr).
    rewrite Hp in Hp0. injection Hp0 as <-.
    destruct (priority_step_log s s' next p Hsel Hp Hstep) as [Hev _].
    destruct (serve_job_fields (Priority.current_time s) 1 p) as (_ & Hr' & _).
    intros i q Hq. rewrite Hev, Hr, !count_rows_app.
    rewrite Htemp in Hq.
    assert (forall k,
              count_rows k i (step_events s next p)
              = (if decide (k = Priority.Start /\ next = i /\
                            Priority.is_running s <> Some next)
                 then 1 else 0)
                + (if decide (k = Priority.Preempt /\
                              Priority.is_running s = Some i /\ i <> next)
                   then 1 else 0)
                + (if decide (k = Priority.Complete /\ next = i /\
                              remaining_time p - 1 = 0)
                   then 1 else 0)) as Hnew.
    { intros k.
      assert (count_rows k i
                (if remaining_time p - 1 =? 0
                 then [Priority.mkEvent (Priority.current_time s + 1) next
                         Priority.Complete]
                 else [])
              = if decide (k = Priority.Complete /\ next = i /\
                           remaining_time p - 1 = 0)
                then 1 else 0) as Htl.
      { destruct (Z.eqb_spec (remaining_time p - 1) 0) as [E|E].
        - rewrite count_rows_single. repeat case_decide; try done; tauto.
        - case_decide; [tauto|done]. }
      destruct (Priority.is_running s) as [r|] eqn:HR.
      - destruct (decide (r = next)) as [->|Hne].
        + rewrite (step_events_continue s next p HR), Htl.
          rows_crush.
        + destruct (log_running s Hlog r HR) as (pr & Hpr & Hrrem & _).
          rewrite (step_events_preempt s next r p pr HR Hne Hpr Hrrem).
          change (count_rows k i (?e1 :: ?e2 :: ?l))
            with (count_rows k i ([e1] ++ [e2] ++ l)).
          rewrite !count_rows_app, !count_rows_single, Htl.
          rows_crush.
      - rewrite (step_events_idle_cpu s next p HR).
        change (count_rows k i (?e1 :: ?l)) with (count_rows k i ([e1] ++ l)).
        rewrite !count_rows_app, !count_rows_single, Htl.
        rows_crush. }
    assert (count_rows Priority.Complete i (step_events s next p)
            = if decide (next = i /\ remaining_time p - 1 = 0) then 1 else 0)
      as HnC by (rewrite Hnew; clear; rows_crush).
    assert (count_rows Priority.Start i (step_events s next p)
            = if decide (next = i /\ Priority.is_running s <> Some next)
              then 1 else 0)
      as HnS by (rewrite Hnew; clear; rows_crush).
    assert (count_rows Priority.Preempt i (step_events s next p)
            = if decide (Priority.is_running s = Some i /\ i <> next)
              then 1 else 0)
      as HnP by (rewrite Hnew; clear; rows_crush).
    rewrite HnC, HnS, HnP. clear Hnew HnC HnS HnP.
    destruct (decide (i = next)) as [->|Hi].
    + rewrite list_lookup_alter_eq, Hp in Hq. injection Hq as <-.
      destruct (Hrows next p Hp) as [HC HS]. rewrite HC, HS, Hr'. clear HC HS.
      destruct (Z.eqb_spec (remaining_time p) 0) as [|_]; [lia|].
      destruct (Z.eqb_spec (remaining_time p - 1) 0) as [E|E];
        destruct (decide (Priority.is_running s = Some next)) as [HR|HR];
        clear -Hrem E HR; split; rows_crush.
    + rewrite list_lookup_alter_ne in Hq by done.
      destruct (Hrows i q Hq) as [HC HS]. rewrite HC, HS. clear HC HS.
      assert (Priority.is_running s = Some i -> 0 < remaining_time q) as Hrun.
      { intros HR. destruct (log_running s Hlog i HR) as (pr & Hpr & Hrrem & _).
        rewrite Hq in Hpr. by injection Hpr as <-. }
      destruct (Z.eqb_spec (remaining_time p - 1) 0) as [E|E];
        destruct (decide (Priority.is_running s = Some i)) as [HR|HR];
        [pose proof (Hrun HR) as Hq0|pose proof I as Hq0|
         pose proof (Hrun HR) as Hq0|pose proof I as Hq0];
        clear -Hrem E HR Hi Hq0; split; rows_crush.
  - unfold Priority.step in Hstep. rewrite Hsel in Hstep.
    injection Hstep as <-. exact Hrows.
Qed.

Lemma priority_reachable_rows_inv (proc : list Process) (s : Priority.State) :
  valid_registry proc -> priority_reachable proc s -> priority_rows_inv s.
Proof.
  intros Hv Hreach. induction Hreach as [temp0 Hc|s s' Hreach IH _ Hstep].
  - apply copy_in_Returned in Hc as [-> _]. intros i p Hp. simpl.
    destruct Hv as [_ Hjobs].
    pose proof (Forall_lookup_1 _ _ _ _ Hjobs Hp) as [[_ Hb] [Hr _]].
    destruct (Z.eqb_spec (remaining_time p) 0); [lia|].
    split; [done|]. case_decide as Hd; [|done].
    destruct Hd as [Hd|Hd]; [done|lia].
  - apply (priority_step_rows_inv s s'); try done.
    + by eapply priority_reachable_inv.
    + by eapply priority_reachable_log_inv.
Qed.

(** X6: the event log of a run of the preemptive scheduler that returns
    on a valid registry that fits the [int] clock.  Every row names a slot
    of the registry and a time between 0 and the total time, which is an
    [int]; the rows are in order of time; every job has exactly one
    Complete row and one Start row more than it has Preempt rows; in all
    there are as many Start rows as context switches; and no job is left
    running. *)
Theorem X6_priority_event_log (proc : list Process) (fuel : nat)
    (s : Priority.State) :
  valid_registry proc -> fits_int proc ->
  Priority.run fuel proc = Returned s ->
  Priority.current_time s <= INT_MAX /\
  Forall (fun e => (Priority.ev_pid e < length proc)%nat /\
                   0 <= Priority.ev_time e <= Priority.current_time s)
    (Priority.events s) /\
  (forall i j e1 e2,
     Priority.events s !! i = Some e1 -> Priority.events s !! j = Some e2 ->
     (i <= j)%nat -> Priority.ev_time e1 <= Priority.ev_time e2) /\
  (forall i, (i < length proc)%nat ->
     count_rows Priority.Complete i (Priority.events s) = 1 /\
     count_rows Priority.Start i (Priority.events s)
     = count_rows Priority.Preempt i (Priority.events s) + 1) /\
  count_events Priority.Complete (Priority.events s) = Z.of_nat (length proc) /\
  count_events Priority.Start (Priority.events s) = Priority.context_switches s /\
  Priority.is_running s = None.
Proof.
  intros Hv Hfit Hrun.
  assert (Priority.current_time s <= INT_MAX) as Hint.
  { pose proof (run_total_bound proc fuel (Priority.temp s)
                  (set_context_switches (Priority.context_switches s)
                     (calculate_metrics (Priority.temp s)
                        (Priority.current_time s))) Hv) as Hb.
    simpl in Hb. unfold fits_int in Hfit.
    enough (0 <= Priority.current_time s
            <= last_arrival proc + sum_of burst_time proc) by lia.
    apply Hb. left. unfold priority_scheduling. by rewrite Hrun. }
  apply priority_run_reachable in Hrun as [Hreach Hexit].
  pose proof (priority_reachable_run_inv proc s Hv Hreach) as Hinv.
  destruct (run_inv_all_completed _ _ _ _ Hinv Hexit) as [Hc Hall].
  pose proof (run_length _ _ Hinv) as Hlen. simpl in Hlen.
  pose proof (priority_reachable_log_inv proc s Hv Hreach)
    as [HS _ HC _ Hrunning Hrows Hsorted].
  pose proof (priority_reachable_rows_inv proc s Hv Hreach) as Hper.
  rewrite Hlen in Hrows. rewrite Hc in HC.
  split; [done|]. split; [done|]. split; [done|]. split.
  { intros i Hi. rewrite <- Hlen in Hi.
    apply lookup_lt_is_Some in Hi as [p Hp].
    pose proof (Forall_lookup_1 _ _ _ _ Hall Hp) as [Hz _].
    destruct (Hper i p Hp) as [H1 H2]. rewrite H1, H2, Hz. split; [done|].
    by rewrite decide_True by (by right). }
  repeat split; try done.
  destruct (Priority.is_running s) as [r|] eqn:HR; [|done].
  destruct (Hrunning r eq_refl) as (p & Hp & Hrem & _).
  pose proof (Forall_lookup_1 _ _ _ _ Hall Hp) as [Hz _]. lia.
Qed.

Lemma X6_priority_event_log_witness :
  valid_registry example_registry /\ fits_int example_registry /\
  exists s : Priority.State,
    Priority.run 10 example_registry = Returned s /\
    count_rows Priority.Complete 0 (Priority.events s) = 1 /\
    count_rows Priority.Start 0 (Priority.events s)
    = count_rows Priority.Preempt 0 (Priority.events s) + 1.
Proof.
  assert (valid_registry example_registry) as Hv.
  { split; [vm_compute; lia|]. repeat constructor; simpl; lia. }
  assert (fits_int example_registry) as Hfit by (by vm_compute).
  split; [exact Hv|]. split; [exact Hfit|].
  assert (exists s, Priority.run 10 example_registry = Returned s)
    as [s Hs] by (vm_compute; eauto).
  exists s. split; [exact Hs|].
  apply (X6_priority_event_log example_registry 10 s Hv Hfit Hs).
  vm_compute. lia.
Defined.

(** ** The timing fields of completed jobs *)

(** C1: on a registry of at most 20 fresh jobs with [arrival_time >= 0] and
    [burst_time > 0] that fits the [int] clock (the latest arrival plus the
    sum of the burst times is at most [INT_MAX]), whichever of the four
    schedulers returns, the total time is an [int] and every completed job
    of the list it returns has
    [turnaround_time = completion_time - arrival_time],
    [waiting_time = turnaround_time - burst_time], [waiting_time >= 0] and
    [turnaround_time >= burst_time], with a completion time no later than
    the total time. *)
Theorem C1_timing_invariants (proc : list Process) (fuel : nat)
    (out : list Process) (m : Metrics) :
  valid_registry proc -> fits_int proc ->
  priority_scheduling fuel proc = Returned (out, m) \/
  fcfs_scheduling proc = Returned (out, m) \/
  sjf_scheduling fuel proc = Returned (out, m) \/
  round_robin_scheduling fuel proc = Returned (out, m) ->
  total_time m <= INT_MAX /\
  Forall (fun p => completed_job p ->
                   timing_consistent p /\ completion_time p <= total_time m)
    out.
Proof.
  intros Hv Hfit H.
  pose proof (run_total_bound proc fuel out m Hv H) as [_ Hbound].
  split; [unfold fits_int in Hfit; lia|].
  assert (Forall (job_ok (total_time m)) out) as Hok.
  { destruct H as [H|[H|[H|H]]].
    - by eapply priority_scheduling_job_ok.
    - by eapply fcfs_scheduling_job_ok.
    - by eapply sjf_scheduling_job_ok.
    - by eapply round_robin_scheduling_job_ok. }
  eapply Forall_impl; [exact Hok|]. intros p Hp Hc.
  split; [by apply (job_ok_completed (total_time m))|].
  by destruct Hp as (_ & _ & _ & _ & Hle & _).
Qed.

Lemma C1_timing_invariants_witness :
  valid_registry init_normal_scenario /\ fits_int init_normal_scenario /\
  (priority_scheduling 100 init_normal_scenario = Returned normal_after_priority /\
   Forall (fun p => completed_job p -> timing_consistent p)
     (fst normal_after_priority)) /\
  (fcfs_scheduling init_normal_scenario = Returned normal_after_fcfs /\
   Forall (fun p => completed_job p -> timing_consistent p)
     (fst normal_after_fcfs)) /\
  (sjf_scheduling 100 init_normal_scenario = Returned normal_after_sjf /\
   Forall (fun p => completed_job p -> timing_consistent p)
     (fst normal_after_sjf)) /\
  (round_robin_scheduling 100 init_normal_scenario = Returned normal_after_rr /\
   Forall (fun p => completed_job p -> timing_consistent p)
     (fst normal_after_rr)).
Proof.
  assert (valid_registry init_normal_scenario) as Hv.
  { split; [vm_compute; lia|]. repeat constructor; simpl; lia. }
  assert (fits_int init_normal_scenario) as Hfit by (by vm_compute).
  split; [exact Hv|]. split; [exact Hfit|].
  split; [|split; [|split]]; (split; [by vm_compute|]).
  - eapply Forall_impl.
    + apply (C1_timing_invariants init_normal_scenario 100 _
               (snd normal_after_priority) Hv Hfit).
      left. by vm_compute.
    + intros p Hp Hc. apply (Hp Hc).
  - eapply Forall_impl.
    + apply (C1_timing_invariants init_normal_scenario 100 _
               (snd normal_after_fcfs) Hv Hfit).
      right; left. by vm_compute.
    + intros p Hp Hc. apply (Hp Hc).
  - eapply Forall_impl.
    + apply (C1_timing_invariants init_normal_scenario 100 _
               (snd normal_after_sjf) Hv Hfit).
      right; right; left. by vm_compute.
    + intros p Hp Hc. apply (Hp Hc).
  - eapply Forall_impl.
    + apply (C1_timing_invariants init_normal_scenario 100 _
               (snd normal_after_rr) Hv Hfit).
      right; right; right. by vm_compute.
    + intros p Hp Hc. apply (Hp Hc).
Defined.

(** ** Shortest job first: what is dispatched *)

(** C9: take any state in which a shortest-job-first run tests its loop
    condition, on a valid registry that fits the [int] clock, and suppose
    the scan dispatches slot [next].  That job has arrived and is not
    completed (it has service left and its flag [is_completed] is clear);
    its burst time is the smallest among the arrived jobs that are not
    completed, and no such job of the same burst time has a lower index.
    The same iteration runs it to completion: its start time is the
    current time, its completion time is the current time plus its burst
    time, an [int], its remaining time is 0, its flag is set, the clock
    has advanced by the full burst time and no other slot has changed. *)
Theorem C9_sjf_dispatch (proc : list Process) (s : SJF.State) (next : nat) :
  valid_registry proc -> fits_int proc ->
  SJF.reachable proc s ->
  SJF.select s = Some next ->
  exists p : Process,
    SJF.temp s !! next = Some p /\
    arrival_time p <= SJF.current_time s /\
    0 < remaining_time p /\ SJF.is_completed s !!! next = false /\
    (forall (j : nat) (q : Process),
        SJF.temp s !! j = Some q ->
        arrival_time q <= SJF.current_time s ->
        0 < remaining_time q ->
        burst_time p <= burst_time q /\
        (burst_time q = burst_time p -> (next <= j)%nat)) /\
    let t := SJF.current_time s in
    let s' := SJF.step s in
    0 <= t /\ t + burst_time p <= INT_MAX /\
    SJF.current_time s' = t + burst_time p /\
    SJF.completed s' = S (SJF.completed s) /\
    (exists p', SJF.temp s' !! next = Some p' /\
                descriptor p' = descriptor p /\
                start_time p' = t /\
                completion_time p' = t + burst_time p /\
                remaining_time p' = 0) /\
    SJF.is_completed s' !!! next = true /\
    (forall j : nat, j <> next -> SJF.temp s' !! j = SJF.temp s !! j).
Proof.
  intros Hv Hfit Hreach Hsel.
  pose proof (sjf_reachable_inv proc s Hv Hreach) as [Hlen Hfl Hjobs Hflags].
  destruct (sjf_select_spec s next Hsel)
    as (p & Hp & [Harr Hflag] & Hshort & Hmin).
  assert (forall j q, SJF.temp s !! j = Some q ->
            (SJF.is_completed s !!! j = false <-> 0 < remaining_time q))
    as Hleft.
  { intros j q Hq. pose proof (Hflags j q Hq) as Hjq.
    pose proof (Forall_lookup_1 _ _ _ _ Hjobs Hq) as (_ & Hr & _).
    destruct (SJF.is_completed s !!! j).
    - split; [done|]. intros ?. assert (remaining_time q = 0) by tauto. lia.
    - split; [|done]. intros _.
      destruct (decide (remaining_time q = 0)) as [E|E]; [|lia].
      apply Hjq in E. done. }
  assert (0 < remaining_time p) as Hrem by (by apply (Hleft next p Hp)).
  assert (0 <= SJF.current_time s /\
          SJF.current_time s + burst_time p <= INT_MAX) as [Ht0 Hint].
  { pose proof (Forall_lookup_1 _ _ _ _ Hjobs Hp) as Hpok.
    split; [destruct Hpok as [[Ha _] _]; lia|].
    destruct (sjf_reachable_run_inv proc s Hv Hreach) as [Hinv Hun].
    pose proof (run_timeline _ _ Hinv) as Htl. simpl in Htl.
    pose proof (Forall_lookup_1 _ _ _ _ Hun Hp Hrem) as Hs.
    pose proof (Forall_lookup_1 _ _ _ _ Htl Hp) as [Hfresh _].
    destruct (Hfresh Hs) as [Hr _].
    pose proof (sjf_reachable_clock proc s Hv Hreach) as Hclock.
    pose proof (service_given_room _ _ next p Hjobs Hp) as Hroom.
    rewrite (sum_of_burst_descriptor _ _ (sjf_reachable_descriptor proc s Hreach))
      in Hroom.
    unfold fits_int in Hfit.
    assert (SJF.current_time s
            <= last_arrival proc + service_given (SJF.temp s)); [|lia].
    apply Hclock. by exists next, p. }
  exists p. split; [done|]. split; [done|].
  split; [done|]. split; [done|]. split.
  { intros j q Hq Hqa Hqr. apply (Hmin j q Hq). split; [done|].
    by apply (Hleft j q Hq). }
  rewrite (sjf_step_dispatch s next p Hsel Hp). simpl.
  split; [done|]. split; [done|].
  split; [done|]. split; [done|]. split; [|split].
  - exists (SJF.run_to_completion (SJF.current_time s) p).
    rewrite list_lookup_alter_eq, Hp. by repeat split.
  - apply list_lookup_total_insert_eq. apply lookup_lt_Some in Hp. lia.
  - intros j Hj. by rewrite list_lookup_alter_ne.
Qed.

Lemma C9_sjf_dispatch_witness :
  valid_registry init_normal_scenario /\ fits_int init_normal_scenario /\
  SJF.reachable init_normal_scenario sjf_example_state /\
  SJF.current_time sjf_example_state = 22 /\
  map (fun p => (arrival_time p, burst_time p, remaining_time p))
    (SJF.temp sjf_example_state)
  = [(0, 20, 0); (3, 4, 4); (6, 8, 8); (10, 4, 4); (12, 2, 0); (15, 7, 7);
     (18, 6, 6); (22, 4, 4)] /\
  SJF.select sjf_example_state = Some 1%nat /\
  SJF.current_time (SJF.step sjf_example_state) = 26.
Proof.
  assert (valid_registry init_normal_scenario) as Hv.
  { split; [vm_compute; lia|]. repeat constructor; simpl; lia. }
  assert (fits_int init_normal_scenario) as Hfit by (by vm_compute).
  assert (SJF.reachable init_normal_scenario sjf_example_state) as Hreach.
  { assert (sjf_example_state
            = SJF.step (SJF.step (SJF.init init_normal_scenario))) as ->
      by (vm_compute; reflexivity).
    apply SJF.reach_step; [apply SJF.reach_step|].
    - apply SJF.reach_init. reflexivity.
    - vm_compute. lia.
    - vm_compute. lia. }
  assert (SJF.select sjf_example_state = Some 1%nat) as Hsel by reflexivity.
  split; [exact Hv|]. split; [exact Hfit|]. split; [exact Hreach|].
  split; [reflexivity|]. split; [reflexivity|]. split; [exact Hsel|].
  destruct (C9_sjf_dispatch _ _ _ Hv Hfit Hreach Hsel)
    as (p & Hp & _ & _ & _ & _ & _ & _ & Ht & _).
  rewrite Ht. injection Hp as <-. reflexivity.
Defined.

(** ** Round robin: what one service does to the ready queue *)

(** C8: take any state in which a round robin run tests its loop
    condition, on a valid registry that fits the [int] clock, with a
    non-empty ready queue [idx :: rest], and let the iteration go through.
    The job [idx] has run for [e = min(remaining_time, TIME_QUANTUM)] units
    and the clock has advanced by [e], to a value that is an [int].  The
    ready queue is then [rest], followed by the jobs that arrived during
    these [e] units in index order, followed by [idx] when its remaining
    time is still positive; [idx] is in the new queue exactly in that case.
    When its remaining time has reached 0 its completion time is the new
    clock value and its turnaround and waiting times are computed from
    it. *)
Theorem C8_round_robin_requeue (proc : list Process) (s s' : RR.State) :
  valid_registry proc -> fits_int proc ->
  RR.reachable proc s ->
  RR.front s <> RR.rear s ->
  RR.step s = Returned s' ->
  exists (idx : nat) (p p' : Process) (rest : list nat),
    RR.pending s = idx :: rest /\
    RR.temp s !! idx = Some p /\
    RR.temp s' !! idx = Some p' /\
    let t := RR.current_time s in
    let e := Z.min (remaining_time p) TIME_QUANTUM in
    0 <= t /\ t + e <= INT_MAX /\
    RR.current_time s' = t + e /\
    remaining_time p' = remaining_time p - e /\
    RR.pending s' =
      rest ++ arrivals_within t (t + e) (RR.temp s)
           ++ (if 0 <? remaining_time p' then [idx] else []) /\
    (idx ∈ RR.pending s' <-> 0 < remaining_time p') /\
    (remaining_time p' = 0 ->
       completion_time p' = t + e /\
       turnaround_time p' = t + e - arrival_time p /\
       waiting_time p' = turnaround_time p' - burst_time p).
Proof.
  intros Hv Hfit Hreach Hfr Hstep.
  pose proof (rr_reachable_inv proc s Hv Hreach) as Hinv.
  pose proof Hstep as Hserve.
  unfold RR.step in Hserve. rewrite decide_False in Hserve by done.
  destruct (rr_serve_spec s s' Hinv Hfr Hserve)
    as (idx & p & rest & Hhead & Hp & Harr & Hrem & Hs).
  cbv zeta in Hs. rewrite !quantum_min in Hs.
  set (t := RR.current_time s) in *.
  set (e := Z.min (remaining_time p) TIME_QUANTUM) in *.
  set (F := fun q : Process => _) in Hs.
  destruct Hs as (Htemp & Ht & _ & _ & Hpend & Hinv').
  assert (0 < e <= remaining_time p) as He by (subst e; unfold TIME_QUANTUM; lia).
  assert (0 <= t /\ t + e <= INT_MAX) as [Ht0 Hint].
  { pose proof (Forall_lookup_1 _ _ _ _ (inv_jobs s Hinv) Hp) as [[Ha _] _].
    split; [subst t; lia|]. rewrite <- Ht.
    pose proof (rr_reachable_run_inv proc s Hv Hreach) as [Hok _ _ Hcount Hlen].
    simpl in Hok, Hcount, Hlen.
    assert (proc <> []) as Hne.
    { intros ->. apply lookup_lt_Some in Hp. simpl in Hlen. lia. }
    assert (RR.completed s < length proc)%nat as Hlt.
    { pose proof (sum_of_le_at (fun _ => 0)
                    (fun q => if 0 <? remaining_time q then 1 else 0)
                    (RR.temp s) idx p) as Hsum.
      assert (sum_of (fun _ => 0) (RR.temp s) = 0) as Hz
        by (unfold sum_of; clear; induction (RR.temp s); simpl; lia).
      rewrite Hz in Hsum. simpl in Hsum.
      destruct (Z.ltb_spec 0 (remaining_time p)); [|lia].
      unfold unfinished in Hcount.
      enough (0 + (1 - 0)
              <= sum_of (fun q => if 0 <? remaining_time q then 1 else 0)
                   (RR.temp s)) by lia.
      apply Hsum; [|done]. apply Forall_forall. intros q _.
      destruct (0 <? remaining_time q); lia. }
    pose proof (rr_reachable_clock proc s' Hv Hne
                  (RR.reach_step proc s s' Hreach Hlt Hstep)) as Hclock.
    unfold fits_int in Hfit. lia. }
  assert (RR.temp s' !! idx = Some (F p)) as Hp'
    by (by rewrite Htemp, list_lookup_alter_eq, Hp).
  assert (remaining_time (F p) = remaining_time p - e /\
          arrival_time (F p) = arrival_time p /\
          burst_time (F p) = burst_time p) as (HrF & HaF & HbF).
  { subst F. simpl.
    destruct (remaining_time p - e =? 0), (start_time p =? -1); done. }
  exists idx, p, (F p), rest.
  split; [done|]. split; [done|]. split; [done|]. cbv zeta. fold t e.
  split; [done|]. split; [done|].
  split; [done|]. split; [done|]. rewrite HrF.
  assert ((if 0 <? remaining_time p - e then [idx] else [])
          = (if remaining_time p - e =? 0 then [] else [idx])) as ->.
  { destruct (Z.ltb_spec 0 (remaining_time p - e)),
      (Z.eqb_spec (remaining_time p - e) 0); try done; lia. }
  split; [done|]. split.
  - rewrite <- (inv_in_queue s' Hinv' idx)
      by (apply lookup_lt_Some in Hp'; done).
    rewrite (inv_ready s' Hinv' idx (F p) Hp'), Ht, HaF, HrF. split; [tauto|].
    intros ?. split; [lia|done].
  - intros E. subst F. cbv beta zeta. apply Z.eqb_eq in E. rewrite E.
    by destruct (start_time p =? -1).
Qed.

Lemma C8_round_robin_requeue_witness :
  valid_registry example_registry /\ fits_int example_registry /\
  RR.reachable example_registry rr_example_start /\
  RR.step rr_example_start = Returned rr_example_next /\
  RR.pending rr_example_start = [0%nat] /\
  RR.current_time rr_example_next = 4 /\
  RR.pending rr_example_next = [1%nat; 2%nat; 0%nat].
Proof.
  assert (valid_registry example_registry) as Hv.
  { split; [vm_compute; lia|]. repeat constructor; simpl; lia. }
  assert (fits_int example_registry) as Hfit by (by vm_compute).
  assert (RR.reachable example_registry rr_example_start) as Hreach
    by (by apply RR.reach_start).
  assert (RR.step rr_example_start = Returned rr_example_next) as Hstep
    by reflexivity.
  split; [exact Hv|]. split; [exact Hfit|]. split; [exact Hreach|].
  split; [exact Hstep|]. split; [reflexivity|].
  destruct (C8_round_robin_requeue example_registry rr_example_start
              rr_example_next Hv Hfit Hreach) as
    (idx & p & p' & rest & Hhead & Hp & Hp' & _ & _ & Ht & Hr & Hpend & _);
    [by vm_compute|exact Hstep|].
  injection Hhead as <- <-. injection Hp as <-. injection Hp' as <-.
  split; [exact Ht|exact Hpend].
Defined.

(** ** The emergency extrema of a run *)

(** C4, amended: in the metrics of the list that a scheduler returns for a
    valid registry that fits the [int] clock, [emergency_response_max] is
    the largest response time among the completed jobs of priority 1 when
    that maximum is at most 2^24, the range in which the [float] field
    holds every integer; [emergency_response_min] is the smallest one when
    that minimum is below 999; and both are 0 when there is no such
    job. *)
Theorem C4_emergency_extrema (proc : list Process) (fuel : nat)
    (out : list Process) (m : Metrics) :
  valid_registry proc -> fits_int proc ->
  priority_scheduling fuel proc = Returned (out, m) \/
  fcfs_scheduling proc = Returned (out, m) \/
  sjf_scheduling fuel proc = Returned (out, m) \/
  round_robin_scheduling fuel proc = Returned (out, m) ->
  let E := emergency_responses out in
  Forall (fun x => 0 <= x <= INT_MAX) E /\
  (E = [] -> emergency_response_min m = 0 /\ emergency_response_max m = 0) /\
  (forall x : Z, maximum_of x E -> x <= FLOAT_EXACT ->
     emergency_response_max m = x) /\
  (forall x : Z, minimum_of x E -> x < 999 -> emergency_response_min m = x).
Proof.
  intros Hv Hfit Hrun E.
  pose proof (run_total_bound proc fuel out m Hv Hrun) as [_ Hbound].
  pose proof (scheduling_run_inv proc fuel out m Hv Hrun) as [Hok Htl _ _ _].
  simpl in Hok, Htl.
  pose proof (emergency_responses_nonneg _ _ Hok) as Hnonneg. fold E in Hnonneg.
  assert (Forall (fun x => 0 <= x <= INT_MAX) E) as Hrange.
  { subst E. unfold emergency_responses.
    apply Forall_forall. intros x Hx.
    apply list_elem_of_fmap in Hx as (p & -> & Hin).
    apply list_elem_of_filter in Hin as [Hc Hin].
    apply andb_prop in Hc as [Hc _]. unfold counted in Hc. apply Z.ltb_lt in Hc.
    apply list_elem_of_lookup in Hin as [i Hp].
    pose proof (Forall_lookup_1 _ _ _ _ Hok Hp) as Hpok.
    pose proof (Forall_lookup_1 _ _ _ _ Htl Hp) as Hptl.
    unfold fits_int in Hfit.
    assert (0 <= response_time p <= total_time m); [|lia].
    revert Hpok Hptl Hc. timeline_crush. }
  destruct (scheduling_metrics proc fuel out m Hrun) as [cs ->]. simpl.
  destruct (metrics_emergency_extrema out
              (total_time (set_context_switches cs
                 (calculate_metrics out (total_time m)))))
    as (Hnone & Hmin & Hmax).
  split; [exact Hrange|]. split; [exact Hnone|]. split; [|exact Hmin].
  intros x Hx _. apply Hmax; [done|].
  destruct Hx as [Hin _]. rewrite Forall_forall in Hnonneg. by apply Hnonneg.
Qed.

Lemma C4_emergency_extrema_witness :
  valid_registry init_emergency_scenario /\
  fits_int init_emergency_scenario /\
  fcfs_scheduling init_emergency_scenario = Returned emergency_after_fcfs /\
  minimum_of 25 (emergency_responses (fst emergency_after_fcfs)) /\
  maximum_of 30 (emergency_responses (fst emergency_after_fcfs)) /\
  emergency_response_min (snd emergency_after_fcfs) = 25 /\
  emergency_response_max (snd emergency_after_fcfs) = 30.
Proof.
  assert (valid_registry init_emergency_scenario) as Hv.
  { split; [vm_compute; lia|]. repeat constructor; simpl; lia. }
  assert (fits_int init_emergency_scenario) as Hfit by (by vm_compute).
  assert (fcfs_scheduling init_emergency_scenario
          = Returned (fst emergency_after_fcfs, snd emergency_after_fcfs))
    as Hrun by (by vm_compute).
  assert (emergency_responses (fst emergency_after_fcfs)
          = [25; 26; 27; 28; 29; 30]) as HE by (by vm_compute).
  assert (minimum_of 25 (emergency_responses (fst emergency_after_fcfs)))
    as Hmin.
  { rewrite HE. split; [apply elem_of_cons; by left|].
    repeat (constructor; [lia|]). constructor. }
  assert (maximum_of 30 (emergency_responses (fst emergency_after_fcfs)))
    as Hmax.
  { rewrite HE. split.
    - do 5 (apply elem_of_cons; right). apply elem_of_cons; by left.
    - repeat (constructor; [lia|]). constructor. }
  destruct (C4_emergency_extrema init_emergency_scenario 0
              (fst emergency_after_fcfs) (snd emergency_after_fcfs) Hv Hfit)
    as (_ & _ & Hhi & Hlo); [by right; left|].
  split; [exact Hv|]. split; [exact Hfit|]. split; [by vm_compute|].
  split; [exact Hmin|]. split; [exact Hmax|]. split.
  - apply Hlo; [exact Hmin|lia].
  - apply Hhi; [exact Hmax|by vm_compute].
Defined.

(** ** Zero-valued metrics *)

(** C7 as stated fails in its general half: the averages are guarded by
    the number of completed jobs alone.  Called with total time 0 on a
    list with completed jobs (here the normal scenario after first come,
    first served), [calculate_metrics] reports utilisation and throughput
    0, but averages that are not 0.  A run gets there when burst times
    cancel: on [zero_time_registry] first come, first served returns total
    time 0 with one completed job, whose turnaround time 5 is the average
    turnaround time. *)
Lemma C7_counterexample :
  (let m := calculate_metrics (fst normal_after_fcfs) 0 in
   total_time m = 0 /\ count_completed (fst normal_after_fcfs) = 8%nat /\
   (0 < avg_response_time m)%Q /\ (0 < avg_turnaround_time m)%Q /\
   (0 < avg_waiting_time m)%Q /\
   (cpu_utilization m == 0)%Q /\ (throughput m == 0)%Q) /\
  (exists (out : list Process) (m : Metrics),
      fcfs_scheduling zero_time_registry = Returned (out, m) /\
      total_time m = 0 /\ count_completed out = 1%nat /\
      (avg_turnaround_time m == 5)%Q /\
      (cpu_utilization m == 0)%Q /\ (throughput m == 0)%Q).
Proof.
  split.
  - by vm_compute.
  - do 2 eexists. split; [vm_compute; reflexivity|]. by vm_compute.
Qed.

(** C7, amended: on the empty registry each of the four schedulers returns
    at once, whatever the fuel, with the empty list and a metrics record
    whose fields are all 0.  In [calculate_metrics] the two divisions are
    guarded separately.  When no job is completed the three averages are
    0, and so are the utilisation, the throughput and both emergency
    extrema.  When the total time is 0 or less the utilisation and the
    throughput are 0; the averages are not touched by that guard. *)
Theorem C7_zero_metrics :
  (forall fuel : nat,
      priority_scheduling fuel [] = Returned ([], zero_metrics) /\
      fcfs_scheduling [] = Returned ([], zero_metrics) /\
      sjf_scheduling fuel [] = Returned ([], zero_metrics) /\
      round_robin_scheduling fuel [] = Returned ([], zero_metrics)) /\
  (forall (proc : list Process) (total : Z),
      let m := calculate_metrics proc total in
      (count_completed proc = 0%nat ->
         avg_response_time m = 0%Q /\ avg_turnaround_time m = 0%Q /\
         avg_waiting_time m = 0%Q /\
         (cpu_utilization m == 0)%Q /\ (throughput m == 0)%Q /\
         emergency_response_min m = 0 /\ emergency_response_max m = 0) /\
      (total <= 0 ->
         cpu_utilization m = 0%Q /\ throughput m = 0%Q /\
         forall total' : Z,
           avg_response_time m
             = avg_response_time (calculate_metrics proc total') /\
           avg_turnaround_time m
             = avg_turnaround_time (calculate_metrics proc total') /\
           avg_waiting_time m
             = avg_waiting_time (calculate_metrics proc total'))).
Proof.
  split.
  - apply empty_registry_run.
  - intros proc total m. split.
    + intros H. by apply metrics_none_completed.
    + intros H. destruct (metrics_zero_time proc total H) as [H1 H2].
      split; [done|]. split; [done|]. by intros total'.
Qed.

Lemma C7_zero_metrics_witness :
  count_completed init_emergency_scenario = 0%nat /\
  avg_waiting_time (calculate_metrics init_emergency_scenario 5) = 0%Q /\
  (cpu_utilization (calculate_metrics init_emergency_scenario 5) == 0)%Q /\
  throughput (calculate_metrics (fst normal_after_fcfs) 0) = 0%Q /\
  round_robin_scheduling 0 [] = Returned ([], zero_metrics).
Proof.
  destruct C7_zero_metrics as (Hempty & Hcalc).
  assert (count_completed init_emergency_scenario = 0%nat) as Hnone
    by reflexivity.
  destruct (proj1 (Hcalc init_emergency_scenario 5) Hnone)
    as (_ & _ & Hw & Hu & _).
  destruct (proj2 (Hcalc (fst normal_after_fcfs) 0) (Z.le_refl 0))
    as (_ & Ht & _).
  split; [exact Hnone|]. split; [exact Hw|]. split; [exact Hu|].
  split; [exact Ht|]. apply (Hempty 0%nat).
Defined.
